(** * devalue: the streaming codec (async.js)

    A shallow embedding of the two framing variants of the streaming
    encoder/decoder:

    - the JSON-array variant ([stringifyAsync] / [parseAsync]), and
    - the delimited variant ([stringifyAsyncIterable] /
      [parseAsyncIterable]).

    Asynchronous control flow is made explicit: a generator is a record of
    where it is suspended, a readable stream is its queue, and every
    suspension point of the source is an event of a step function. *)

From Stdlib Require Import Ascii String ZArith NArith List Lia Bool.
From Stdlib Require Import DecimalString DecimalN.
From stdpp Require Import base option list gmap fin_maps.
Import ListNotations.

Set Warnings "-register-all".

Local Open Scope string_scope.
Local Open Scope list_scope.
Local Open Scope Z_scope.

(** ** Outcomes of fallible code

    A JavaScript call either returns or throws. *)

Inductive result (E A : Type) : Type :=
| Return (a : A)
| Throw (e : E).
Arguments Return {E A} a.
Arguments Throw {E A} e.

(** ** JavaScript string primitives used by the pump *)

Module JsString.

(** Strings are sequences of code units; [length] counts them. *)
Definition len (s : string) : Z := Z.of_nat (String.length s).

(** [s.indexOf(c)] for a one-character pattern: position of the first
    occurrence, or -1. *)
Fixpoint indexOf (s : string) (c : ascii) : Z :=
  match s with
  | EmptyString => -1
  | String a rest =>
      if Ascii.eqb a c then 0
      else let i := indexOf rest c in
           if i <? 0 then -1 else i + 1
  end.

(** Relative index resolution shared by [slice]'s two arguments. *)
Definition clampIndex (n i : Z) : Z :=
  if i <? 0 then Z.max (n + i) 0 else Z.min i n.

Fixpoint drop (k : nat) (s : string) : string :=
  match k, s with
  | O, _ => s
  | S k', String _ rest => drop k' rest
  | S _, EmptyString => EmptyString
  end.

Fixpoint take (k : nat) (s : string) : string :=
  match k, s with
  | O, _ => EmptyString
  | S k', String a rest => String a (take k' rest)
  | S _, EmptyString => EmptyString
  end.

(** [s.slice(b, e)]. *)
Definition slice (s : string) (b e : Z) : string :=
  let n := len s in
  let from := clampIndex n b in
  let to := clampIndex n e in
  take (Z.to_nat (to - from)) (drop (Z.to_nat from) s).

(** [s.slice(b)]. *)
Definition sliceFrom (s : string) (b : Z) : string :=
  slice s b (len s).

Definition isDigit (a : ascii) : bool :=
  let n := N_of_ascii a in (48 <=? n)%N && (n <=? 57)%N.

Fixpoint allDigits (s : string) : bool :=
  match s with
  | EmptyString => true
  | String a rest => isDigit a && allDigits rest
  end.

(** The test [/^\d+$/.test(s)]. *)
Definition isDecimal (s : string) : bool :=
  match s with
  | EmptyString => false
  | _ => allDigits s
  end.

Fixpoint parseDigits (acc : N) (s : string) : N :=
  match s with
  | EmptyString => acc
  | String a rest => parseDigits (10 * acc + (N_of_ascii a - 48))%N rest
  end.

(** [parseInt(s, 10)] on a string of decimal digits. *)
Definition parseInt (s : string) : N := parseDigits 0 s.

Fixpoint contains (c : ascii) (s : string) : bool :=
  match s with
  | EmptyString => false
  | String a rest => Ascii.eqb a c || contains c rest
  end.

End JsString.

(** ** Thrown values

    What a sink can receive in place of a frame, and what the codec may
    throw.  [MkError m] is [new Error(m)] and [MkErrorCause m c] is
    [new Error(m, { cause: c })].  [ExtError] stands for an exception raised by the synchronous
    codec or by a user hook; [ThrownValue] is a thrown value that is not an
    [Error] instance. *)

Inductive jsError : Type :=
| MkError (message : string)
| MkErrorCause (message : string) (cause : jsError)
| ExtError (tag : string)
| ThrownValue (tag : string).

(** [e instanceof Error]. *)
Definition instanceofError (e : jsError) : bool :=
  match e with
  | MkError _ => true
  | MkErrorCause _ _ => true
  | ExtError _ => true
  | ThrownValue _ => false
  end.

(** An error created by [new Error("Stream interrupted...")]. *)
Definition isStreamInterrupted (e : jsError) : bool :=
  match e with
  | MkError m => String.prefix "Stream interrupted" m
  | MkErrorCause m _ => String.prefix "Stream interrupted" m
  | _ => false
  end.

(** ** Wire status codes *)

(** The JSON-array variant. *)
Module JsonArrayStatus.
Definition PROMISE_STATUS_FULFILLED : N := 0.
Definition PROMISE_STATUS_REJECTED : N := 1.
Definition ASYNC_ITERABLE_STATUS_YIELD : N := 0.
Definition ASYNC_ITERABLE_STATUS_ERROR : N := 1.
Definition ASYNC_ITERABLE_STATUS_RETURN : N := 2.
End JsonArrayStatus.

(** The delimited variant. *)
Module DelimitedStatus.
Definition PROMISE_STATUS_FULFILLED : N := 0.
Definition PROMISE_STATUS_REJECTED : N := 1.
Definition ASYNC_ITERABLE_STATUS_YIELD : N := 0.
Definition ASYNC_ITERABLE_STATUS_RETURN : N := 1.
Definition ASYNC_ITERABLE_STATUS_ERROR : N := 2.
End DelimitedStatus.

(** The five status constants of one variant, so that the code shared by
    the two variants is written once. *)
Record statusCodes : Type := {
  sc_promise_fulfilled : N;
  sc_promise_rejected : N;
  sc_iter_yield : N;
  sc_iter_return : N;
  sc_iter_error : N
}.

Definition jsonArrayCodes : statusCodes := {|
  sc_promise_fulfilled := JsonArrayStatus.PROMISE_STATUS_FULFILLED;
  sc_promise_rejected := JsonArrayStatus.PROMISE_STATUS_REJECTED;
  sc_iter_yield := JsonArrayStatus.ASYNC_ITERABLE_STATUS_YIELD;
  sc_iter_return := JsonArrayStatus.ASYNC_ITERABLE_STATUS_RETURN;
  sc_iter_error := JsonArrayStatus.ASYNC_ITERABLE_STATUS_ERROR
|}.

Definition delimitedCodes : statusCodes := {|
  sc_promise_fulfilled := DelimitedStatus.PROMISE_STATUS_FULFILLED;
  sc_promise_rejected := DelimitedStatus.PROMISE_STATUS_REJECTED;
  sc_iter_yield := DelimitedStatus.ASYNC_ITERABLE_STATUS_YIELD;
  sc_iter_return := DelimitedStatus.ASYNC_ITERABLE_STATUS_RETURN;
  sc_iter_error := DelimitedStatus.ASYNC_ITERABLE_STATUS_ERROR
|}.

(** ** Decimal rendering of numbers

    [`${idx}`] and [Array.prototype.join] render a nonnegative integer in
    decimal, without sign or leading zeros. *)

Definition decimal (n : N) : string :=
  DecimalString.NilZero.string_of_uint (N.to_uint n).

(** ** Source values

    The value trees handed to the encoder.  [Plain] is data the synchronous
    codec deals with alone (with the user's reducers); [Composite] is an
    array or object, encoded field by field; [PromiseV how v] is a promise
    that settles as [how] with [v]; [AsyncIterableV items how v ret] is an
    async iterable whose iterator produces [items] and then either
    completes with return value [v] or throws [v], and which has a
    [return] method iff [ret]. *)

Inductive settlement : Type := Fulfilled | Rejected.
Inductive completion : Type := Completes | Fails.

Inductive value : Type :=
| Plain (a : string)
| Composite (fields : list value)
| PromiseV (how : settlement) (v : value)
| AsyncIterableV (items : list value) (how : completion) (v : value)
    (ret : bool).

(** The structure of an encoded payload: what the synchronous codec wrote,
    with the ids the two built-in reducers returned in place of promises
    and async iterables. *)
Inductive flat : Type :=
| FPlain (a : string)
| FComposite (fields : list flat)
| FPromise (idx : N)
| FAsyncIterable (idx : N).

(** The two framing variants. *)
Inductive variant : Type := JsonArray | Delimited.

Definition codesOf (w : variant) : statusCodes :=
  match w with
  | JsonArray => jsonArrayCodes
  | Delimited => delimitedCodes
  end.

(** A frame [(idx, status, payload)]. *)
Record frame : Type := MkFrame {
  f_idx : N;
  f_status : N;
  f_payload : string
}.

(** ** Producers

    A registered producer is the async generator created by one of the two
    built-in reducers.  Its state is the place where its body is
    suspended. *)

(** What the body does when it is resumed after a [yield]. *)
Inductive afterYield : Type :=
| ThenEnd
    (* promise producer: the body ends *)
| ThenLoop (items : list value) (how : completion) (v : value) (ret : bool)
    (* async-iterable producer after a YIELD frame: back to
       [await iterator.next()] *)
| ThenFinally (ret : bool).
    (* async-iterable producer after its RETURN or ERROR frame: the
       [finally] block, then the body ends *)

Inductive generator : Type :=
| AwaitPromise (how : settlement) (v : value)
    (* suspended at [await v] *)
| AwaitNext (items : list value) (how : completion) (v : value) (ret : bool)
    (* suspended at [await iterator.next()] *)
| AtYield (k : afterYield)
    (* suspended at a [yield] *)
| Closed.

(** The entry's [nextPromise]. *)
Inductive nextPromise : Type :=
| Pending
| Resolved (value : option frame) (done : bool)
| RejectedWith (cause : value).

(** One element of [buffer].  [e_idx] is the [idx] captured by the
    generator's closure; [e_returnQueued] records a [return()] request
    received while the body was running, which the generator serves when
    its body next suspends or ends. *)
Record entry : Type := MkEntry {
  e_idx : N;
  e_iterator : generator;
  e_nextPromise : nextPromise;
  e_returnQueued : bool
}.

(** The encoder's variables, with two logs of the calls the statements speak
    about: [genReturns] lists the producers whose [iterator.return()] the
    encoder's [finally] called, [srcReturns] the producers whose source
    iterator had its [return] hook called. *)
Record encState : Type := MkEnc {
  counter : N;
  buffer : list entry;
  genReturns : list N;
  srcReturns : list N
}.

Definition initEnc : encState :=
  {| counter := 0%N; buffer := []; genReturns := []; srcReturns := [] |}.

(** What an iterator result carries as [value]: a chunk of text, or
    [undefined]. *)
Inductive chunk : Type :=
| ChunkStr (s : string)
| ChunkUndefined.

Definition setBuffer (st : encState) (b : list entry) : encState :=
  {| counter := counter st; buffer := b;
     genReturns := genReturns st; srcReturns := srcReturns st |}.

Definition setEntry (e : entry) (g : generator) (np : nextPromise) : entry :=
  {| e_idx := e_idx e; e_iterator := g; e_nextPromise := np;
     e_returnQueued := e_returnQueued e |}.

(** [buffer.delete(entry)], the entry being the one at position [k]. *)
Definition deleteAt (k : nat) (b : list entry) : list entry :=
  take k b ++ drop (S k) b.

(** ** The encoder ([stringifyAsync], [stringifyAsyncIterable]) *)

Section Encoder.

(** The synchronous codec and the options.  [supported a] tells whether
    [stringify] (with the user's reducers) can encode the datum [a];
    when it cannot it throws [codecError a].  [print] is the text
    [stringify] writes for an encoded structure.  [coerceError] is
    [options.coerceError]. *)
Variable supported : string -> bool.
Variable codecError : string -> value.
Variable print : flat -> string.
Variable coerceError : option (value -> value).

(** The framing variant being run. *)
Variable w : variant.

(** [registerAsyncIterable(callback)]: [callback] is given by the state
    in which the generator it creates is suspended once
    [iterator.next()] has started its body. *)
Definition registerAsyncIterable (callback : generator) (st : encState)
  : N * encState :=
  let idx := (counter st + 1)%N in
  let iterator := callback in
  let nextPromise := Pending in
  (idx,
   {| counter := idx;
      buffer := buffer st ++ [MkEntry idx iterator nextPromise false];
      genReturns := genReturns st;
      srcReturns := srcReturns st |}).

(** The fields of an array or object, encoded from left to right; an
    exception ends the walk. *)
Section FlattenAll.
Variable flattenOne : value -> encState -> encState * result value flat.

Fixpoint flattenAll (vs : list value) (st : encState)
  : encState * result value (list flat) :=
  match vs with
  | [] => (st, Return [])
  | x :: rest =>
      match flattenOne x st with
      | (st1, Return fx) =>
          match flattenAll rest st1 with
          | (st2, Return frest) => (st2, Return (fx :: frest))
          | (st2, Throw e) => (st2, Throw e)
          end
      | (st1, Throw e) => (st1, Throw e)
      end
  end.
End FlattenAll.

(** Modelled from the spec: the synchronous codec's [stringify]
    (./stringify.js is not among the sources), as far as the encoder
    depends on it: it walks the value depth-first and calls the
    [Promise] and [AsyncIterable] reducers of [recurse] on the promises
    and async iterables it meets, writing the id they return.  The two
    reducers are the code of [recurse]. *)
Fixpoint flatten (v : value) (st : encState)
  : encState * result value flat :=
  match v with
  | Plain a =>
      if supported a then (st, Return (FPlain a))
      else (st, Throw (codecError a))
  | Composite fields =>
      match flattenAll flatten fields st with
      | (st', Return fs) => (st', Return (FComposite fs))
      | (st', Throw e) => (st', Throw e)
      end
  | PromiseV how v' =>
      let (idx, st') := registerAsyncIterable (AwaitPromise how v') st in
      (st', Return (FPromise idx))
  | AsyncIterableV items how v' ret =>
      let (idx, st') :=
        registerAsyncIterable (AwaitNext items how v' ret) st in
      (st', Return (FAsyncIterable idx))
  end.

(** [recurse(v)]. *)
Definition recurse (v : value) (st : encState)
  : encState * result value string :=
  match flatten v st with
  | (st', Return f) => (st', Return (print f))
  | (st', Throw e) => (st', Throw e)
  end.

(** [safeCause(cause)]. *)
Definition safeCause (cause : value) (st : encState)
  : encState * result value string :=
  match recurse cause st with
  | (st', Return s) => (st', Return s)
  | (st', Throw err) =>
      match coerceError with
      | None => (st', Throw err)
      | Some coerce => recurse (coerce cause) st'
      end
  end.

Definition codes : statusCodes := codesOf w.

(** [await iterator.return?.()] of the async-iterable producer's
    [finally] block, for producer [idx]. *)
Definition callSourceReturn (idx : N) (ret : bool) (st : encState)
  : encState :=
  if ret then
    {| counter := counter st; buffer := buffer st;
       genReturns := genReturns st;
       srcReturns := srcReturns st ++ [idx] |}
  else st.

(** *** The bodies of the two producers

    Where a run of a producer's body stops. *)
Inductive bodyStop : Type :=
| Yields (fr : frame) (k : afterYield)
| Returns (fr : frame)
| Throws (cause : value).

(** The statement that hands over the promise producer's only frame:
    [yield] in the JSON-array variant, [return] in the delimited one. *)
Definition promiseFrame (fr : frame) : bodyStop :=
  match w with
  | JsonArray => Yields fr ThenEnd
  | Delimited => Returns fr
  end.

(** The statement that hands over the async-iterable producer's last
    frame: a [yield] inside [try]/[catch] in the JSON-array variant; a
    [return] in the delimited one, which runs the [finally] block at
    once. *)
Definition lastFrame (ret : bool) (fr : frame) (st : encState)
  : encState * bodyStop :=
  match w with
  | JsonArray => (st, Yields fr (ThenFinally ret))
  | Delimited => (callSourceReturn (f_idx fr) ret st, Returns fr)
  end.

(** The promise producer, from the moment its promise settles. *)
Definition promiseBody (idx : N) (how : settlement) (v : value)
    (st : encState) : encState * bodyStop :=
  let catch (cause : value) (st : encState) :=
    match safeCause cause st with
    | (st', Return s) =>
        (st', promiseFrame (MkFrame idx (sc_promise_rejected codes) s))
    | (st', Throw e) => (st', Throws e)
    end in
  match how with
  | Fulfilled =>
      match recurse v st with
      | (st', Return s) =>
          (st', promiseFrame (MkFrame idx (sc_promise_fulfilled codes) s))
      | (st', Throw cause) => catch cause st'
      end
  | Rejected => catch v st
  end.

(** The async-iterable producer, from the moment the pending
    [iterator.next()] of its source settles. *)
Definition iterBody (idx : N) (items : list value) (how : completion)
    (v : value) (ret : bool) (st : encState) : encState * bodyStop :=
  let catch (cause : value) (st : encState) :=
    match safeCause cause st with
    | (st', Return s) =>
        lastFrame ret (MkFrame idx (sc_iter_error codes) s) st'
    | (st', Throw e) => (callSourceReturn idx ret st', Throws e)
    end in
  match items with
  | x :: rest =>
      match recurse x st with
      | (st', Return s) =>
          (st', Yields (MkFrame idx (sc_iter_yield codes) s)
                  (ThenLoop rest how v ret))
      | (st', Throw cause) => catch cause st'
      end
  | [] =>
      match how with
      | Completes =>
          match recurse v st with
          | (st', Return s) =>
              lastFrame ret (MkFrame idx (sc_iter_return codes) s) st'
          | (st', Throw cause) => catch cause st'
          end
      | Fails => catch v st
      end
  end.

(** A producer resumed by [iterator.next()] at a [yield]. *)
Definition resumeAtYield (idx : N) (k : afterYield) (st : encState)
  : encState * generator * nextPromise :=
  match k with
  | ThenEnd => (st, Closed, Resolved None true)
  | ThenLoop items how v ret => (st, AwaitNext items how v ret, Pending)
  | ThenFinally ret =>
      (callSourceReturn idx ret st, Closed, Resolved None true)
  end.

(** A producer resumed by [iterator.return()] at a [yield]: the
    [finally] block of the async-iterable producer runs; the promise
    producer has none. *)
Definition returnAtYield (idx : N) (k : afterYield) (st : encState)
  : encState :=
  match k with
  | ThenEnd => st
  | ThenLoop _ _ _ ret => callSourceReturn idx ret st
  | ThenFinally ret => callSourceReturn idx ret st
  end.

(** [iterator.return()] on a producer.  A generator suspended at a
    [yield] runs its [finally] block and closes; one whose body is
    running (it is awaiting its source) queues the request; a closed one
    is left as it is. *)
Definition generatorReturn (e : entry) (st : encState)
  : entry * encState :=
  match e_iterator e with
  | AtYield k =>
      (setEntry e Closed (e_nextPromise e), returnAtYield (e_idx e) k st)
  | AwaitPromise _ _ | AwaitNext _ _ _ _ =>
      ({| e_idx := e_idx e; e_iterator := e_iterator e;
          e_nextPromise := e_nextPromise e; e_returnQueued := true |}, st)
  | Closed => (e, st)
  end.

(** The [finally] block of the encoder:
    [Promise.allSettled(Array.from(buffer).map(it => it.iterator.return()))]. *)
Fixpoint returnAll (es : list entry) (st : encState)
  : list entry * encState :=
  match es with
  | [] => ([], st)
  | e :: rest =>
      let (e', st1) := generatorReturn e st in
      let st2 :=
        {| counter := counter st1; buffer := buffer st1;
           genReturns := genReturns st1 ++ [e_idx e];
           srcReturns := srcReturns st1 |} in
      let (rest', st3) := returnAll rest st2 in
      (e' :: rest', st3)
  end.

Definition finallyBlock (st : encState) : encState :=
  let (es, st') := returnAll (buffer st) st in
  setBuffer st' es.

(** The event "the source of the producer at position [k] settles": the
    body runs from its [await] to its next stop, the pending
    [nextPromise] settles, and a queued [return()] is served. *)
Definition sourceSettles (k : nat) (st : encState) : option encState :=
  match buffer st !! k with
  | Some e =>
      match e_nextPromise e with
      | Pending =>
          let run :=
            match e_iterator e with
            | AwaitPromise how v => Some (promiseBody (e_idx e) how v st)
            | AwaitNext items how v ret =>
                Some (iterBody (e_idx e) items how v ret st)
            | _ => None
            end in
          match run with
          | Some (st1, Yields fr k') =>
              let st2 :=
                if e_returnQueued e then returnAtYield (e_idx e) k' st1
                else st1 in
              let g := if e_returnQueued e then Closed else AtYield k' in
              Some (setBuffer st2
                      (<[k := setEntry e g (Resolved (Some fr) false)]>
                         (buffer st2)))
          | Some (st1, Returns fr) =>
              Some (setBuffer st1
                      (<[k := setEntry e Closed (Resolved (Some fr) true)]>
                         (buffer st1)))
          | Some (st1, Throws c) =>
              Some (setBuffer st1
                      (<[k := setEntry e Closed (RejectedWith c)]>
                         (buffer st1)))
          | None => None
          end
      | _ => None
      end
  | None => None
  end.

(** *** The encoder's own generator *)

(** The text of a producer chunk. *)
Definition frameText (fr : frame) : string :=
  match w with
  | JsonArray =>
      "[" ++ decimal (f_idx fr) ++ "," ++ decimal (f_status fr) ++ ","
          ++ f_payload fr ++ "]" ++ String "010"%char ""
  | Delimited =>
      decimal (f_idx fr) ++ ":" ++ decimal (f_status fr) ++ ":"
          ++ f_payload fr
  end.

(** The text of the root chunk. *)
Definition rootText (s : string) : string :=
  match w with
  | JsonArray => s ++ String "010"%char ""
  | Delimited => s
  end.

(** Where the encoder's body is suspended.  [Racing n winner]: at
    [await Promise.race(...)] over the [n] entries that were in [buffer]
    when the race was set up; [winner] is the position of the entry whose
    [nextPromise] the race settles with, once that is decided.
    [ChunkYield k e]: at the [yield] of a producer chunk, [e] being the
    raced entry, which was at position [k] of [buffer] when the race
    settled. *)
Inductive mainState : Type :=
| Start (v : value)
| RootYield
| Racing (n : nat) (winner : option nat)
| ChunkYield (k : nat) (e : entry)
| Ended
| Threw (cause : value).

Record encoder : Type := MkEncoder {
  enc_main : mainState;
  enc_st : encState;
  enc_out : list chunk
}.

Definition startEncoder (v : value) : encoder :=
  {| enc_main := Start v; enc_st := initEnc; enc_out := [] |}.

Inductive encEvent : Type :=
| Next                (* the consumer calls [next()] *)
| ReturnEarly         (* the consumer calls [return()] *)
| Race (k : nat)      (* [Promise.race] settles with its winner, at [k] *)
| Source (k : nat).   (* the source of the entry at [k] settles *)

Definition isSettled (np : nextPromise) : bool :=
  match np with
  | Pending => false
  | _ => true
  end.

(** The position of the first entry whose [nextPromise] is settled. *)
Fixpoint firstSettled (b : list entry) : option nat :=
  match b with
  | [] => None
  | e :: rest =>
      if isSettled (e_nextPromise e) then Some 0%nat
      else match firstSettled rest with
           | Some k => Some (S k)
           | None => None
           end
  end.

(** The head of [while (buffer.size)], up to [await Promise.race(...)].
    Each raced entry gets a wrapper that awaits its [nextPromise]; the
    wrappers of the promises that are settled already resume in the order
    of [buffer], so the first of them wins; when none is settled the race
    is won by the first of these promises to settle. *)
Definition loopHead (st : encState) (out : list chunk) : encoder :=
  match buffer st with
  | [] => MkEncoder Ended (finallyBlock st) out
  | _ =>
      MkEncoder (Racing (length (buffer st)) (firstSettled (buffer st)))
        st out
  end.

(** [entry.nextPromise = entry.iterator.next(); buffer.add(entry)]. *)
Definition rearm (e : entry) (st : encState) : encState :=
  match e_iterator e with
  | AtYield k' =>
      let '(st1, g, np) := resumeAtYield (e_idx e) k' st in
      setBuffer st1 (buffer st1 ++ [setEntry e g np])
  | _ =>
      setBuffer st (buffer st ++ [setEntry e Closed (Resolved None true)])
  end.

Definition isDone (np : nextPromise) : bool :=
  match np with
  | Resolved _ d => d
  | _ => false
  end.

Definition encStep (ev : encEvent) (enc : encoder) : option encoder :=
  let st := enc_st enc in
  let out := enc_out enc in
  match ev, enc_main enc with
  | Next, Start v =>
      match recurse v st with
      | (st', Return s) =>
          Some (MkEncoder RootYield st' (out ++ [ChunkStr (rootText s)]))
      | (st', Throw c) => Some (MkEncoder (Threw c) (finallyBlock st') out)
      end
  | Next, RootYield => Some (loopHead st out)
  | Next, ChunkYield k e =>
      match w with
      | JsonArray => Some (loopHead (rearm e st) out)
      | Delimited =>
          let st1 := setBuffer st (deleteAt k (buffer st)) in
          if isDone (e_nextPromise e) then Some (loopHead st1 out)
          else Some (loopHead (rearm e st1) out)
      end
  | ReturnEarly, Start _ => Some (MkEncoder Ended st out)
  | ReturnEarly, RootYield => Some (MkEncoder Ended (finallyBlock st) out)
  | ReturnEarly, ChunkYield _ _ =>
      Some (MkEncoder Ended (finallyBlock st) out)
  | Race k, Racing _ (Some k') =>
      match (if Nat.eqb k k' then buffer st !! k else None) with
      | Some e =>
          match e_nextPromise e with
          | Pending => None
          | RejectedWith c =>
              Some (MkEncoder (Threw c) (finallyBlock st) out)
          | Resolved val done =>
              match w with
              | JsonArray =>
                  let st1 := setBuffer st (deleteAt k (buffer st)) in
                  if done then Some (loopHead st1 out)
                  else
                    match val with
                    | Some fr =>
                        Some (MkEncoder (ChunkYield k e) st1
                                (out ++ [ChunkStr (frameText fr)]))
                    | None => None
                    end
              | Delimited =>
                  let c := match val with
                           | Some fr => ChunkStr (frameText fr)
                           | None => ChunkUndefined
                           end in
                  Some (MkEncoder (ChunkYield k e) st (out ++ [c]))
              end
          end
      | None => None
      end
  | Source k, m =>
      match sourceSettles k st with
      | Some st' =>
          let m' :=
            match m with
            | Racing n None => if (k <? n)%nat then Racing n (Some k) else m
            | _ => m
            end in
          Some (MkEncoder m' st' out)
      | None => None
      end
  | _, _ => None
  end.

(** A run of the encoder under a schedule of events. *)
Fixpoint encRun (evs : list encEvent) (enc : encoder) : option encoder :=
  match evs with
  | [] => Some enc
  | ev :: rest =>
      match encStep ev enc with
      | Some enc' => encRun rest enc'
      | None => None
      end
  end.

End Encoder.

(** ** The decoder ([parseAsync], [parseAsyncIterable]) *)

(** Values as the consumer receives them.  [RPromise c] and
    [RAsyncIterable c] are the promise and the async generator object that
    the two built-in revivers returned; [c] names them in the decoder's
    table of consumers. *)
Inductive revived : Type :=
| RPlain (a : string)
| RComposite (fields : list revived)
| RPromise (c : nat)
| RAsyncIterable (c : nat).

(** JavaScript numbers, as far as the decoder tells them apart. *)
Inductive number : Type :=
| NumNat (n : N)
| NumOther (repr : string).

Definition numberText (x : number) : string :=
  match x with
  | NumNat n => decimal n
  | NumOther r => r
  end.

Definition numberIs (x : number) (n : N) : bool :=
  match x with
  | NumNat m => N.eqb m n
  | NumOther _ => false
  end.

(** The result of [JSON.parse]. *)
Inductive json : Type :=
| JNumber (x : number)
| JString (s : string)
| JArray (elems : list json)
| JOther (tag : string).

(** What is enqueued on a sink's stream: [[status, value]] or an [Error]. *)
Inductive item : Type :=
| FrameItem (status : number) (v : revived)
| ErrorItem (e : jsError).

(** A [ReadableStream] created by [registerAsync]: its queue, and whether
    it has been cancelled. *)
Record stream : Type := MkStream {
  queue : list item;
  closed : bool
}.

Inductive thrown : Type :=
| ThrownData (v : revived)
| ThrownError (e : jsError).

(** The statement the body of a reviver reaches with what it has read:
    [yield value], [return value] or [throw value]. *)
Inductive statement : Type :=
| YieldStmt (v : revived)
| ReturnStmt (v : revived)
| ThrowStmt (t : thrown).

(** What the holder of a revived promise or async iterable is given: the
    items of an async iterable, and the way the promise settles or the
    iteration ends. *)
Inductive observation : Type :=
| Produced (v : revived)            (* an item of an async iterable *)
| Completed (v : option revived)    (* fulfilment, or the return value *)
| Failed (t : thrown).              (* rejection, or the exception *)

Inductive consumerKind : Type := KPromise | KAsyncIterable.

(** Where the body of a reviver is suspended.  [p] names a revived
    promise that the reviver has been handed as the value of a frame.  An
    async generator awaits the operand of [yield] and of [return] before
    it goes on, and the promise of an async function that returns a
    promise settles as that promise does. *)
Inductive consumerState : Type :=
| NotStarted
    (* an async generator object whose body has not run yet *)
| Reading (h : nat)
    (* at [await reader.read()] on stream [h] *)
| Suspended (h : nat)
    (* at [yield value], the item handed to the holder *)
| AwaitingYield (h : nat) (p : nat)
    (* async generator at [yield value], awaiting the promise [p] that
       [value] is *)
| AwaitingReturn (h : nat) (p : nat)
    (* async generator at [return value] inside [try], awaiting the
       promise [p] that [value] is *)
| Cancelling (h : nat)
    (* delimited variant: at [await reader.cancel()] in [finally] *)
| CancellingThen (h : nat) (p : nat)
    (* delimited variant, [Promise] reviver: at [await reader.cancel()]
       in [finally], after [return value] with the promise [p] *)
| Following (p : nat)
    (* [Promise] reviver: the body has returned the promise [p], which
       the promise of the async function follows *)
| Finished.

(** [c_log] lists what the reviver has produced for its holder: the items
    yielded, then the way its body ends (which the holder is given when
    the [finally] block has run). *)
Record consumer : Type := MkConsumer {
  c_kind : consumerKind;
  c_idx : N;
  c_state : consumerState;
  c_log : list observation
}.

(** How a promise has settled. *)
Inductive outcome : Type :=
| FulfilledWith (v : revived)
| RejectedBy (t : thrown).

(** How an async function's promise is resolved when the body ends: the
    body threw, it returned a value that is no promise, or it returned
    the revived promise [p], whose state the promise then adopts. *)
Inductive resolution : Type :=
| Rejects (e : jsError)
| Fulfils (v : revived)
| Follows (p : nat).

(** The decoder's variables.  [enqueueMap] is a [Map] in insertion order,
    from an id to the stream whose controller its [enqueue] closure
    holds.  [unhandled] collects what is thrown out of the pump's [catch]
    handler. *)
Record decoder : Type := MkDecoder {
  streams : list stream;
  enqueueMap : list (N * nat);
  consumers : list consumer;
  pumping : bool;
  unhandled : list jsError
}.

Definition initDec : decoder :=
  {| streams := []; enqueueMap := []; consumers := [];
     pumping := false; unhandled := [] |}.

Module JsMap.

(** [Map.prototype.get]. *)
Fixpoint get (k : N) (m : list (N * nat)) : option nat :=
  match m with
  | [] => None
  | (k', h) :: rest => if N.eqb k' k then Some h else get k rest
  end.

(** [Map.prototype.set]: an existing key keeps its place. *)
Fixpoint set (k : N) (h : nat) (m : list (N * nat)) : list (N * nat) :=
  match m with
  | [] => [(k, h)]
  | (k', h') :: rest =>
      if N.eqb k' k then (k', h) :: rest else (k', h') :: set k h rest
  end.

(** [Map.prototype.delete]. *)
Fixpoint delete (k : N) (m : list (N * nat)) : list (N * nat) :=
  match m with
  | [] => []
  | (k', h') :: rest =>
      if N.eqb k' k then rest else (k', h') :: delete k rest
  end.

End JsMap.

(** The outcome of the synchronous codec's [parse] / [unflatten], before
    the built-in revivers are applied: the structure read, or an exception
    together with the placeholders that had been revived before it was
    thrown. *)
Inductive parsed : Type :=
| ParseOk (f : flat)
| ParseFail (seen : list flat) (e : jsError).

Definition setStreams (d : decoder) (ss : list stream) : decoder :=
  {| streams := ss; enqueueMap := enqueueMap d; consumers := consumers d;
     pumping := pumping d; unhandled := unhandled d |}.

Definition setEnqueueMap (d : decoder) (m : list (N * nat)) : decoder :=
  {| streams := streams d; enqueueMap := m; consumers := consumers d;
     pumping := pumping d; unhandled := unhandled d |}.

Definition setConsumers (d : decoder) (cs : list consumer) : decoder :=
  {| streams := streams d; enqueueMap := enqueueMap d; consumers := cs;
     pumping := pumping d; unhandled := unhandled d |}.

Definition setPumping (d : decoder) (b : bool) : decoder :=
  {| streams := streams d; enqueueMap := enqueueMap d;
     consumers := consumers d; pumping := b; unhandled := unhandled d |}.

Definition addUnhandled (d : decoder) (e : jsError) : decoder :=
  {| streams := streams d; enqueueMap := enqueueMap d;
     consumers := consumers d; pumping := pumping d;
     unhandled := unhandled d ++ [e] |}.

(** [registerAsync(id)]: a fresh stream, whose [enqueue] is stored under
    [id]. *)
Definition registerAsync (id : N) (d : decoder) : nat * decoder :=
  let h := length (streams d) in
  (h, setEnqueueMap (setStreams d (streams d ++ [MkStream [] false]))
        (JsMap.set id h (enqueueMap d))).

(** The [Promise] reviver called with [idx]: an async function, which runs
    up to its first [await] at once. *)
Definition revivePromise (idx : N) (d : decoder) : revived * decoder :=
  let (h, d1) := registerAsync idx d in
  (RPromise (length (consumers d1)),
   setConsumers d1 (consumers d1 ++ [MkConsumer KPromise idx (Reading h) []])).

(** The [AsyncIterable] reviver called with [idx]: an async generator
    function, which returns a generator object without running its
    body. *)
Definition reviveAsyncIterable (idx : N) (d : decoder)
  : revived * decoder :=
  (RAsyncIterable (length (consumers d)),
   setConsumers d
     (consumers d ++ [MkConsumer KAsyncIterable idx NotStarted []])).

Section ReviveAll.
Variable reviveOne : flat -> decoder -> revived * decoder.

Fixpoint reviveAll (fs : list flat) (d : decoder)
  : list revived * decoder :=
  match fs with
  | [] => ([], d)
  | x :: rest =>
      let (vx, d1) := reviveOne x d in
      let (vrest, d2) := reviveAll rest d1 in
      (vx :: vrest, d2)
  end.
End ReviveAll.

(** The revivers applied to a structure read by the synchronous codec,
    depth-first. *)
Fixpoint revive (f : flat) (d : decoder) : revived * decoder :=
  match f with
  | FPlain a => (RPlain a, d)
  | FComposite fields =>
      let (vs, d') := reviveAll revive fields d in
      (RComposite vs, d')
  | FPromise idx => revivePromise idx d
  | FAsyncIterable idx => reviveAsyncIterable idx d
  end.

Fixpoint reviveSeen (fs : list flat) (d : decoder) : decoder :=
  match fs with
  | [] => d
  | x :: rest => reviveSeen rest (snd (revive x d))
  end.

Definition applyRevivers (p : parsed) (d : decoder)
  : decoder * result jsError revived :=
  match p with
  | ParseOk f => let (v, d') := revive f d in (d', Return v)
  | ParseFail seen e => (reviveSeen seen d, Throw e)
  end.

(** [controller.enqueue(v)] on stream [h]: a cancelled stream refuses it
    with a [TypeError]. *)
Definition enqueue (h : nat) (it : item) (d : decoder)
  : result jsError decoder :=
  match streams d !! h with
  | Some s =>
      if closed s then Throw (ExtError "TypeError")
      else Return (setStreams d
                     (<[h := MkStream (queue s ++ [it]) false]> (streams d)))
  | None => Throw (ExtError "TypeError")
  end.

(** [for (const [_, enqueue] of enqueueMap) enqueue(e)]: the state
    reached, and the exception that stopped the loop, if any. *)
Fixpoint enqueueAll (m : list (N * nat)) (e : jsError) (d : decoder)
  : decoder * option jsError :=
  match m with
  | [] => (d, None)
  | (_, h) :: rest =>
      match enqueue h (ErrorItem e) d with
      | Return d' => enqueueAll rest e d'
      | Throw err => (d, Some err)
      end
  end.

(** The promise that a value is, if it is one. *)
Definition thenable (v : revived) : option nat :=
  match v with
  | RPromise p => Some p
  | _ => None
  end.

(** [return value] at the end of an async function's body. *)
Definition resolveWith (v : revived) : resolution :=
  match thenable v with
  | Some p => Follows p
  | None => Fulfils v
  end.

(** How the revived promise [p] has settled, if it has: the body of its
    reviver has ended, [finally] block included, and its promise has
    been fulfilled or rejected. *)
Definition settledWith (d : decoder) (p : nat) : option outcome :=
  match consumers d !! p with
  | Some k =>
      match c_kind k, c_state k, c_log k with
      | KPromise, Finished, [Completed (Some v)] => Some (FulfilledWith v)
      | KPromise, Finished, [Failed t] => Some (RejectedBy t)
      | _, _, _ => None
      end
  | None => None
  end.


Section Decoder.

(** The synchronous codec and the host's [JSON.parse].  [parse] is
    [parse(text, revivers)] of the delimited variant and [unflatten] is
    [unflatten(value, revivers)] of the JSON-array variant, both up to
    the calls of the two built-in revivers ([None] is [undefined]).
    [JSON_parse_text] is [JSON.parse] on a string. *)
Variable parse : chunk -> parsed.
Variable JSON_parse_text : string -> result jsError json.
Variable unflatten : option json -> parsed.

(** [JSON.parse(x)]: [undefined] is first converted to the text
    ["undefined"], which is not JSON. *)
Definition JSON_parse (x : chunk) : result jsError json :=
  match x with
  | ChunkStr s => JSON_parse_text s
  | ChunkUndefined => Throw (ExtError "SyntaxError")
  end.

Variable w : variant.

(** [asNumberOrThrow(str)]. *)
Definition asNumberOrThrow (str : string) : result jsError N :=
  if JsString.isDecimal str then Return (JsString.parseInt str)
  else Throw (MkError ("Expected positive number, got " ++ str)).

Definition typeofJson (x : option json) : string :=
  match x with
  | None => "undefined"
  | Some (JNumber _) => "number"
  | Some (JString _) => "string"
  | Some (JArray _) => "object"
  | Some (JOther tag) => tag
  end.

(** [assertNumber(value)]. *)
Definition assertNumber (x : option json) : result jsError number :=
  match x with
  | Some (JNumber n) => Return n
  | _ => Throw (MkError ("Expected number, got " ++ typeofJson x))
  end.

(** The array destructuring [const [idx, status, flattened] = v]. *)
Definition destructure3 (v : json)
  : result jsError (option json * option json * option json) :=
  match v with
  | JArray l => Return (l !! 0%nat, l !! 1%nat, l !! 2%nat)
  | JString s =>
      let unit (k : nat) :=
        match String.get k s with
        | Some a => Some (JString (String a ""))
        | None => None
        end in
      Return (unit 0%nat, unit 1%nat, unit 2%nat)
  | _ => Throw (ExtError "TypeError")
  end.

(** The header of a delimited chunk: the three pieces the pump cuts. *)
Definition splitChunk (str : string) : string * string * string :=
  let index := JsString.indexOf str ":" in
  let idText := JsString.slice str 0 index in
  let str1 := JsString.sliceFrom str (index + 1) in
  let index1 := JsString.indexOf str1 ":" in
  let statusText := JsString.slice str1 0 index1 in
  let str2 := JsString.sliceFrom str1 (index1 + 1) in
  (idText, statusText, str2).

(** The error the pump's [.catch] handler hands to the sinks. *)
Definition catchError (cause : jsError) : jsError :=
  match w with
  | JsonArray =>
      if instanceofError cause then cause
      else MkErrorCause "Stream interrupted" cause
  | Delimited => MkErrorCause "Stream interrupted" cause
  end.

(** The [.catch] handler attached to the pump. *)
Definition catchHandler (cause : jsError) (d : decoder) : decoder :=
  match enqueueAll (enqueueMap d) (catchError cause) (setPumping d false)
  with
  | (d', None) => d'
  | (d', Some err) => addUnhandled d' err
  end.

(** The header of a chunk as the delimited pump reads it: the id, the
    status and the payload text, or the exception thrown. *)
Definition delimitedHeader (c : chunk) : result jsError (N * N * string) :=
  match c with
  | ChunkUndefined => Throw (ExtError "TypeError")
  | ChunkStr str =>
      let '(idText, statusText, payload) := splitChunk str in
      match asNumberOrThrow idText with
      | Throw e => Throw e
      | Return idx =>
          match asNumberOrThrow statusText with
          | Throw e => Throw e
          | Return status => Return (idx, status, payload)
          end
      end
  end.

(** The header of a chunk as the JSON-array pump reads it: the id, the
    status and the flattened payload, or the exception thrown. *)
Definition jsonHeader (c : chunk)
  : result jsError (number * number * option json) :=
  match JSON_parse c with
  | Throw e => Throw e
  | Return v =>
      match destructure3 v with
      | Throw e => Throw e
      | Return (idx, status, flattened) =>
          match assertNumber idx with
          | Throw e => Throw e
          | Return idx =>
              match assertNumber status with
              | Throw e => Throw e
              | Return status => Return (idx, status, flattened)
              end
          end
      end
  end.

(** One turn of the pump's loop on an arriving chunk: the state reached,
    and the exception thrown, if any. *)
Definition pumpChunk (c : chunk) (d : decoder)
  : decoder * option jsError :=
  match w with
  | Delimited =>
      match delimitedHeader c with
      | Throw e => (d, Some e)
      | Return (idx, status, payload) =>
          match applyRevivers (parse (ChunkStr payload)) d with
          | (d1, Throw e) => (d1, Some e)
          | (d1, Return value) =>
              match JsMap.get idx (enqueueMap d1) with
              | None => (d1, None)
              | Some h =>
                  match enqueue h (FrameItem (NumNat status) value) d1 with
                  | Return d2 => (d2, None)
                  | Throw e => (d1, Some e)
                  end
              end
          end
      end
  | JsonArray =>
      match jsonHeader c with
      | Throw e => (d, Some e)
      | Return (idx, status, flattened) =>
          let sink :=
            match idx with
            | NumNat n => JsMap.get n (enqueueMap d)
            | NumOther _ => None
            end in
          match sink with
          | None => (d, None)
          | Some h =>
              match applyRevivers (unflatten flattened) d with
              | (d1, Throw e) => (d1, Some e)
              | (d1, Return value) =>
                  match enqueue h (FrameItem status value) d1 with
                  | Return d2 => (d2, None)
                  | Throw e => (d1, Some e)
                  end
              end
          end
      end
  end.

(** The pump's loop ends because the chunk stream is done. *)
Definition pumpEnd (d : decoder) : decoder :=
  match w with
  | JsonArray =>
      match enqueueAll (enqueueMap d)
              (MkError "Stream interrupted: malformed stream")
              (setPumping d false) with
      | (d', None) => d'
      | (d', Some err) => catchHandler err d'
      end
  | Delimited => setPumping d false
  end.

(** The first result of the chunk iterator. *)
Inductive head : Type :=
| HeadChunk (c : chunk)     (* [{ value: c, done: false }] *)
| HeadDone (c : chunk).     (* [{ value: c, done: true }] *)

Definition headValue (hd : head) : chunk :=
  match hd with HeadChunk c => c | HeadDone c => c end.

Definition headIsDone (hd : head) : bool :=
  match hd with HeadChunk _ => false | HeadDone _ => true end.

(** The body of [parseAsync] / [parseAsyncIterable] from the arrival of
    the head: the decoder's state when the body ends, and how the promise
    of this async function is resolved. *)
Definition parseHead (hd : head) : decoder * resolution :=
  match w with
  | JsonArray =>
      match JSON_parse (headValue hd) with
      | Throw e => (initDec, Rejects e)
      | Return v =>
          match applyRevivers (unflatten (Some v)) initDec with
          | (d, Throw e) => (d, Rejects e)
          | (d, Return root) =>
              (setPumping d (negb (headIsDone hd)), resolveWith root)
          end
      end
  | Delimited =>
      match applyRevivers (parse (headValue hd))
              (setPumping initDec (negb (headIsDone hd))) with
      | (d, Throw e) => (d, Rejects e)
      | (d, Return root) => (d, resolveWith root)
      end
  end.

(** *** The revivers' bodies *)

Definition setConsumer (c : nat) (k : consumer) (d : decoder) : decoder :=
  setConsumers d (<[c := k]> (consumers d)).

(** What the reviver of kind [kind] does with an item it has read: the
    statement its body reaches. *)
Definition interpret (kind : consumerKind) (it : item) : statement :=
  let sc := codesOf w in
  match it with
  | ErrorItem e => ThrowStmt (ThrownError e)
  | FrameItem status value =>
      match kind with
      | KPromise =>
          if numberIs status (sc_promise_fulfilled sc)
          then ReturnStmt value
          else
            match w with
            | Delimited => ThrowStmt (ThrownData value)
            | JsonArray =>
                if numberIs status (sc_promise_rejected sc)
                then ThrowStmt (ThrownData value)
                else ThrowStmt (ThrownError
                       (MkError ("Unknown promise status: "
                                   ++ numberText status)))
            end
      | KAsyncIterable =>
          if numberIs status (sc_iter_yield sc) then YieldStmt value
          else if numberIs status (sc_iter_return sc)
          then ReturnStmt value
          else if numberIs status (sc_iter_error sc)
          then ThrowStmt (ThrownData value)
          else ThrowStmt (ThrownError
                 (MkError ("Unknown status: " ++ numberText status)))
      end
  end.

(** The [finally] block of a reviver, for the sink of [idx] on stream
    [h], up to its first suspension.  The JSON-array variant's
    [dispose()] deletes the id and cancels the stream; the delimited
    variant cancels the reader and deletes the id only when
    [await reader.cancel()] has returned. *)
Definition closeStream (h : nat) (d : decoder) : decoder :=
  match streams d !! h with
  | Some s => setStreams d (<[h := MkStream (queue s) true]> (streams d))
  | None => d
  end.

Definition beginDispose (idx : N) (h : nat) (d : decoder)
  : decoder * consumerState :=
  match w with
  | JsonArray =>
      (closeStream h (setEnqueueMap d (JsMap.delete idx (enqueueMap d))),
       Finished)
  | Delimited => (closeStream h d, Cancelling h)
  end.

(** The state of a [Promise] reviver whose body has returned the
    promise [p], once its [finally] block is in the state [st]. *)
Definition thenFollow (p : nat) (st : consumerState) : consumerState :=
  match st with
  | Cancelling h => CancellingThen h p
  | _ => Following p
  end.

(** The body of reviver [c], which holds stream [h], ends with the
    observation [o]: its [finally] block starts. *)
Definition finish (c : nat) (k : consumer) (h : nat) (o : observation)
    (d : decoder) : decoder :=
  let (d1, st) := beginDispose (c_idx k) h d in
  setConsumer c (MkConsumer (c_kind k) (c_idx k) st (c_log k ++ [o])) d1.

(** The body of reviver [c] executes the statement [stmt]. *)
Definition execute (c : nat) (k : consumer) (h : nat) (stmt : statement)
    (d : decoder) : decoder :=
  match stmt with
  | YieldStmt v =>
      match thenable v with
      | Some p =>
          setConsumer c
            (MkConsumer (c_kind k) (c_idx k) (AwaitingYield h p) (c_log k))
            d
      | None =>
          setConsumer c
            (MkConsumer (c_kind k) (c_idx k) (Suspended h)
               (c_log k ++ [Produced v])) d
      end
  | ReturnStmt v =>
      match thenable v, c_kind k with
      | Some p, KAsyncIterable =>
          setConsumer c
            (MkConsumer (c_kind k) (c_idx k) (AwaitingReturn h p) (c_log k))
            d
      | Some p, KPromise =>
          let (d1, st) := beginDispose (c_idx k) h d in
          setConsumer c
            (MkConsumer (c_kind k) (c_idx k) (thenFollow p st) (c_log k)) d1
      | None, _ => finish c k h (Completed (Some v)) d
      end
  | ThrowStmt t => finish c k h (Failed t) d
  end.

(** The reviver [c] goes on when the promise it awaits or follows has
    settled with [o]. *)
Definition resume (c : nat) (k : consumer) (o : outcome) (d : decoder)
  : option decoder :=
  match c_state k, o with
  | AwaitingYield h _, FulfilledWith v =>
      Some (setConsumer c
              (MkConsumer (c_kind k) (c_idx k) (Suspended h)
                 (c_log k ++ [Produced v])) d)
  | AwaitingYield h _, RejectedBy t => Some (finish c k h (Failed t) d)
  | AwaitingReturn h _, FulfilledWith v =>
      Some (finish c k h (Completed (Some v)) d)
  | AwaitingReturn h _, RejectedBy t => Some (finish c k h (Failed t) d)
  | Following _, FulfilledWith v =>
      Some (setConsumer c
              (MkConsumer (c_kind k) (c_idx k) Finished
                 (c_log k ++ [Completed (Some v)])) d)
  | Following _, RejectedBy t =>
      Some (setConsumer c
              (MkConsumer (c_kind k) (c_idx k) Finished
                 (c_log k ++ [Failed t])) d)
  | _, _ => None
  end.

(** The promise a reviver awaits or follows. *)
Definition awaited (st : consumerState) : option nat :=
  match st with
  | AwaitingYield _ p => Some p
  | AwaitingReturn _ p => Some p
  | Following p => Some p
  | _ => None
  end.

Inductive decEvent : Type :=
| Arrive (c : chunk)          (* the pump receives a chunk *)
| EndOfStream                 (* the pump receives [done] *)
| TransportError (e : jsError)  (* the pump's [iterator.next()] rejects *)
| Pull (c : nat)              (* the holder of iterable [c] calls [next()] *)
| Read (c : nat)              (* the pending [reader.read()] of [c] settles *)
| Dispose (c : nat)           (* [await reader.cancel()] of [c] returns *)
| Resume (c : nat).           (* the promise that [c] awaits or follows
                                 has settled, and [c] goes on *)

Definition decStep (ev : decEvent) (d : decoder) : option decoder :=
  match ev with
  | Arrive c =>
      if pumping d then
        match pumpChunk c d with
        | (d', None) => Some d'
        | (d', Some e) => Some (catchHandler e d')
        end
      else None
  | EndOfStream => if pumping d then Some (pumpEnd d) else None
  | TransportError e => if pumping d then Some (catchHandler e d) else None
  | Pull c =>
      match consumers d !! c with
      | Some k =>
          match c_kind k, c_state k with
          | KAsyncIterable, NotStarted =>
              let (h, d1) := registerAsync (c_idx k) d in
              Some (setConsumer c
                      (MkConsumer (c_kind k) (c_idx k) (Reading h)
                         (c_log k)) d1)
          | KAsyncIterable, Suspended h =>
              Some (setConsumer c
                      (MkConsumer (c_kind k) (c_idx k) (Reading h)
                         (c_log k)) d)
          | _, _ => None
          end
      | None => None
      end
  | Read c =>
      match consumers d !! c with
      | Some k =>
          match c_state k with
          | Reading h =>
              match streams d !! h with
              | Some (MkStream (it :: rest) false) =>
                  let d1 :=
                    setStreams d (<[h := MkStream rest false]> (streams d))
                  in
                  Some (execute c k h (interpret (c_kind k) it) d1)
              | _ => None
              end
          | _ => None
          end
      | None => None
      end
  | Dispose c =>
      match consumers d !! c with
      | Some k =>
          let d1 :=
            setEnqueueMap d (JsMap.delete (c_idx k) (enqueueMap d)) in
          match c_state k with
          | Cancelling h =>
              Some (setConsumer c
                      (MkConsumer (c_kind k) (c_idx k) Finished (c_log k))
                      d1)
          | CancellingThen h p =>
              Some (setConsumer c
                      (MkConsumer (c_kind k) (c_idx k) (Following p)
                         (c_log k)) d1)
          | _ => None
          end
      | None => None
      end
  | Resume c =>
      match consumers d !! c with
      | Some k =>
          match awaited (c_state k) with
          | Some p =>
              match settledWith d p with
              | Some o => resume c k o d
              | None => None
              end
          | None => None
          end
      | None => None
      end
  end.

Fixpoint decRun (evs : list decEvent) (d : decoder) : option decoder :=
  match evs with
  | [] => Some d
  | ev :: rest =>
      match decStep ev d with
      | Some d' => decRun rest d'
      | None => None
      end
  end.

End Decoder.


(** ** Statements about the wire *)

(** The frame a run of a producer's body hands over, if any. *)
Definition stopFrame (s : bodyStop) : option frame :=
  match s with
  | Yields fr _ => Some fr
  | Returns fr => Some fr
  | Throws _ => None
  end.

(** The table of status codes of the specification. *)
Definition wireCodesAsSpecified (sc : statusCodes) : Prop :=
  sc_promise_fulfilled sc = 0%N /\ sc_promise_rejected sc = 1%N /\
  sc_iter_yield sc = 0%N /\ sc_iter_return sc = 2%N /\
  sc_iter_error sc = 1%N.

(** ** A small codec to run the model on

    Data whose text starts with ["!"] cannot be encoded (as a function or
    an instance of an unregistered class cannot); the exception thrown is
    itself such a datum. *)
Module Example.

Definition supported (a : string) : bool := negb (String.prefix "!" a).

Definition codecError (a : string) : value := Plain "!DevalueError".

Fixpoint print (f : flat) : string :=
  match f with
  | FPlain a => a
  | FComposite fields =>
      ("{" ++ fold_right (fun x acc => print x ++ ";" ++ acc) "}" fields)%string
  | FPromise idx => "P" ++ decimal idx
  | FAsyncIterable idx => "A" ++ decimal idx
  end.

Definition coerce (cause : value) : value := Plain "coerced".

(** The text of a few payloads, read back. *)
Definition parseText (s : string) : parsed :=
  if String.eqb s "{P1;}" then ParseOk (FComposite [FPromise 1])
  else if String.eqb s "{A1;}" then ParseOk (FComposite [FAsyncIterable 1])
  else if String.eqb s "{P1;P2;}"
       then ParseOk (FComposite [FPromise 1; FPromise 2])
  else if String.prefix "{" s then ParseFail [] (ExtError "SyntaxError")
  else ParseOk (FPlain s).

Definition parse (c : chunk) : parsed :=
  match c with
  | ChunkStr s => parseText s
  | ChunkUndefined => ParseFail [] (ExtError "SyntaxError")
  end.

(** A few JSON texts.  In this codec [[7, n]] stands for the promise of
    producer [n] and [[8, n]] for its async iterable. *)
Definition num (n : N) : json := JNumber (NumNat n).

Definition jsonParse (s : string) : result jsError json :=
  let nl := String "010"%char "" in
  if String.eqb s ("[[7,1]]" ++ nl)%string
  then Return (JArray [JArray [num 7; num 1]])
  else if String.eqb s ("[[8,1]]" ++ nl)%string
  then Return (JArray [JArray [num 8; num 1]])
  else if String.eqb s ("[1,0,42]" ++ nl)%string
  then Return (JArray [num 1; num 0; num 42])
  else if String.eqb s ("[true,0,42]" ++ nl)%string
  then Return (JArray [JOther "boolean"; num 0; num 42])
  else Throw (ExtError "SyntaxError").

Definition unflatten (j : option json) : parsed :=
  match j with
  | Some (JNumber x) => ParseOk (FPlain (numberText x))
  | Some (JArray [JArray [JNumber (NumNat 7); JNumber (NumNat n)]]) =>
      ParseOk (FComposite [FPromise n])
  | Some (JArray [JArray [JNumber (NumNat 8); JNumber (NumNat n)]]) =>
      ParseOk (FComposite [FAsyncIterable n])
  | _ => ParseFail [] (ExtError "Error")
  end.

End Example.

(** ** Statements about producer ids *)

(** The ids [c + 1, ..., c + n]. *)
Fixpoint idsFrom (c : N) (n : nat) : list N :=
  match n with
  | O => []
  | S n' => (c + 1)%N :: idsFrom (c + 1)%N n'
  end.

(** The ids of the active producers: those of [buffer], and, in the
    JSON-array variant, that of the entry taken out of [buffer] while its
    chunk is being yielded. *)
Definition activeIds (w : variant) (enc : encoder) : list N :=
  map e_idx (buffer (enc_st enc)) ++
  match w, enc_main enc with
  | JsonArray, ChunkYield _ e => [e_idx e]
  | _, _ => []
  end.

(** [st'] is [st] after some registrations: the new entries are at the end
    of [buffer] and carry the next ids in order. *)
Definition registered (st st' : encState) (new : list entry) : Prop :=
  buffer st' = buffer st ++ new /\
  map e_idx new = idsFrom (counter st) (length new) /\
  counter st' = (counter st + N.of_nat (length new))%N.

(** The ids in [l] are pairwise distinct and lie in [1 .. c]. *)
Definition idsOK (c : N) (l : list N) : Prop :=
  NoDup l /\ forall id, id ∈ l -> (1 <= id <= c)%N.

(** The invariant of the encoder's ids: the active ids are distinct
    allocated ids, and an entry whose chunk is being yielded in the
    delimited variant is still in [buffer] at its position. *)
Definition idsInv (w : variant) (enc : encoder) : Prop :=
  idsOK (counter (enc_st enc)) (activeIds w enc) /\
  match w, enc_main enc with
  | Delimited, ChunkYield k e =>
      exists e', buffer (enc_st enc) !! k = Some e' /\ e_idx e' = e_idx e
  | _, _ => True
  end.

(** From [st] to [st'] the ids of [buffer] were kept in place and [n] new
    ids were allocated, in order, at its end. *)
Definition allocated (st st' : encState) (n : nat) : Prop :=
  map e_idx (buffer st') = map e_idx (buffer st) ++ idsFrom (counter st) n /\
  counter st' = (counter st + N.of_nat n)%N.

(** The encoder is not suspended at the [yield] of a producer chunk. *)
Definition notChunkYield (m : mainState) : Prop :=
  match m with ChunkYield _ _ => False | _ => True end.

(** ** Values to run the model on *)
Module Scenario.

(** [{ s: <sequence yielding 1, 2, 3, then returning "done"> }]. *)
Definition S3 : value :=
  Composite
    [AsyncIterableV [Plain "1"; Plain "2"; Plain "3"] Completes
       (Plain "done") true].

(** [{ p: <promise of "p">, q: <sequence yielding 1 and 2> }]. *)
Definition two : value :=
  Composite
    [PromiseV Fulfilled (Plain "p");
     AsyncIterableV [Plain "1"; Plain "2"] Completes (Plain "end") true].

(** [{ a: <promise fulfilled with 42> }]. *)
Definition S1 : value := Composite [PromiseV Fulfilled (Plain "42")].

End Scenario.

(** ** Statements about sinks *)

(** The stream under handle [h] after [it] has been enqueued on it. *)
Definition delivered (it : item) (d d' : decoder) (h : nat) : Prop :=
  exists s, streams d !! h = Some s /\
            streams d' !! h = Some (MkStream (queue s ++ [it]) false).

(** Every registered sink has a stream of its own, which has not been
    cancelled. *)
Definition sinksReady (d : decoder) : Prop :=
  NoDup (map snd (enqueueMap d)) /\
  forall id h, (id, h) ∈ enqueueMap d ->
               exists s, streams d !! h = Some s /\ closed s = false.

(** The handle a reviver's body holds. *)
Definition handleOf (st : consumerState) : option nat :=
  match st with
  | Reading h => Some h
  | Suspended h => Some h
  | AwaitingYield h _ => Some h
  | AwaitingReturn h _ => Some h
  | Cancelling h => Some h
  | CancellingThen h _ => Some h
  | NotStarted => None
  | Following _ => None
  | Finished => None
  end.

(** Some reviver created for id [i] holds stream [h]. *)
Definition holds (d : decoder) (i : N) (h : nat) : Prop :=
  exists c k, consumers d !! c = Some k /\
              handleOf (c_state k) = Some h /\ c_idx k = i.

(** The invariant of the JSON-array decoder: the keys of [enqueueMap] are
    distinct, its sinks are ready, and a stream held by a reviver is
    registered, if at all, under that reviver's id. *)
Definition decInv (d : decoder) : Prop :=
  NoDup (map fst (enqueueMap d)) /\
  sinksReady d /\
  forall i h, holds d i h ->
              (h < length (streams d))%nat /\
              forall id, (id, h) ∈ enqueueMap d -> id = i.

(** The error the JSON-array pump delivers when the chunk stream ends. *)
Definition streamInterrupted : jsError :=
  MkError "Stream interrupted: malformed stream".

(** Chunks of the JSON-array wire, for the examples. *)
Definition line (s : string) : chunk :=
  ChunkStr (s ++ String "010"%char "")%string.

(** What running the revivers keeps: the invariant, the streams there
    are, whether the pump runs, and what escaped the handler. *)
Definition reviveKeeps (d d' : decoder) : Prop :=
  (decInv d -> decInv d') /\
  (exists new, streams d' = streams d ++ new) /\
  pumping d' = pumping d /\ unhandled d' = unhandled d.

(** ** Values all of whose data is supported *)

(** The synchronous codec can encode all the data of a value. *)
Fixpoint allSupported (supported : string -> bool) (v : value) : bool :=
  match v with
  | Plain a => supported a
  | Composite fields => forallb (allSupported supported) fields
  | PromiseV _ v' => allSupported supported v'
  | AsyncIterableV items _ v' _ =>
      forallb (allSupported supported) items && allSupported supported v'
  end.

(** The status code of a promise's frame and of an async iterable's last
    frame. *)
Definition settleCode (w : variant) (how : settlement) : N :=
  match how with
  | Fulfilled => sc_promise_fulfilled (codesOf w)
  | Rejected => sc_promise_rejected (codesOf w)
  end.

Definition endCode (w : variant) (how : completion) : N :=
  match how with
  | Completes => sc_iter_return (codesOf w)
  | Fails => sc_iter_error (codesOf w)
  end.

(** The frames a source owes, as status and value: one for a promise; one
    per item and a last one for an async iterable. *)
Definition stepsOf (w : variant) (g : generator) : list (N * value) :=
  match g with
  | AwaitPromise how v => [(settleCode w how, v)]
  | AwaitNext items how v _ =>
      map (fun x => (sc_iter_yield (codesOf w), x)) items
        ++ [(endCode w how, v)]
  | _ => []
  end.

(** A generator state in which a producer is registered. *)
Definition isSource (supported : string -> bool) (g : generator) : Prop :=
  match g with
  | AwaitPromise _ v => allSupported supported v = true
  | AwaitNext items _ v _ =>
      forallb (allSupported supported) items = true /\
      allSupported supported v = true
  | _ => False
  end.

(** The ids written in an encoded structure, in depth-first order. *)
Fixpoint idsOf (f : flat) : list N :=
  match f with
  | FPlain _ => []
  | FComposite fields => concat (map idsOf fields)
  | FPromise idx => [idx]
  | FAsyncIterable idx => [idx]
  end.

(** The data of an encoded structure is data the codec supports. *)
Fixpoint flatSupported (supported : string -> bool) (f : flat) : bool :=
  match f with
  | FPlain a => supported a
  | FComposite fields => forallb (flatSupported supported) fields
  | _ => true
  end.

(** [denotesF S f v]: the encoded structure [f] stands for the value [v],
    [S] giving the source registered under each id. *)
Inductive denotesF (S : gmap N generator) : flat -> value -> Prop :=
| DFPlain a : denotesF S (FPlain a) (Plain a)
| DFComposite fs vs :
    Forall2 (denotesF S) fs vs -> denotesF S (FComposite fs) (Composite vs)
| DFPromise i how v :
    S !! i = Some (AwaitPromise how v) ->
    denotesF S (FPromise i) (PromiseV how v)
| DFAsyncIterable i items how v ret :
    S !! i = Some (AwaitNext items how v ret) ->
    denotesF S (FAsyncIterable i) (AsyncIterableV items how v ret).

(** An entry as [registerAsyncIterable] adds it. *)
Definition freshEntry (supported : string -> bool) (e : entry) : Prop :=
  e_nextPromise e = Pending /\ e_returnQueued e = false /\
  isSource supported (e_iterator e).

(** [S] gives the entries of [new] their sources. *)
Definition sourcesOf (S : gmap N generator) (new : list entry) : Prop :=
  forall e, e ∈ new -> S !! e_idx e = Some (e_iterator e).

(** The frames a producer owes once the frame it holds has been yielded. *)
Definition futureOf (w : variant) (g : generator) : list (N * value) :=
  match g with
  | AtYield (ThenLoop items how v ret) =>
      stepsOf w (AwaitNext items how v ret)
  | _ => []
  end.

(** Where a producer's body can be when its [nextPromise] holds a frame. *)
Definition contOK (w : variant) (supported : string -> bool)
    (g : generator) (done : bool) : Prop :=
  match g with
  | AtYield (ThenLoop items how v ret) =>
      done = false /\ isSource supported (AwaitNext items how v ret)
  | AtYield _ => w = JsonArray /\ done = false
  | Closed => w = Delimited /\ done = true
  | _ => False
  end.

(** ** How much the encoder has left to do

    A bound on the number of events before the encoder ends: four for
    each frame a producer owes (its source settles, the race settles, the
    frame is yielded, the producer is resumed), one more for a producer
    of the JSON-array variant, whose body ends at a [next()] of its
    own. *)
Definition tailWeight (w : variant) : nat :=
  match w with
  | JsonArray => 1%nat
  | Delimited => 0%nat
  end.

Fixpoint weightV (w : variant) (v : value) : nat :=
  match v with
  | Plain _ => 0%nat
  | Composite fields =>
      fold_right (fun x acc => (weightV w x + acc)%nat) 0%nat fields
  | PromiseV _ v' => (4 + weightV w v' + tailWeight w)%nat
  | AsyncIterableV items _ v' _ =>
      fold_right (fun x acc => (4 + weightV w x + acc)%nat)
        (4 + weightV w v' + tailWeight w)%nat items
  end.

Definition weightQ (w : variant) (steps : list (N * value)) : nat :=
  fold_right (fun sx acc => (4 + weightV w (snd sx) + acc)%nat) 0%nat steps.

Definition weightG (w : variant) (g : generator) : nat :=
  (weightQ w (stepsOf w g ++ futureOf w g)
   + match g with Closed => 0 | _ => tailWeight w end)%nat.

Definition weightNP (np : nextPromise) : nat :=
  match np with
  | Pending => 0%nat
  | Resolved (Some _) _ => 3%nat
  | Resolved None _ => 1%nat
  | RejectedWith _ => 0%nat
  end.

Definition weightE (w : variant) (e : entry) : nat :=
  (weightG w (e_iterator e) + weightNP (e_nextPromise e))%nat.

Definition weightB (w : variant) (b : list entry) : nat :=
  fold_right (fun e acc => (weightE w e + acc)%nat) 0%nat b.

Definition weightMain (w : variant) (m : mainState) : nat :=
  match m with
  | RootYield => 2%nat
  | Racing _ _ => 1%nat
  | ChunkYield _ e =>
      match w with
      | JsonArray => (weightG w (e_iterator e) + 2)%nat
      | Delimited => 0%nat
      end
  | _ => 0%nat
  end.

Definition weight (w : variant) (enc : encoder) : nat :=
  (weightB w (buffer (enc_st enc)) + weightMain w (enc_main enc))%nat.

(** What a run of a producer's body gives when all data is supported:
    from [st] to [st2], the producers [new] of the payload [f] of its
    frame were registered, and the body stopped at [stop]. *)
Definition bodyResult (w : variant) (supported : string -> bool)
    (print : flat -> string) (g : generator) (idx : N)
    (st st2 : encState) (stop : bodyStop) : Prop :=
  exists s f v g' dn new,
    buffer st2 = buffer st ++ new /\
    counter st2 = (counter st + N.of_nat (length new))%N /\
    map e_idx new = idsFrom (counter st) (length new) /\
    idsOf f = map e_idx new /\
    Forall (freshEntry supported) new /\
    (s, v) :: futureOf w g' = stepsOf w g /\
    contOK w supported g' dn /\
    flatSupported supported f = true /\
    (forall S, sourcesOf S new -> denotesF S f v) /\
    weightB w new = weightV w v /\
    ((exists k', stop = Yields (MkFrame idx s (print f)) k' /\
                 g' = AtYield k' /\ dn = false) \/
     (stop = Returns (MkFrame idx s (print f)) /\ g' = Closed /\ dn = true)).

(** ** A codec to run the examples on

    A small self-delimiting synchronous codec, standing for [stringify]
    and [parse] with revivers that support every datum: a string is
    written with a ["+"] before each character and a ["."] at its end, an
    id in unary, an array between brackets. *)
Module Toy.

Definition supported (a : string) : bool := true.

Definition codecError (a : string) : value := Plain "DevalueError".

Fixpoint unary (n : nat) : string :=
  match n with
  | O => "0"
  | S n' => String "1" (unary n')
  end.

Fixpoint readUnary (s : string) : nat * string :=
  match s with
  | String "1" r => let (n, r') := readUnary r in (S n, r')
  | String _ r => (O, r)
  | EmptyString => (O, EmptyString)
  end.

Fixpoint quote (a : string) : string :=
  match a with
  | EmptyString => "."
  | String c r => String "+" (String c (quote r))
  end.

Fixpoint readQuoted (s : string) : string * string :=
  match s with
  | String "+" (String c r) =>
      let (a, r') := readQuoted r in (String c a, r')
  | String _ r => (EmptyString, r)
  | EmptyString => (EmptyString, EmptyString)
  end.

Fixpoint print (f : flat) : string :=
  match f with
  | FPlain a => String "s" (quote a)
  | FComposite fields =>
      String "[" (fold_right (fun x acc => print x ++ acc)%string "]" fields)
  | FPromise idx => String "p" (unary (N.to_nat idx))
  | FAsyncIterable idx => String "a" (unary (N.to_nat idx))
  end.

(** The reader: one encoded structure, or, when [many], the elements of
    an array up to its closing bracket; with what is left of the text. *)
Fixpoint read (fuel : nat) (many : bool) (s : string)
  : option (list flat * string) :=
  match fuel with
  | O => None
  | S fuel' =>
      if many then
        match s with
        | String "]" r => Some ([], r)
        | _ =>
            match read fuel' false s with
            | Some ([x], r1) =>
                match read fuel' true r1 with
                | Some (xs, r2) => Some (x :: xs, r2)
                | None => None
                end
            | _ => None
            end
        end
      else
        match s with
        | String "s" r =>
            let (a, r') := readQuoted r in Some ([FPlain a], r')
        | String "p" r =>
            let (n, r') := readUnary r in Some ([FPromise (N.of_nat n)], r')
        | String "a" r =>
            let (n, r') := readUnary r in
            Some ([FAsyncIterable (N.of_nat n)], r')
        | String "[" r =>
            match read fuel' true r with
            | Some (xs, r') => Some ([FComposite xs], r')
            | None => None
            end
        | _ => None
        end
  end.

Definition parseText (s : string) : parsed :=
  match read (S (String.length s)) false s with
  | Some ([f], EmptyString) => ParseOk f
  | _ => ParseFail [] (ExtError "SyntaxError")
  end.

Definition parse (c : chunk) : parsed :=
  match c with
  | ChunkStr s => parseText s
  | ChunkUndefined => ParseFail [] (ExtError "SyntaxError")
  end.

(** The delimited variant does not use [JSON.parse] and [unflatten]. *)
Definition jsonParse (s : string) : result jsError json :=
  Throw (ExtError "SyntaxError").

Definition unflatten (j : option json) : parsed :=
  ParseFail [] (ExtError "SyntaxError").

End Toy.

(** ** Runs of the encoder and the decoder *)
Module Runs.

(** [{ s: <sequence yielding a promise rejected with "x", then throwing
    "boom">, k: "k" }]. *)
Definition nested : value :=
  Composite
    [AsyncIterableV [PromiseV Rejected (Plain "x")] Fails (Plain "boom") true;
     Plain "k"].

(** A schedule under which the delimited encoder, on [nested], runs to
    its end: the consumer asks for each chunk, the sources settle. *)
Definition nestedSchedule : list encEvent :=
  [Next; Next; Source 0; Race 0; Next; Source 0; Source 1; Race 0; Next;
   Race 0; Next]%nat.

(** A schedule under which the delimited encoder, on [Scenario.S3], runs
    to its end. *)
Definition S3Schedule : list encEvent :=
  [Next; Next; Source 0; Race 0; Next; Source 0; Race 0; Next; Source 0;
   Race 0; Next; Source 0; Race 0; Next]%nat.

(** The chunks the encoder yields on [Scenario.S3] with the codec
    [Toy]. *)
Definition S3Chunks : list chunk :=
  [ChunkStr "[a10]"; ChunkStr "1:0:s+1."; ChunkStr "1:0:s+2.";
   ChunkStr "1:0:s+3."; ChunkStr "1:1:s+d+o+n+e."].

(** The same chunks arrive, to a holder that pulls the sequence for the
    first time when its first frame has arrived already. *)
Definition latePull : list decEvent :=
  [Arrive (ChunkStr "1:0:s+1."); Pull 0; Arrive (ChunkStr "1:0:s+2.");
   Read 0; Pull 0; Arrive (ChunkStr "1:0:s+3."); Read 0; Pull 0;
   Arrive (ChunkStr "1:1:s+d+o+n+e."); Read 0; Dispose 0; EndOfStream]%nat.

End Runs.

(** The same codec behind a reader of lines that stands for
    [JSON.parse]: a line [[i,s,payload]] whose first two fields are
    decimal is the array of the two numbers and the payload, any other
    line is its own text; [unflatten] reads the text back. *)
Module ToyJson.

(** [s] without its last [n] characters. *)
Definition chop (n : nat) (s : string) : string :=
  JsString.take (String.length s - n) s.

(** The text cut at its first two commas. *)
Definition cut (str : string) : string * string * string :=
  let index := JsString.indexOf str "," in
  let a := JsString.slice str 0 index in
  let str1 := JsString.sliceFrom str (index + 1) in
  let index1 := JsString.indexOf str1 "," in
  let b := JsString.slice str1 0 index1 in
  (a, b, JsString.sliceFrom str1 (index1 + 1)).

Definition jsonParse (s : string) : result jsError json :=
  match s with
  | String "[" r =>
      let '(a, b, r2) := cut r in
      if JsString.isDecimal a && JsString.isDecimal b
      then Return (JArray [JNumber (NumNat (JsString.parseInt a));
                           JNumber (NumNat (JsString.parseInt b));
                           JString (chop 2 r2)])
      else Return (JString (chop 1 s))
  | _ => Return (JString (chop 1 s))
  end.

Definition unflatten (j : option json) : parsed :=
  match j with
  | Some (JString p) => Toy.parseText p
  | _ => ParseFail [] (ExtError "Error")
  end.

End ToyJson.

Module RunsJson.

(** A schedule under which the JSON-array encoder, on [Runs.nested],
    runs to its end. *)
Definition nestedSchedule : list encEvent :=
  [Next; Next; Source 0; Race 0; Next; Source 0; Race 0; Next; Race 1;
   Source 0; Race 0; Next; Race 0]%nat.

(** A schedule under which the JSON-array encoder, on [Scenario.S3],
    runs to its end. *)
Definition S3Schedule : list encEvent :=
  [Next; Next; Source 0; Race 0; Next; Source 0; Race 0; Next; Source 0;
   Race 0; Next; Source 0; Race 0; Next; Race 0]%nat.

(** The chunks it yields with the codec [Toy]. *)
Definition S3Chunks : list chunk :=
  [line "[a10]"; line "[1,0,s+1.]"; line "[1,0,s+2.]"; line "[1,0,s+3.]";
   line "[1,2,s+d+o+n+e.]"].

(** The same chunks arrive, to a holder that pulls the sequence for the
    first time when its first frame has arrived already. *)
Definition latePull : list decEvent :=
  [Arrive (line "[1,0,s+1.]"); Pull 0; Arrive (line "[1,0,s+2.]"); Read 0;
   Pull 0; Arrive (line "[1,0,s+3.]"); Read 0; Pull 0;
   Arrive (line "[1,2,s+d+o+n+e.]"); Read 0; EndOfStream]%nat.

End RunsJson.

(** ** Statements about abandonment *)

(** While the encoder's body runs, no producer has been returned; before
    its first [next()] nothing is registered either. *)
Definition noReturnYet (enc : encoder) : Prop :=
  match enc_main enc with
  | Ended => True
  | Threw _ => True
  | Start _ =>
      genReturns (enc_st enc) = [] /\ buffer (enc_st enc) = []
  | _ => genReturns (enc_st enc) = []
  end.

(** ** Statements about a pump that has stopped *)


(** ** The stream adapters ([readableStreamFrom], [asyncIterableFrom])

    The host's [ReadableStream] is modelled as the Streams standard
    specifies a stream with a default controller and the default queuing
    strategy (high-water mark 1, every chunk of size 1).  A source
    iterator is given by what its calls of [next()] settle with, in
    order; a list that is used up stands for an iterator that is done.
    Every suspension is an event: the stream's start, the settling of
    [iterator.next()], the stream's reaction to the settled [pull()]. *)

Section StreamAdapters.

Context {T : Type}.

(** What a call of [iterator.next()] settles with.  The value that comes
    with [done] is not looked at by the adapter. *)
Inductive sourceResult : Type :=
| SrcValue (x : T)
| SrcDone
| SrcThrow (e : jsError).

(** What [reader.read()] settles with. *)
Inductive readResult : Type :=
| ReadChunk (x : T)          (* [{ value: x, done: false }] *)
| ReadDone                   (* [{ value: undefined, done: true }] *)
| ReadError (e : jsError).   (* rejection *)

Inductive streamState : Type :=
| Readable
| StreamClosed
| Errored (e : jsError).

(** Where the stream's call of [pull(controller)] is. *)
Inductive pullPhase : Type :=
| PullIdle
    (* [[pulling]] is false *)
| AwaitingNext
    (* [pull] is suspended at [await iterator.next()] *)
| Settling (r : option jsError)
    (* [pull] has returned ([None]) or thrown; the stream has not reacted
       to its promise yet *)
| PullFailed.
    (* the stream has reacted to the rejection of the promise *)

(** The stream made by [readableStreamFrom], with its source iterator.
    [a_nexts] and [a_returns] count the calls of [iterator.next()] and
    [iterator.return()]; [a_reads] counts the calls of [reader.read()],
    the [n]-th of which is the request [n]; [a_requests] are the pending
    requests, oldest first, and [a_results] the settled ones, in the order
    in which they settled. *)
Record adapter : Type := MkAdapter {
  a_source : list sourceResult;
  a_hasReturn : bool;
  a_nexts : nat;
  a_returns : nat;
  a_state : streamState;
  a_queue : list T;
  a_started : bool;
  a_pull : pullPhase;
  a_pullAgain : bool;
  a_closeRequested : bool;
  a_locked : bool;
  a_reads : nat;
  a_requests : list nat;
  a_results : list (nat * readResult)
}.

Definition setSource (s : adapter) (l : list sourceResult) : adapter :=
  MkAdapter l (a_hasReturn s) (a_nexts s) (a_returns s) (a_state s)
    (a_queue s) (a_started s) (a_pull s) (a_pullAgain s)
    (a_closeRequested s) (a_locked s) (a_reads s) (a_requests s)
    (a_results s).

Definition setNexts (s : adapter) (n : nat) : adapter :=
  MkAdapter (a_source s) (a_hasReturn s) n (a_returns s) (a_state s)
    (a_queue s) (a_started s) (a_pull s) (a_pullAgain s)
    (a_closeRequested s) (a_locked s) (a_reads s) (a_requests s)
    (a_results s).

Definition setReturns (s : adapter) (n : nat) : adapter :=
  MkAdapter (a_source s) (a_hasReturn s) (a_nexts s) n (a_state s)
    (a_queue s) (a_started s) (a_pull s) (a_pullAgain s)
    (a_closeRequested s) (a_locked s) (a_reads s) (a_requests s)
    (a_results s).

Definition setState (s : adapter) (x : streamState) : adapter :=
  MkAdapter (a_source s) (a_hasReturn s) (a_nexts s) (a_returns s) x
    (a_queue s) (a_started s) (a_pull s) (a_pullAgain s)
    (a_closeRequested s) (a_locked s) (a_reads s) (a_requests s)
    (a_results s).

Definition setQueue (s : adapter) (q : list T) : adapter :=
  MkAdapter (a_source s) (a_hasReturn s) (a_nexts s) (a_returns s)
    (a_state s) q (a_started s) (a_pull s) (a_pullAgain s)
    (a_closeRequested s) (a_locked s) (a_reads s) (a_requests s)
    (a_results s).

Definition setStarted (s : adapter) (b : bool) : adapter :=
  MkAdapter (a_source s) (a_hasReturn s) (a_nexts s) (a_returns s)
    (a_state s) (a_queue s) b (a_pull s) (a_pullAgain s)
    (a_closeRequested s) (a_locked s) (a_reads s) (a_requests s)
    (a_results s).

Definition setPull (s : adapter) (p : pullPhase) : adapter :=
  MkAdapter (a_source s) (a_hasReturn s) (a_nexts s) (a_returns s)
    (a_state s) (a_queue s) (a_started s) p (a_pullAgain s)
    (a_closeRequested s) (a_locked s) (a_reads s) (a_requests s)
    (a_results s).

Definition setPullAgain (s : adapter) (b : bool) : adapter :=
  MkAdapter (a_source s) (a_hasReturn s) (a_nexts s) (a_returns s)
    (a_state s) (a_queue s) (a_started s) (a_pull s) b
    (a_closeRequested s) (a_locked s) (a_reads s) (a_requests s)
    (a_results s).

Definition setCloseRequested (s : adapter) (b : bool) : adapter :=
  MkAdapter (a_source s) (a_hasReturn s) (a_nexts s) (a_returns s)
    (a_state s) (a_queue s) (a_started s) (a_pull s) (a_pullAgain s)
    b (a_locked s) (a_reads s) (a_requests s) (a_results s).

Definition setLocked (s : adapter) (b : bool) : adapter :=
  MkAdapter (a_source s) (a_hasReturn s) (a_nexts s) (a_returns s)
    (a_state s) (a_queue s) (a_started s) (a_pull s) (a_pullAgain s)
    (a_closeRequested s) b (a_reads s) (a_requests s) (a_results s).

Definition setReads (s : adapter) (n : nat) : adapter :=
  MkAdapter (a_source s) (a_hasReturn s) (a_nexts s) (a_returns s)
    (a_state s) (a_queue s) (a_started s) (a_pull s) (a_pullAgain s)
    (a_closeRequested s) (a_locked s) n (a_requests s) (a_results s).

(** The pending requests become [reqs], and [new] is added to the settled
    ones. *)
Definition settle (s : adapter) (reqs : list nat)
    (new : list (nat * readResult)) : adapter :=
  MkAdapter (a_source s) (a_hasReturn s) (a_nexts s) (a_returns s)
    (a_state s) (a_queue s) (a_started s) (a_pull s) (a_pullAgain s)
    (a_closeRequested s) (a_locked s) (a_reads s) reqs
    (a_results s ++ new).

(** *** The host's stream *)

Definition isReadable (s : adapter) : bool :=
  match a_state s with
  | Readable => true
  | _ => false
  end.

(** [ReadableStreamDefaultControllerCanCloseOrEnqueue]. *)
Definition canCloseOrEnqueue (s : adapter) : bool :=
  negb (a_closeRequested s) && isReadable s.

(** [ReadableStreamDefaultControllerGetDesiredSize] of a readable stream:
    the high-water mark less the size of the queue. *)
Definition desiredSize (s : adapter) : Z :=
  1 - Z.of_nat (length (a_queue s)).

(** [ReadableStreamDefaultControllerShouldCallPull]. *)
Definition shouldCallPull (s : adapter) : bool :=
  if negb (canCloseOrEnqueue s) then false
  else if negb (a_started s) then false
  else if a_locked s && negb (bool_decide (a_requests s = [])) then true
  else bool_decide (0 < desiredSize s).

(** [ReadableStreamClose]: the pending reads settle with [done]. *)
Definition streamClose (s : adapter) : adapter :=
  settle (setState s StreamClosed) []
    (map (fun id => (id, ReadDone)) (a_requests s)).

(** [ReadableStreamError]: the pending reads are rejected. *)
Definition streamError (e : jsError) (s : adapter) : adapter :=
  settle (setState s (Errored e)) []
    (map (fun id => (id, ReadError e)) (a_requests s)).

(** [ReadableStreamDefaultControllerError]. *)
Definition controllerError (e : jsError) (s : adapter) : adapter :=
  if isReadable s then streamError e (setQueue s []) else s.

(** *** [readableStreamFrom]: the underlying source *)

(** [pull(controller)] up to its [await]: it calls [iterator.next()]. *)
Definition pullCall (s : adapter) : adapter :=
  setPull (setNexts s (S (a_nexts s))) AwaitingNext.

(** [ReadableStreamDefaultControllerCallPullIfNeeded]. *)
Definition callPullIfNeeded (s : adapter) : adapter :=
  if shouldCallPull s then
    match a_pull s with
    | PullIdle => pullCall s
    | _ => setPullAgain s true
    end
  else s.

(** [controller.enqueue(x)]. *)
Definition controllerEnqueue (x : T) (s : adapter)
  : result jsError adapter :=
  if canCloseOrEnqueue s then
    let s1 :=
      match a_locked s, a_requests s with
      | true, id :: rest => settle s rest [(id, ReadChunk x)]
      | _, _ => setQueue s (a_queue s ++ [x])
      end in
    Return (callPullIfNeeded s1)
  else Throw (ExtError "TypeError").

(** [controller.close()]. *)
Definition controllerClose (s : adapter) : result jsError adapter :=
  if canCloseOrEnqueue s then
    let s1 := setCloseRequested s true in
    match a_queue s1 with
    | [] => Return (streamClose s1)
    | _ => Return s1
    end
  else Throw (ExtError "TypeError").

(** The head of the source: what the pending [iterator.next()] settles
    with, and what is left. *)
Definition nextOf (l : list sourceResult)
  : sourceResult * list sourceResult :=
  match l with
  | [] => (SrcDone, [])
  | r :: rest => (r, rest)
  end.

(** [pull(controller)] from the moment [iterator.next()] has settled
    with [r]. *)
Definition pullResume (r : sourceResult) (s : adapter)
  : result jsError adapter :=
  match r with
  | SrcThrow e => Throw e
  | SrcDone => controllerClose s
  | SrcValue x => controllerEnqueue x s
  end.

(** [cancel()]: [await iterator.return?.()]. *)
Definition cancelMethod (s : adapter) : adapter :=
  if a_hasReturn s then setReturns s (S (a_returns s)) else s.

(** [readableStreamFrom(iterable)], for an iterable whose iterator
    behaves as [src] and has a [return] method iff [hasReturn]. *)
Definition readableStreamFrom (src : list sourceResult) (hasReturn : bool)
  : adapter :=
  {| a_source := src; a_hasReturn := hasReturn;
     a_nexts := 0; a_returns := 0;
     a_state := Readable; a_queue := []; a_started := false;
     a_pull := PullIdle; a_pullAgain := false; a_closeRequested := false;
     a_locked := false; a_reads := 0; a_requests := []; a_results := [] |}.

(** *** The reader *)

(** [stream.getReader()]. *)
Definition getReader (s : adapter) : result jsError adapter :=
  if a_locked s then Throw (ExtError "TypeError")
  else Return (setLocked s true).

(** [reader.read()]: the state reached and the number of the request. *)
Definition readCall (s : adapter) : adapter * nat :=
  let id := a_reads s in
  let s0 := setReads s (S id) in
  (match a_state s0 with
   | StreamClosed => settle s0 (a_requests s0) [(id, ReadDone)]
   | Errored e => settle s0 (a_requests s0) [(id, ReadError e)]
   | Readable =>
       match a_queue s0 with
       | x :: q =>
           let s1 := setQueue s0 q in
           let s2 :=
             if a_closeRequested s1 && bool_decide (q = [])
             then streamClose s1 else callPullIfNeeded s1 in
           settle s2 (a_requests s2) [(id, ReadChunk x)]
       | [] =>
           callPullIfNeeded (settle s0 (a_requests s0 ++ [id]) [])
       end
   end, id).

(** [reader.cancel()] (or [stream.cancel()] on a stream that is not
    locked). *)
Definition cancelStream (s : adapter) : adapter :=
  match a_state s with
  | Readable => cancelMethod (setQueue (streamClose s) [])
  | _ => s
  end.

(** [reader.releaseLock()]: the pending reads are rejected. *)
Definition releaseLock (s : adapter) : adapter :=
  settle (setLocked s false) []
    (map (fun id => (id, ReadError (ExtError "TypeError"))) (a_requests s)).

(** What can happen to the stream. *)
Inductive adapterEvent : Type :=
| StartDone       (* the stream's start has completed *)
| NextSettles     (* the pending [iterator.next()] settles *)
| PullSettles     (* the stream reacts to the settled [pull()] *)
| GetReader       (* somebody calls [getReader()] *)
| ReadCall        (* the reader's holder calls [read()] *)
| CancelCall      (* [cancel()] is called *)
| ReleaseLock.    (* the reader's holder calls [releaseLock()] *)

Definition adapterStep (ev : adapterEvent) (s : adapter)
  : option adapter :=
  match ev with
  | StartDone =>
      if a_started s then None
      else Some (callPullIfNeeded (setStarted s true))
  | NextSettles =>
      match a_pull s with
      | AwaitingNext =>
          let (r, rest) := nextOf (a_source s) in
          let s1 := setSource s rest in
          match pullResume r s1 with
          | Return s2 => Some (setPull s2 (Settling None))
          | Throw e => Some (setPull s1 (Settling (Some e)))
          end
      | _ => None
      end
  | PullSettles =>
      match a_pull s with
      | Settling None =>
          let s1 := setPull s PullIdle in
          if a_pullAgain s1
          then Some (callPullIfNeeded (setPullAgain s1 false))
          else Some s1
      | Settling (Some e) => Some (controllerError e (setPull s PullFailed))
      | _ => None
      end
  | GetReader =>
      match getReader s with
      | Return s1 => Some s1
      | Throw _ => Some s
      end
  | ReadCall => if a_locked s then Some (fst (readCall s)) else None
  | CancelCall => Some (cancelStream s)
  | ReleaseLock => if a_locked s then Some (releaseLock s) else None
  end.

Fixpoint adapterRun (evs : list adapterEvent) (s : adapter)
  : option adapter :=
  match evs with
  | [] => Some s
  | ev :: rest =>
      match adapterStep ev s with
      | Some s' => adapterRun rest s'
      | None => None
      end
  end.

(** *** [asyncIterableFrom] *)

(** Where the body of the async generator is. *)
Inductive genState : Type :=
| GenNotStarted
    (* the body has not run: no reader has been acquired *)
| GenReading (id : nat)
    (* at [await reader.read()], the read being request [id] *)
| GenAtYield
    (* at [yield res.value] *)
| GenDone.

(** What a call of the generator's [next()] or [return()] settles
    with. *)
Inductive genOutput : Type :=
| GenYield (x : T)           (* [{ value: x, done: false }] *)
| GenReturn                  (* [{ value: undefined, done: true }] *)
| GenThrow (e : jsError).    (* rejection *)

(** The generator made by [asyncIterableFrom(stream)], with the stream;
    [p_out] lists what its calls have settled with. *)
Record piped : Type := MkPiped {
  p_stream : adapter;
  p_gen : genState;
  p_out : list genOutput
}.

Definition asyncIterableFrom (stream : adapter) : piped :=
  {| p_stream := stream; p_gen := GenNotStarted; p_out := [] |}.

(** The first settled result of request [id]. *)
Fixpoint resultOf (id : nat) (l : list (nat * readResult))
  : option readResult :=
  match l with
  | [] => None
  | (i, r) :: rest => if Nat.eqb i id then Some r else resultOf id rest
  end.

(** The loop's [const res = await reader.read()], up to the [await]. *)
Definition genRead (s : adapter) (out : list genOutput) : piped :=
  let (s1, id) := readCall s in MkPiped s1 (GenReading id) out.

(** The body from the moment the awaited read has settled with [r]: the
    [yield], or the way out through [finally]. *)
Definition genResume (r : readResult) (s : adapter) (out : list genOutput)
  : piped :=
  match r with
  | ReadChunk x => MkPiped s GenAtYield (out ++ [GenYield x])
  | ReadDone => MkPiped (releaseLock s) GenDone (out ++ [GenReturn])
  | ReadError e => MkPiped (releaseLock s) GenDone (out ++ [GenThrow e])
  end.

Inductive pipeEvent : Type :=
| Stream (ev : adapterEvent)   (* something happens to the stream *)
| CallNext                     (* the consumer calls [next()] *)
| ReadSettles                  (* the generator resumes from its [await] *)
| CallReturn.                  (* the consumer calls [return()] *)

(** A call of [next()] or [return()] made while the generator is running
    is queued by the generator and is not an event of this model; nor is
    a call made on a generator that is done. *)
Definition pipeStep (ev : pipeEvent) (p : piped) : option piped :=
  let s := p_stream p in
  let out := p_out p in
  match ev with
  | Stream e =>
      match adapterStep e s with
      | Some s' => Some (MkPiped s' (p_gen p) out)
      | None => None
      end
  | CallNext =>
      match p_gen p with
      | GenNotStarted =>
          match getReader s with
          | Throw e => Some (MkPiped s GenDone (out ++ [GenThrow e]))
          | Return s1 => Some (genRead s1 out)
          end
      | GenAtYield => Some (genRead s out)
      | _ => None
      end
  | ReadSettles =>
      match p_gen p with
      | GenReading id =>
          match resultOf id (a_results s) with
          | Some r => Some (genResume r s out)
          | None => None
          end
      | _ => None
      end
  | CallReturn =>
      match p_gen p with
      | GenNotStarted => Some (MkPiped s GenDone (out ++ [GenReturn]))
      | GenAtYield =>
          Some (MkPiped (releaseLock s) GenDone (out ++ [GenReturn]))
      | _ => None
      end
  end.

Fixpoint pipeRun (evs : list pipeEvent) (p : piped) : option piped :=
  match evs with
  | [] => Some p
  | ev :: rest =>
      match pipeStep ev p with
      | Some p' => pipeRun rest p'
      | None => None
      end
  end.

(** The stream's own events: those that are not calls from outside. *)
Definition isInternal (ev : adapterEvent) : bool :=
  match ev with
  | StartDone | NextSettles | PullSettles => true
  | _ => false
  end.

(** *** What iterating the source directly gives *)

(** The first [n] results of reading from a source that behaves as
    [src]: its values, then [done] or its exception for ever. *)
Fixpoint idealReads (src : list sourceResult) (n : nat)
  : list readResult :=
  match n with
  | O => []
  | S n' =>
      match src with
      | SrcValue x :: rest => ReadChunk x :: idealReads rest n'
      | SrcThrow e :: _ => ReadError e :: idealReads src n'
      | _ => ReadDone :: idealReads src n'
      end
  end.

(** What a [for await] over the source observes: its values, then the
    end or the exception. *)
Fixpoint sourceOutputs (src : list sourceResult) : list genOutput :=
  match src with
  | SrcValue x :: rest => GenYield x :: sourceOutputs rest
  | SrcThrow e :: _ => [GenThrow e]
  | _ => [GenReturn]
  end.

End StreamAdapters.

Arguments sourceResult : clear implicits.
Arguments readResult : clear implicits.
Arguments adapter : clear implicits.
Arguments genOutput : clear implicits.
Arguments piped : clear implicits.

(** ** Statements about the adapters *)

(** One more [iterator.next()] may be called without a further read:
    the queue is empty, no [pull] is under way and the stream is still
    open for chunks. *)
Definition credit {T} (s : adapter T) : nat :=
  match a_queue s, a_pull s, a_state s, a_closeRequested s with
  | [], PullIdle, Readable, false => 1
  | [], Settling None, Readable, false => 1
  | _, _, _, _ => 0
  end.

(** The invariant of the stream's look-ahead. *)
Definition lazyInv {T} (s : adapter T) : Prop :=
  (a_requests s <> [] -> a_locked s = true /\ a_queue s = []) /\
  (a_pull s = AwaitingNext -> a_queue s = []) /\
  (length (a_queue s) <= 1)%nat /\
  (length (a_results s) + length (a_requests s) = a_reads s)%nat /\
  (a_nexts s + credit s <= length (a_results s) + 1)%nat.

(** The stream has been cancelled: it is closed and empty, no read is
    pending, [iterator.return()] has been called [r] times, and since the
    cancellation the reads [ids] have settled, all with [done]. *)
Definition cancelled {T} (r : nat) (before : list (nat * readResult T))
    (s : adapter T) : Prop :=
  a_state s = StreamClosed /\ a_queue s = [] /\ a_requests s = [] /\
  a_returns s = r /\
  exists ids, a_results s = before ++ map (fun id => (id, ReadDone)) ids.

(** The invariant of a stream nobody has cancelled, on the source [src]:
    the reads have been numbered and settled in order; the values [xs]
    have been read; and [src] is made of the values read or queued,
    followed by what the stream has met (its end, or an exception) or by
    what is left of the source. *)
Definition flowInv {T} (src : list (sourceResult T)) (s : adapter T)
  : Prop :=
  map fst (a_results s) = seq 0 (length (a_results s)) /\
  a_requests s = seq (length (a_results s)) (length (a_requests s)) /\
  a_reads s = (length (a_results s) + length (a_requests s))%nat /\
  (a_requests s <> [] ->
   a_locked s = true /\ a_queue s = [] /\ a_state s = Readable) /\
  exists xs m,
    match a_state s with
    | Readable =>
        a_closeRequested s = false /\ m = 0%nat /\
        map snd (a_results s) = map ReadChunk xs /\
        match a_pull s with
        | AwaitingNext =>
            a_queue s = [] /\ src = map SrcValue xs ++ a_source s
        | Settling (Some e) =>
            a_queue s = [] /\
            src = map SrcValue xs ++ SrcThrow e :: a_source s
        | PullFailed => False
        | _ => src = map SrcValue (xs ++ a_queue s) ++ a_source s
        end
    | StreamClosed =>
        map snd (a_results s) = map ReadChunk xs ++ repeat ReadDone m /\
        (src = map SrcValue xs \/
         exists rest, src = map SrcValue xs ++ SrcDone :: rest)
    | Errored e =>
        map snd (a_results s)
        = map ReadChunk xs ++ repeat (ReadError e) m /\
        exists rest, src = map SrcValue xs ++ SrcThrow e :: rest
    end.

(** What the generator makes of a settled read. *)
Definition outOf {T} (r : readResult T) : genOutput T :=
  match r with
  | ReadChunk x => GenYield x
  | ReadDone => GenReturn
  | ReadError e => GenThrow e
  end.

Definition isChunk {T} (r : readResult T) : Prop :=
  match r with
  | ReadChunk _ => True
  | _ => False
  end.

(** The event is the stream's own, or a call of the generator's
    consumer. *)
Definition ownEvent (ev : pipeEvent) : bool :=
  match ev with
  | Stream e => isInternal e
  | _ => true
  end.

(** The invariant of the generator made by [asyncIterableFrom] from the
    stream made by [readableStreamFrom] on the source [src]. *)
Definition pipeInv {T} (src : list (sourceResult T)) (p : piped T)
  : Prop :=
  let s := p_stream p in
  let rs := map snd (a_results s) in
  flowInv src s /\ a_returns s = 0%nat /\
  match p_gen p with
  | GenNotStarted =>
      a_locked s = false /\ a_results s = [] /\ a_requests s = [] /\
      p_out p = []
  | GenReading id =>
      a_locked s = true /\ S id = a_reads s /\
      (id <= length (a_results s))%nat /\
      Forall isChunk (take id rs) /\ p_out p = map outOf (take id rs)
  | GenAtYield =>
      a_locked s = true /\ a_requests s = [] /\
      Forall isChunk rs /\ p_out p = map outOf rs
  | GenDone =>
      a_locked s = false /\ a_requests s = [] /\
      ((exists k, length rs = S k /\ Forall isChunk (take k rs) /\
                  p_out p = map outOf rs) \/
       (Forall isChunk rs /\ p_out p = map outOf rs ++ [GenReturn]))
  end.

(** The invariant that keeps a pending read from waiting for ever: while
    a read is pending, the stream has not started yet, or a [pull] is
    under way, or the stream is about to call [pull] again. *)
Definition pendingInv {T} (s : adapter T) : Prop :=
  (a_started s = false -> a_pull s = PullIdle) /\
  (a_requests s <> [] ->
   (a_started s = false /\ a_pull s = PullIdle) \/
   a_pull s = AwaitingNext \/
   (exists e, a_pull s = Settling (Some e)) \/
   (a_pull s = Settling None /\ a_pullAgain s = true)).

(** ** Statements about the chunks on the wire *)

(** The chunk is the text of a frame whose id is at most [c] and whose
    status is one of the codes 0, 1, 2. *)
Definition frameChunk (w : variant) (c : N) (ch : chunk) : Prop :=
  exists fr,
    ch = ChunkStr (frameText w fr) /\
    (1 <= f_idx fr <= c)%N /\ (f_status fr <= 2)%N.

(** The chunks are the text of a root followed by frames. *)
Definition wireOK (w : variant) (c : N) (out : list chunk) : Prop :=
  match out with
  | [] => True
  | r :: frames =>
      (exists s, r = ChunkStr (rootText w s)) /\
      Forall (frameChunk w c) frames
  end.

(** A producer that has yielded goes on with its loop: in the delimited
    variant only the async-iterable producer yields, and only items. *)
Definition loopsOn (w : variant) (k : afterYield) : Prop :=
  match w, k with
  | Delimited, ThenLoop _ _ _ _ => True
  | Delimited, _ => False
  | JsonArray, _ => True
  end.

(** What an entry holds while the encoder's loop runs. *)
Definition entryWire (w : variant) (e : entry) : Prop :=
  e_returnQueued e = false /\
  match e_nextPromise e with
  | Resolved (Some fr) d =>
      f_idx fr = e_idx e /\ (f_status fr <= 2)%N /\
      (d = false -> exists k, e_iterator e = AtYield k /\ loopsOn w k)
  | Resolved None d => w = JsonArray /\ d = true
  | _ => True
  end.

(** What a producer's body hands over when it stops. *)
Definition stopWire (w : variant) (idx : N) (stop : bodyStop) : Prop :=
  match stop with
  | Yields fr k => f_idx fr = idx /\ (f_status fr <= 2)%N /\ loopsOn w k
  | Returns fr => f_idx fr = idx /\ (f_status fr <= 2)%N
  | Throws _ => True
  end.

(** From [st] to [st'] entries were added at the end of [buffer], with
    pending promises, and the counter did not go down. *)
Definition grown (w : variant) (st st' : encState) : Prop :=
  (counter st <= counter st')%N /\
  exists new,
    buffer st' = buffer st ++ new /\
    Forall (fun e => entryWire w e /\ e_nextPromise e = Pending) new.

(** The invariant of the encoder's output. *)
Definition wireInv (w : variant) (enc : encoder) : Prop :=
  wireOK w (counter (enc_st enc)) (enc_out enc) /\
  match enc_main enc with
  | Start _ => enc_out enc = [] /\ buffer (enc_st enc) = []
  | RootYield =>
      enc_out enc <> [] /\ Forall (entryWire w) (buffer (enc_st enc))
  | Racing _ _ =>
      enc_out enc <> [] /\ Forall (entryWire w) (buffer (enc_st enc))
  | ChunkYield _ e =>
      enc_out enc <> [] /\ Forall (entryWire w) (buffer (enc_st enc)) /\
      entryWire w e /\ exists val d, e_nextPromise e = Resolved val d
  | _ => True
  end.

(** ** The encoder on a value all of whose data is supported *)

(** What an entry of [buffer] holds while the encoder runs on such a
    value: a producer waits for its source, or holds a frame, or (in the
    JSON-array variant) has ended after its last frame. *)
Definition entryFit (w : variant) (supported : string -> bool)
    (e : entry) : Prop :=
  e_returnQueued e = false /\
  match e_nextPromise e with
  | Pending => isSource supported (e_iterator e)
  | Resolved (Some _) dn => contOK w supported (e_iterator e) dn
  | Resolved None dn => w = JsonArray /\ dn = true /\ e_iterator e = Closed
  | RejectedWith _ => False
  end.

(** The invariant of the encoder's run on such a value, as long as its
    consumer does not return early. *)
Definition fitInv (w : variant) (supported : string -> bool)
    (enc : encoder) : Prop :=
  Forall (entryFit w supported) (buffer (enc_st enc)) /\
  match enc_main enc with
  | Start v => allSupported supported v = true /\ buffer (enc_st enc) = []
  | ChunkYield k e =>
      entryFit w supported e /\
      (exists fr dn, e_nextPromise e = Resolved (Some fr) dn) /\
      (w = Delimited -> buffer (enc_st enc) !! k = Some e)
  | Threw _ => False
  | _ => True
  end.

(** ** The sinks of the delimited decoder *)

(** The reviver is in its [finally] block, between [await
    reader.cancel()] on stream [h] and [enqueueMap.delete(idx)]. *)
Definition isCancelling (st : consumerState) (h : nat) : Prop :=
  st = Cancelling h \/ exists p, st = CancellingThen h p.




(** ** The chunks of a promise producer *)

(** The chunks of the frames [frs]. *)
Definition frameChunks (w : variant) (frs : list frame) : list chunk :=
  map (fun fr => ChunkStr (frameText w fr)) frs.

(** The frames of producer [idx] among [frs]. *)
Definition framesOf (idx : N) (frs : list frame) : list frame :=
  filter (fun fr => f_idx fr = idx) frs.

(** The chunks [out] are the text of a root followed by the chunks of the
    frames [frs]. *)
Definition framesIn (w : variant) (out : list chunk) (frs : list frame)
  : Prop :=
  match out with
  | [] => frs = []
  | r :: rest =>
      (exists s, r = ChunkStr (rootText w s)) /\ rest = frameChunks w frs
  end.

(** The frames whose chunk the step [ev] writes. *)
Definition stepFrames (w : variant) (ev : encEvent) (enc : encoder)
  : list frame :=
  match ev, enc_main enc with
  | Race k, Racing _ _ =>
      match buffer (enc_st enc) !! k with
      | Some e =>
          match e_nextPromise e with
          | Resolved (Some fr) done =>
              match w with
              | JsonArray => if done then [] else [fr]
              | Delimited => [fr]
              end
          | _ => []
          end
      | None => []
      end
  | _, _ => []
  end.

Definition isReturnEarly (ev : encEvent) : bool :=
  match ev with
  | ReturnEarly => true
  | _ => false
  end.

(** In the delimited variant the entry whose chunk is being yielded is
    still in [buffer], at the position where the race found it. *)
Definition posInv (w : variant) (enc : encoder) : Prop :=
  match w, enc_main enc with
  | Delimited, ChunkYield k e => buffer (enc_st enc) !! k = Some e
  | _, _ => True
  end.

(** A promise producer of [b] whose body is suspended at [await v] has a
    pending [nextPromise] and no frame among [frs]. *)
Definition awaiting (b : list entry) (frs : list frame) : Prop :=
  forall e how v,
    e ∈ b -> e_iterator e = AwaitPromise how v ->
    e_nextPromise e = Pending /\ framesOf (e_idx e) frs = [].

(** A producer that waits for its promise has had no chunk written,
    [frs] being the frames written so far, all of registered producers.
    The encoder's generator ends with producers left in [buffer] only
    when the consumer has returned early, which [early] records. *)
Definition awaitInv (w : variant) (early : bool) (enc : encoder)
    (frs : list frame) : Prop :=
  framesIn w (enc_out enc) frs /\
  Forall (fun fr => (f_idx fr <= counter (enc_st enc))%N) frs /\
  awaiting (buffer (enc_st enc)) frs /\
  (enc_main enc = Ended -> early = true \/ buffer (enc_st enc) = []).

(** The entry holds what the body of its producer handed over at [stop].
    (A producer whose [return()] was requested while its body ran closes
    at its [yield].) *)
Definition holdsStop (stop : bodyStop) (e : entry) : Prop :=
  match stop with
  | Yields fr k =>
      (e_iterator e = AtYield k \/ e_iterator e = Closed) /\
      e_nextPromise e = Resolved (Some fr) false
  | Returns fr =>
      e_iterator e = Closed /\ e_nextPromise e = Resolved (Some fr) true
  | Throws c => e_iterator e = Closed /\ e_nextPromise e = RejectedWith c
  end.

(** A stop of the promise producer's body: its only [yield] (JSON-array
    variant), its [return] (delimited variant), or an exception. *)
Definition promiseStop (w : variant) (stop : bodyStop) : Prop :=
  match stop with
  | Yields _ k => w = JsonArray /\ k = ThenEnd
  | Returns _ => w = Delimited
  | Throws _ => True
  end.



(** The encoder's generator has ended or thrown. *)
Definition stopped (m : mainState) : Prop :=
  match m with
  | Ended | Threw _ => True
  | _ => False
  end.



(** ** Frames handed over and frames written *)

(** The frame an entry holds for the encoder's loop, if any. *)
Definition heldFrame (e : entry) : list frame :=
  match e_nextPromise e with
  | Resolved (Some fr) _ => [fr]
  | _ => []
  end.

(** The frames that the entries of producer [idx] in [b] hold. *)
Definition held (idx : N) (b : list entry) : list frame :=
  flat_map (fun e => if decide (e_idx e = idx) then heldFrame e else []) b.

(** The frames that producer [idx] has handed over and the encoder has
    not written yet: those its entry in [buffer] holds, unless the
    encoder is at the [yield] of that entry's chunk (in the delimited
    variant the entry stays in [buffer] during that [yield]). *)
Definition pendingFrames (w : variant) (idx : N) (enc : encoder)
  : list frame :=
  match w, enc_main enc with
  | Delimited, ChunkYield _ e =>
      if decide (e_idx e = idx) then []
      else held idx (buffer (enc_st enc))
  | _, _ => held idx (buffer (enc_st enc))
  end.

Section HandedOver.

Variable supported : string -> bool.
Variable codecError : string -> value.
Variable print : flat -> string.
Variable coerceError : option (value -> value).
Variable w : variant.

(** The frame with which the body of the producer at position [k] stops
    when its source settles, if it stops with one. *)
Definition handsOver (k : nat) (st : encState) : list frame :=
  match buffer st !! k with
  | Some e =>
      match e_nextPromise e, e_iterator e with
      | Pending, AwaitPromise how v =>
          option_list
            (stopFrame
               (snd (promiseBody supported codecError print coerceError w
                       (e_idx e) how v st)))
      | Pending, AwaitNext items how v ret =>
          option_list
            (stopFrame
               (snd (iterBody supported codecError print coerceError w
                       (e_idx e) items how v ret st)))
      | _, _ => []
      end
  | None => []
  end.

(** The frames the producers' bodies hand over at the event [ev]. *)
Definition eventFrames (ev : encEvent) (enc : encoder) : list frame :=
  match ev with
  | Source k => handsOver k (enc_st enc)
  | _ => []
  end.

(** The frames the producers' bodies hand over along a run, in order. *)
Fixpoint handedOver (evs : list encEvent) (enc : encoder) : list frame :=
  match evs with
  | [] => []
  | ev :: rest =>
      match encStep supported codecError print coerceError w ev enc with
      | Some enc' => eventFrames ev enc ++ handedOver rest enc'
      | None => []
      end
  end.

End HandedOver.

(** In the JSON-array variant a producer hands its frames over with
    [yield] only: a result that carries a frame is not [done]. *)
Definition yieldsOnly (w : variant) (e : entry) : Prop :=
  w = JsonArray ->
  forall fr d, e_nextPromise e = Resolved (Some fr) d -> d = false.

(** What has been handed over has been written or is pending: [hs] being
    the frames handed over so far and [frs] the frames written so far,
    the frames of a producer among [hs] are those among [frs] followed
    by the one its entry holds.  Once the encoder's generator has ended
    or thrown, nothing more is written. *)
Definition conserved (w : variant) (enc : encoder) (frs hs : list frame)
  : Prop :=
  Forall (yieldsOnly w) (buffer (enc_st enc)) /\
  forall idx,
    match enc_main enc with
    | Ended | Threw _ =>
        framesOf idx frs `prefix_of` framesOf idx hs /\
        (buffer (enc_st enc) = [] -> framesOf idx hs = framesOf idx frs)
    | _ => framesOf idx hs = framesOf idx frs ++ pendingFrames w idx enc
    end.

(** * Properties *)

(** ** String primitives *)

Module JsStringFacts.
Import JsString.
Local Open Scope string_scope.

Lemma len_nonneg s : 0 <= len s.
Proof. unfold len. lia. Qed.

Lemma len_String a s : len (String a s) = len s + 1.
Proof. unfold len. simpl String.length. lia. Qed.

Lemma append_nil t : "" ++ t = t.
Proof. reflexivity. Qed.

Lemma append_String a s t : String a s ++ t = String a (s ++ t).
Proof. reflexivity. Qed.

Lemma len_app s t : len (s ++ t) = len s + len t.
Proof.
  induction s as [|a s IH].
  - rewrite append_nil. unfold len. simpl. lia.
  - rewrite append_String, !len_String, IH. lia.
Qed.

Lemma indexOf_range s c : -1 <= indexOf s c < len s.
Proof.
  induction s as [|a s IH]; simpl.
  - unfold len; simpl; lia.
  - rewrite len_String. destruct (Ascii.eqb a c); [lia|].
    destruct (Z.ltb_spec (indexOf s c) 0); lia.
Qed.

(** The first occurrence: after a prefix that does not contain [c]. *)
Lemma indexOf_first s c t :
  contains c s = false -> indexOf (s ++ String c t) c = len s.
Proof.
  induction s as [|a s IH]; intros H.
  - rewrite append_nil. simpl. rewrite Ascii.eqb_refl. reflexivity.
  - rewrite append_String. simpl in *.
    apply orb_false_iff in H as [Ha Hs]. rewrite Ha.
    rewrite (IH Hs), len_String.
    pose proof (len_nonneg s).
    destruct (Z.ltb_spec (len s) 0); lia.
Qed.

(** No occurrence at all. *)
Lemma indexOf_absent s c : contains c s = false -> indexOf s c = -1.
Proof.
  induction s as [|a s IH]; simpl; intros H; [reflexivity|].
  apply orb_false_iff in H as [Ha Hs]. rewrite Ha, (IH Hs). reflexivity.
Qed.

Lemma take_app_length s t : take (String.length s) (s ++ t) = s.
Proof.
  induction s as [|a s IH].
  - reflexivity.
  - rewrite append_String. simpl. congruence.
Qed.

Lemma drop_app_length s t : drop (String.length s) (s ++ t) = t.
Proof.
  induction s as [|a s IH].
  - reflexivity.
  - rewrite append_String. simpl. exact IH.
Qed.

Lemma take_all s : take (String.length s) s = s.
Proof. induction s as [|a s IH]; simpl; congruence. Qed.

Lemma slice_prefix s t : slice (s ++ t) 0 (len s) = s.
Proof.
  unfold slice, clampIndex. rewrite len_app.
  pose proof (len_nonneg s). pose proof (len_nonneg t).
  destruct (Z.ltb_spec 0 0); [lia|].
  destruct (Z.ltb_spec (len s) 0); [lia|].
  rewrite !Z.min_l by lia.
  replace (Z.to_nat 0) with 0%nat by reflexivity. simpl drop.
  replace (Z.to_nat (len s - 0)) with (String.length s)
    by (unfold len; lia).
  apply take_app_length.
Qed.

Lemma sliceFrom_suffix s c t :
  sliceFrom (s ++ String c t) (len s + 1) = t.
Proof.
  unfold sliceFrom, slice, clampIndex. rewrite len_app, len_String.
  pose proof (len_nonneg s). pose proof (len_nonneg t).
  destruct (Z.ltb_spec (len s + 1) 0); [lia|].
  destruct (Z.ltb_spec (len s + (len t + 1)) 0); [lia|].
  rewrite !Z.min_l by lia.
  assert (E : Z.to_nat (len s + 1) = String.length (s ++ String c "")).
  { pose proof (len_app s (String c "")) as L. rewrite len_String in L.
    unfold len in *. simpl in L. lia. }
  rewrite E.
  replace (s ++ String c t) with ((s ++ String c "") ++ t)
    by (clear; induction s as [|a s IH];
        [reflexivity | rewrite !append_String, IH; reflexivity]).
  rewrite drop_app_length.
  replace (Z.to_nat (len s + (len t + 1) - (len s + 1)))
    with (String.length t) by (unfold len; lia).
  apply take_all.
Qed.

End JsStringFacts.

(** ** The delimited pump's header *)

Section DelimitedHeader.
Local Open Scope string_scope.

(** A run of decimal digits contains no colon. *)
Lemma allDigits_no_colon s :
  JsString.allDigits s = true -> JsString.contains ":" s = false.
Proof.
  induction s as [|a s IH]; simpl; [reflexivity|].
  intros H. apply andb_true_iff in H as [Ha Hs].
  rewrite (IH Hs), orb_false_r.
  destruct (Ascii.eqb_spec a ":"); [subst a; discriminate Ha | reflexivity].
Qed.

Lemma isDecimal_no_colon s :
  JsString.isDecimal s = true -> JsString.contains ":" s = false.
Proof.
  destruct s; [discriminate|]. apply allDigits_no_colon.
Qed.

Lemma splitChunk_two_colons (idText statusText payload : string) :
  JsString.contains ":" idText = false ->
  JsString.contains ":" statusText = false ->
  splitChunk (idText ++ ":" ++ statusText ++ ":" ++ payload)
  = (idText, statusText, payload).
Proof.
  intros Hid Hst. unfold splitChunk.
  change (":" ++ statusText ++ ":" ++ payload)
    with (String ":" (statusText ++ String ":" payload)).
  rewrite (JsStringFacts.indexOf_first _ _ _ Hid).
  rewrite JsStringFacts.slice_prefix, JsStringFacts.sliceFrom_suffix.
  rewrite (JsStringFacts.indexOf_first _ _ _ Hst).
  rewrite JsStringFacts.slice_prefix, JsStringFacts.sliceFrom_suffix.
  reflexivity.
Qed.

(** C10: the delimited pump cuts a chunk at its first two colons only: the
    id is the text before the first, the status the text between the first
    and the second, and everything after the second colon, further colons
    included, is the payload, which is what the synchronous decoder is
    called on. *)
Theorem C10_pump_splits_at_first_two_colons
    (parse : chunk -> parsed) (JSON_parse_text : string -> result jsError json)
    (unflatten : option json -> parsed)
    (idText statusText payload : string) (d : decoder) :
  JsString.contains ":" idText = false ->
  JsString.contains ":" statusText = false ->
  splitChunk (idText ++ ":" ++ statusText ++ ":" ++ payload)
    = (idText, statusText, payload) /\
  (JsString.isDecimal idText = true ->
   JsString.isDecimal statusText = true ->
   pumpChunk parse JSON_parse_text unflatten Delimited
     (ChunkStr (idText ++ ":" ++ statusText ++ ":" ++ payload)) d
   = match applyRevivers (parse (ChunkStr payload)) d with
     | (d1, Throw e) => (d1, Some e)
     | (d1, Return value) =>
         match JsMap.get (JsString.parseInt idText) (enqueueMap d1) with
         | None => (d1, None)
         | Some h =>
             match enqueue h
                     (FrameItem (NumNat (JsString.parseInt statusText)) value)
                     d1 with
             | Return d2 => (d2, None)
             | Throw e => (d1, Some e)
             end
         end
     end).
Proof.
  intros Hid Hst. split.
  - apply splitChunk_two_colons; assumption.
  - intros Did Dst. unfold pumpChunk, delimitedHeader.
    rewrite (splitChunk_two_colons _ _ _ Hid Hst).
    unfold asNumberOrThrow. rewrite Did, Dst. reflexivity.
Qed.

Lemma C10_witness :
  splitChunk "12:0:{a:1;b:2;}" = ("12", "0", "{a:1;b:2;}").
Proof.
  exact (proj1 (C10_pump_splits_at_first_two_colons
                  Example.parse (fun _ => Throw (ExtError "SyntaxError"))
                  (fun _ => ParseFail [] (ExtError "SyntaxError"))
                  "12" "0" "{a:1;b:2;}" initDec eq_refl eq_refl)).
Defined.

End DelimitedHeader.

(** ** Producers *)

Section ProducerFacts.

Variable supported : string -> bool.
Variable codecError : string -> value.
Variable print : flat -> string.

Local Abbreviation recurse_ := (recurse supported codecError print).
Local Abbreviation safeCause_ := (safeCause supported codecError print).
Local Abbreviation promiseBody_ :=
  (promiseBody supported codecError print).
Local Abbreviation iterBody_ := (iterBody supported codecError print).

(** C5: [safeCause] first encodes the cause itself; when that throws and
    [coerceError] is set it answers with the encoding of
    [coerceError(cause)], and when [coerceError] is not set the
    exception propagates. *)
Theorem C5_safeCause (coerceError : option (value -> value))
    (cause : value) (st : encState) :
  (forall st' s,
      recurse_ cause st = (st', Return s) ->
      safeCause_ coerceError cause st = (st', Return s)) /\
  (forall st' err coerce,
      recurse_ cause st = (st', Throw err) ->
      coerceError = Some coerce ->
      safeCause_ coerceError cause st = recurse_ (coerce cause) st') /\
  (forall st' err,
      recurse_ cause st = (st', Throw err) ->
      coerceError = None ->
      safeCause_ coerceError cause st = (st', Throw err)).
Proof.
  unfold safeCause. repeat split.
  - intros st' s ->. reflexivity.
  - intros st' err coerce -> ->. reflexivity.
  - intros st' err -> ->. reflexivity.
Qed.

(** The frames of the async-iterable producer's two endings. *)
Lemma iterBody_return w coerceError idx v ret st st1 s :
  recurse_ v st = (st1, Return s) ->
  stopFrame (snd (iterBody_ coerceError w idx [] Completes v ret st))
  = Some (MkFrame idx (sc_iter_return (codesOf w)) s).
Proof.
  intros H. unfold iterBody. rewrite H. unfold lastFrame, codes.
  destruct w; reflexivity.
Qed.

Lemma iterBody_error w coerceError idx v ret st st1 s :
  safeCause_ coerceError v st = (st1, Return s) ->
  stopFrame (snd (iterBody_ coerceError w idx [] Fails v ret st))
  = Some (MkFrame idx (sc_iter_error (codesOf w)) s).
Proof.
  intros H. unfold iterBody. rewrite H. unfold lastFrame, codes.
  destruct w; reflexivity.
Qed.

(** C2, as the code has it: the JSON-array variant uses the codes of the
    specification; the delimited variant uses 1 for a sequence's return
    and 2 for its error; and in either variant the async-iterable
    producer's frame for normal termination carries the variant's
    RETURN code and its frame for abnormal termination the variant's
    ERROR code. *)
Theorem C2_status_codes_per_variant :
  wireCodesAsSpecified (codesOf JsonArray) /\
  codesOf Delimited =
    {| sc_promise_fulfilled := 0; sc_promise_rejected := 1;
       sc_iter_yield := 0; sc_iter_return := 1; sc_iter_error := 2 |} /\
  (forall w coerceError idx v ret st st1 s,
      recurse_ v st = (st1, Return s) ->
      stopFrame (snd (iterBody_ coerceError w idx [] Completes v ret st))
      = Some (MkFrame idx (match w with JsonArray => 2 | Delimited => 1 end)
                s)) /\
  (forall w coerceError idx v ret st st1 s,
      safeCause_ coerceError v st = (st1, Return s) ->
      stopFrame (snd (iterBody_ coerceError w idx [] Fails v ret st))
      = Some (MkFrame idx (match w with JsonArray => 1 | Delimited => 2 end)
                s)).
Proof.
  split; [repeat split|]. split; [reflexivity|]. split.
  - intros w coerceError idx v ret st st1 s H.
    rewrite (iterBody_return _ _ _ _ _ _ _ _ H). destruct w; reflexivity.
  - intros w coerceError idx v ret st st1 s H.
    rewrite (iterBody_error _ _ _ _ _ _ _ _ H). destruct w; reflexivity.
Qed.

End ProducerFacts.

(** C2, as stated, fails: the delimited variant's codes are not those of
    the table. *)
Lemma C2_counterexample :
  ~ (forall w : variant, wireCodesAsSpecified (codesOf w)).
Proof.
  intros H. destruct (H Delimited) as (_ & _ & _ & Hret & _).
  discriminate Hret.
Qed.

(** In the delimited variant a sequence that returns ["done"] ends with a
    frame of status 1, and one that throws with a frame of status 2. *)
Lemma C2_witness :
  stopFrame (snd (iterBody Example.supported Example.codecError Example.print
                    None Delimited 1 [] Completes (Plain "done") true initEnc))
  = Some (MkFrame 1 1 "done") /\
  stopFrame (snd (iterBody Example.supported Example.codecError Example.print
                    None Delimited 1 [] Fails (Plain "boom") true initEnc))
  = Some (MkFrame 1 2 "boom").
Proof.
  pose proof (C2_status_codes_per_variant Example.supported Example.codecError
                Example.print) as (_ & _ & Hret & Herr).
  split.
  - exact (Hret Delimited None 1%N (Plain "done") true initEnc initEnc "done"
             eq_refl).
  - exact (Herr Delimited None 1%N (Plain "boom") true initEnc initEnc "boom"
             eq_refl).
Defined.

Lemma C5_witness :
  safeCause Example.supported Example.codecError Example.print
    (Some Example.coerce) (Plain "ok") initEnc = (initEnc, Return "ok") /\
  safeCause Example.supported Example.codecError Example.print
    (Some Example.coerce) (Plain "!fn") initEnc = (initEnc, Return "coerced") /\
  safeCause Example.supported Example.codecError Example.print
    None (Plain "!fn") initEnc = (initEnc, Throw (Plain "!DevalueError")).
Proof.
  split; [|split].
  - exact (proj1 (C5_safeCause Example.supported Example.codecError
                    Example.print (Some Example.coerce) (Plain "ok") initEnc)
             initEnc "ok" eq_refl).
  - exact (proj1 (proj2 (C5_safeCause Example.supported Example.codecError
                    Example.print (Some Example.coerce) (Plain "!fn") initEnc))
             initEnc (Plain "!DevalueError") Example.coerce eq_refl eq_refl).
  - exact (proj2 (proj2 (C5_safeCause Example.supported Example.codecError
                    Example.print None (Plain "!fn") initEnc))
             initEnc (Plain "!DevalueError") eq_refl eq_refl).
Defined.

(** ** Producer ids *)

(** Induction on value trees, through the lists of fields and items. *)
Lemma value_rect' (P : value -> Prop)
  (HPlain : forall a, P (Plain a))
  (HComposite : forall fields, Forall P fields -> P (Composite fields))
  (HPromise : forall how v, P v -> P (PromiseV how v))
  (HIter : forall items how v ret,
      Forall P items -> P v -> P (AsyncIterableV items how v ret)) :
  forall v, P v.
Proof.
fix IH 1. intros [a|fields|how v|items how v ret].
- apply HPlain.
- apply HComposite. induction fields as [|x xs IHxs]; constructor; auto.
- apply HPromise, IH.
- apply HIter; [|apply IH].
  induction items as [|x xs IHxs]; constructor; auto.
Qed.

Lemma idsFrom_app c n m :
  idsFrom c (n + m) = idsFrom c n ++ idsFrom (c + N.of_nat n)%N m.
Proof.
revert c. induction n as [|n IH]; intros c; simpl.
- f_equal. lia.
- rewrite IH. do 3 f_equal. lia.
Qed.

Lemma idsFrom_bounds c n id :
  id ∈ idsFrom c n -> (c < id <= c + N.of_nat n)%N.
Proof.
revert c. induction n as [|n IH]; intros c; simpl.
- intros H. inversion H.
- intros H. apply elem_of_cons in H as [->|H]; [lia|].
  apply IH in H. lia.
Qed.

Lemma idsFrom_NoDup c n : NoDup (idsFrom c n).
Proof.
revert c. induction n as [|n IH]; intros c; simpl; constructor; auto.
intros H. apply idsFrom_bounds in H. lia.
Qed.

Lemma registered_refl st : registered st st [].
Proof.
unfold registered. simpl. rewrite app_nil_r, N.add_0_r. auto.
Qed.

Lemma registered_trans st1 st2 st3 n1 n2 :
  registered st1 st2 n1 -> registered st2 st3 n2 ->
  registered st1 st3 (n1 ++ n2).
Proof.
intros (B1 & I1 & C1) (B2 & I2 & C2). unfold registered.
rewrite B2, B1, C2, C1, map_app, length_app, I1, I2, C1.
rewrite idsFrom_app, <- app_assoc. repeat split; auto. lia.
Qed.

Lemma registerAsyncIterable_registered callback st :
  registered st (snd (registerAsyncIterable callback st))
    [MkEntry (counter st + 1) callback Pending false] /\
  fst (registerAsyncIterable callback st) = (counter st + 1)%N.
Proof.
unfold registered, registerAsyncIterable. simpl. repeat split.
Qed.

Section Registration.

Variable supported : string -> bool.
Variable codecError : string -> value.
Variable print : flat -> string.
Variable coerceError : option (value -> value).
Variable w : variant.

(** [stringify] only registers: whatever it returns or throws. *)
Lemma flatten_registered v :
  forall st, exists new,
    registered st (fst (flatten supported codecError v st)) new /\
    srcReturns (fst (flatten supported codecError v st)) = srcReturns st.
Proof.
induction v as [a|fields IH|how v _|items how v ret _ _] using value_rect';
  intros st.
- simpl. destruct (supported a); exists []; split;
    auto using registered_refl.
- simpl.
  assert (G : forall st0, exists new,
             registered st0
               (fst (flattenAll (flatten supported codecError) fields st0))
               new /\
             srcReturns
               (fst (flattenAll (flatten supported codecError) fields st0))
             = srcReturns st0).
  { induction IH as [|x xs Hx _ IHxs]; intros st0.
    - exists []. split; auto using registered_refl.
    - simpl. destruct (Hx st0) as (n1 & R1 & S1).
      destruct (flatten supported codecError x st0) as [st1 [fx|e]];
        simpl in *.
      + destruct (IHxs st1) as (n2 & R2 & S2).
        destruct (flattenAll (flatten supported codecError) xs st1)
          as [st2 [fr|e]]; simpl in *;
          exists (n1 ++ n2); split;
          eauto using registered_trans; congruence.
      + exists n1. auto. }
  destruct (G st) as (new & R & S).
  destruct (flattenAll (flatten supported codecError) fields st)
    as [st' [fs|e]]; exists new; auto.
- simpl. eexists. split; [|reflexivity].
  apply (registerAsyncIterable_registered (AwaitPromise how v) st).
- simpl. eexists. split; [|reflexivity].
  apply (registerAsyncIterable_registered (AwaitNext items how v ret) st).
Qed.

Lemma recurse_registered v st :
  exists new,
    registered st (fst (recurse supported codecError print v st)) new /\
    srcReturns (fst (recurse supported codecError print v st))
      = srcReturns st.
Proof.
unfold recurse. destruct (flatten_registered v st) as (new & R & S).
destruct (flatten supported codecError v st) as [st' [f|e]];
  exists new; auto.
Qed.

Lemma safeCause_registered v st :
  exists new,
    registered st
      (fst (safeCause supported codecError print coerceError v st)) new /\
    srcReturns (fst (safeCause supported codecError print coerceError v st))
      = srcReturns st.
Proof.
unfold safeCause. destruct (recurse_registered v st) as (n1 & R1 & S1).
destruct (recurse supported codecError print v st) as [st1 [s|e]];
  simpl in *; [exists n1; auto|].
destruct coerceError as [coerce|]; [|exists n1; auto].
destruct (recurse_registered (coerce v) st1) as (n2 & R2 & S2).
exists (n1 ++ n2). split; eauto using registered_trans. congruence.
Qed.

End Registration.

Lemma idsOK_submseteq c l l' : idsOK c l -> l' ⊆+ l -> idsOK c l'.
Proof.
intros [ND B] S. split.
- destruct (submseteq_Permutation _ _ S) as [k P].
  rewrite P in ND. apply NoDup_app in ND. tauto.
- intros id H. apply B. eapply elem_of_submseteq; eauto.
Qed.

Lemma idsOK_alloc c l n :
  idsOK c l -> idsOK (c + N.of_nat n) (l ++ idsFrom c n).
Proof.
intros [ND B]. split.
- apply NoDup_app. split; [assumption|]. split; [|apply idsFrom_NoDup].
  intros id H1 H2. apply B in H1. apply idsFrom_bounds in H2. lia.
- intros id H. apply elem_of_app in H as [H|H].
  + apply B in H. lia.
  + apply idsFrom_bounds in H. lia.
Qed.

Lemma idsOK_registered st st' new extra :
  registered st st' new ->
  idsOK (counter st) (map e_idx (buffer st) ++ extra) ->
  idsOK (counter st') (map e_idx (buffer st') ++ extra).
Proof.
intros (B & I & C) H. rewrite B, C, map_app, I.
eapply idsOK_submseteq; [apply (idsOK_alloc _ _ (length new) H)|].
rewrite <- !app_assoc. apply submseteq_app; [reflexivity|].
apply Permutation_submseteq, Permutation_app_comm.
Qed.

Lemma map_idx_insert (l : list entry) k e e' :
  l !! k = Some e -> e_idx e' = e_idx e ->
  map e_idx (<[k := e']> l) = map e_idx l.
Proof.
intros H E. change (map e_idx) with (fmap (M := list) e_idx).
rewrite list_fmap_insert, E. apply list_insert_id.
rewrite list_lookup_fmap, H. reflexivity.
Qed.

Lemma deleteAt_perm (l : list entry) k e :
  l !! k = Some e -> l ≡ₚ e :: deleteAt k l.
Proof.
intros H. unfold deleteAt.
rewrite <- (take_drop_middle l k e H) at 1.
symmetry. apply Permutation_middle.
Qed.

Lemma callSourceReturn_registered idx ret st :
  registered st (callSourceReturn idx ret st) [].
Proof.
unfold callSourceReturn. destruct ret; [|apply registered_refl].
unfold registered. simpl. rewrite app_nil_r, N.add_0_r. auto.
Qed.

Section BodiesRegister.

Variable supported : string -> bool.
Variable codecError : string -> value.
Variable print : flat -> string.
Variable coerceError : option (value -> value).
Variable w : variant.

Local Abbreviation recurse_ := (recurse supported codecError print).
Local Abbreviation safeCause_ :=
  (safeCause supported codecError print coerceError).

Lemma promiseBody_registered idx how v st :
  exists new,
    registered st
      (fst (promiseBody supported codecError print coerceError w
              idx how v st)) new.
Proof.
unfold promiseBody.
pose proof (recurse_registered supported codecError print v st)
  as (n1 & R1 & _).
pose proof (safeCause_registered supported codecError print coerceError v st)
  as (n2 & R2 & _).
destruct how.
- destruct (recurse_ v st) as [st1 [s|c]]; simpl in *; [exists n1; auto|].
  pose proof (safeCause_registered supported codecError print coerceError
                c st1) as (n3 & R3 & _).
  destruct (safeCause_ c st1) as [st2 [s|e]]; simpl in *;
    exists (n1 ++ n3); eauto using registered_trans.
- destruct (safeCause_ v st) as [st2 [s|e]]; simpl in *; exists n2; auto.
Qed.

Lemma lastFrame_registered ret fr st :
  registered st (fst (lastFrame w ret fr st)) [].
Proof.
unfold lastFrame. destruct w; simpl;
  [apply registered_refl | apply callSourceReturn_registered].
Qed.

Lemma iterCatch_registered idx ret c st fr :
  exists new,
    registered st
      (fst (match safeCause_ c st with
            | (st', Return s) => lastFrame w ret (fr s) st'
            | (st', Throw e) => (callSourceReturn idx ret st', Throws e)
            end)) new.
Proof.
pose proof (safeCause_registered supported codecError print coerceError c st)
  as (n & R & _).
destruct (safeCause_ c st) as [st1 [s|e]]; simpl in *; exists (n ++ []).
- eapply registered_trans; [exact R|apply lastFrame_registered].
- eapply registered_trans; [exact R|apply callSourceReturn_registered].
Qed.

Lemma iterBody_registered idx items how v ret st :
  exists new,
    registered st
      (fst (iterBody supported codecError print coerceError w
              idx items how v ret st)) new.
Proof.
unfold iterBody. destruct items as [|x rest].
- destruct how; [|apply iterCatch_registered].
  pose proof (recurse_registered supported codecError print v st)
    as (n1 & R1 & _).
  destruct (recurse_ v st) as [st1 [s|c]]; simpl in *.
  + exists (n1 ++ []). eapply registered_trans; [exact R1|].
    apply lastFrame_registered.
  + destruct (iterCatch_registered idx ret c st1
                (fun s => MkFrame idx (sc_iter_error (codes w)) s))
      as (n2 & R2).
    exists (n1 ++ n2). eapply registered_trans; eauto.
- pose proof (recurse_registered supported codecError print x st)
    as (n1 & R1 & _).
  destruct (recurse_ x st) as [st1 [s|c]]; simpl in *; [exists n1; auto|].
  destruct (iterCatch_registered idx ret c st1
              (fun s => MkFrame idx (sc_iter_error (codes w)) s))
    as (n2 & R2).
  exists (n1 ++ n2). eapply registered_trans; eauto.
Qed.

End BodiesRegister.

Lemma registered_allocated st st' new :
  registered st st' new -> allocated st st' (length new).
Proof.
intros (B & I & C). split; [|exact C]. rewrite B, map_app, I. reflexivity.
Qed.

Lemma allocated_same st st' :
  buffer st' = buffer st -> counter st' = counter st -> allocated st st' 0.
Proof.
intros B C. split; simpl; rewrite ?B, ?C, ?app_nil_r; auto. lia.
Qed.

Lemma idsOK_allocated st st' n extra :
  allocated st st' n ->
  idsOK (counter st) (map e_idx (buffer st) ++ extra) ->
  idsOK (counter st') (map e_idx (buffer st') ++ extra).
Proof.
intros [I C] H. rewrite I, C.
eapply idsOK_submseteq; [apply (idsOK_alloc _ _ n H)|].
rewrite <- !app_assoc. apply submseteq_app; [reflexivity|].
apply Permutation_submseteq, Permutation_app_comm.
Qed.

Lemma allocated_lookup st st' n k e :
  allocated st st' n -> buffer st !! k = Some e ->
  exists e', buffer st' !! k = Some e' /\ e_idx e' = e_idx e.
Proof.
intros [I _] H.
assert (L : (map e_idx (buffer st')) !! k = Some (e_idx e)).
{ rewrite I. apply lookup_app_l_Some.
  change (map e_idx) with (fmap (M := list) e_idx).
  rewrite list_lookup_fmap, H. reflexivity. }
change (map e_idx) with (fmap (M := list) e_idx) in L.
rewrite list_lookup_fmap in L.
destruct (buffer st' !! k) as [e'|]; [|discriminate].
exists e'. split; [reflexivity|]. simpl in L. congruence.
Qed.

Lemma returnAtYield_same idx k st :
  buffer (returnAtYield idx k st) = buffer st /\
  counter (returnAtYield idx k st) = counter st.
Proof.
destruct k as [| items how v ret | ret]; simpl; auto;
  unfold callSourceReturn; destruct ret; auto.
Qed.

Lemma generatorReturn_same e st :
  e_idx (fst (generatorReturn e st)) = e_idx e /\
  buffer (snd (generatorReturn e st)) = buffer st /\
  counter (snd (generatorReturn e st)) = counter st.
Proof.
unfold generatorReturn.
destruct (e_iterator e); simpl; auto.
destruct (returnAtYield_same (e_idx e) k st). auto.
Qed.

Lemma returnAll_same es st :
  map e_idx (fst (returnAll es st)) = map e_idx es /\
  buffer (snd (returnAll es st)) = buffer st /\
  counter (snd (returnAll es st)) = counter st.
Proof.
revert st. induction es as [|e es IH]; intros st; simpl; [auto|].
destruct (generatorReturn_same e st) as (I & B & C).
destruct (generatorReturn e st) as [e' st1]. simpl in *.
match goal with
| |- context [returnAll es ?s] =>
    destruct (IH s) as (I2 & B2 & C2); destruct (returnAll es s) as [r st3]
end.
simpl in *. rewrite I, I2, B2, C2. auto.
Qed.

Lemma finallyBlock_allocated st : allocated st (finallyBlock st) 0.
Proof.
unfold finallyBlock.
destruct (returnAll_same (buffer st) st) as (I & B & C).
destruct (returnAll (buffer st) st) as [es st']. simpl in *.
split; simpl; rewrite ?app_nil_r; [exact I | lia].
Qed.

Lemma registered_same st st1 st2 new :
  registered st st1 new ->
  buffer st2 = buffer st1 -> counter st2 = counter st1 ->
  registered st st2 new.
Proof.
intros (B & I & C) B2 C2. unfold registered. rewrite B2, C2. auto.
Qed.

Lemma settle_store st st1 k e g np new :
  registered st st1 new -> buffer st !! k = Some e ->
  allocated st (setBuffer st1 (<[k := setEntry e g np]> (buffer st1)))
    (length new).
Proof.
intros R H. pose proof (registered_allocated _ _ _ R) as [I C].
split; [|exact C]. simpl. rewrite <- I.
destruct R as (B & _ & _).
apply map_idx_insert with (e := e); [|reflexivity].
rewrite B. apply lookup_app_l_Some, H.
Qed.

Section StepsAllocate.

Variable supported : string -> bool.
Variable codecError : string -> value.
Variable print : flat -> string.
Variable coerceError : option (value -> value).
Variable w : variant.

Lemma sourceSettles_allocated k st st' :
  sourceSettles supported codecError print coerceError w k st = Some st' ->
  exists n, allocated st st' n.
Proof.
unfold sourceSettles.
destruct (buffer st !! k) as [e|] eqn:Hk; [|discriminate].
destruct (e_nextPromise e); try discriminate.
assert (G : forall r : encState * bodyStop,
           (exists new, registered st (fst r) new) ->
           match r with
           | (st1, Yields fr k') =>
               let st2 :=
                 if e_returnQueued e then returnAtYield (e_idx e) k' st1
                 else st1 in
               let g := if e_returnQueued e then Closed else AtYield k' in
               Some (setBuffer st2
                       (<[k := setEntry e g (Resolved (Some fr) false)]>
                          (buffer st2)))
           | (st1, Returns fr) =>
               Some (setBuffer st1
                       (<[k := setEntry e Closed (Resolved (Some fr) true)]>
                          (buffer st1)))
           | (st1, Throws c) =>
               Some (setBuffer st1
                       (<[k := setEntry e Closed (RejectedWith c)]>
                          (buffer st1)))
           end = Some st' ->
           exists n, allocated st st' n).
{ intros [st1 [fr k'|fr|c]] [new R] E; simpl in *;
    injection E as <-; exists (length new).
  - apply settle_store; [|exact Hk].
    destruct (e_returnQueued e); [|exact R].
    destruct (returnAtYield_same (e_idx e) k' st1).
    eapply registered_same; eauto.
  - apply settle_store; auto.
  - apply settle_store; auto. }
destruct (e_iterator e) as [how v|items how v ret|k'|]; try discriminate.
- apply G. apply promiseBody_registered.
- apply G. apply iterBody_registered.
Qed.

Lemma rearm_ids e st :
  map e_idx (buffer (rearm e st)) = map e_idx (buffer st) ++ [e_idx e] /\
  counter (rearm e st) = counter st.
Proof.
unfold rearm. destruct (e_iterator e) as [| |k'|];
  try (simpl; rewrite map_app; auto).
destruct k' as [|items how v ret|ret]; simpl; rewrite map_app; simpl; auto.
unfold callSourceReturn; destruct ret; auto.
Qed.

End StepsAllocate.

Section IdsInvariant.

Variable supported : string -> bool.
Variable codecError : string -> value.
Variable print : flat -> string.
Variable coerceError : option (value -> value).

Local Abbreviation step := (encStep supported codecError print coerceError).
Local Abbreviation run := (encRun supported codecError print coerceError).

Lemma idsInv_plain w m st out :
  notChunkYield m ->
  idsOK (counter st) (map e_idx (buffer st)) ->
  idsInv w (MkEncoder m st out).
Proof.
intros Hm H. unfold idsInv, activeIds. simpl.
destruct w, m; simpl in *; try contradiction; rewrite app_nil_r; auto.
Qed.

Lemma idsInv_buffer w enc :
  idsInv w enc ->
  idsOK (counter (enc_st enc)) (map e_idx (buffer (enc_st enc))).
Proof.
intros [H _]. eapply idsOK_submseteq; [exact H|].
unfold activeIds. apply submseteq_inserts_r. reflexivity.
Qed.

Lemma idsOK_finally st :
  idsOK (counter st) (map e_idx (buffer st)) ->
  idsOK (counter (finallyBlock st)) (map e_idx (buffer (finallyBlock st))).
Proof.
intros H. pose proof (idsOK_allocated _ _ _ [] (finallyBlock_allocated st)) as A.
rewrite !app_nil_r in A. auto.
Qed.

Lemma idsInv_loopHead w st out :
  idsOK (counter st) (map e_idx (buffer st)) ->
  idsInv w (loopHead st out).
Proof.
intros H. unfold loopHead. destruct (buffer st) eqn:E.
- apply idsInv_plain; [exact I|]. apply idsOK_finally. rewrite E. exact H.
- apply idsInv_plain; [exact I|]. rewrite E. exact H.
Qed.

Lemma idsOK_deleteAt c (l : list entry) k e extra :
  l !! k = Some e ->
  idsOK c (map e_idx l ++ extra) ->
  idsOK c (map e_idx (deleteAt k l) ++ e_idx e :: extra).
Proof.
intros H O. eapply idsOK_submseteq; [exact O|].
apply Permutation_submseteq.
rewrite (deleteAt_perm l k e H) at 2. simpl.
symmetry. apply Permutation_middle.
Qed.

Lemma idsInv_step w ev enc enc' :
  idsInv w enc -> step w ev enc = Some enc' -> idsInv w enc'.
Proof.
intros Inv E. pose proof (idsInv_buffer _ _ Inv) as Buf.
destruct enc as [m st out]. unfold encStep in E. simpl in *.
destruct ev as [| |k|k].
- (* Next *)
  destruct m as [v| |n wn|k e| |c]; try discriminate.
  + pose proof (recurse_registered supported codecError print v st)
      as (new & R & _).
    destruct (recurse supported codecError print v st) as [st' [s|c]];
      simpl in R; injection E as <-.
    * apply idsInv_plain; [exact I|].
      pose proof (idsOK_registered _ _ _ [] R) as A.
      rewrite !app_nil_r in A. auto.
    * apply idsInv_plain; [exact I|]. apply idsOK_finally.
      pose proof (idsOK_registered _ _ _ [] R) as A.
      rewrite !app_nil_r in A. auto.
  + injection E as <-. apply idsInv_loopHead, Buf.
  + destruct Inv as [O P]. unfold activeIds in O. simpl in O.
    destruct w.
    * injection E as <-. apply idsInv_loopHead.
      destruct (rearm_ids e st) as [-> ->]. exact O.
    * destruct P as (e' & Hk & Hidx). rewrite app_nil_r in O.
      simpl in Hk.
      pose proof (idsOK_deleteAt (counter st) _ _ _ [] Hk) as D.
      rewrite !app_nil_r in D. specialize (D O). rewrite Hidx in D.
      destruct (isDone (e_nextPromise e)); injection E as <-;
        apply idsInv_loopHead.
      -- simpl. eapply idsOK_submseteq; [exact D|].
         apply submseteq_inserts_r. reflexivity.
      -- destruct (rearm_ids e (setBuffer st (deleteAt k (buffer st))))
           as [-> ->]. exact D.
- (* ReturnEarly *)
  destruct m as [v| |n wn|k e| |c]; try discriminate; injection E as <-;
    apply idsInv_plain; try exact I; auto using idsOK_finally.
- (* Race *)
  destruct m as [v| |n [k'|]|k0 e0| |c]; try discriminate.
  destruct (Nat.eqb k k'); [|discriminate].
  destruct (buffer st !! k) as [e|] eqn:Hk; [|discriminate].
  destruct (e_nextPromise e) as [|val done|c]; try discriminate.
  + pose proof (idsOK_deleteAt (counter st) _ _ _ [] Hk) as D.
    rewrite !app_nil_r in D. specialize (D Buf).
    destruct w.
    * destruct done.
      -- injection E as <-. apply idsInv_loopHead. simpl.
         eapply idsOK_submseteq; [exact D|].
         apply submseteq_inserts_r. reflexivity.
      -- destruct val as [fr|]; [|discriminate]. injection E as <-.
         split; [|exact I]. exact D.
    * injection E as <-. split.
      -- unfold activeIds. simpl. rewrite app_nil_r. exact Buf.
      -- simpl. eauto.
  + injection E as <-. apply idsInv_plain; [exact I|].
    apply idsOK_finally, Buf.
- (* Source *)
  destruct (sourceSettles supported codecError print coerceError w k st)
    as [st'|] eqn:Hs; [|discriminate].
  injection E as <-.
  destruct (sourceSettles_allocated _ _ _ _ _ _ _ _ Hs) as [n A].
  destruct Inv as [O P]. unfold idsInv, activeIds in *. simpl in *. split.
  + assert (O' : idsOK (counter st')
                   (map e_idx (buffer st') ++
                    match w, m with
                    | JsonArray, ChunkYield _ e => [e_idx e]
                    | _, _ => []
                    end)) by (eapply idsOK_allocated; eauto).
    destruct w, m as [v| |n0 [k'|]|k0 e0| |c]; try exact O';
      destruct (k <? n0)%nat; exact O'.
  + destruct w; [exact I|].
    destruct m as [v| |n0 [k'|]|k0 e0| |c]; try exact I;
      [destruct (k <? n0)%nat; exact I|].
    destruct P as (e' & Hk & Hidx).
    destruct (allocated_lookup _ _ _ _ _ A Hk) as (e'' & Hk' & Hidx').
    exists e''. split; [exact Hk'|congruence].
Qed.

Lemma idsInv_run w evs enc enc' :
  idsInv w enc -> run w evs enc = Some enc' -> idsInv w enc'.
Proof.
revert enc. induction evs as [|ev evs IH]; intros enc Inv E; simpl in E.
- injection E as <-. exact Inv.
- destruct (step w ev enc) as [enc1|] eqn:S; [|discriminate].
  eapply IH; [|exact E]. eapply idsInv_step; eauto.
Qed.

Lemma idsInv_start w v : idsInv w (startEncoder v).
Proof.
apply idsInv_plain; [exact I|]. split; [constructor|].
intros id H. inversion H.
Qed.

End IdsInvariant.

(** C8: producer ids are allocated by incrementing a counter that starts
    at 0, once per registration, so that registrations receive 1, 2, 3, ...
    in order; and throughout a run of the encoder the ids of the active
    producers are pairwise distinct and lie between 1 and the counter (0 is
    never among them). *)
Theorem C8_producer_ids
    (supported : string -> bool) (codecError : string -> value)
    (print : flat -> string) (coerceError : option (value -> value)) :
  counter initEnc = 0%N /\
  (forall callback st,
      fst (registerAsyncIterable callback st) = (counter st + 1)%N /\
      counter (snd (registerAsyncIterable callback st)) = (counter st + 1)%N /\
      buffer (snd (registerAsyncIterable callback st))
      = buffer st ++ [MkEntry (counter st + 1) callback Pending false]) /\
  (forall v st, exists new,
      registered st (fst (recurse supported codecError print v st)) new) /\
  (forall w v evs enc,
      encRun supported codecError print coerceError w evs (startEncoder v)
        = Some enc ->
      NoDup (activeIds w enc) /\
      forall id, id ∈ activeIds w enc ->
                 (1 <= id <= counter (enc_st enc))%N).
Proof.
split; [reflexivity|]. split; [|split].
- intros callback st. unfold registerAsyncIterable. simpl. auto.
- intros v st.
  destruct (recurse_registered supported codecError print v st)
    as (new & R & _).
  exists new. exact R.
- intros w v evs enc E.
  pose proof (idsInv_run supported codecError print coerceError w evs _ _
                (idsInv_start w v) E) as [O _].
  exact O.
Qed.

Lemma C8_witness :
  exists enc,
    encRun Example.supported Example.codecError Example.print None JsonArray
      [Next] (startEncoder Scenario.two) = Some enc /\
    activeIds JsonArray enc = [1; 2]%N /\
    (NoDup (activeIds JsonArray enc) /\
     forall id, id ∈ activeIds JsonArray enc ->
                (1 <= id <= counter (enc_st enc))%N).
Proof.
eexists. split; [reflexivity|]. split; [reflexivity|].
exact (proj2 (proj2 (proj2 (C8_producer_ids Example.supported
         Example.codecError Example.print None))) JsonArray Scenario.two
         [Next] _ eq_refl).
Defined.

(** ** Sinks *)

Lemma enqueue_open h it d s :
  streams d !! h = Some s -> closed s = false ->
  enqueue h it d
  = Return (setStreams d (<[h := MkStream (queue s ++ [it]) false]> (streams d))).
Proof.
intros H C. unfold enqueue. rewrite H, C. reflexivity.
Qed.

(** Delivering an error to every sink of a map whose sinks are ready. *)
Lemma enqueueAll_ready m e d :
  NoDup (map snd m) ->
  (forall id h, (id, h) ∈ m ->
                exists s, streams d !! h = Some s /\ closed s = false) ->
  exists d',
    enqueueAll m e d = (d', None) /\
    enqueueMap d' = enqueueMap d /\ consumers d' = consumers d /\
    pumping d' = pumping d /\ unhandled d' = unhandled d /\
    length (streams d') = length (streams d) /\
    (forall id h, (id, h) ∈ m -> delivered (ErrorItem e) d d' h) /\
    (forall h, h ∉ map snd m -> streams d' !! h = streams d !! h).
Proof.
revert d. induction m as [|[id0 h0] m IH]; intros d ND R; simpl.
- exists d. repeat split; auto. intros id h H. inversion H.
- apply NoDup_cons in ND as [Hh0 ND]. simpl in Hh0.
  destruct (R id0 h0) as (s0 & Hs0 & Hc0); [left|].
  rewrite (enqueue_open _ _ _ _ Hs0 Hc0).
  set (d1 := setStreams d _).
  destruct (IH d1 ND) as (d' & E & M & Cs & P & U & L & Del & Oth).
  { intros id h Hin. destruct (R id h) as (s & Hs & Hc); [right; exact Hin|].
    exists s. split; [|exact Hc]. unfold d1. simpl.
    rewrite list_lookup_insert_ne; [exact Hs|].
    intros ->. apply Hh0. apply list_elem_of_fmap. exists (id, h). auto. }
  exists d'. split; [exact E|]. repeat split; auto.
  + rewrite L. unfold d1. simpl. apply length_insert.
  + intros id h Hin. apply elem_of_cons in Hin as [Heq|Hin].
    * injection Heq as -> ->. exists s0. split; [exact Hs0|].
      rewrite (Oth h0 Hh0). unfold d1. simpl.
      apply list_lookup_insert_eq. eapply lookup_lt_Some; eauto.
    * destruct (Del id h Hin) as (s & Hs & Hs'). exists s. split; [|exact Hs'].
      unfold d1 in Hs. simpl in Hs.
      rewrite list_lookup_insert_ne in Hs; [exact Hs|].
      intros ->. apply Hh0. apply list_elem_of_fmap. exists (id, h). auto.
  + intros h Hn. rewrite (Oth h).
    * unfold d1. simpl. apply list_lookup_insert_ne.
      intros ->. apply Hn. simpl. left.
    * intros Hin. apply Hn. simpl. right. exact Hin.
Qed.

Section PumpFacts.

Variable parse : chunk -> parsed.
Variable JSON_parse_text : string -> result jsError json.
Variable unflatten : option json -> parsed.

Local Abbreviation step := (decStep parse JSON_parse_text unflatten).

(** The [.catch] handler reaches every sink that is ready. *)
Lemma catchHandler_delivers w cause d :
  sinksReady d ->
  pumping (catchHandler w cause d) = false /\
  enqueueMap (catchHandler w cause d) = enqueueMap d /\
  consumers (catchHandler w cause d) = consumers d /\
  unhandled (catchHandler w cause d) = unhandled d /\
  length (streams (catchHandler w cause d)) = length (streams d) /\
  (forall id h, (id, h) ∈ enqueueMap d ->
     delivered (ErrorItem (catchError w cause)) d (catchHandler w cause d) h) /\
  (forall h, h ∉ map snd (enqueueMap d) ->
     streams (catchHandler w cause d) !! h = streams d !! h).
Proof.
intros [ND R]. unfold catchHandler.
destruct (enqueueAll_ready (enqueueMap d) (catchError w cause)
            (setPumping d false) ND R)
  as (d' & E & M & Cs & P & U & L & Del & Oth).
rewrite E. simpl in *. repeat split; auto.
Qed.


End PumpFacts.

(** ** The head chunk *)





(** ** The encoder's [finally] block *)

Lemma returnAll_genReturns es st :
  genReturns (snd (returnAll es st)) = genReturns st ++ map e_idx es.
Proof.
revert st. induction es as [|e es IH]; intros st; simpl.
- rewrite app_nil_r. reflexivity.
- assert (G : genReturns (snd (generatorReturn e st)) = genReturns st).
  { unfold generatorReturn. destruct (e_iterator e); simpl; auto.
    destruct k as [| items how v ret | ret]; simpl; auto;
      unfold callSourceReturn; destruct ret; auto. }
  destruct (generatorReturn e st) as [e' st1]. simpl in G.
  match goal with
  | |- context [returnAll es ?s] =>
      pose proof (IH s) as H; destruct (returnAll es s) as [r st3]
  end.
  simpl in *. rewrite H, G, <- app_assoc. reflexivity.
Qed.

(** The encoder's [finally] block calls [iterator.return()] once on each
    entry that is in [buffer], in order. *)
Lemma finallyBlock_returns_buffer st :
  genReturns (finallyBlock st) = genReturns st ++ map e_idx (buffer st).
Proof.
unfold finallyBlock.
pose proof (returnAll_genReturns (buffer st) st) as H.
destruct (returnAll (buffer st) st) as [es st']. exact H.
Qed.

(** C6 at a failing input: the sequence of scenario S3, whose consumer
    reads the root chunk and the first producer chunk and then returns.
    In the JSON-array variant the entry whose chunk is being yielded has
    been deleted from [buffer], so the [finally] block returns no
    producer and the source iterator's [return] hook is never called,
    whatever happens afterwards; the delimited variant, which yields
    before deleting, calls it once. *)
Theorem C6_abandon_at_chunk_yield :
  let run w :=
    encRun Example.supported Example.codecError Example.print None w
      [Next; Next; Source 0; Race 0; ReturnEarly] (startEncoder Scenario.S3) in
  (exists enc,
      run JsonArray = Some enc /\
      enc_out enc = [line "{A1;}"; line "[1,0,1]"] /\
      enc_main enc = Ended /\
      genReturns (enc_st enc) = [] /\
      srcReturns (enc_st enc) = [] /\
      forall ev,
        encStep Example.supported Example.codecError Example.print None
          JsonArray ev enc = None) /\
  (exists enc,
      run Delimited = Some enc /\
      enc_out enc = [ChunkStr "{A1;}"; ChunkStr "1:0:1"] /\
      enc_main enc = Ended /\
      genReturns (enc_st enc) = [1%N] /\
      srcReturns (enc_st enc) = [1%N]).
Proof.
split.
- eexists. split; [reflexivity|].
  split; [reflexivity|]. split; [reflexivity|].
  split; [reflexivity|]. split; [reflexivity|].
  intros ev. destruct ev; reflexivity.
- eexists. split; [reflexivity|]. repeat split.
Qed.

(** ** The map of sinks *)

Module JsMapFacts.

Lemma key_elem (m : list (N * nat)) i h : (i, h) ∈ m -> i ∈ map fst m.
Proof.
intros H. apply list_elem_of_fmap. exists (i, h). auto.
Qed.

Lemma handle_elem (m : list (N * nat)) i h : (i, h) ∈ m -> h ∈ map snd m.
Proof.
intros H. apply list_elem_of_fmap. exists (i, h). auto.
Qed.

Lemma elem_set k h m i h' :
  NoDup (map fst m) ->
  (i, h') ∈ JsMap.set k h m ->
  (i, h') = (k, h) \/ ((i, h') ∈ m /\ i <> k).
Proof.
induction m as [|[k0 h0] m IH]; simpl; intros ND.
- intros H. apply list_elem_of_singleton in H. auto.
- apply NoDup_cons in ND as [Hk0 ND].
  destruct (N.eqb_spec k0 k) as [->|Hne]; intros H.
  + apply elem_of_cons in H as [H|H]; [auto|].
    right. split; [right; exact H|].
    intros ->. apply Hk0. eapply key_elem; eauto.
  + apply elem_of_cons in H as [H|H].
    * injection H as -> ->. right. split; [left|]. congruence.
    * destruct (IH ND H) as [E|[E1 E2]]; [auto|].
      right. split; [right|]; auto.
Qed.

Lemma keys_set k h m :
  NoDup (map fst m) -> NoDup (map fst (JsMap.set k h m)).
Proof.
induction m as [|[k0 h0] m IH]; simpl; intros ND.
- repeat constructor. intros H. inversion H.
- destruct (N.eqb_spec k0 k) as [->|Hne]; [exact ND|].
  apply NoDup_cons in ND as [Hk0 ND]. simpl. constructor; [|auto].
  intros H. apply list_elem_of_fmap in H as ([i h'] & E & H). simpl in E.
  subst i. destruct (elem_set _ _ _ _ _ ND H) as [E|[E _]].
  + congruence.
  + apply Hk0. eapply key_elem; eauto.
Qed.

Lemma handles_set k h m :
  NoDup (map fst m) ->
  NoDup (map snd m) -> h ∉ map snd m -> NoDup (map snd (JsMap.set k h m)).
Proof.
induction m as [|[k0 h0] m IH]; simpl; intros NK ND Hh.
- repeat constructor. intros H. inversion H.
- apply NoDup_cons in NK as [Hk0 NK]. apply NoDup_cons in ND as [Hh0 ND].
  apply not_elem_of_cons in Hh as [Hne Hh].
  destruct (N.eqb_spec k0 k) as [->|Hnk]; simpl; constructor; auto.
  intros H. apply list_elem_of_fmap in H as ([i h'] & E & H). simpl in E.
  subst h'. destruct (elem_set _ _ _ _ _ NK H) as [E|[E _]].
  + congruence.
  + apply Hh0. eapply handle_elem; eauto.
Qed.

Lemma elem_delete k m i h :
  NoDup (map fst m) ->
  (i, h) ∈ JsMap.delete k m -> (i, h) ∈ m /\ i <> k.
Proof.
induction m as [|[k0 h0] m IH]; simpl; intros ND H.
- inversion H.
- apply NoDup_cons in ND as [Hk0 ND].
  destruct (N.eqb_spec k0 k) as [->|Hne].
  + split; [right; exact H|]. intros ->. apply Hk0. eapply key_elem; eauto.
  + apply elem_of_cons in H as [H|H].
    * injection H as -> ->. split; [left|]. congruence.
    * destruct (IH ND H). split; [right|]; auto.
Qed.

Lemma delete_sublist k m : JsMap.delete k m `sublist_of` m.
Proof.
induction m as [|[k0 h0] m IH]; simpl; [constructor|].
destruct (N.eqb k0 k); [apply sublist_cons, reflexivity|].
apply sublist_skip, IH.
Qed.

Lemma keys_delete k m :
  NoDup (map fst m) -> NoDup (map fst (JsMap.delete k m)).
Proof.
intros H. eapply sublist_NoDup; [exact H|].
apply (fmap_sublist fst), delete_sublist.
Qed.

Lemma handles_delete k m :
  NoDup (map snd m) -> NoDup (map snd (JsMap.delete k m)).
Proof.
intros H. eapply sublist_NoDup; [exact H|].
apply (fmap_sublist snd), delete_sublist.
Qed.

Lemma get_elem k m h : JsMap.get k m = Some h -> (k, h) ∈ m.
Proof.
induction m as [|[k0 h0] m IH]; simpl; [discriminate|].
destruct (N.eqb_spec k0 k) as [->|Hne].
- intros [= ->]. left.
- intros H. right. auto.
Qed.

End JsMapFacts.

(** ** The decoder's invariant *)

Lemma ready_in_range d id h :
  sinksReady d -> (id, h) ∈ enqueueMap d -> (h < length (streams d))%nat.
Proof.
intros [_ R] H. destruct (R id h H) as (s & Hs & _).
eapply lookup_lt_Some; eauto.
Qed.

Lemma decInv_enqueue h it d d' :
  decInv d -> enqueue h it d = Return d' -> decInv d'.
Proof.
intros (NK & [NH R] & C) E. unfold enqueue in E.
destruct (streams d !! h) as [s|] eqn:Hs; [|discriminate].
destruct (closed s); [discriminate|]. injection E as <-.
split; [exact NK|]. split; [split; [exact NH|]|].
- intros id h0 Hin. simpl in *. destruct (decide (h0 = h)) as [->|Hne].
  + eexists. split;
      [apply list_lookup_insert_eq; eapply lookup_lt_Some; eauto
      |reflexivity].
  + rewrite list_lookup_insert_ne by congruence. eauto.
- intros i h0 Hh. simpl. rewrite length_insert. apply C. exact Hh.
Qed.

(** Registering a sink for the reviver that is created or started at the
    same time. *)
Lemma decInv_register id d cs :
  decInv d ->
  (forall c k h, cs !! c = Some k -> handleOf (c_state k) = Some h ->
                 (h = length (streams d) /\ c_idx k = id) \/
                 holds d (c_idx k) h) ->
  decInv (setConsumers (snd (registerAsync id d)) cs).
Proof.
intros (NK & [NH R] & C) Hcs. unfold registerAsync. simpl.
assert (Fresh : length (streams d) ∉ map snd (enqueueMap d)).
{ intros H. apply list_elem_of_fmap in H as ([i h] & E & H). simpl in E.
  subst h. destruct (R _ _ H) as (s & Hs & _).
  apply lookup_lt_Some in Hs. lia. }
split; [apply JsMapFacts.keys_set, NK|]. split; [split|].
- simpl. apply JsMapFacts.handles_set; auto.
- simpl. intros i h H.
  destruct (JsMapFacts.elem_set _ _ _ _ _ NK H) as [E|[E _]].
  + injection E as -> ->. exists (MkStream [] false). split; [|reflexivity].
    rewrite lookup_app_r by lia. rewrite Nat.sub_diag. reflexivity.
  + destruct (R _ _ E) as (s & Hs & Hc). exists s. split; [|exact Hc].
    apply lookup_app_l_Some, Hs.
- simpl. intros i h (c & k & Hk & Hh & Hi). rewrite length_app. simpl.
  destruct (Hcs c k h Hk Hh) as [[-> Hid]|Hold].
  + split; [lia|]. intros id0 H.
    destruct (JsMapFacts.elem_set _ _ _ _ _ NK H) as [E|[E _]].
    * congruence.
    * exfalso. apply Fresh. eapply JsMapFacts.handle_elem; eauto.
  + destruct (C _ _ Hold) as [Hlt Hreg]. split; [lia|]. intros id0 H.
    destruct (JsMapFacts.elem_set _ _ _ _ _ NK H) as [E|[E _]].
    * injection E as -> ->. lia.
    * rewrite <- Hi. apply Hreg, E.
Qed.

Lemma decInv_consumers d cs :
  decInv d ->
  (forall c k h, cs !! c = Some k -> handleOf (c_state k) = Some h ->
                 holds d (c_idx k) h) ->
  decInv (setConsumers d cs).
Proof.
intros (NK & R & C) Hcs. split; [exact NK|]. split; [exact R|].
intros i h (c & k & Hk & Hh & Hi). simpl in *. subst i.
apply C. eapply Hcs; eauto.
Qed.

Lemma holds_app_old d c k h new :
  (consumers d ++ new) !! c = Some k ->
  handleOf (c_state k) = Some h ->
  (forall k', k' ∈ new -> handleOf (c_state k') = Some h -> False) ->
  holds d (c_idx k) h.
Proof.
intros Hk Hh Hnew. apply lookup_app_Some in Hk as [Hk|[_ Hk]].
- exists c, k. auto.
- exfalso. eapply Hnew; [|exact Hh]. eapply list_elem_of_lookup_2; eauto.
Qed.

Lemma decInv_revivePromise idx d :
  decInv d -> decInv (snd (revivePromise idx d)).
Proof.
intros Inv. unfold revivePromise.
change (registerAsync idx d)
  with (length (streams d), snd (registerAsync idx d)).
cbv iota beta. simpl snd at 1.
apply (decInv_register idx d
         (consumers d ++ [MkConsumer KPromise idx (Reading (length (streams d))) []])
         Inv).
intros c k h Hk Hh. apply lookup_app_Some in Hk as [Hk|[_ Hk]].
- right. exists c, k. auto.
- left. apply list_lookup_singleton_Some in Hk as [_ <-].
  simpl in *. split; congruence.
Qed.

Lemma decInv_reviveAsyncIterable idx d :
  decInv d -> decInv (snd (reviveAsyncIterable idx d)).
Proof.
intros Inv. unfold reviveAsyncIterable. simpl.
apply decInv_consumers; [exact Inv|].
intros c k h Hk Hh. eapply holds_app_old; eauto.
intros k' Hin Hh'. apply list_elem_of_singleton in Hin. subst k'. discriminate.
Qed.

Lemma reviveKeeps_refl d : reviveKeeps d d.
Proof.
split; [auto|]. split; [exists []; rewrite app_nil_r; reflexivity|]. auto.
Qed.

Lemma reviveKeeps_trans d1 d2 d3 :
  reviveKeeps d1 d2 -> reviveKeeps d2 d3 -> reviveKeeps d1 d3.
Proof.
intros (I1 & [n1 S1] & P1 & U1) (I2 & [n2 S2] & P2 & U2).
split; [auto|]. split; [|split; congruence].
exists (n1 ++ n2). rewrite S2, S1, app_assoc. reflexivity.
Qed.

Lemma revive_keeps f : forall d, reviveKeeps d (snd (revive f d)).
Proof.
revert f. fix IHf 1. intros [a|fields|idx|idx] d; simpl.
- apply reviveKeeps_refl.
- assert (L : forall d1, reviveKeeps d1 (snd (reviveAll revive fields d1))).
  { induction fields as [|y ys IHys]; intros d1; simpl.
    - apply reviveKeeps_refl.
    - pose proof (IHf y d1) as Hy. destruct (revive y d1) as [vy d2].
      pose proof (IHys d2) as Hys.
      destruct (reviveAll revive ys d2) as [vs d3].
      simpl in *. eapply reviveKeeps_trans; eauto. }
  specialize (L d). destruct (reviveAll revive fields d) as [vs d']. exact L.
- split; [apply decInv_revivePromise|].
  unfold revivePromise, registerAsync. simpl. eauto.
- split; [apply decInv_reviveAsyncIterable|].
  unfold reviveAsyncIterable. simpl.
  split; [exists []; rewrite app_nil_r; reflexivity|]. auto.
Qed.

Lemma reviveSeen_keeps seen : forall d, reviveKeeps d (reviveSeen seen d).
Proof.
induction seen as [|x xs IH]; intros d; simpl; [apply reviveKeeps_refl|].
eapply reviveKeeps_trans; [apply revive_keeps|apply IH].
Qed.

Lemma applyRevivers_keeps p d : reviveKeeps d (fst (applyRevivers p d)).
Proof.
destruct p as [f|seen e]; simpl.
- pose proof (revive_keeps f d) as H. destruct (revive f d). exact H.
- apply reviveSeen_keeps.
Qed.

Lemma decInv_ext d d' :
  streams d' = streams d -> enqueueMap d' = enqueueMap d ->
  consumers d' = consumers d -> decInv d -> decInv d'.
Proof.
intros S M C. unfold decInv, sinksReady, holds. rewrite S, M, C. auto.
Qed.

Lemma decInv_catchHandler w cause d :
  decInv d -> decInv (catchHandler w cause d).
Proof.
intros (NK & R & C).
destruct (catchHandler_delivers w cause d R)
  as (_ & M & Cs & _ & L & Del & _).
unfold decInv, sinksReady, holds. rewrite M, Cs, L.
split; [exact NK|]. split; [split; [apply R|]|exact C].
intros id h H. destruct (Del id h H) as (s & _ & Hs'). eauto.
Qed.

Lemma decInv_pumpEnd d : decInv d -> decInv (pumpEnd JsonArray d).
Proof.
intros Inv. pose proof Inv as (NK & [NH R] & C). unfold pumpEnd.
destruct (enqueueAll_ready (enqueueMap d) streamInterrupted
            (setPumping d false) NH R)
  as (d' & E & M & Cs & _ & _ & L & Del & _).
fold streamInterrupted. rewrite E. simpl in *.
unfold decInv, sinksReady, holds. rewrite M, Cs, L.
split; [exact NK|]. split; [split; [exact NH|]|exact C].
intros id h H. destruct (Del id h H) as (s & _ & Hs'). eauto.
Qed.

Section JsonDecoderInvariant.

Variable parse : chunk -> parsed.
Variable JSON_parse_text : string -> result jsError json.
Variable unflatten : option json -> parsed.

Local Abbreviation step := (decStep parse JSON_parse_text unflatten JsonArray).
Local Abbreviation run := (decRun parse JSON_parse_text unflatten JsonArray).

Lemma decInv_pumpChunk c d :
  decInv d ->
  decInv (fst (pumpChunk parse JSON_parse_text unflatten JsonArray c d)).
Proof.
intros Inv. unfold pumpChunk.
destruct (jsonHeader JSON_parse_text c) as [[[idx status] flattened]|e];
  [|exact Inv].
destruct (match idx with
          | NumNat n => JsMap.get n (enqueueMap d)
          | NumOther _ => None
          end) as [h|]; [|exact Inv].
pose proof (applyRevivers_keeps (unflatten flattened) d) as (K & _).
destruct (applyRevivers (unflatten flattened) d) as [d1 [value|e]];
  simpl in *; [|auto].
destruct (enqueue h (FrameItem status value) d1) as [d2|e] eqn:E; simpl;
  [|auto].
exact (decInv_enqueue _ _ _ _ (K Inv) E).
Qed.

End JsonDecoderInvariant.

Lemma decInv_unregister d c k h ss kind st log p u :
  decInv d -> consumers d !! c = Some k ->
  handleOf (c_state k) = Some h ->
  handleOf st = None ->
  length ss = length (streams d) ->
  (forall h', h' <> h -> ss !! h' = streams d !! h') ->
  decInv (MkDecoder ss (JsMap.delete (c_idx k) (enqueueMap d))
            (<[c := MkConsumer kind (c_idx k) st log]> (consumers d))
            p u).
Proof.
intros (NK & [NH R] & C) Hk Hh Hst L Oth.
assert (Hold : holds d (c_idx k) h) by (exists c, k; auto).
split; [apply JsMapFacts.keys_delete, NK|]. split; [split|]; simpl.
- apply JsMapFacts.handles_delete, NH.
- intros i h' H. apply JsMapFacts.elem_delete in H as [H Hne]; [|exact NK].
  rewrite Oth; [apply (R _ _ H)|].
  intros ->. apply Hne. apply (proj2 (C _ _ Hold)), H.
- intros i h0 (c0 & k0 & Hk0 & Hh0 & Hi0). simpl in *.
  apply list_lookup_insert_Some in Hk0 as [(-> & <- & _)|(Hne & Hk0)];
    [simpl in Hh0; congruence|].
  assert (H0 : holds d i h0) by (exists c0, k0; auto).
  destruct (C _ _ H0) as [Hlt Hreg]. split; [lia|].
  intros id H. apply JsMapFacts.elem_delete in H as [H _]; auto.
Qed.

Lemma decInv_setStream d h q :
  decInv d ->
  decInv (setStreams d (<[h := MkStream q false]> (streams d))).
Proof.
intros (NK & [NH R] & C). split; [exact NK|]. split; [split; [exact NH|]|].
- simpl. intros id h0 H. destruct (R _ _ H) as (s & Hs & Hc).
  destruct (decide (h0 = h)) as [->|Hne].
  + eexists. split;
      [apply list_lookup_insert_eq; eapply lookup_lt_Some; eauto
      |reflexivity].
  + rewrite list_lookup_insert_ne by congruence. eauto.
- intros i h0 Hh. simpl. rewrite length_insert. apply C, Hh.
Qed.

Lemma decInv_setConsumer_same d c k k' h :
  decInv d -> consumers d !! c = Some k ->
  handleOf (c_state k) = Some h ->
  handleOf (c_state k') = Some h -> c_idx k' = c_idx k ->
  decInv (setConsumer c k' d).
Proof.
intros Inv Hk Hh Hh' Hi. unfold setConsumer.
apply decInv_consumers; [exact Inv|].
intros c0 k0 h0 Hk0 Hh0.
apply list_lookup_insert_Some in Hk0 as [(-> & <- & _)|(Hne & Hk0)].
- exists c0, k. rewrite Hi. split; [exact Hk|]. split; congruence.
- exists c0, k0. auto.
Qed.

(** A reviver that holds no stream any more changes state. *)
Lemma decInv_setConsumer_free d c k k' :
  decInv d -> consumers d !! c = Some k ->
  handleOf (c_state k') = None ->
  decInv (setConsumer c k' d).
Proof.
intros Inv Hk Hh'. unfold setConsumer.
apply decInv_consumers; [exact Inv|].
intros c0 k0 h0 Hk0 Hh0.
apply list_lookup_insert_Some in Hk0 as [(-> & <- & _)|(Hne & Hk0)].
- congruence.
- exists c0, k0. auto.
Qed.

(** The JSON-array [dispose()] of a reviver that holds stream [h]. *)
Lemma decInv_dispose d c k h st log :
  decInv d -> consumers d !! c = Some k ->
  handleOf (c_state k) = Some h ->
  handleOf st = None ->
  decInv (setConsumer c (MkConsumer (c_kind k) (c_idx k) st log)
            (fst (beginDispose JsonArray (c_idx k) h d))).
Proof.
intros Inv Hk Hh Hst. unfold beginDispose, setConsumer, closeStream. simpl.
destruct (streams d !! h) as [s|] eqn:Hs; simpl.
- eapply decInv_ext;
    [| | |apply (decInv_unregister d c k h
                   (<[h := MkStream (queue s) true]> (streams d))
                   (c_kind k) st log (pumping d) (unhandled d)
                   Inv Hk Hh Hst)];
    try reflexivity.
  + rewrite length_insert. reflexivity.
  + intros h' Hne. rewrite list_lookup_insert_ne by congruence. reflexivity.
- eapply decInv_ext;
    [| | |apply (decInv_unregister d c k h (streams d)
                   (c_kind k) st log (pumping d) (unhandled d)
                   Inv Hk Hh Hst)];
    try reflexivity; auto.
Qed.

Lemma decInv_finish d c k h o :
  decInv d -> consumers d !! c = Some k ->
  handleOf (c_state k) = Some h ->
  decInv (finish JsonArray c k h o d).
Proof.
intros Inv Hk Hh. unfold finish.
change (beginDispose JsonArray (c_idx k) h d)
  with (fst (beginDispose JsonArray (c_idx k) h d), Finished).
cbv iota beta. apply decInv_dispose; auto.
Qed.

Lemma decInv_execute d c k h stmt :
  decInv d -> consumers d !! c = Some k ->
  handleOf (c_state k) = Some h ->
  decInv (execute JsonArray c k h stmt d).
Proof.
intros Inv Hk Hh. unfold execute.
destruct stmt as [v|v|t].
- destruct (thenable v);
    apply (decInv_setConsumer_same _ c k _ h); auto.
- destruct (thenable v) as [p|]; [|apply decInv_finish; auto].
  destruct (c_kind k) eqn:Hkind.
  + change (beginDispose JsonArray (c_idx k) h d)
      with (fst (beginDispose JsonArray (c_idx k) h d), Finished).
    cbv iota beta. simpl thenFollow. rewrite <- Hkind.
    apply decInv_dispose; auto.
  + rewrite <- Hkind. apply (decInv_setConsumer_same _ c k _ h); auto.
- apply decInv_finish; auto.
Qed.

Lemma decInv_resume d c k o d' :
  decInv d -> consumers d !! c = Some k ->
  resume JsonArray c k o d = Some d' -> decInv d'.
Proof.
intros Inv Hk E. unfold resume in E.
destruct (c_state k) as [|h|h|h p|h p|h|h p|p|] eqn:Hst; try discriminate;
  destruct o as [v|t]; injection E as <-;
  try (apply decInv_finish; auto; rewrite Hst; reflexivity);
  try (eapply decInv_setConsumer_free; eauto; reflexivity).
apply (decInv_setConsumer_same _ c k _ h); auto. rewrite Hst. reflexivity.
Qed.

Section JsonDecoderSteps.

Variable parse : chunk -> parsed.
Variable JSON_parse_text : string -> result jsError json.
Variable unflatten : option json -> parsed.

Local Abbreviation step := (decStep parse JSON_parse_text unflatten JsonArray).
Local Abbreviation run := (decRun parse JSON_parse_text unflatten JsonArray).

Lemma decInv_step ev d d' : decInv d -> step ev d = Some d' -> decInv d'.
Proof.
intros Inv E. destruct ev as [c|  |e|c|c|c|c]; unfold decStep in E.
- (* Arrive *)
  destruct (pumping d); [|discriminate].
  pose proof (decInv_pumpChunk parse JSON_parse_text unflatten c d Inv) as H.
  destruct (pumpChunk parse JSON_parse_text unflatten JsonArray c d)
    as [d1 [e|]]; injection E as <-; simpl in H; [|exact H].
  apply decInv_catchHandler, H.
- (* EndOfStream *)
  destruct (pumping d); [|discriminate]. injection E as <-.
  apply decInv_pumpEnd, Inv.
- (* TransportError *)
  destruct (pumping d); [|discriminate]. injection E as <-.
  apply decInv_catchHandler, Inv.
- (* Pull *)
  destruct (consumers d !! c) as [k|] eqn:Hk; [|discriminate].
  destruct (c_kind k); [discriminate|].
  destruct (c_state k) as [|h|h|h p|h p|h|h p|p|] eqn:Hst; try discriminate.
  + injection E as <-. unfold setConsumer.
    apply (decInv_register (c_idx k) d _ Inv).
    intros c0 k0 h0 Hk0 Hh0. simpl in Hk0.
    apply list_lookup_insert_Some in Hk0 as [(-> & <- & _)|(Hne & Hk0)].
    * left. simpl in *. split; congruence.
    * right. exists c0, k0. auto.
  + injection E as <-.
    apply (decInv_setConsumer_same d c k _ h Inv Hk); auto.
    rewrite Hst. reflexivity.
- (* Read *)
  destruct (consumers d !! c) as [k|] eqn:Hk; [|discriminate].
  destruct (c_state k) as [|h|h|h p|h p|h|h p|p|] eqn:Hst; try discriminate.
  destruct (streams d !! h) as [[[|it rest] [|]]|] eqn:Hs; try discriminate.
  injection E as <-.
  apply decInv_execute; [apply decInv_setStream, Inv|exact Hk|].
  rewrite Hst. reflexivity.
- (* Dispose *)
  destruct (consumers d !! c) as [k|] eqn:Hk; [|discriminate].
  destruct (c_state k) as [|h|h|h p|h p|h|h p|p|] eqn:Hst; try discriminate;
    injection E as <-; unfold setConsumer; simpl.
  + assert (Hh : handleOf (c_state k) = Some h) by (rewrite Hst; reflexivity).
    eapply decInv_ext;
      [| | |apply (decInv_unregister d c k h (streams d) (c_kind k)
                     Finished (c_log k) (pumping d) (unhandled d)
                     Inv Hk Hh)];
      try reflexivity; auto.
  + assert (Hh : handleOf (c_state k) = Some h) by (rewrite Hst; reflexivity).
    eapply decInv_ext;
      [| | |apply (decInv_unregister d c k h (streams d) (c_kind k)
                     (Following p) (c_log k) (pumping d) (unhandled d)
                     Inv Hk Hh)];
      try reflexivity; auto.
- (* Resume *)
  destruct (consumers d !! c) as [k|] eqn:Hk; [|discriminate].
  destruct (awaited (c_state k)); [|discriminate].
  destruct (settledWith d n); [|discriminate].
  eapply decInv_resume; eauto.
Qed.

Lemma decInv_run evs d d' : decInv d -> run evs d = Some d' -> decInv d'.
Proof.
revert d. induction evs as [|ev evs IH]; intros d Inv E; simpl in E.
- injection E as <-. exact Inv.
- destruct (step ev d) as [d1|] eqn:S; [|discriminate].
  eapply IH; [|exact E]. eapply decInv_step; eauto.
Qed.

Lemma decInv_init : decInv initDec.
Proof.
split; [constructor|]. split; [split; [constructor|]|].
- intros id h H. inversion H.
- intros i h (c & k & Hk & _). simpl in Hk. discriminate.
Qed.

Lemma decInv_parseHead hd :
  decInv (fst (parseHead parse JSON_parse_text unflatten JsonArray hd)).
Proof.
unfold parseHead.
destruct (JSON_parse JSON_parse_text (headValue hd)) as [v|e];
  [|apply decInv_init].
pose proof (applyRevivers_keeps (unflatten (Some v)) initDec) as (K & _).
destruct (applyRevivers (unflatten (Some v)) initDec) as [d [root|e]];
  simpl in *; [|apply K, decInv_init].
eapply decInv_ext; [| | |apply K, decInv_init]; reflexivity.
Qed.

End JsonDecoderSteps.

(** ** Truncation *)

Lemma pumpEnd_delivers d :
  sinksReady d ->
  pumping (pumpEnd JsonArray d) = false /\
  enqueueMap (pumpEnd JsonArray d) = enqueueMap d /\
  consumers (pumpEnd JsonArray d) = consumers d /\
  (forall id h, (id, h) ∈ enqueueMap d ->
     delivered (ErrorItem streamInterrupted) d (pumpEnd JsonArray d) h).
Proof.
intros [NH R]. unfold pumpEnd.
destruct (enqueueAll_ready (enqueueMap d) streamInterrupted
            (setPumping d false) NH R)
  as (d' & E & M & Cs & P & _ & _ & Del & _).
fold streamInterrupted. rewrite E. simpl in *. auto.
Qed.

Section ReadError.

Variable parse : chunk -> parsed.
Variable JSON_parse_text : string -> result jsError json.
Variable unflatten : option json -> parsed.

(** A reviver whose pending read finds an error at the head of its queue
    ends by throwing it. *)
Lemma read_error w c k h e rest d :
  consumers d !! c = Some k -> c_state k = Reading h ->
  streams d !! h = Some (MkStream (ErrorItem e :: rest) false) ->
  exists d' k',
    decStep parse JSON_parse_text unflatten w (Read c) d = Some d' /\
    consumers d' !! c = Some k' /\
    c_log k' = c_log k ++ [Failed (ThrownError e)] /\
    handleOf (c_state k') = match w with
                            | JsonArray => None
                            | Delimited => Some h
                            end.
Proof.
intros Hk Hst Hs. unfold decStep. rewrite Hk, Hst, Hs. simpl interpret.
cbv iota. unfold execute, finish, beginDispose.
assert (Hc : (c < length (consumers d))%nat)
  by (eapply lookup_lt_Some; eauto).
destruct w; eexists; eexists; (split; [reflexivity|]);
  unfold setConsumer, closeStream; simpl;
  match goal with
  | |- context [match ?x with Some _ => _ | None => _ end] => destruct x
  end; simpl; rewrite list_lookup_insert_eq by assumption; auto.
Qed.

Lemma pull_suspended w c k h d :
  consumers d !! c = Some k -> c_kind k = KAsyncIterable ->
  c_state k = Suspended h ->
  decStep parse JSON_parse_text unflatten w (Pull c) d
  = Some (setConsumer c
            (MkConsumer (c_kind k) (c_idx k) (Reading h) (c_log k)) d).
Proof.
intros Hk Hkind Hst. unfold decStep. rewrite Hk, Hkind, Hst. reflexivity.
Qed.

Lemma decRun_two w ev1 ev2 d d1 d2 :
  decStep parse JSON_parse_text unflatten w ev1 d = Some d1 ->
  decStep parse JSON_parse_text unflatten w ev2 d1 = Some d2 ->
  decRun parse JSON_parse_text unflatten w [ev1; ev2] d = Some d2.
Proof.
intros E1 E2. unfold decRun. rewrite E1, E2. reflexivity.
Qed.

End ReadError.

(** C3, as the code has it.  In the JSON-array variant, when the chunk
    stream ends while the pump runs, the pump stops and enqueues a
    stream-interrupted error on every registered sink; a revived promise
    or async iterable whose sink is registered and whose pending read
    finds its queue empty then fails with that error, and so does an
    async iterable suspended between two pulls at its next pull.  (A sink
    is registered when a promise is revived, and when an async iterable is
    pulled for the first time.) *)
Theorem C3_truncation_json
    (parse : chunk -> parsed) (JSON_parse_text : string -> result jsError json)
    (unflatten : option json -> parsed)
    (hd : head) (evs : list decEvent) (d : decoder) :
  decRun parse JSON_parse_text unflatten JsonArray evs
    (fst (parseHead parse JSON_parse_text unflatten JsonArray hd)) = Some d ->
  pumping d = true ->
  isStreamInterrupted streamInterrupted = true /\
  exists d',
    decStep parse JSON_parse_text unflatten JsonArray EndOfStream d = Some d' /\
    pumping d' = false /\
    (forall id h, (id, h) ∈ enqueueMap d ->
       delivered (ErrorItem streamInterrupted) d d' h) /\
    (forall c k h,
       consumers d !! c = Some k ->
       (c_idx k, h) ∈ enqueueMap d ->
       streams d !! h = Some (MkStream [] false) ->
       (c_state k = Reading h ->
        exists d'' k',
          decStep parse JSON_parse_text unflatten JsonArray (Read c) d'
            = Some d'' /\
          consumers d'' !! c = Some k' /\
          c_log k' = c_log k ++ [Failed (ThrownError streamInterrupted)]) /\
       (c_state k = Suspended h -> c_kind k = KAsyncIterable ->
        exists d'' k',
          decRun parse JSON_parse_text unflatten JsonArray [Pull c; Read c] d'
            = Some d'' /\
          consumers d'' !! c = Some k' /\
          c_log k' = c_log k ++ [Failed (ThrownError streamInterrupted)])).
Proof.
intros Hrun Hp. split; [reflexivity|].
pose proof (decInv_run parse JSON_parse_text unflatten evs _ _
              (decInv_parseHead parse JSON_parse_text unflatten hd) Hrun)
  as (_ & R & _).
destruct (pumpEnd_delivers d R) as (Pf & M & Cs & Del).
exists (pumpEnd JsonArray d). split; [unfold decStep; rewrite Hp; reflexivity|].
split; [exact Pf|]. split; [exact Del|].
intros c k h Hk Hreg Hs.
destruct (Del _ _ Hreg) as (s & Hs0 & Hs').
rewrite Hs in Hs0. injection Hs0 as <-. simpl in Hs'.
split.
- intros Hst.
  destruct (read_error parse JSON_parse_text unflatten JsonArray c k h
              streamInterrupted [] (pumpEnd JsonArray d))
    as (d'' & k' & E & Hk' & Hlog & _); [congruence|exact Hst|exact Hs'|].
  exists d'', k'. auto.
- intros Hst Hkind.
  set (k1 := MkConsumer (c_kind k) (c_idx k) (Reading h) (c_log k)).
  assert (Hc : (c < length (consumers d))%nat)
    by (eapply lookup_lt_Some; eauto).
  destruct (read_error parse JSON_parse_text unflatten JsonArray c k1 h
              streamInterrupted []
              (setConsumer c k1 (pumpEnd JsonArray d)))
    as (d'' & k' & E & Hk' & Hlog & _).
  + change (consumers (setConsumer c k1 (pumpEnd JsonArray d)))
      with (<[c := k1]> (consumers (pumpEnd JsonArray d))).
    rewrite Cs. apply list_lookup_insert_eq. exact Hc.
  + reflexivity.
  + exact Hs'.
  + exists d'', k'. split; [|auto].
    eapply decRun_two; [|exact E].
    apply pull_suspended; congruence.
Qed.

(** C3, as stated, fails in the delimited variant: after the head
    [{P1;}] has registered the sink of promise 1, the end of the chunk
    stream stops the pump and nothing is enqueued; no event is enabled any
    more, so the promise never settles. *)
Lemma C3_counterexample :
  let d := fst (parseHead Example.parse Example.jsonParse Example.unflatten
                  Delimited (HeadChunk (ChunkStr "{P1;}"))) in
  enqueueMap d = [(1%N, 0%nat)] /\
  consumers d = [MkConsumer KPromise 1 (Reading 0) []] /\
  pumping d = true /\
  exists d',
    decStep Example.parse Example.jsonParse Example.unflatten Delimited
      EndOfStream d = Some d' /\
    enqueueMap d' = [(1%N, 0%nat)] /\
    streams d' = [MkStream [] false] /\
    forall evs d'',
      decRun Example.parse Example.jsonParse Example.unflatten Delimited
        evs d' = Some d'' ->
      consumers d'' = [MkConsumer KPromise 1 (Reading 0) []].
Proof.
simpl. repeat (split; [reflexivity|]).
eexists. split; [reflexivity|]. repeat (split; [reflexivity|]).
intros evs d'' H. destruct evs as [|ev evs].
- injection H as <-. reflexivity.
- exfalso. simpl in H.
  destruct ev as [c| |e|c|c|c|c]; try discriminate;
    destruct c as [|c]; simpl in H; discriminate.
Qed.

Lemma C3_witness :
  let d := fst (parseHead Example.parse Example.jsonParse Example.unflatten
                  JsonArray (HeadChunk (line "[[7,1]]"))) in
  exists d',
    decStep Example.parse Example.jsonParse Example.unflatten JsonArray
      EndOfStream d = Some d' /\
    streams d' = [MkStream [ErrorItem streamInterrupted] false] /\
    exists d'' k',
      decStep Example.parse Example.jsonParse Example.unflatten JsonArray
        (Read 0) d' = Some d'' /\
      consumers d'' !! 0%nat = Some k' /\
      c_log k' = [Failed (ThrownError streamInterrupted)].
Proof.
intros d.
destruct (C3_truncation_json Example.parse Example.jsonParse Example.unflatten
            (HeadChunk (line "[[7,1]]")) [] d eq_refl eq_refl)
  as (_ & d' & E & _ & _ & Hc).
exists d'. split; [exact E|].
injection E as <-. split; [reflexivity|].
destruct (Hc 0%nat (MkConsumer KPromise 1 (Reading 0) []) 0%nat eq_refl
            ltac:(left) eq_refl) as [Hread _].
exact (Hread eq_refl).
Defined.
(** ** The sinks of the delimited decoder *)

Lemma isCancelling_handle st h : isCancelling st h -> handleOf st = Some h.
Proof. intros [->|[p ->]]; reflexivity. Qed.


















Lemma notCancelling_handle st h h' :
  handleOf st = Some h ->
  (forall p, st <> CancellingThen h p) -> st <> Cancelling h ->
  isCancelling st h' -> False.
Proof.
intros Hh N1 N2 Hc. pose proof (isCancelling_handle _ _ Hc) as Hh'.
assert (h' = h) by congruence. subst h'.
destruct Hc as [->|[p ->]]; [apply N2; reflexivity|eapply N1; reflexivity].
Qed.



Section DelimitedDecoderSteps.

Variable parse : chunk -> parsed.
Variable JSON_parse_text : string -> result jsError json.
Variable unflatten : option json -> parsed.

Local Abbreviation step := (decStep parse JSON_parse_text unflatten Delimited).
Local Abbreviation run := (decRun parse JSON_parse_text unflatten Delimited).






End DelimitedDecoderSteps.








(** ** Round trip *)

(** C1 at a failing input, in both variants.  The encoder's chunks for
    [{ s: <1, 2, 3, then "done"> }] are fed to the decoder, whose promise
    is fulfilled with the decoded root; the holder of the decoded sequence
    pulls it for the first time when its first frame has arrived.  The
    sink of a sequence is registered by the body of the [AsyncIterable]
    reviver, an [async function*], which runs at the first [next()]; the
    frame that the pump received before that found no sink and was
    dropped.  The decoded sequence produces 2 and 3 and returns ["done"]:
    the item 1 is lost. *)
Theorem C1_late_pull_loses_item :
  (exists enc d0 d,
      encRun Toy.supported Toy.codecError Toy.print None Delimited
        Runs.S3Schedule (startEncoder Scenario.S3) = Some enc /\
      enc_main enc = Ended /\
      enc_out enc = Runs.S3Chunks /\
      parseHead Toy.parse Toy.jsonParse Toy.unflatten Delimited
        (HeadChunk (ChunkStr "[a10]"))
      = (d0, Fulfils (RComposite [RAsyncIterable 0])) /\
      decRun Toy.parse Toy.jsonParse Toy.unflatten Delimited Runs.latePull d0
      = Some d /\
      consumers d
      = [MkConsumer KAsyncIterable 1 Finished
           [Produced (RPlain "2"); Produced (RPlain "3");
            Completed (Some (RPlain "done"))]]) /\
  (exists enc d0 d,
      encRun Toy.supported Toy.codecError Toy.print None JsonArray
        RunsJson.S3Schedule (startEncoder Scenario.S3) = Some enc /\
      enc_main enc = Ended /\
      enc_out enc = RunsJson.S3Chunks /\
      parseHead Toy.parse ToyJson.jsonParse ToyJson.unflatten JsonArray
        (HeadChunk (line "[a10]"))
      = (d0, Fulfils (RComposite [RAsyncIterable 0])) /\
      decRun Toy.parse ToyJson.jsonParse ToyJson.unflatten JsonArray
        RunsJson.latePull d0 = Some d /\
      consumers d
      = [MkConsumer KAsyncIterable 1 Finished
           [Produced (RPlain "2"); Produced (RPlain "3");
            Completed (Some (RPlain "done"))]]).
Proof.
split.
- eexists _, _, _.
  split; [vm_compute; reflexivity|].
  split; [reflexivity|]. split; [reflexivity|].
  split; [vm_compute; reflexivity|].
  split; [vm_compute; reflexivity|]. reflexivity.
- eexists _, _, _.
  split; [vm_compute; reflexivity|].
  split; [reflexivity|]. split; [reflexivity|].
  split; [vm_compute; reflexivity|].
  split; [vm_compute; reflexivity|]. reflexivity.
Qed.

(** ** The wire: a frame's text, read back *)

Module DecimalFacts.
Import JsString.
Local Open Scope N_scope.

(** The number a run of digits denotes after the digits read so far. *)
Lemma parseDigits_uint d acc :
  parseDigits acc (NilEmpty.string_of_uint d)
  = acc * 10 ^ DecimalPos.Unsigned.usize d
    + DecimalPos.Unsigned.of_lu (Decimal.rev d).
Proof.
revert acc. induction d; intros acc; [simpl; lia|..];
  simpl NilEmpty.string_of_uint; cbn [parseDigits]; rewrite IHd;
  match goal with
  | |- context [Decimal.rev (?D d)] =>
      change (Decimal.rev (D d)) with (Decimal.revapp d (D Decimal.Nil));
      rewrite (DecimalPos.Unsigned.of_lu_revapp d (D Decimal.Nil))
  end;
  cbn [DecimalPos.Unsigned.usize DecimalPos.Unsigned.of_lu];
  rewrite N.pow_succ_r';
  match goal with
  | |- context [N_of_ascii ?a - 48] =>
      let v := eval vm_compute in (N_of_ascii a - 48) in
      change (N_of_ascii a - 48) with v
  end;
  generalize (10 ^ DecimalPos.Unsigned.usize d);
  generalize (DecimalPos.Unsigned.of_lu (Decimal.rev d));
  intros L X; simpl; nia.
Qed.

Lemma allDigits_uint d : allDigits (NilEmpty.string_of_uint d) = true.
Proof. induction d; simpl; auto. Qed.

Lemma to_uint_nonnil n : N.to_uint n <> Decimal.Nil.
Proof.
destruct n; simpl; [discriminate|].
apply DecimalPos.Unsigned.to_uint_nonnil.
Qed.

Lemma decimal_eq n : decimal n = NilEmpty.string_of_uint (N.to_uint n).
Proof.
unfold decimal, NilZero.string_of_uint.
pose proof (to_uint_nonnil n). destruct (N.to_uint n); congruence.
Qed.

Lemma isDecimal_decimal n : isDecimal (decimal n) = true.
Proof.
rewrite decimal_eq. pose proof (to_uint_nonnil n) as H.
pose proof (allDigits_uint (N.to_uint n)) as A.
destruct (N.to_uint n); try congruence; exact A.
Qed.

Lemma parseInt_decimal n : parseInt (decimal n) = n.
Proof.
unfold parseInt. rewrite decimal_eq, parseDigits_uint.
rewrite <- DecimalPos.Unsigned.of_uint_alt.
change (Pos.of_uint (N.to_uint n)) with (N.of_uint (N.to_uint n)).
rewrite DecimalN.Unsigned.of_to. lia.
Qed.

End DecimalFacts.

Lemma delimitedHeader_frameText fr :
  delimitedHeader (ChunkStr (frameText Delimited fr))
  = Return (f_idx fr, f_status fr, f_payload fr).
Proof.
unfold delimitedHeader, frameText.
rewrite splitChunk_two_colons
  by (apply isDecimal_no_colon, DecimalFacts.isDecimal_decimal).
unfold asNumberOrThrow.
rewrite !DecimalFacts.isDecimal_decimal, !DecimalFacts.parseInt_decimal.
reflexivity.
Qed.

(** ** Encoding a value all of whose data is supported *)

Section FlattenSupported.

Variable supported : string -> bool.
Variable codecError : string -> value.
Variable print : flat -> string.

Lemma sourcesOf_app S n1 n2 :
  sourcesOf S (n1 ++ n2) <-> sourcesOf S n1 /\ sourcesOf S n2.
Proof.
unfold sourcesOf. split.
- intros H. split; intros e He; apply H, elem_of_app; auto.
- intros [H1 H2] e He. apply elem_of_app in He as [He|He]; auto.
Qed.

Lemma weightB_app w b1 b2 :
  weightB w (b1 ++ b2) = (weightB w b1 + weightB w b2)%nat.
Proof.
induction b1 as [|e b1 IH]; simpl; [reflexivity|]. rewrite IH. lia.
Qed.

Lemma weightQ_app w q1 q2 :
  weightQ w (q1 ++ q2) = (weightQ w q1 + weightQ w q2)%nat.
Proof.
induction q1 as [|x q1 IH]; simpl; [reflexivity|]. rewrite IH. lia.
Qed.

Lemma weightG_promise w how v :
  weightG w (AwaitPromise how v) = weightV w (PromiseV how v).
Proof. unfold weightG. simpl. lia. Qed.

Lemma weightQ_steps w items how v ret :
  (weightQ w (stepsOf w (AwaitNext items how v ret)) + tailWeight w)%nat
  = weightV w (AsyncIterableV items how v ret).
Proof.
simpl. induction items as [|x items IH]; simpl; [lia|].
rewrite <- IH. lia.
Qed.

Lemma weightG_iter w items how v ret :
  weightG w (AwaitNext items how v ret)
  = weightV w (AsyncIterableV items how v ret).
Proof.
unfold weightG. rewrite <- weightQ_steps.
change (futureOf w (AwaitNext items how v ret)) with (@nil (N * value)).
rewrite app_nil_r. reflexivity.
Qed.

Lemma weightB_fresh w i g : weightB w [MkEntry i g Pending false] = weightG w g.
Proof. unfold weightB, weightE. simpl. lia. Qed.

Lemma flatten_supported v :
  allSupported supported v = true ->
  forall st, exists f new st',
    flatten supported codecError v st = (st', Return f) /\
    registered st st' new /\
    idsOf f = map e_idx new /\
    Forall (freshEntry supported) new /\
    srcReturns st' = srcReturns st /\ genReturns st' = genReturns st /\
    flatSupported supported f = true /\
    (forall w, weightB w new = weightV w v) /\
    forall S, sourcesOf S new -> denotesF S f v.
Proof.
induction v as [a|fields IH|how v _|items how v ret _ _] using value_rect';
  intros Hs st.
- simpl in *. rewrite Hs. exists (FPlain a), [], st.
  split; [reflexivity|]. split; [apply registered_refl|].
  split; [reflexivity|]. split; [constructor|].
  split; [reflexivity|]. split; [reflexivity|].
  split; [simpl; exact Hs|]. split; [reflexivity|].
  intros S _. constructor.
- simpl in Hs.
  assert (G : forall st0, exists fs new st',
             flattenAll (flatten supported codecError) fields st0
               = (st', Return fs) /\
             registered st0 st' new /\
             concat (map idsOf fs) = map e_idx new /\
             Forall (freshEntry supported) new /\
             srcReturns st' = srcReturns st0 /\
             genReturns st' = genReturns st0 /\
             forallb (flatSupported supported) fs = true /\
             (forall w, weightB w new
                        = fold_right (fun x acc => (weightV w x + acc)%nat)
                            0%nat fields) /\
             forall S, sourcesOf S new -> Forall2 (denotesF S) fs fields).
  { clear st. induction IH as [|x xs Hx _ IHxs]; intros st0.
    - exists [], [], st0.
      split; [reflexivity|]. split; [apply registered_refl|].
      split; [reflexivity|]. split; [constructor|].
      split; [reflexivity|]. split; [reflexivity|].
      split; [reflexivity|]. split; [reflexivity|].
      intros S _. constructor.
    - simpl in Hs. apply andb_true_iff in Hs as [Hsx Hsxs].
      destruct (Hx Hsx st0) as (fx & n1 & st1 & E1 & R1 & I1 & F1 & Sr1 & Gr1 & Fs1 & W1 & D1).
      destruct (IHxs Hsxs st1)
        as (fr & n2 & st2 & E2 & R2 & I2 & F2 & Sr2 & Gr2 & Fs2 & W2 & D2).
      exists (fx :: fr), (n1 ++ n2), st2. simpl. rewrite E1, E2.
      split; [reflexivity|]. split; [eauto using registered_trans|].
      split; [rewrite map_app, I1, I2; reflexivity|].
      split; [apply Forall_app; auto|].
      split; [congruence|]. split; [congruence|].
      split; [rewrite Fs1, Fs2; reflexivity|].
      split; [intros w; rewrite weightB_app, W1, W2; reflexivity|].
      intros S HS. apply sourcesOf_app in HS as [HS1 HS2].
      constructor; auto. }
  destruct (G st) as (fs & new & st' & E & R & I & F & Sr & Gr & Fs & Wt & D).
  exists (FComposite fs), new, st'. simpl. rewrite E.
  split; [reflexivity|]. split; [exact R|]. split; [exact I|].
  split; [exact F|]. split; [exact Sr|]. split; [exact Gr|].
  split; [exact Fs|]. split; [exact Wt|]. intros S HS. constructor. auto.
- simpl in Hs. simpl. eexists _, [_], _. split; [reflexivity|].
  split; [apply (registerAsyncIterable_registered (AwaitPromise how v) st)|].
  split; [reflexivity|]. split; [repeat constructor; exact Hs|].
  split; [reflexivity|]. split; [reflexivity|].
  split; [reflexivity|].
  split; [intros w; rewrite weightB_fresh; apply weightG_promise|].
  intros S HS. constructor.
  apply (HS (MkEntry (counter st + 1) (AwaitPromise how v) Pending false)).
  left.
- simpl in Hs. apply andb_true_iff in Hs as [Hs1 Hs2].
  simpl. eexists _, [_], _. split; [reflexivity|].
  split; [apply (registerAsyncIterable_registered
                   (AwaitNext items how v ret) st)|].
  split; [reflexivity|]. split; [repeat constructor; auto|].
  split; [reflexivity|]. split; [reflexivity|].
  split; [reflexivity|].
  split; [intros w; rewrite weightB_fresh; apply weightG_iter|].
  intros S HS. constructor.
  apply (HS (MkEntry (counter st + 1) (AwaitNext items how v ret)
               Pending false)).
  left.
Qed.

Lemma recurse_supported v :
  allSupported supported v = true ->
  forall st, exists f new st',
    recurse supported codecError print v st = (st', Return (print f)) /\
    registered st st' new /\
    idsOf f = map e_idx new /\
    Forall (freshEntry supported) new /\
    srcReturns st' = srcReturns st /\ genReturns st' = genReturns st /\
    flatSupported supported f = true /\
    (forall w, weightB w new = weightV w v) /\
    forall S, sourcesOf S new -> denotesF S f v.
Proof.
intros Hs st.
destruct (flatten_supported v Hs st) as (f & new & st' & E & H).
exists f, new, st'. unfold recurse. rewrite E. auto.
Qed.

End FlattenSupported.

Section Bodies.

Variable supported : string -> bool.
Variable codecError : string -> value.
Variable print : flat -> string.
Variable coerceError : option (value -> value).

Local Abbreviation recurse_ := (recurse supported codecError print).
Local Abbreviation safeCause_ :=
  (safeCause supported codecError print coerceError).

Lemma safeCause_supported v st st' s :
  recurse_ v st = (st', Return s) -> safeCause_ v st = (st', Return s).
Proof. intros H. unfold safeCause. rewrite H. reflexivity. Qed.

Lemma frame_result w g idx st st1 s f v new :
  registered st st1 new ->
  idsOf f = map e_idx new ->
  Forall (freshEntry supported) new ->
  flatSupported supported f = true ->
  (forall S, sourcesOf S new -> denotesF S f v) ->
  weightB w new = weightV w v ->
  forall g' dn st2 stop,
    buffer st2 = buffer st1 -> counter st2 = counter st1 ->
    (s, v) :: futureOf w g' = stepsOf w g ->
    contOK w supported g' dn ->
    ((exists k', stop = Yields (MkFrame idx s (print f)) k' /\
                 g' = AtYield k' /\ dn = false) \/
     (stop = Returns (MkFrame idx s (print f)) /\ g' = Closed /\ dn = true)) ->
    bodyResult w supported print g idx st st2 stop.
Proof.
intros (B & I & Cn) Hf Hnew Hfs Hden Hwt g' dn st2 stop B2 C2 Hst Hc Hstop.
exists s, f, v, g', dn, new.
split; [congruence|]. split; [congruence|]. split; [exact I|].
split; [exact Hf|]. split; [exact Hnew|]. split; [exact Hst|].
split; [exact Hc|]. split; [exact Hfs|]. split; [exact Hden|].
split; [exact Hwt|exact Hstop].
Qed.

Lemma promiseBody_supported w idx how v st :
  allSupported supported v = true ->
  exists st2 stop,
    promiseBody supported codecError print coerceError w idx how v st
    = (st2, stop) /\
    bodyResult w supported print (AwaitPromise how v) idx st st2 stop.
Proof.
intros Hs.
destruct (recurse_supported supported codecError print v Hs st)
  as (f & new & st1 & E & R & I & F & _ & _ & Fs & Wt & D).
pose proof (safeCause_supported v st st1 _ E) as Es.
pose proof (fun s => frame_result w (AwaitPromise how v) idx st st1 s f v new
                       R I F Fs D (Wt w)) as FR.
unfold promiseBody. destruct how; [rewrite E|rewrite Es];
  unfold promiseFrame; destruct w; eexists _, _; (split; [reflexivity|]).
- eapply (FR _ (AtYield ThenEnd) false); try reflexivity; [split; reflexivity|].
  left. eexists. split; [reflexivity|]. split; reflexivity.
- eapply (FR _ Closed true); try reflexivity; [split; reflexivity|].
  right. split; [reflexivity|]. split; reflexivity.
- eapply (FR _ (AtYield ThenEnd) false); try reflexivity; [split; reflexivity|].
  left. eexists. split; [reflexivity|]. split; reflexivity.
- eapply (FR _ Closed true); try reflexivity; [split; reflexivity|].
  right. split; [reflexivity|]. split; reflexivity.
Qed.

Lemma callSourceReturn_same idx ret st :
  buffer (callSourceReturn idx ret st) = buffer st /\
  counter (callSourceReturn idx ret st) = counter st.
Proof. destruct ret; split; reflexivity. Qed.

Lemma iterBody_supported w idx items how v ret st :
  forallb (allSupported supported) items = true ->
  allSupported supported v = true ->
  exists st2 stop,
    iterBody supported codecError print coerceError w idx items how v ret st
    = (st2, stop) /\
    bodyResult w supported print (AwaitNext items how v ret) idx st st2 stop.
Proof.
intros Hitems Hs. destruct items as [|x rest].
- (* the source is done *)
  destruct (recurse_supported supported codecError print v Hs st)
    as (f & new & st1 & E & R & I & F & _ & _ & Fs & Wt & D).
  pose proof (safeCause_supported v st st1 _ E) as Es.
  pose proof (fun s => frame_result w (AwaitNext [] how v ret) idx st st1 s
                         f v new R I F Fs D (Wt w)) as FR.
  destruct (callSourceReturn_same idx ret st1) as [Bc Cc].
  unfold iterBody. destruct how; [rewrite E|rewrite Es];
    unfold lastFrame; destruct w; eexists _, _; (split; [reflexivity|]).
  + eapply (FR _ (AtYield (ThenFinally ret)) false); try reflexivity;
      [split; reflexivity|].
    left. eexists. split; [reflexivity|]. split; reflexivity.
  + eapply (FR _ Closed true); try reflexivity; try assumption;
      [split; reflexivity|].
    right. split; [reflexivity|]. split; reflexivity.
  + eapply (FR _ (AtYield (ThenFinally ret)) false); try reflexivity;
      [split; reflexivity|].
    left. eexists. split; [reflexivity|]. split; reflexivity.
  + eapply (FR _ Closed true); try reflexivity; try assumption;
      [split; reflexivity|].
    right. split; [reflexivity|]. split; reflexivity.
- (* the source yields [x] *)
  simpl in Hitems. apply andb_true_iff in Hitems as [Hx Hrest].
  destruct (recurse_supported supported codecError print x Hx st)
    as (f & new & st1 & E & R & I & F & _ & _ & Fs & Wt & D).
  pose proof (fun s => frame_result w (AwaitNext (x :: rest) how v ret) idx
                         st st1 s f x new R I F Fs D (Wt w)) as FR.
  unfold iterBody. rewrite E. eexists _, _. split; [reflexivity|].
  eapply (FR _ (AtYield (ThenLoop rest how v ret)) false); try reflexivity.
  + split; [reflexivity|]. split; assumption.
  + left. eexists. split; [reflexivity|]. split; reflexivity.
Qed.

End Bodies.

Lemma steps_split_source w g emitted x rest :
  stepsOf w g = emitted ++ x :: rest ->
  (exists how v, g = AwaitPromise how v) \/
  (exists items how v ret, g = AwaitNext items how v ret).
Proof.
destruct g as [how v|items how v ret|k|]; simpl.
- left. eauto.
- right. eauto.
- intros H. destruct emitted; discriminate.
- intros H. destruct emitted; discriminate.
Qed.

Lemma contOK_json supported g dn : contOK JsonArray supported g dn -> dn = false.
Proof.
destruct g as [| |[| |]|]; simpl; try tauto.
intros [H _]. discriminate.
Qed.

Lemma finallyBlock_empty st :
  buffer st = [] ->
  buffer (finallyBlock st) = [] /\
  counter (finallyBlock st) = counter st.
Proof.
intros E. unfold finallyBlock. rewrite E. simpl. auto.
Qed.


(** ** The encoder runs to its end *)

Lemma weightB_insert w b k x y :
  b !! k = Some x ->
  (weightB w (<[k := y]> b) + weightE w x = weightB w b + weightE w y)%nat.
Proof.
revert k. induction b as [|e b IH]; intros [|k] H; simpl in *;
  try discriminate.
- injection H as ->. lia.
- specialize (IH k H). lia.
Qed.

Lemma weightB_deleteAt w b k x :
  b !! k = Some x ->
  (weightB w (deleteAt k b) + weightE w x = weightB w b)%nat.
Proof.
unfold deleteAt. rewrite <- delete_take_drop.
revert k. induction b as [|e b IH]; intros [|k] H; simpl in *;
  try discriminate.
- injection H as ->. lia.
- specialize (IH k H). lia.
Qed.

Lemma step_weight w supported s v g g' dn :
  (s, v) :: futureOf w g' = stepsOf w g ->
  contOK w supported g' dn ->
  weightG w g = (4 + weightV w v + weightG w g')%nat.
Proof.
intros Hst Hc.
assert (Eg : futureOf w g = [] /\
             match g with Closed => 0%nat | _ => tailWeight w end
             = tailWeight w).
{ destruct (steps_split_source w g [] (s, v) (futureOf w g'))
    as [(how & v0 & ->)|(items & how & v0 & ret & ->)];
    [symmetry; exact Hst| |]; auto. }
destruct Eg as [Ef Et].
assert (Eg' : stepsOf w g' = [] /\
              match g' with Closed => 0%nat | _ => tailWeight w end
              = tailWeight w).
{ destruct g' as [| |y|]; simpl in Hc; try contradiction.
  - auto.
  - destruct Hc as [-> _]. auto. }
destruct Eg' as [Es' Et'].
unfold weightG. rewrite Ef, Et, Es', Et', app_nil_r, <- Hst. simpl. lia.
Qed.

Lemma weight_loopHead w st out :
  (weight w (loopHead st out) <= weightB w (buffer st) + 1)%nat.
Proof.
unfold loopHead, weight. destruct (buffer st) as [|e b] eqn:E; simpl.
- destruct (finallyBlock_empty st E) as [B _]. rewrite B. simpl. lia.
- rewrite E. simpl. lia.
Qed.


(** * Further properties of the two codecs *)

(** ** The delimited header on the wire *)

(** X1: the header the delimited pump cuts from a producer chunk written
    by the delimited encoder is that frame's id, status and payload,
    whatever the payload's text is (it may be empty or contain [":"]). *)
Theorem delimited_header_round_trip (fr : frame) :
  delimitedHeader (ChunkStr (frameText Delimited fr))
  = Return (f_idx fr, f_status fr, f_payload fr).
Proof.
unfold delimitedHeader, frameText.
rewrite splitChunk_two_colons
  by (apply isDecimal_no_colon, DecimalFacts.isDecimal_decimal).
unfold asNumberOrThrow.
rewrite !DecimalFacts.isDecimal_decimal, !DecimalFacts.parseInt_decimal.
reflexivity.
Qed.

(** ** The calls of [iterator.return()] *)

Section ReturnLog.

Variable supported : string -> bool.
Variable codecError : string -> value.
Variable print : flat -> string.
Variable coerceError : option (value -> value).

Local Abbreviation step := (encStep supported codecError print coerceError).
Local Abbreviation run := (encRun supported codecError print coerceError).

Lemma flatten_genReturns v :
  forall st, genReturns (fst (flatten supported codecError v st))
             = genReturns st.
Proof.
induction v as [a|fields IH|how v _|items how v ret _ _] using value_rect';
  intros st.
- simpl. destruct (supported a); reflexivity.
- simpl.
  assert (G : forall st0,
             genReturns
               (fst (flattenAll (flatten supported codecError) fields st0))
             = genReturns st0).
  { induction IH as [|x xs Hx _ IHxs]; intros st0; [reflexivity|].
    simpl. specialize (Hx st0).
    destruct (flatten supported codecError x st0) as [st1 [fx|e]];
      simpl in *; [|exact Hx].
    specialize (IHxs st1).
    destruct (flattenAll (flatten supported codecError) xs st1)
      as [st2 [fr|e]]; simpl in *; congruence. }
  specialize (G st).
  destruct (flattenAll (flatten supported codecError) fields st)
    as [st' [fs|e]]; exact G.
- reflexivity.
- reflexivity.
Qed.

Lemma recurse_genReturns v st :
  genReturns (fst (recurse supported codecError print v st)) = genReturns st.
Proof.
unfold recurse. pose proof (flatten_genReturns v st) as H.
destruct (flatten supported codecError v st) as [st' [f|e]]; exact H.
Qed.

Lemma safeCause_genReturns v st :
  genReturns (fst (safeCause supported codecError print coerceError v st))
  = genReturns st.
Proof.
unfold safeCause. pose proof (recurse_genReturns v st) as H.
destruct (recurse supported codecError print v st) as [st1 [s|e]];
  simpl in *; [exact H|].
destruct coerceError as [coerce|]; [|exact H].
rewrite recurse_genReturns. exact H.
Qed.

Lemma callSourceReturn_genReturns idx ret st :
  genReturns (callSourceReturn idx ret st) = genReturns st.
Proof. unfold callSourceReturn. destruct ret; reflexivity. Qed.

Lemma lastFrame_genReturns w ret fr st :
  genReturns (fst (lastFrame w ret fr st)) = genReturns st.
Proof.
unfold lastFrame. destruct w; simpl; auto using callSourceReturn_genReturns.
Qed.

Lemma promiseBody_genReturns w idx how v st :
  genReturns
    (fst (promiseBody supported codecError print coerceError w idx how v st))
  = genReturns st.
Proof.
unfold promiseBody.
assert (C : forall c st0,
  genReturns
    (fst match safeCause supported codecError print coerceError c st0 with
         | (st', Return s) =>
             (st', promiseFrame w
                     (MkFrame idx (sc_promise_rejected (codes w)) s))
         | (st', Throw e) => (st', Throws e)
         end) = genReturns st0).
{ intros c st0. pose proof (safeCause_genReturns c st0) as H.
  destruct (safeCause supported codecError print coerceError c st0)
    as [st1 [s|e]]; exact H. }
destruct how; [|apply C].
pose proof (recurse_genReturns v st) as H.
destruct (recurse supported codecError print v st) as [st1 [s|e]];
  simpl in *; [exact H|].
rewrite C. exact H.
Qed.

Lemma iterBody_genReturns w idx items how v ret st :
  genReturns
    (fst (iterBody supported codecError print coerceError w idx items how v
            ret st))
  = genReturns st.
Proof.
unfold iterBody.
assert (C : forall c st0,
  genReturns
    (fst match safeCause supported codecError print coerceError c st0 with
         | (st', Return s) =>
             lastFrame w ret (MkFrame idx (sc_iter_error (codes w)) s) st'
         | (st', Throw e) => (callSourceReturn idx ret st', Throws e)
         end) = genReturns st0).
{ intros c st0. pose proof (safeCause_genReturns c st0) as H.
  destruct (safeCause supported codecError print coerceError c st0)
    as [st1 [s|e]]; simpl in *.
  - rewrite lastFrame_genReturns. exact H.
  - rewrite callSourceReturn_genReturns. exact H. }
destruct items as [|x rest].
- destruct how; [|apply C].
  pose proof (recurse_genReturns v st) as H.
  destruct (recurse supported codecError print v st) as [st1 [s|e]];
    simpl in *.
  + rewrite lastFrame_genReturns. exact H.
  + rewrite C. exact H.
- pose proof (recurse_genReturns x st) as H.
  destruct (recurse supported codecError print x st) as [st1 [s|e]];
    simpl in *; [exact H|].
  rewrite C. exact H.
Qed.

Lemma returnAtYield_genReturns idx k st :
  genReturns (returnAtYield idx k st) = genReturns st.
Proof.
destruct k; simpl; auto using callSourceReturn_genReturns.
Qed.

Lemma sourceSettles_genReturns w k st st' :
  sourceSettles supported codecError print coerceError w k st = Some st' ->
  genReturns st' = genReturns st.
Proof.
unfold sourceSettles.
destruct (buffer st !! k) as [e|]; [|discriminate].
destruct (e_nextPromise e); try discriminate.
assert (G : forall r : encState * bodyStop,
           genReturns (fst r) = genReturns st ->
           match r with
           | (st1, Yields fr k') =>
               let st2 :=
                 if e_returnQueued e then returnAtYield (e_idx e) k' st1
                 else st1 in
               let g := if e_returnQueued e then Closed else AtYield k' in
               Some (setBuffer st2
                       (<[k := setEntry e g (Resolved (Some fr) false)]>
                          (buffer st2)))
           | (st1, Returns fr) =>
               Some (setBuffer st1
                       (<[k := setEntry e Closed (Resolved (Some fr) true)]>
                          (buffer st1)))
           | (st1, Throws c) =>
               Some (setBuffer st1
                       (<[k := setEntry e Closed (RejectedWith c)]>
                          (buffer st1)))
           end = Some st' ->
           genReturns st' = genReturns st).
{ intros [st1 [fr k'|fr|c]] R E; simpl in *; injection E as <-; simpl;
    auto.
  destruct (e_returnQueued e); [|exact R].
  rewrite returnAtYield_genReturns. exact R. }
destruct (e_iterator e) as [how v|items how v ret|k'|]; try discriminate.
- apply G. apply promiseBody_genReturns.
- apply G. apply iterBody_genReturns.
Qed.

Lemma rearm_genReturns e st : genReturns (rearm e st) = genReturns st.
Proof.
unfold rearm. destruct (e_iterator e) as [| |k'|]; try reflexivity.
destruct k' as [|items how v ret|ret]; simpl; auto.
apply callSourceReturn_genReturns.
Qed.

Lemma noReturnYet_loopHead st out :
  genReturns st = [] -> noReturnYet (loopHead st out).
Proof.
intros H. unfold loopHead, noReturnYet.
destruct (buffer st); simpl; auto.
Qed.

Lemma noReturnYet_step w ev enc enc' :
  noReturnYet enc -> step w ev enc = Some enc' -> noReturnYet enc'.
Proof.
intros Inv E. destruct enc as [m st out].
unfold encStep in E. unfold noReturnYet in Inv. simpl in *.
destruct ev as [| |k|k].
- destruct m as [v| |n wn|k e| |c]; try discriminate.
  + destruct Inv as [G B].
    pose proof (recurse_genReturns v st) as H.
    destruct (recurse supported codecError print v st) as [st1 [s|c]];
      injection E as <-; unfold noReturnYet; simpl in *; auto. congruence.
  + injection E as <-. apply noReturnYet_loopHead. exact Inv.
  + destruct w.
    * injection E as <-. apply noReturnYet_loopHead.
      rewrite rearm_genReturns. exact Inv.
    * destruct (isDone (e_nextPromise e)); injection E as <-;
        apply noReturnYet_loopHead; rewrite ?rearm_genReturns; exact Inv.
- destruct m; try discriminate; injection E as <-; exact I.
- destruct m as [v| |n wn|k1 e| |c]; try discriminate.
  destruct wn as [k0|]; [|discriminate].
  destruct (if (k =? k0)%nat then buffer st !! k else None) as [e|];
    [|discriminate].
  destruct (e_nextPromise e) as [|val done|c]; try discriminate.
  + destruct w.
    * destruct done; [injection E as <-; apply noReturnYet_loopHead;
                      exact Inv|].
      destruct val; [|discriminate]. injection E as <-. exact Inv.
    * injection E as <-. exact Inv.
  + injection E as <-. exact I.
- destruct (sourceSettles supported codecError print coerceError w k st)
    as [st'|] eqn:Es; [|discriminate].
  injection E as <-.
  pose proof (sourceSettles_genReturns w k st st' Es) as G.
  unfold noReturnYet. simpl.
  destruct m as [v| |n wn|k1 e| |c]; simpl; try congruence; auto.
  + destruct Inv as [_ B]. unfold sourceSettles in Es.
    rewrite B in Es. discriminate.
  + destruct wn; [simpl; congruence|].
    destruct (k <? n)%nat; simpl; congruence.
Qed.

Lemma noReturnYet_run w evs : forall enc enc',
  noReturnYet enc -> run w evs enc = Some enc' -> noReturnYet enc'.
Proof.
induction evs as [|ev evs IH]; intros enc enc' Inv E; simpl in E.
- injection E as <-. exact Inv.
- destruct (step w ev enc) as [enc1|] eqn:E1; [|discriminate].
  eapply IH; [|exact E]. eapply noReturnYet_step; eauto.
Qed.

(** X2: when the consumer of the chunk stream returns early, after any
    run of the encoder, the [finally] block calls [iterator.return()]
    exactly once on each producer that is in [buffer], in order, and on
    no other.  In the delimited variant these are all the active
    producers.  In the JSON-array variant the producer whose chunk is
    being yielded has been taken out of [buffer] and is not returned. *)
Theorem early_return_returns_buffer w V evs enc enc' :
  run w evs (startEncoder V) = Some enc ->
  step w ReturnEarly enc = Some enc' ->
  enc_main enc' = Ended /\
  genReturns (enc_st enc') = map e_idx (buffer (enc_st enc)) /\
  NoDup (genReturns (enc_st enc')) /\
  match w with
  | Delimited => genReturns (enc_st enc') = activeIds Delimited enc
  | JsonArray =>
      forall k e, enc_main enc = ChunkYield k e ->
                  e_idx e ∉ genReturns (enc_st enc')
  end.
Proof.
intros R E.
assert (Inv : noReturnYet enc).
{ eapply noReturnYet_run; [|exact R]. split; reflexivity. }
pose proof (idsInv_run supported codecError print coerceError w evs _ _
              (idsInv_start w V) R) as [[ND _] _].
destruct enc as [m st out]. unfold noReturnYet in Inv.
unfold activeIds in *. simpl in *.
assert (G : enc_main enc' = Ended /\
            genReturns (enc_st enc') = map e_idx (buffer st)).
{ destruct m as [v| |n wn|k e| |c]; try discriminate;
    injection E as <-; simpl.
  - destruct Inv as [-> ->]. auto.
  - rewrite finallyBlock_returns_buffer, Inv. auto.
  - rewrite finallyBlock_returns_buffer, Inv. auto. }
destruct G as [G1 G2]. split; [exact G1|]. split; [exact G2|].
rewrite G2. split.
- apply NoDup_app in ND. tauto.
- destruct w.
  + intros k e ->. apply NoDup_app in ND as (_ & D & _).
    intros H. apply (D _ H). left.
  + destruct m; rewrite ?app_nil_r; reflexivity.
Qed.

End ReturnLog.

Lemma early_return_witness :
  exists enc enc',
    encRun Example.supported Example.codecError Example.print None Delimited
      [Next; Next; Source 0; Race 0] (startEncoder Scenario.S3) = Some enc /\
    encStep Example.supported Example.codecError Example.print None Delimited
      ReturnEarly enc = Some enc' /\
    genReturns (enc_st enc') = [1%N] /\
    (enc_main enc' = Ended /\
     genReturns (enc_st enc') = map e_idx (buffer (enc_st enc)) /\
     NoDup (genReturns (enc_st enc')) /\
     genReturns (enc_st enc') = activeIds Delimited enc).
Proof.
eexists. eexists. split; [reflexivity|]. split; [reflexivity|].
split; [reflexivity|].
exact (early_return_returns_buffer Example.supported Example.codecError
         Example.print None Delimited Scenario.S3
         [Next; Next; Source 0; Race 0] _ _ eq_refl eq_refl).
Defined.

(** ** An encoding failure at the root *)

Section RootFailure.

Variable supported : string -> bool.
Variable codecError : string -> value.
Variable print : flat -> string.
Variable coerceError : option (value -> value).
Variable w : variant.

Local Abbreviation step := (encStep supported codecError print coerceError w).
Local Abbreviation run := (encRun supported codecError print coerceError w).



End RootFailure.


(** ** The encoder ends *)

Section RunLength.

Variable supported : string -> bool.
Variable codecError : string -> value.
Variable print : flat -> string.
Variable coerceError : option (value -> value).
Local Abbreviation step w := (encStep supported codecError print coerceError w).
Local Abbreviation run w := (encRun supported codecError print coerceError w).
Local Abbreviation fit w := (entryFit w supported).

Lemma fresh_fit w e : freshEntry supported e -> fit w e.
Proof.
intros (Hp & Hq & Hs). split; [exact Hq|]. rewrite Hp. exact Hs.
Qed.

Lemma Forall_fresh_fit w new :
  Forall (freshEntry supported) new -> Forall (fit w) new.
Proof. intros H. eapply Forall_impl; [exact H|]. apply fresh_fit. Qed.

(** What the settling of a waiting producer's source does to [buffer]. *)
Lemma sourceSettles_fit w k st st' :
  Forall (fit w) (buffer st) ->
  sourceSettles supported codecError print coerceError w k st = Some st' ->
  exists e e' new s v,
    buffer st !! k = Some e /\ e_nextPromise e = Pending /\
    buffer st' = <[k := e']> (buffer st) ++ new /\
    fit w e' /\ Forall (fit w) new /\
    (exists fr dn, e_nextPromise e' = Resolved (Some fr) dn /\
                   contOK w supported (e_iterator e') dn) /\
    (s, v) :: futureOf w (e_iterator e') = stepsOf w (e_iterator e) /\
    weightB w new = weightV w v.
Proof.
intros F H. unfold sourceSettles in H.
destruct (buffer st !! k) as [e|] eqn:Hk; [|discriminate].
destruct (e_nextPromise e) eqn:Hp; try discriminate.
pose proof (Forall_lookup_1 _ _ _ _ F Hk) as [Hq Hs]. rewrite Hp in Hs.
rewrite Hq in H.
assert (Hlt : (k < length (buffer st))%nat) by (eapply lookup_lt_Some; eauto).
assert (Body : exists st2 stop,
          match e_iterator e with
          | AwaitPromise how v =>
              Some (promiseBody supported codecError print coerceError w
                      (e_idx e) how v st)
          | AwaitNext items how v ret =>
              Some (iterBody supported codecError print coerceError w
                      (e_idx e) items how v ret st)
          | _ => None
          end = Some (st2, stop) /\
          bodyResult w supported print (e_iterator e) (e_idx e) st st2 stop).
{ destruct (e_iterator e) as [how v|items how v ret|y|]; simpl in Hs;
    try contradiction.
  - destruct (promiseBody_supported supported codecError print coerceError
                w (e_idx e) how v st Hs) as (st2 & stop & E & R).
    exists st2, stop. rewrite E. auto.
  - destruct Hs as [Hi Hv].
    destruct (iterBody_supported supported codecError print coerceError
                w (e_idx e) items how v ret st Hi Hv) as (st2 & stop & E & R).
    exists st2, stop. rewrite E. auto. }
destruct Body as (st2 & stop & E & R). rewrite E in H. clear E.
destruct R as (s & f & v & g' & dn & new & B2 & C2 & I & Hf & Hnew & Hst
               & Hc & Hfs & Hden & Hwt & Hstop).
destruct Hstop as [(k' & -> & -> & ->)|(-> & -> & ->)];
  injection H as <-; simpl; rewrite B2, insert_app_l by exact Hlt;
  eexists e, _, new, s, v;
  (split; [reflexivity|]); (split; [exact Hp|]);
  (split; [reflexivity|]);
  (split; [split; [exact Hq|exact Hc]|]);
  (split; [apply Forall_fresh_fit, Hnew|]);
  (split; [eexists _, _; split; [reflexivity|exact Hc]|]);
  (split; [exact Hst|exact Hwt]).
Qed.

Lemma fit_rearm w e st :
  fit w e -> (exists fr dn, e_nextPromise e = Resolved (Some fr) dn) ->
  (w = Delimited -> exists k, e_iterator e = AtYield k) ->
  exists e',
    buffer (rearm e st) = buffer st ++ [e'] /\ fit w e' /\
    (weightE w e' + 2 <= weightG w (e_iterator e) + 2)%nat /\
    (w = Delimited -> weightE w e' = weightG w (e_iterator e)).
Proof.
intros [Hq Hf] (fr & dn & Hp) Hd. rewrite Hp in Hf. unfold rearm.
destruct (e_iterator e) as [how v|items how v ret|[|items how v ret|ret]|]
  eqn:Hg; simpl in Hf; try contradiction.
- destruct Hf as [-> ->]. eexists. split; [reflexivity|].
  split; [split; [exact Hq|simpl; auto]|].
  split; [unfold weightE, weightG; simpl; lia|discriminate].
- destruct Hf as [-> Hs]. eexists. split; [reflexivity|].
  split; [split; [exact Hq|exact Hs]|].
  assert (Eg : weightE w (setEntry e (AwaitNext items how v ret) Pending)
               = weightG w (AtYield (ThenLoop items how v ret))).
  { unfold weightE, weightG. simpl. rewrite app_nil_r. lia. }
  simpl. rewrite Eg. split; [lia|reflexivity].
- destruct Hf as [-> ->]. eexists. split; [destruct ret; reflexivity|].
  split; [split; [exact Hq|simpl; auto]|].
  split; [unfold weightE, weightG; simpl; lia|discriminate].
- destruct Hf as [-> ->]. destruct (Hd eq_refl) as [k Hk]. discriminate.
Qed.

Lemma fit_loopHead w st out :
  Forall (fit w) (buffer st) -> fitInv w supported (loopHead st out).
Proof.
intros F. unfold loopHead. destruct (buffer st) eqn:E.
- split; [|exact I]. simpl.
  rewrite (proj1 (finallyBlock_empty st E)). constructor.
- split; [|exact I]. simpl. rewrite E. exact F.
Qed.

Lemma Forall_deleteAt_fit w k (b : list entry) :
  Forall (fit w) b -> Forall (fit w) (deleteAt k b).
Proof.
intros F. unfold deleteAt. apply Forall_app.
split; [apply Forall_take, F|apply Forall_drop, F].
Qed.

(** Each event keeps the invariant and brings the encoder nearer to its
    end. *)
Lemma fit_step w ev enc enc' :
  ev <> ReturnEarly ->
  (forall v, enc_main enc <> Start v) ->
  fitInv w supported enc -> step w ev enc = Some enc' ->
  fitInv w supported enc' /\ (weight w enc' < weight w enc)%nat.
Proof.
intros Hev Hstart [F M] E. destruct enc as [m st out].
unfold encStep in E. simpl in *.
destruct ev as [| |k|k]; [| contradiction | |].
- (* Next *)
  destruct m as [v0| |n wn|k e| |c0]; try discriminate.
  + exfalso. exact (Hstart v0 eq_refl).
  + injection E as <-. split; [apply fit_loopHead, F|].
    pose proof (weight_loopHead w st out) as Hw.
    unfold weight in *. simpl in *. lia.
  + destruct M as (Fe & (fr & dn & Hp) & Hk).
    destruct w.
    * injection E as <-.
      destruct (fit_rearm _ e st Fe) as (e' & B & Fe' & Wt & _);
        [eauto|discriminate|].
      split.
      -- apply fit_loopHead. rewrite B. apply Forall_app. auto.
      -- pose proof (weight_loopHead JsonArray (rearm e st) out) as Hl.
         rewrite B, weightB_app in Hl. unfold weight at 2. simpl in *. lia.
    * specialize (Hk eq_refl).
      pose proof (weightB_deleteAt Delimited (buffer st) k _ Hk) as Hd.
      set (st1 := setBuffer st (deleteAt k (buffer st))) in *.
      assert (F1 : Forall (fit Delimited) (buffer st1))
        by (apply Forall_deleteAt_fit, F).
      pose proof Fe as [_ Hc]. rewrite Hp in Hc.
      unfold weightE in Hd. rewrite Hp in Hd. simpl in Hd.
      rewrite Hp in E. simpl in E. destruct dn; injection E as <-.
      -- split; [apply fit_loopHead, F1|].
         pose proof (weight_loopHead Delimited st1 out) as Hl.
         unfold weight at 2. simpl in *. lia.
      -- destruct (fit_rearm _ e st1 Fe) as (e' & B & Fe' & _ & Wt);
           [eauto| |].
         { intros _. destruct (e_iterator e) as [| |y|]; simpl in Hc;
             try contradiction; [eauto|]. destruct Hc; discriminate. }
         split.
         ++ apply fit_loopHead. rewrite B. apply Forall_app. auto.
         ++ pose proof (weight_loopHead Delimited (rearm e st1) out) as Hl.
            rewrite B, weightB_app in Hl. specialize (Wt eq_refl).
            unfold weight at 2. simpl in *. lia.
- (* Race *)
  destruct m as [v0| |n wn|k1 e1| |c0]; try discriminate.
  destruct wn as [k0|]; [|discriminate].
  destruct (Nat.eqb_spec k k0) as [->|]; [|discriminate].
  destruct (buffer st !! k0) as [e|] eqn:Hk; [|discriminate].
  pose proof (Forall_lookup_1 _ _ _ _ F Hk) as Fe.
  pose proof (weightB_deleteAt w (buffer st) k0 _ Hk) as Hd.
  pose proof Fe as [Hq Hc].
  unfold weightE in Hd.
  destruct (e_nextPromise e) as [|[fr|] dn|c] eqn:Hp; try discriminate;
    try contradiction; simpl in Hd.
  + destruct w.
    * pose proof (contOK_json _ _ _ Hc) as ->. injection E as <-.
      split.
      -- split; [apply Forall_deleteAt_fit, F|]. simpl.
         split; [exact Fe|]. split; [eauto|discriminate].
      -- unfold weight. simpl. lia.
    * injection E as <-. split.
      -- split; [exact F|]. simpl. split; [exact Fe|]. split; [eauto|auto].
      -- unfold weight. simpl. lia.
  + destruct Hc as (-> & -> & Hg). injection E as <-.
    set (st1 := setBuffer st (deleteAt k0 (buffer st))).
    split; [apply fit_loopHead, Forall_deleteAt_fit, F|].
    pose proof (weight_loopHead JsonArray st1 out) as Hl.
    unfold weight in *. simpl in *. lia.
- (* Source *)
  destruct (sourceSettles supported codecError print coerceError w k st)
    as [st'|] eqn:Es; [|discriminate].
  injection E as <-.
  destruct (sourceSettles_fit w k st st' F Es)
    as (e & e' & new & s & v & Hk & Hp & B & Fe' & Fn & (fr & dn & Hp' & Hc)
        & Hst & Hwt).
  assert (Em : weightMain w
                 match m with
                 | Racing n None =>
                     if (k <? n)%nat then Racing n (Some k) else m
                 | _ => m
                 end = weightMain w m).
  { destruct m as [v0| |n wn|k0 e0| |c0]; try reflexivity.
    destruct wn; [reflexivity|]. destruct (k <? n)%nat; reflexivity. }
  split.
  + split.
    * simpl. rewrite B. apply Forall_app. split; [|exact Fn].
      apply Forall_insert; assumption.
    * simpl. destruct m as [v0| |n wn|k0 e0| |c0]; try exact I;
        try contradiction.
      -- exfalso. exact (Hstart v0 eq_refl).
      -- destruct wn; [exact I|]. destruct (k <? n)%nat; exact I.
      -- destruct M as (Fe0 & Hr0 & Hk0). split; [exact Fe0|].
         split; [exact Hr0|]. intros Hd. specialize (Hk0 Hd).
         rewrite B. apply lookup_app_l_Some.
         rewrite list_lookup_insert_ne; [exact Hk0|].
         intros ->. destruct Hr0 as (fr0 & dn0 & Hr0). congruence.
  + unfold weight. simpl. rewrite Em, B, weightB_app, Hwt.
    pose proof (weightB_insert w (buffer st) k e e' Hk) as Hi.
    pose proof (step_weight w supported s v (e_iterator e) (e_iterator e')
                  dn Hst Hc) as Hs.
    unfold weightE in Hi. rewrite Hp, Hp' in Hi. simpl in Hi. lia.
Qed.

Lemma loopHead_not_start st out v : enc_main (loopHead st out) <> Start v.
Proof. unfold loopHead. destruct (buffer st); discriminate. Qed.

(** The encoder never comes back to its start. *)
Lemma step_not_start w ev enc enc' :
  (forall v, enc_main enc <> Start v) ->
  step w ev enc = Some enc' -> forall v, enc_main enc' <> Start v.
Proof.
intros Hst E v. destruct enc as [m st out]. unfold encStep in E.
simpl in *. destruct ev as [| |k|k].
- destruct m as [v0| |n wn|k e| |c0]; try discriminate.
  + exfalso. exact (Hst v0 eq_refl).
  + injection E as <-. apply loopHead_not_start.
  + destruct w; [injection E as <-; apply loopHead_not_start|].
    destruct (isDone (e_nextPromise e)); injection E as <-;
      apply loopHead_not_start.
- destruct m; try discriminate; injection E as <-; discriminate.
- destruct m as [v0| |n [k0|]|k1 e1| |c0]; try discriminate.
  destruct (if (k =? k0)%nat then buffer st !! k else None) as [e|];
    [|discriminate].
  destruct (e_nextPromise e) as [|val dn|c]; try discriminate;
    [|injection E as <-; discriminate].
  destruct w.
  + destruct dn; [injection E as <-; apply loopHead_not_start|].
    destruct val; [|discriminate]. injection E as <-. discriminate.
  + injection E as <-. discriminate.
- destruct (sourceSettles supported codecError print coerceError w k st);
    [|discriminate].
  injection E as <-. simpl.
  destruct m as [v0| |n [k0|]|k1 e1| |c0]; try discriminate.
  + exfalso. exact (Hst v0 eq_refl).
  + destruct (k <? n)%nat; discriminate.
Qed.

Lemma fit_run w evs : forall enc enc',
  ReturnEarly ∉ evs ->
  (forall v, enc_main enc <> Start v) ->
  fitInv w supported enc -> run w evs enc = Some enc' ->
  (length evs + weight w enc' <= weight w enc)%nat.
Proof.
induction evs as [|ev evs IH]; intros enc enc' Hev Hst HS E; simpl in E.
- injection E as <-. simpl. lia.
- destruct (step w ev enc) as [enc1|] eqn:E1; [|discriminate].
  assert (Hne : ev <> ReturnEarly).
  { intros ->. apply Hev. left. }
  assert (Hevs : ReturnEarly ∉ evs).
  { intros H. apply Hev. right. exact H. }
  destruct (fit_step w ev enc enc1 Hne Hst HS E1) as [HS1 Hlt].
  pose proof (step_not_start w ev enc enc1 Hst E1) as Hst1.
  specialize (IH enc1 enc' Hevs Hst1 HS1 E). simpl. lia.
Qed.

(** X4: the encoder of a value all of whose data is supported cannot run
    for ever: whatever the schedule, a run in which the consumer does not
    return early has at most [3 + weightV w V] events, that is four per
    frame (its source settles, the race settles, the chunk is yielded,
    the producer is resumed), one more per producer in the JSON-array
    variant, and three for the root chunk and the end of the loop. *)
Theorem encoder_run_bounded w V evs enc :
  allSupported supported V = true ->
  ReturnEarly ∉ evs ->
  run w evs (startEncoder V) = Some enc ->
  (length evs + weight w enc <= 3 + weightV w V)%nat.
Proof.
intros Hs Hev E. destruct evs as [|ev evs]; simpl in E.
- injection E as <-. unfold weight. simpl. lia.
- destruct (step w ev (startEncoder V)) as [enc1|] eqn:E1; [|discriminate].
  assert (Hn : ev = Next).
  { destruct ev; try reflexivity; try discriminate.
    exfalso. apply Hev. left. }
  subst ev.
  assert (Hevs : ReturnEarly ∉ evs).
  { intros H. apply Hev. right. exact H. }
  unfold encStep in E1. simpl in E1.
  destruct (recurse_supported supported codecError print V Hs initEnc)
    as (f & new & st' & Er & (B & _ & _) & _ & Fn & _ & _ & _ & Hwt & _).
  rewrite Er in E1. injection E1 as <-.
  assert (HS1 : fitInv w supported
                  (MkEncoder RootYield st'
                     ([] ++ [ChunkStr (rootText w (print f))]))).
  { split; [|exact I]. simpl. rewrite B. simpl.
    apply Forall_fresh_fit, Fn. }
  assert (Hns : forall v, RootYield <> Start v) by (intros; discriminate).
  pose proof (fit_run w evs (MkEncoder RootYield st' _) enc Hevs Hns HS1 E)
    as Hw.
  unfold weight at 2 in Hw. simpl in Hw, B. rewrite B, Hwt in Hw.
  simpl. lia.
Qed.

End RunLength.

Lemma encoder_run_bounded_witness :
  exists enc,
    encRun Toy.supported Toy.codecError Toy.print None Delimited
      Runs.nestedSchedule (startEncoder Runs.nested) = Some enc /\
    (length Runs.nestedSchedule + weight Delimited enc
     <= 3 + weightV Delimited Runs.nested)%nat.
Proof.
eexists. split; [vm_compute; reflexivity|].
apply (encoder_run_bounded Toy.supported Toy.codecError Toy.print None
         Delimited Runs.nested Runs.nestedSchedule _ eq_refl).
- intros H. repeat (apply elem_of_cons in H as [H|H]; [discriminate|]).
  inversion H.
- vm_compute. reflexivity.
Defined.


(** ** What escapes the pump's handlers *)

Section JsonUnhandled.

Variable parse : chunk -> parsed.
Variable JSON_parse_text : string -> result jsError json.
Variable unflatten : option json -> parsed.

Local Abbreviation step := (decStep parse JSON_parse_text unflatten JsonArray).
Local Abbreviation run := (decRun parse JSON_parse_text unflatten JsonArray).









End JsonUnhandled.


(** ** The [catch] handler and a cancelled sink *)

Lemma enqueueAll_app m1 m2 e d :
  enqueueAll (m1 ++ m2) e d
  = match enqueueAll m1 e d with
    | (d1, None) => enqueueAll m2 e d1
    | (d1, Some err) => (d1, Some err)
    end.
Proof.
revert d. induction m1 as [|[i h] m1 IH]; intros d; simpl; [reflexivity|].
destruct (enqueue h (ErrorItem e) d) as [d'|err]; [apply IH|reflexivity].
Qed.

(** X7: the pump's [catch] handler hands the error to the sinks in the
    order of [enqueueMap] and stops at the first one whose stream has
    been cancelled: the sinks registered before it receive the error,
    no other stream is touched, so the sinks registered after it receive
    nothing, and the [TypeError] of [controller.enqueue] is thrown out
    of the handler. *)
Theorem catch_handler_stops_at_cancelled_sink w cause d m1 i h m2 s :
  enqueueMap d = m1 ++ (i, h) :: m2 ->
  NoDup (map snd m1) ->
  (forall id h', (id, h') ∈ m1 ->
                 exists s', streams d !! h' = Some s' /\ closed s' = false) ->
  streams d !! h = Some s -> closed s = true ->
  pumping (catchHandler w cause d) = false /\
  unhandled (catchHandler w cause d) = unhandled d ++ [ExtError "TypeError"] /\
  (forall id h', (id, h') ∈ m1 ->
     delivered (ErrorItem (catchError w cause)) d (catchHandler w cause d) h') /\
  (forall h', h' ∉ map snd m1 ->
     streams (catchHandler w cause d) !! h' = streams d !! h').
Proof.
intros M ND R Hs Hc. unfold catchHandler. rewrite M, enqueueAll_app.
destruct (enqueueAll_ready m1 (catchError w cause) (setPumping d false) ND R)
  as (d1 & E & _ & _ & P & U & _ & Del & Oth).
rewrite E.
assert (Hh : h ∉ map snd m1).
{ intros Hin. apply list_elem_of_fmap in Hin as ([id h0] & -> & Hin).
  destruct (R id h0 Hin) as (s' & Hs' & Hc'). simpl in *. congruence. }
simpl. unfold enqueue. rewrite (Oth h Hh). simpl. rewrite Hs, Hc. simpl.
split; [exact P|]. split; [rewrite U; reflexivity|]. split.
- intros id h' Hin. destruct (Del id h' Hin) as (s' & A & B).
  exists s'. split; assumption.
- intros h' Hn. apply (Oth h' Hn).
Qed.

Lemma catch_handler_witness :
  exists d,
    decRun Example.parse Example.jsonParse Example.unflatten Delimited
      [Arrive (ChunkStr "1:0:x"); Read 0]
      (fst (parseHead Example.parse Example.jsonParse Example.unflatten
              Delimited (HeadChunk (ChunkStr "{P1;P2;}")))) = Some d /\
    enqueueMap d = [(1%N, 0%nat); (2%N, 1%nat)] /\
    streams (catchHandler Delimited (ExtError "NetworkError") d) !! 1%nat
    = Some (MkStream [] false) /\
    (pumping (catchHandler Delimited (ExtError "NetworkError") d) = false /\
     unhandled (catchHandler Delimited (ExtError "NetworkError") d)
     = unhandled d ++ [ExtError "TypeError"] /\
     (forall id h', (id, h') ∈ ([] : list (N * nat)) ->
        delivered (ErrorItem (catchError Delimited (ExtError "NetworkError")))
          d (catchHandler Delimited (ExtError "NetworkError") d) h') /\
     (forall h', h' ∉ map snd ([] : list (N * nat)) ->
        streams (catchHandler Delimited (ExtError "NetworkError") d) !! h'
        = streams d !! h')).
Proof.
eexists. split; [reflexivity|]. split; [reflexivity|].
split; [reflexivity|].
apply (catch_handler_stops_at_cancelled_sink Delimited
         (ExtError "NetworkError") _ [] 1%N 0%nat [(2%N, 1%nat)]
         (MkStream [] true)).
- reflexivity.
- constructor.
- intros id h' H. inversion H.
- reflexivity.
- reflexivity.
Defined.

(** ** After the pump has stopped *)

Section Starved.

Variable parse : chunk -> parsed.
Variable JSON_parse_text : string -> result jsError json.
Variable unflatten : option json -> parsed.
Variable w : variant.

Local Abbreviation step := (decStep parse JSON_parse_text unflatten w).
Local Abbreviation run := (decRun parse JSON_parse_text unflatten w).

Lemma closeStream_lookup_ne h h' d :
  h <> h' -> streams (closeStream h d) !! h' = streams d !! h'.
Proof.
intros Hne. unfold closeStream. destruct (streams d !! h); [|reflexivity].
simpl. apply list_lookup_insert_ne. exact Hne.
Qed.













End Starved.


(** ** The stream adapters *)

Section AdapterLookAhead.

Context {T : Type}.

Implicit Types s : adapter T.

Lemma shouldCallPull_true s :
  shouldCallPull s = true ->
  a_state s = Readable /\ a_closeRequested s = false /\
  a_started s = true /\
  ((a_locked s = true /\ a_requests s <> []) \/ a_queue s = []).
Proof.
unfold shouldCallPull, canCloseOrEnqueue, isReadable, desiredSize.
destruct s as [src ret nx rt st q sd pl pa cr lk rd rq rs]; simpl.
destruct cr; simpl; [discriminate|].
destruct st; simpl; try discriminate.
destruct sd; simpl; [|discriminate].
destruct lk; simpl.
- destruct rq as [|id rq]; simpl.
  + destruct q as [|x q]; intros H; [auto 10|].
    apply bool_decide_eq_true in H. simpl length in H. lia.
  + intros _. do 3 (split; [reflexivity|]).
    left. split; [reflexivity|discriminate].
- destruct q as [|x q]; intros H; [auto 10|].
  apply bool_decide_eq_true in H. simpl length in H. lia.
Qed.

Lemma lazy_callPullIfNeeded s : lazyInv s -> lazyInv (callPullIfNeeded s).
Proof.
intros Inv. pose proof Inv as (A & B & C & D & E).
unfold callPullIfNeeded.
destruct (shouldCallPull s) eqn:Sh; [|exact Inv].
destruct (shouldCallPull_true s Sh) as (St & Cr & _ & Hq).
assert (Q : a_queue s = []).
{ destruct Hq as [[_ Hr]|Hq]; [apply A; exact Hr|exact Hq]. }
destruct s as [src ret nx rt st q sd pl pa cr lk rd rq rs].
unfold lazyInv, credit in *. simpl in *. subst.
destruct pl as [| |[e|]|]; simpl in *; repeat split; auto; try lia; tauto.
Qed.

Lemma callPullIfNeeded_busy s :
  a_pull s <> PullIdle ->
  callPullIfNeeded s = s \/ callPullIfNeeded s = setPullAgain s true.
Proof.
intros H. unfold callPullIfNeeded.
destruct (shouldCallPull s); [|left; reflexivity].
destruct (a_pull s); [contradiction|right..]; reflexivity.
Qed.

Ltac lazy_crush :=
  unfold lazyInv, credit in *; simpl in *;
  rewrite ?length_app, ?length_map in *; simpl in *;
  repeat split; intros; subst; simpl in *;
  try discriminate; try lia; try tauto; auto; try (intuition congruence);
  try (repeat match goal with
              | |- context [match ?x with _ => _ end] => destruct x
              end; simpl in *; (lia || intuition congruence)).

Lemma lazy_start s :
  lazyInv s -> lazyInv (callPullIfNeeded (setStarted s true)).
Proof.
intros Inv. apply lazy_callPullIfNeeded.
destruct s as [src ret nx rt st q sd pl pa cr lk rd rq rs]. exact Inv.
Qed.

Lemma lazy_next s s' :
  lazyInv s -> adapterStep NextSettles s = Some s' -> lazyInv s'.
Proof.
intros Inv E. pose proof Inv as (A & B & C & D & F).
unfold adapterStep in E.
destruct (a_pull s) eqn:P; try discriminate.
specialize (B eq_refl).
destruct (nextOf (a_source s)) as [r rest].
destruct r as [x| |e]; simpl in E.
- unfold controllerEnqueue in E.
  destruct (canCloseOrEnqueue (setSource s rest)) eqn:Cn.
  + match type of E with
    | Some (setPull (callPullIfNeeded ?s1) _) = _ =>
        destruct (callPullIfNeeded_busy s1) as [Hc|Hc]
    end.
    { destruct s as [src ret nx rt st q sd pl pa cr lk rd rq rs].
      simpl in *. subst. destruct lk; [destruct rq|]; discriminate. }
    all: rewrite Hc in E; injection E as <-;
      destruct s as [src ret nx rt st q sd pl pa cr lk rd rq rs];
      simpl in *; subst;
      destruct lk; [destruct rq as [|id rq]|]; lazy_crush;
      destruct st; destruct cr; lazy_crush.
  + injection E as <-.
    destruct s as [src ret nx rt st q sd pl pa cr lk rd rq rs].
    simpl in *. subst. lazy_crush.
- unfold controllerClose in E.
  destruct s as [src ret nx rt st q sd pl pa cr lk rd rq rs].
  simpl in *. subst. unfold canCloseOrEnqueue, isReadable in E.
  simpl in E. destruct cr; destruct st; simpl in E; injection E as <-;
    lazy_crush.
- injection E as <-.
  destruct s as [src ret nx rt st q sd pl pa cr lk rd rq rs].
  simpl in *. subst. lazy_crush.
Qed.

Lemma lazy_pull s s' :
  lazyInv s -> adapterStep PullSettles s = Some s' -> lazyInv s'.
Proof.
intros Inv E. unfold adapterStep in E.
destruct (a_pull s) as [| |[e|]|] eqn:P; try discriminate.
- injection E as <-. unfold controllerError, isReadable, streamError.
  destruct s as [src ret nx rt st q sd pl pa cr lk rd rq rs].
  simpl in *. subst. destruct st; lazy_crush.
- assert (Inv1 : lazyInv (setPullAgain (setPull s PullIdle) false)).
  { destruct s as [src ret nx rt st q sd pl pa cr lk rd rq rs].
    simpl in *. subst. lazy_crush. }
  assert (Inv2 : lazyInv (setPull s PullIdle)).
  { destruct s as [src ret nx rt st q sd pl pa cr lk rd rq rs].
    simpl in *. subst. lazy_crush. }
  destruct (a_pullAgain (setPull s PullIdle)); injection E as <-;
    [apply lazy_callPullIfNeeded; exact Inv1|exact Inv2].
Qed.

Lemma callPullIfNeeded_settle s new :
  settle (callPullIfNeeded s) (a_requests (callPullIfNeeded s)) new
  = callPullIfNeeded (settle s (a_requests s) new).
Proof.
unfold callPullIfNeeded.
change (shouldCallPull (settle s (a_requests s) new))
  with (shouldCallPull s).
change (a_pull (settle s (a_requests s) new)) with (a_pull s).
destruct (shouldCallPull s); [|reflexivity].
destruct (a_pull s); reflexivity.
Qed.

Lemma lazy_read s :
  a_locked s = true -> lazyInv s -> lazyInv (fst (readCall s)).
Proof.
intros L Inv. unfold readCall. simpl.
destruct (a_state s) eqn:St.
- destruct (a_queue s) as [|x q] eqn:Q.
  + apply lazy_callPullIfNeeded.
    destruct s as [src ret nx rt st q sd pl pa cr lk rd rq rs].
    simpl in *. subst. lazy_crush.
  + assert (Rq : a_requests s = []).
    { destruct (a_requests s) eqn:R; [reflexivity|].
      destruct Inv as (A & _). destruct A as [_ A]; [rewrite R|]; congruence. }
    destruct (a_closeRequested s && bool_decide (q = [])) eqn:Cq.
    * unfold streamClose.
      destruct s as [src ret nx rt st q0 sd pl pa cr lk rd rq rs].
      simpl in *. subst. lazy_crush.
    * rewrite callPullIfNeeded_settle. apply lazy_callPullIfNeeded.
      destruct s as [src ret nx rt st q0 sd pl pa cr lk rd rq rs].
      simpl in *. subst. lazy_crush.
- destruct s as [src ret nx rt st q sd pl pa cr lk rd rq rs].
  simpl in *. subst. lazy_crush.
- destruct s as [src ret nx rt st q sd pl pa cr lk rd rq rs].
  simpl in *. subst. lazy_crush.
Qed.

Lemma lazy_step ev s s' :
  lazyInv s -> adapterStep ev s = Some s' -> lazyInv s'.
Proof.
intros Inv E. destruct ev.
- unfold adapterStep in E. destruct (a_started s); [discriminate|].
  injection E as <-. apply lazy_start. exact Inv.
- eapply lazy_next; eauto.
- eapply lazy_pull; eauto.
- unfold adapterStep, getReader in E.
  destruct (a_locked s) eqn:L; injection E as <-; [exact Inv|].
  destruct s as [src ret nx rt st q sd pl pa cr lk rd rq rs].
  simpl in *. subst. lazy_crush.
- unfold adapterStep in E. destruct (a_locked s) eqn:L; [|discriminate].
  injection E as <-. apply lazy_read; assumption.
- unfold adapterStep in E. injection E as <-.
  unfold cancelStream, cancelMethod, streamClose.
  destruct s as [src ret nx rt st q sd pl pa cr lk rd rq rs].
  simpl in *. destruct st; [|exact Inv..]. simpl.
  destruct ret; lazy_crush.
- unfold adapterStep in E. destruct (a_locked s) eqn:L; [|discriminate].
  injection E as <-. unfold releaseLock.
  destruct s as [src ret nx rt st q sd pl pa cr lk rd rq rs].
  simpl in *. subst. lazy_crush.
Qed.

Lemma lazy_init (src : list (sourceResult T)) ret :
  lazyInv (readableStreamFrom src ret).
Proof. lazy_crush. Qed.

(** X9: the stream made by [readableStreamFrom] reads at most one item
    ahead: whatever is done with it, [iterator.next()] has been called at
    most once more than [reader.read()], and at most one item waits in
    the stream's queue. *)
Theorem adapter_reads_one_ahead (src : list (sourceResult T)) ret evs s :
  adapterRun evs (readableStreamFrom src ret) = Some s ->
  (a_nexts s <= a_reads s + 1)%nat /\ (length (a_queue s) <= 1)%nat.
Proof.
intros E.
assert (G : forall evs s0 s1,
           lazyInv s0 -> adapterRun evs s0 = Some s1 -> lazyInv s1).
{ clear. induction evs as [|ev evs IH]; intros s0 s1 Inv E; simpl in E.
  - injection E as <-. exact Inv.
  - destruct (adapterStep ev s0) as [s2|] eqn:E2; [|discriminate].
    eapply IH; [|exact E]. eapply lazy_step; eauto. }
destruct (G evs _ s (lazy_init src ret) E) as (_ & _ & C & D & F).
split; [|exact C]. unfold credit in F. lia.
Qed.

End AdapterLookAhead.

Lemma adapter_reads_one_ahead_witness :
  exists s,
    adapterRun [StartDone; NextSettles; PullSettles; GetReader; ReadCall]
      (readableStreamFrom [SrcValue "a"; SrcValue "b"; SrcDone] true)
    = Some s /\
    a_nexts s = 2%nat /\ a_reads s = 1%nat /\
    ((a_nexts s <= a_reads s + 1)%nat /\ (length (a_queue s) <= 1)%nat).
Proof.
eexists. split; [vm_compute; reflexivity|]. split; [reflexivity|].
split; [reflexivity|].
apply (adapter_reads_one_ahead [SrcValue "a"; SrcValue "b"; SrcDone] true
         [StartDone; NextSettles; PullSettles; GetReader; ReadCall]).
vm_compute. reflexivity.
Defined.

Section AdapterCancel.

Context {T : Type}.

Implicit Types s : adapter T.

Lemma shouldCallPull_not_readable s :
  a_state s <> Readable -> shouldCallPull s = false.
Proof.
intros H. destruct (shouldCallPull s) eqn:E; [|reflexivity].
apply shouldCallPull_true in E as (St & _). contradiction.
Qed.

Lemma callPullIfNeeded_not_readable s :
  a_state s <> Readable -> callPullIfNeeded s = s.
Proof.
intros H. unfold callPullIfNeeded.
rewrite shouldCallPull_not_readable by exact H. reflexivity.
Qed.

Lemma cancelled_step r before ev s s' :
  cancelled r before s -> adapterStep ev s = Some s' ->
  cancelled r before s'.
Proof.
intros (St & Q & Rq & Rt & ids & Rs) E.
assert (NR : forall b, a_state (setStarted s b) <> Readable).
{ intros b. simpl. rewrite St. discriminate. }
destruct ev; unfold adapterStep in E.
- destruct (a_started s); [discriminate|]. injection E as <-.
  rewrite callPullIfNeeded_not_readable by apply NR.
  repeat split; auto. exists ids. exact Rs.
- destruct (a_pull s); try discriminate.
  destruct (nextOf (a_source s)) as [[x| |e] rest]; simpl in E;
    unfold controllerEnqueue, controllerClose, canCloseOrEnqueue,
      isReadable in E; simpl in E; rewrite ?St, ?andb_false_r in E;
    injection E as <-; repeat split; auto; exists ids; exact Rs.
- destruct (a_pull s) as [| |[e|]|]; try discriminate.
  + injection E as <-. unfold controllerError, isReadable. simpl.
    rewrite St. repeat split; auto. exists ids. exact Rs.
  + simpl in E. destruct (a_pullAgain s); injection E as <-.
    * rewrite callPullIfNeeded_not_readable by (simpl; rewrite St; discriminate).
      repeat split; auto. exists ids. exact Rs.
    * repeat split; auto. exists ids. exact Rs.
- unfold getReader in E. destruct (a_locked s); injection E as <-;
    repeat split; auto; exists ids; exact Rs.
- destruct (a_locked s); [|discriminate]. injection E as <-.
  unfold readCall. simpl. rewrite St. repeat split; auto.
  exists (ids ++ [a_reads s]). simpl.
  rewrite Rs, map_app, <- app_assoc. reflexivity.
- injection E as <-. unfold cancelStream. rewrite St.
  repeat split; auto. exists ids. exact Rs.
- destruct (a_locked s); [|discriminate]. injection E as <-.
  unfold releaseLock. repeat split; auto. exists ids. simpl.
  rewrite Rq. simpl. rewrite app_nil_r. exact Rs.
Qed.

Lemma cancelled_run r before evs : forall s s',
  cancelled r before s -> adapterRun evs s = Some s' ->
  cancelled r before s'.
Proof.
induction evs as [|ev evs IH]; intros s s' C E; simpl in E.
- injection E as <-. exact C.
- destruct (adapterStep ev s) as [s1|] eqn:E1; [|discriminate].
  eapply IH; [|exact E]. eapply cancelled_step; eauto.
Qed.

Lemma returns_step ev s s' :
  ev <> CancelCall -> adapterStep ev s = Some s' ->
  a_returns s' = a_returns s /\ a_hasReturn s' = a_hasReturn s.
Proof.
intros Hev E. destruct ev; unfold adapterStep in E; try contradiction.
- destruct (a_started s); [discriminate|]. injection E as <-.
  unfold callPullIfNeeded. destruct (shouldCallPull _); [|auto].
  destruct (a_pull _); auto.
- destruct (a_pull s); try discriminate.
  destruct (nextOf (a_source s)) as [[x| |e] rest]; simpl in E.
  + unfold controllerEnqueue in E.
    destruct (canCloseOrEnqueue _); injection E as <-; [|auto].
    unfold callPullIfNeeded. destruct (shouldCallPull _);
      [destruct (a_pull _)|]; simpl;
      destruct (a_locked s); try destruct (a_requests s); auto.
  + unfold controllerClose in E.
    destruct (canCloseOrEnqueue _); [|injection E as <-; auto].
    simpl in E. destruct (a_queue s); injection E as <-; auto.
  + injection E as <-. auto.
- destruct (a_pull s) as [| |[e|]|]; try discriminate.
  + injection E as <-. unfold controllerError.
    destruct (isReadable _); auto.
  + simpl in E. destruct (a_pullAgain s); injection E as <-; [|auto].
    unfold callPullIfNeeded. destruct (shouldCallPull _); [|auto].
    destruct (a_pull _); auto.
- unfold getReader in E. destruct (a_locked s); injection E as <-; auto.
- destruct (a_locked s); [|discriminate]. injection E as <-.
  unfold readCall. simpl. destruct (a_state s); auto.
  destruct (a_queue s); simpl.
  + unfold callPullIfNeeded. destruct (shouldCallPull _); [|auto].
    destruct (a_pull _); auto.
  + destruct (a_closeRequested s && _); [auto|].
    unfold callPullIfNeeded. destruct (shouldCallPull _); [|auto].
    destruct (a_pull _); auto.
- destruct (a_locked s); [|discriminate]. injection E as <-. auto.
Qed.

Lemma not_readable_step ev s s' :
  a_state s <> Readable -> adapterStep ev s = Some s' ->
  a_state s' = a_state s /\ a_returns s' = a_returns s.
Proof.
intros NR E.
assert (Hc : ev = CancelCall \/ ev <> CancelCall).
{ destruct ev; (left; reflexivity) || (right; discriminate). }
destruct Hc as [->|Hev].
- unfold adapterStep, cancelStream in E.
  destruct (a_state s) eqn:St; [contradiction|injection E as <-; auto..].
- split; [|eapply returns_step; eauto].
  destruct ev; unfold adapterStep in E; try contradiction.
  + destruct (a_started s); [discriminate|]. injection E as <-.
    rewrite callPullIfNeeded_not_readable; auto.
  + destruct (a_pull s); try discriminate.
    assert (C : canCloseOrEnqueue
                  (setSource s (snd (nextOf (a_source s)))) = false).
    { unfold canCloseOrEnqueue, isReadable. simpl.
      destruct (a_state s); [contradiction|apply andb_false_r..]. }
    destruct (nextOf (a_source s)) as [[x| |e] rest]; simpl in *;
      unfold controllerEnqueue, controllerClose in E; rewrite ?C in E;
      injection E as <-; reflexivity.
  + destruct (a_pull s) as [| |[e|]|]; try discriminate.
    * injection E as <-. unfold controllerError, isReadable. simpl.
      destruct (a_state s) eqn:St; [contradiction|simpl; auto..].
    * simpl in E. destruct (a_pullAgain s); injection E as <-;
        [|reflexivity].
      rewrite callPullIfNeeded_not_readable; auto.
  + unfold getReader in E. destruct (a_locked s); injection E as <-;
      reflexivity.
  + destruct (a_locked s); [|discriminate]. injection E as <-.
    unfold readCall. simpl.
    destruct (a_state s) eqn:St; [contradiction|simpl; auto..].
  + destruct (a_locked s); [|discriminate]. injection E as <-. reflexivity.
Qed.

Lemma not_readable_run evs : forall s s',
  a_state s <> Readable -> adapterRun evs s = Some s' ->
  a_returns s' = a_returns s.
Proof.
induction evs as [|ev evs IH]; intros s s' NR E; simpl in E.
- injection E as <-. reflexivity.
- destruct (adapterStep ev s) as [s1|] eqn:E1; [|discriminate].
  destruct (not_readable_step ev s s1 NR E1) as [St Rt].
  rewrite (IH s1 s'); [exact Rt| |exact E]. rewrite St. exact NR.
Qed.

Lemma returns_run evs : forall s s',
  CancelCall ∉ evs -> adapterRun evs s = Some s' ->
  a_returns s' = a_returns s /\ a_hasReturn s' = a_hasReturn s.
Proof.
induction evs as [|ev evs IH]; intros s s' Hev E; simpl in E.
- injection E as <-. auto.
- destruct (adapterStep ev s) as [s1|] eqn:E1; [|discriminate].
  destruct (returns_step ev s s1) as [A B]; [|exact E1|].
  { intros ->. apply Hev. left. }
  destruct (IH s1 s') as [A' B']; [|exact E|].
  { intros H. apply Hev. right. exact H. }
  split; congruence.
Qed.

(** X10: [cancel()] on the stream made by [readableStreamFrom] calls the
    source iterator's [return()] exactly once if the stream is still
    readable and the iterator has such a method, and not at all if the
    stream is closed or errored already (it has seen its source end or
    throw).  A cancelled stream is closed
    and its queue is discarded: every read, pending or made later,
    settles with [done], so the item of an [iterator.next()] that was
    under way is dropped; and no later call reaches [return()] again. *)
Theorem cancel_calls_return_once
    (src : list (sourceResult T)) ret evs1 s1 evs2 s :
  CancelCall ∉ evs1 ->
  adapterRun evs1 (readableStreamFrom src ret) = Some s1 ->
  adapterRun (CancelCall :: evs2) s1 = Some s ->
  a_returns s = (if ret && isReadable s1 then 1 else 0)%nat /\
  (isReadable s1 = true -> cancelled (a_returns s) (a_results s1) s).
Proof.
intros Hev E1 E2.
destruct (returns_run evs1 _ s1 Hev E1) as [R0 H0]. simpl in R0, H0.
simpl in E2. unfold isReadable.
destruct (a_state s1) eqn:St.
- assert (C : cancelled (if ret then 1 else 0)%nat (a_results s1)
                (cancelStream s1)).
  { unfold cancelStream, cancelMethod. rewrite St. simpl. rewrite H0.
    destruct ret; (do 3 (split; [reflexivity|]));
      (split; [simpl; rewrite R0; reflexivity|]);
      exists (a_requests s1); reflexivity. }
  pose proof (cancelled_run _ _ evs2 _ s C E2) as C'.
  pose proof C' as (_ & _ & _ & Rt & _).
  rewrite andb_true_r. split; [exact Rt|]. intros _. rewrite Rt. exact C'.
- rewrite andb_false_r. split; [|discriminate].
  rewrite (not_readable_run evs2 (cancelStream s1) s); [| |exact E2];
    unfold cancelStream; rewrite St; simpl; rewrite ?St;
    [exact R0|discriminate].
- rewrite andb_false_r. split; [|discriminate].
  rewrite (not_readable_run evs2 (cancelStream s1) s); [| |exact E2];
    unfold cancelStream; rewrite St; simpl; rewrite ?St;
    [exact R0|discriminate].
Qed.

End AdapterCancel.

Lemma cancel_witness :
  exists s1 s,
    adapterRun [StartDone; GetReader; ReadCall]
      (readableStreamFrom [SrcValue "a"; SrcValue "b"] true) = Some s1 /\
    adapterRun [CancelCall; NextSettles; PullSettles; ReadCall; CancelCall]
      s1 = Some s /\
    a_results s = [(0%nat, ReadDone); (1%nat, ReadDone)] /\
    a_returns s = 1%nat /\
    (a_returns s = (if true && isReadable s1 then 1 else 0)%nat /\
     (isReadable s1 = true -> cancelled (a_returns s) (a_results s1) s)).
Proof.
eexists. eexists. split; [vm_compute; reflexivity|].
split; [vm_compute; reflexivity|].
split; [reflexivity|]. split; [reflexivity|].
apply (cancel_calls_return_once [SrcValue "a"; SrcValue "b"] true
         [StartDone; GetReader; ReadCall] _
         [NextSettles; PullSettles; ReadCall; CancelCall] _).
- intros H. repeat (apply elem_of_cons in H as [H|H]; [discriminate|]).
  inversion H.
- vm_compute. reflexivity.
- vm_compute. reflexivity.
Defined.

Section AdapterFlow.

Context {T : Type}.

Implicit Types s : adapter T.
Implicit Types src : list (sourceResult T).

Lemma idealReads_values (xs : list T) rest m :
  idealReads (map SrcValue xs ++ rest) (length xs + m)
  = map ReadChunk xs ++ idealReads rest m.
Proof.
induction xs as [|x xs IH]; simpl; [reflexivity|]. rewrite IH. reflexivity.
Qed.

Lemma idealReads_done (rest : list (sourceResult T)) m :
  idealReads (SrcDone :: rest) m = repeat ReadDone m.
Proof. induction m as [|m IH]; simpl; [|rewrite IH]; reflexivity. Qed.

Lemma idealReads_nil m : idealReads ([] : list (sourceResult T)) m
                         = repeat ReadDone m.
Proof. induction m as [|m IH]; simpl; [|rewrite IH]; reflexivity. Qed.

Lemma idealReads_throw e (rest : list (sourceResult T)) m :
  idealReads (SrcThrow e :: rest) m = repeat (ReadError e) m.
Proof. induction m as [|m IH]; simpl; [|rewrite IH]; reflexivity. Qed.

Lemma idealReads_prefix (xs : list T) rest :
  idealReads (map SrcValue xs ++ rest) (length xs) = map ReadChunk xs.
Proof.
pose proof (idealReads_values xs rest 0) as H.
rewrite Nat.add_0_r in H. rewrite H. simpl. apply app_nil_r.
Qed.

(** What the invariant says about the reads that have settled. *)
Lemma flow_reads src s :
  flowInv src s ->
  map snd (a_results s) = idealReads src (length (a_results s)).
Proof.
intros (_ & _ & _ & _ & xs & m & H).
assert (L : length (a_results s) = length (map snd (a_results s)))
  by (rewrite length_map; reflexivity).
destruct (a_state s).
- destruct H as (_ & -> & R & P). rewrite L, R, length_map.
  destruct (a_pull s) as [| |[e|]|].
  + rewrite P, map_app, <- app_assoc. symmetry. apply idealReads_prefix.
  + destruct P as [_ ->]. symmetry. apply idealReads_prefix.
  + destruct P as [_ ->]. symmetry. apply idealReads_prefix.
  + rewrite P, map_app, <- app_assoc. symmetry. apply idealReads_prefix.
  + contradiction.
- destruct H as (R & Hs). rewrite L, R, length_app, length_map, repeat_length.
  destruct Hs as [->|(rest & ->)].
  + rewrite <- (app_nil_r (map SrcValue xs)), idealReads_values,
      idealReads_nil. reflexivity.
  + rewrite idealReads_values, idealReads_done. reflexivity.
- destruct H as (R & rest & ->).
  rewrite L, R, length_app, length_map, repeat_length.
  rewrite idealReads_values, idealReads_throw. reflexivity.
Qed.

Lemma flow_callPullIfNeeded src s :
  flowInv src s -> flowInv src (callPullIfNeeded s).
Proof.
intros Inv. unfold callPullIfNeeded.
destruct (shouldCallPull s) eqn:Sh; [|exact Inv].
destruct (shouldCallPull_true s Sh) as (St & Cr & _ & Hq).
destruct Inv as (A & B & C & D & xs & m & H).
assert (Q : a_queue s = []).
{ destruct Hq as [[_ Hr]|Hq]; [apply D; exact Hr|exact Hq]. }
destruct s as [sc ret nx rt st q sd pl pa cr lk rd rq rs].
simpl in *. subst.
destruct pl as [| |[e|]|]; unfold flowInv; simpl;
  (split; [exact A|]); (split; [exact B|]); (split; [reflexivity|]);
  (split; [exact D|]); exists xs, m; try exact H.
destruct H as (H1 & H2 & H3 & H4). rewrite app_nil_r in H4. auto.
Qed.

Lemma map_fst_const {A} (r : readResult T) (l : list A) :
  map fst (map (fun id => (id, r)) l) = l.
Proof. induction l as [|a l IH]; simpl; [|rewrite IH]; reflexivity. Qed.

Lemma map_snd_const {A} (r : readResult T) (l : list A) :
  map snd (map (fun id => (id, r)) l) = repeat r (length l).
Proof. induction l as [|a l IH]; simpl; [|rewrite IH]; reflexivity. Qed.

Lemma repeat_snoc {A} (a : A) n : repeat a n ++ [a] = repeat a (S n).
Proof. induction n as [|n IH]; simpl; [|rewrite IH]; reflexivity. Qed.

(** The numbering of the reads after the pending ones have settled. *)
Lemma settle_all_ids (rs : list (nat * readResult T)) rq r :
  map fst rs = seq 0 (length rs) ->
  rq = seq (length rs) (length rq) ->
  map fst (rs ++ map (fun id => (id, r)) rq)
  = seq 0 (length (rs ++ map (fun id => (id, r)) rq)).
Proof.
intros A B. rewrite map_app, map_fst_const, length_app, length_map.
rewrite seq_app, A. simpl. rewrite <- B. reflexivity.
Qed.

Lemma settle_one_ids (rs : list (nat * readResult T)) r :
  map fst rs = seq 0 (length rs) ->
  map fst (rs ++ [(length rs, r)]) = seq 0 (length (rs ++ [(length rs, r)])).
Proof.
intros A. rewrite map_app, length_app. simpl. rewrite seq_app, A.
reflexivity.
Qed.

Lemma flow_pullAgain src s b :
  flowInv src s -> flowInv src (setPullAgain s b).
Proof. intros H. exact H. Qed.

Lemma flow_next src s s' :
  flowInv src s -> adapterStep NextSettles s = Some s' -> flowInv src s'.
Proof.
intros (A & B & C & D & xs & m & H) E. unfold adapterStep in E.
destruct (a_pull s) eqn:P; try discriminate.
destruct s as [sc ret nx rt st q sd pl pa cr lk rd rq rs].
simpl in *. subst pl.
destruct st as [| |e0].
- (* the stream is readable *)
  destruct H as (-> & -> & R & -> & ->).
  destruct sc as [|[x| |e] rest]; simpl in E.
  + (* the source is used up *)
    injection E as <-. unfold flowInv. simpl.
    split; [apply settle_all_ids; assumption|].
    split; [reflexivity|].
    split; [rewrite length_app, length_map; simpl; lia|].
    split; [intros F; contradiction|].
    exists xs, (length rq). rewrite map_app, map_snd_const, R.
    split; [reflexivity|]. left. apply app_nil_r.
  + (* a value *)
    unfold controllerEnqueue, canCloseOrEnqueue in E. simpl in E.
    match type of E with
    | Some (setPull (callPullIfNeeded ?s1) _) = _ =>
        assert (G : flowInv (map SrcValue xs ++ SrcValue x :: rest)
                      (setPull s1 (Settling None)));
        [|destruct (callPullIfNeeded_busy s1) as [Hc|Hc];
          [destruct lk; [destruct rq|]; discriminate| |];
          rewrite Hc in E; injection E as <-;
          [exact G|exact (flow_pullAgain _ _ true G)]]
    end.
    destruct lk; [destruct rq as [|id rq]|]; unfold flowInv; simpl.
    * split; [exact A|]. split; [reflexivity|]. split; [exact C|].
      split; [intros F; contradiction|].
      exists xs, 0%nat. repeat split; auto.
      rewrite map_app, <- app_assoc. reflexivity.
    * simpl in B. injection B as -> B.
      split; [apply settle_one_ids; exact A|].
      split; [rewrite length_app; simpl; rewrite B at 1; f_equal; lia|].
      split; [rewrite length_app; simpl in *; lia|].
      split; [intros _; auto|].
      exists (xs ++ [x]), 0%nat. repeat split; auto.
      -- rewrite !map_app, R. reflexivity.
      -- rewrite app_nil_r, map_app, <- app_assoc. reflexivity.
    * split; [exact A|]. split; [exact B|]. split; [exact C|].
      split; [intros F; destruct (D F) as [? _]; discriminate|].
      exists xs, 0%nat. repeat split; auto.
      rewrite map_app, <- app_assoc. reflexivity.
  + (* the source is done *)
    injection E as <-. unfold flowInv. simpl.
    split; [apply settle_all_ids; assumption|].
    split; [reflexivity|].
    split; [rewrite length_app, length_map; simpl; lia|].
    split; [intros F; contradiction|].
    exists xs, (length rq). rewrite map_app, map_snd_const, R.
    split; [reflexivity|]. right. exists rest. reflexivity.
  + (* the source throws *)
    injection E as <-. unfold flowInv. simpl.
    split; [exact A|]. split; [exact B|]. split; [exact C|].
    split; [exact D|]. exists xs, 0%nat. auto.
- (* the stream is closed *)
  assert (E' : exists sc' pl', s' = MkAdapter sc' ret nx rt StreamClosed q sd
                                      pl' pa cr lk rd rq rs).
  { destruct sc as [|[x| |e] rest]; simpl in E;
      unfold controllerEnqueue, controllerClose, canCloseOrEnqueue in E;
      simpl in E; rewrite ?andb_false_r in E; injection E as <-; eauto. }
  destruct E' as (sc' & pl' & ->). unfold flowInv. simpl.
  split; [exact A|]. split; [exact B|]. split; [exact C|].
  split; [exact D|]. exists xs, m. exact H.
- (* the stream is errored *)
  assert (E' : exists sc' pl', s' = MkAdapter sc' ret nx rt (Errored e0) q sd
                                      pl' pa cr lk rd rq rs).
  { destruct sc as [|[x| |e] rest]; simpl in E;
      unfold controllerEnqueue, controllerClose, canCloseOrEnqueue in E;
      simpl in E; rewrite ?andb_false_r in E; injection E as <-; eauto. }
  destruct E' as (sc' & pl' & ->). unfold flowInv. simpl.
  split; [exact A|]. split; [exact B|]. split; [exact C|].
  split; [exact D|]. exists xs, m. exact H.
Qed.

Lemma flow_pull src s s' :
  flowInv src s -> adapterStep PullSettles s = Some s' -> flowInv src s'.
Proof.
intros Inv E. unfold adapterStep in E.
destruct (a_pull s) as [| |[e|]|] eqn:P; try discriminate.
- injection E as <-. destruct Inv as (A & B & C & D & xs & m & H).
  unfold controllerError, isReadable, streamError.
  destruct s as [sc ret nx rt st q sd pl pa cr lk rd rq rs].
  simpl in *. subst pl. destruct st as [| |e0]; unfold flowInv; simpl.
  + destruct H as (-> & -> & R & -> & ->).
    split; [apply settle_all_ids; assumption|].
    split; [reflexivity|].
    split; [rewrite length_app, length_map; simpl; lia|].
    split; [intros F; contradiction|].
    exists xs, (length rq). rewrite map_app, map_snd_const, R.
    split; [reflexivity|]. exists sc. reflexivity.
  + split; [exact A|]. split; [exact B|]. split; [exact C|].
    split; [exact D|]. exists xs, m. exact H.
  + split; [exact A|]. split; [exact B|]. split; [exact C|].
    split; [exact D|]. exists xs, m. exact H.
- assert (Inv1 : flowInv src (setPull s PullIdle)).
  { destruct Inv as (A & B & C & D & xs & m & H).
    destruct s as [sc ret nx rt st q sd pl pa cr lk rd rq rs].
    simpl in *. subst pl. unfold flowInv. simpl.
    split; [exact A|]. split; [exact B|]. split; [exact C|].
    split; [exact D|]. exists xs, m. exact H. }
  destruct (a_pullAgain (setPull s PullIdle)); injection E as <-;
    [|exact Inv1].
  apply flow_callPullIfNeeded. exact Inv1.
Qed.

Lemma flow_read src s :
  a_locked s = true -> flowInv src s -> flowInv src (fst (readCall s)).
Proof.
intros L Inv. unfold readCall. simpl.
destruct (a_state s) as [| |e0] eqn:St.
- destruct (a_queue s) as [|x q] eqn:Q.
  + apply flow_callPullIfNeeded.
    destruct Inv as (A & B & C & D & xs & m & H).
    destruct s as [sc ret nx rt st q sd pl pa cr lk rd rq rs].
    simpl in *. subst. unfold flowInv. simpl.
    split; [rewrite app_nil_r; exact A|].
    split; [rewrite app_nil_r, length_app, seq_app, <- B; simpl;
            reflexivity|].
    split; [rewrite app_nil_r, length_app; simpl; lia|].
    split; [auto|].
    exists xs, m. rewrite app_nil_r. exact H.
  + destruct Inv as (A & B & C & D & xs & m & H).
    assert (Rq : a_requests s = []).
    { destruct (a_requests s) eqn:R; [reflexivity|].
      destruct D as (_ & D & _); [discriminate|]. congruence. }
    rewrite St in H. destruct H as (Cr & -> & R & H).
    rewrite Cr. simpl. rewrite callPullIfNeeded_settle.
    apply flow_callPullIfNeeded.
    destruct s as [sc ret nx rt st q0 sd pl pa cr lk rd rq rs].
    simpl in *. subst. unfold flowInv. simpl.
    split; [rewrite Nat.add_0_r; apply settle_one_ids; exact A|].
    split; [reflexivity|].
    split; [rewrite length_app; simpl; lia|].
    split; [intros F; contradiction|].
    exists (xs ++ [x]), 0%nat.
    split; [reflexivity|]. split; [reflexivity|].
    split; [rewrite !map_app, R; reflexivity|].
    destruct pl as [| |[e|]|]; try (destruct H; discriminate);
      try contradiction; rewrite H, <- !app_assoc; reflexivity.
- destruct Inv as (A & B & C & D & xs & m & H).
  assert (Rq : a_requests s = []).
  { destruct (a_requests s) eqn:R; [reflexivity|].
    destruct D as (_ & _ & D); [discriminate|]. congruence. }
  destruct s as [sc ret nx rt st q sd pl pa cr lk rd rq rs].
  simpl in *. subst. unfold flowInv. simpl.
  split; [rewrite Nat.add_0_r; apply settle_one_ids; exact A|].
  split; [reflexivity|].
  split; [rewrite length_app; simpl; lia|].
  split; [intros F; contradiction|].
  exists xs, (S m). destruct H as [R Hs].
  split; [|exact Hs].
  rewrite map_app, R, <- app_assoc. cbn [map snd]. rewrite repeat_snoc.
  reflexivity.
- destruct Inv as (A & B & C & D & xs & m & H).
  assert (Rq : a_requests s = []).
  { destruct (a_requests s) eqn:R; [reflexivity|].
    destruct D as (_ & _ & D); [discriminate|]. congruence. }
  destruct s as [sc ret nx rt st q sd pl pa cr lk rd rq rs].
  simpl in *. subst. unfold flowInv. simpl.
  split; [rewrite Nat.add_0_r; apply settle_one_ids; exact A|].
  split; [reflexivity|].
  split; [rewrite length_app; simpl; lia|].
  split; [intros F; contradiction|].
  exists xs, (S m). destruct H as [R Hs].
  split; [|exact Hs].
  rewrite map_app, R, <- app_assoc. cbn [map snd]. rewrite repeat_snoc.
  reflexivity.
Qed.

Lemma flow_release src s :
  a_requests s = [] -> flowInv src s -> flowInv src (releaseLock s).
Proof.
intros Rq (A & B & C & D & xs & m & H). unfold releaseLock.
destruct s as [sc ret nx rt st q sd pl pa cr lk rd rq rs].
simpl in *. subst. unfold flowInv. simpl. rewrite app_nil_r.
split; [exact A|]. split; [reflexivity|]. split; [reflexivity|].
split; [intros F; contradiction|]. exists xs, m. exact H.
Qed.

Lemma flow_step src ev s s' :
  ev <> CancelCall -> ev <> ReleaseLock ->
  flowInv src s -> adapterStep ev s = Some s' -> flowInv src s'.
Proof.
intros H1 H2 Inv E. destruct ev; try contradiction.
- unfold adapterStep in E. destruct (a_started s); [discriminate|].
  injection E as <-. apply flow_callPullIfNeeded.
  destruct s as [sc ret nx rt st q sd pl pa cr lk rd rq rs]. exact Inv.
- eapply flow_next; eauto.
- eapply flow_pull; eauto.
- unfold adapterStep, getReader in E.
  destruct (a_locked s) eqn:L; injection E as <-; [exact Inv|].
  destruct Inv as (A & B & C & D & xs & m & H).
  destruct s as [sc ret nx rt st q sd pl pa cr lk rd rq rs].
  simpl in *. subst. unfold flowInv. simpl.
  split; [exact A|]. split; [exact B|]. split; [reflexivity|].
  split; [intros F; destruct (D F) as [? _]; discriminate|].
  exists xs, m. exact H.
- unfold adapterStep in E. destruct (a_locked s) eqn:L; [|discriminate].
  injection E as <-. apply flow_read; assumption.
Qed.

Lemma flow_init src ret : flowInv src (readableStreamFrom src ret).
Proof.
unfold flowInv. simpl. repeat split; auto; try contradiction.
exists [], 0%nat. auto.
Qed.

(** X11: as long as nobody cancels the stream or gives up its reader,
    reading the stream made by [readableStreamFrom] gives what iterating
    the source gives: the reads settle in the order in which they were
    made, with the source's values in order, none lost and none twice,
    and then with [done] for ever if the source ends, or with the
    source's exception for ever if it throws.  The value a source returns
    is not passed on. *)
Theorem adapter_reads_follow_source src ret evs s :
  CancelCall ∉ evs -> ReleaseLock ∉ evs ->
  adapterRun evs (readableStreamFrom src ret) = Some s ->
  map fst (a_results s) = seq 0 (length (a_results s)) /\
  map snd (a_results s) = idealReads src (length (a_results s)).
Proof.
intros H1 H2 E.
assert (G : forall evs s0 s1,
           CancelCall ∉ evs -> ReleaseLock ∉ evs ->
           flowInv src s0 -> adapterRun evs s0 = Some s1 -> flowInv src s1).
{ clear. induction evs as [|ev evs IH]; intros s0 s1 H1 H2 Inv E;
    simpl in E.
  - injection E as <-. exact Inv.
  - destruct (adapterStep ev s0) as [s2|] eqn:E2; [|discriminate].
    apply (IH s2 s1); [| | |exact E].
    + intros H. apply H1. right. exact H.
    + intros H. apply H2. right. exact H.
    + apply (flow_step src ev s0 s2); [| |exact Inv|exact E2].
      * intros ->. apply H1. left.
      * intros ->. apply H2. left. }
pose proof (G evs _ s H1 H2 (flow_init src ret) E) as Inv.
split; [apply Inv|]. apply flow_reads. exact Inv.
Qed.

End AdapterFlow.

Lemma adapter_reads_witness :
  exists s,
    adapterRun [GetReader; ReadCall; ReadCall; StartDone; NextSettles;
                ReadCall; PullSettles; NextSettles; PullSettles;
                NextSettles; PullSettles]
      (readableStreamFrom
         [SrcValue "a"; SrcValue "b"; SrcThrow (ExtError "boom")] false)
    = Some s /\
    a_results s
    = [(0%nat, ReadChunk "a"); (1%nat, ReadChunk "b");
       (2%nat, ReadError (ExtError "boom"))] /\
    (map fst (a_results s) = seq 0 (length (a_results s)) /\
     map snd (a_results s)
     = idealReads [SrcValue "a"; SrcValue "b"; SrcThrow (ExtError "boom")]
         (length (a_results s))).
Proof.
eexists. split; [vm_compute; reflexivity|]. split; [reflexivity|].
apply (adapter_reads_follow_source
         [SrcValue "a"; SrcValue "b"; SrcThrow (ExtError "boom")] false
         [GetReader; ReadCall; ReadCall; StartDone; NextSettles;
          ReadCall; PullSettles; NextSettles; PullSettles;
          NextSettles; PullSettles]).
- intros H. repeat (apply elem_of_cons in H as [H|H]; [discriminate|]).
  inversion H.
- intros H. repeat (apply elem_of_cons in H as [H|H]; [discriminate|]).
  inversion H.
- vm_compute. reflexivity.
Defined.

Section Piped.

Context {T : Type}.

Implicit Types s : adapter T.
Implicit Types src : list (sourceResult T).

Lemma callPullIfNeeded_keeps s :
  a_locked (callPullIfNeeded s) = a_locked s /\
  a_reads (callPullIfNeeded s) = a_reads s /\
  a_requests (callPullIfNeeded s) = a_requests s /\
  a_results (callPullIfNeeded s) = a_results s.
Proof.
unfold callPullIfNeeded. destruct (shouldCallPull s); [|auto].
destruct (a_pull s); auto.
Qed.

(** The stream's own events settle pending reads only. *)
Lemma internal_results ev s s' :
  isInternal ev = true -> adapterStep ev s = Some s' ->
  a_locked s' = a_locked s /\ a_reads s' = a_reads s /\
  exists new, a_results s' = a_results s ++ new /\
              (a_requests s = [] -> new = [] /\ a_requests s' = []).
Proof.
intros I E. destruct ev; try discriminate; unfold adapterStep in E.
- destruct (a_started s); [discriminate|]. injection E as <-.
  destruct (callPullIfNeeded_keeps (setStarted s true)) as (A & B & C & D).
  rewrite A, B, C, D. simpl. repeat split. exists []. rewrite app_nil_r. auto.
- destruct (a_pull s); try discriminate.
  destruct (nextOf (a_source s)) as [[x| |e] rest]; simpl in E.
  + unfold controllerEnqueue in E.
    destruct (canCloseOrEnqueue _).
    * injection E as <-.
      match goal with
      | |- context [callPullIfNeeded ?s1] =>
          destruct (callPullIfNeeded_keeps s1) as (A & B & C & D)
      end.
      unfold setPull. cbn [a_locked a_reads a_requests a_results].
      rewrite A, B, D. clear A B C D.
      destruct (a_locked s) eqn:L;
        [destruct (a_requests s) as [|id rq] eqn:R|]; simpl;
        rewrite ?L; (split; [reflexivity|]); (split; [reflexivity|]).
      -- exists []. rewrite app_nil_r. split; [reflexivity|].
         intros _. split; [reflexivity|].
         match goal with
         | |- a_requests (callPullIfNeeded ?s1) = _ =>
             rewrite (proj1 (proj2 (proj2 (callPullIfNeeded_keeps s1))))
         end.
         exact R.
      -- exists [(id, ReadChunk x)]. split; [reflexivity|]. discriminate.
      -- exists []. rewrite app_nil_r. split; [reflexivity|].
         intros R. split; [reflexivity|].
         match goal with
         | |- a_requests (callPullIfNeeded ?s1) = _ =>
             rewrite (proj1 (proj2 (proj2 (callPullIfNeeded_keeps s1))))
         end.
         exact R.
    * injection E as <-. simpl. repeat split. exists [].
      rewrite app_nil_r. auto.
  + unfold controllerClose in E.
    destruct (canCloseOrEnqueue _).
    * simpl in E. destruct (a_queue s); injection E as <-; simpl;
        repeat split.
      -- eexists. split; [reflexivity|]. intros ->. auto.
      -- exists []. rewrite app_nil_r. auto.
    * injection E as <-. simpl. repeat split. exists [].
      rewrite app_nil_r. auto.
  + injection E as <-. simpl. repeat split. exists [].
    rewrite app_nil_r. auto.
- destruct (a_pull s) as [| |[e|]|]; try discriminate.
  + injection E as <-. unfold controllerError.
    destruct (isReadable _); simpl; repeat split.
    * eexists. split; [reflexivity|]. intros ->. auto.
    * exists []. rewrite app_nil_r. auto.
  + simpl in E. destruct (a_pullAgain s); injection E as <-.
    * match goal with
      | |- context [callPullIfNeeded ?s1] =>
          destruct (callPullIfNeeded_keeps s1) as (A & B & C & D)
      end.
      rewrite A, B, C, D. simpl. repeat split. exists [].
      rewrite app_nil_r. auto.
    * simpl. repeat split. exists []. rewrite app_nil_r. auto.
Qed.

Lemma resultOf_lookup (l : list (nat * readResult T)) : forall k id r,
  map fst l = seq k (length l) -> resultOf id l = Some r ->
  exists i, id = (k + i)%nat /\ l !! i = Some (id, r).
Proof.
induction l as [|[j r0] l IH]; intros k id r A E; simpl in *;
  [discriminate|].
injection A as -> A.
destruct (Nat.eqb_spec k id) as [->|Hne].
- injection E as ->. exists 0%nat. split; [lia|reflexivity].
- destruct (IH (S k) id r A E) as (i & -> & Hi).
  exists (S i). split; [lia|exact Hi].
Qed.

Lemma readCall_keeps s :
  snd (readCall s) = a_reads s /\
  a_reads (fst (readCall s)) = S (a_reads s) /\
  a_locked (fst (readCall s)) = a_locked s /\
  a_returns (fst (readCall s)) = a_returns s /\
  exists new, a_results (fst (readCall s)) = a_results s ++ new.
Proof.
unfold readCall. simpl. split; [reflexivity|].
destruct (a_state s).
- destruct (a_queue s) as [|x q].
  + match goal with
    | |- context [callPullIfNeeded ?s1] =>
        destruct (callPullIfNeeded_keeps s1) as (A & B & C & D);
        rewrite A, B, D;
        assert (R : a_returns (callPullIfNeeded s1) = a_returns s1)
    end.
    { unfold callPullIfNeeded. destruct (shouldCallPull _); [|reflexivity].
      destruct (a_pull _); reflexivity. }
    rewrite R. simpl. repeat split. exists []. reflexivity.
  + destruct (a_closeRequested s && bool_decide (q = [])); simpl.
    * repeat split. eexists. rewrite <- app_assoc. reflexivity.
    * match goal with
      | |- context [callPullIfNeeded ?s1] =>
          destruct (callPullIfNeeded_keeps s1) as (A & B & C & D);
          rewrite A, B, D;
          assert (R : a_returns (callPullIfNeeded s1) = a_returns s1)
      end.
      { unfold callPullIfNeeded. destruct (shouldCallPull _); [|reflexivity].
        destruct (a_pull _); reflexivity. }
      rewrite R. simpl. repeat split. eexists. reflexivity.
- simpl. repeat split. eexists. reflexivity.
- simpl. repeat split. eexists. reflexivity.
Qed.

Lemma take_idealReads src : forall k n,
  (k <= n)%nat -> take k (idealReads src n) = idealReads src k.
Proof.
intros k. revert src. induction k as [|k IH]; intros src n H.
- destruct (idealReads src n); reflexivity.
- destruct n as [|n]; [lia|]. simpl.
  destruct src as [|[x| |e] rest]; simpl; rewrite IH by lia; reflexivity.
Qed.

Lemma chunks_outputs src : forall k,
  Forall isChunk (idealReads src k) ->
  map outOf (idealReads src k) = take k (sourceOutputs src) /\
  (k < length (sourceOutputs src))%nat.
Proof.
intros k. revert src. induction k as [|k IH]; intros src H.
- split; [reflexivity|]. destruct src as [|[x| |e] rest]; simpl; lia.
- simpl in H. destruct src as [|[x| |e] rest];
    apply Forall_cons in H as [H0 H]; try contradiction.
  destruct (IH rest H) as [A B]. simpl. rewrite A. split; [reflexivity|lia].
Qed.

Lemma last_output src : forall k,
  Forall isChunk (idealReads src k) ->
  map outOf (idealReads src (S k)) = take (S k) (sourceOutputs src).
Proof.
intros k. revert src. induction k as [|k IH]; intros src H.
- destruct src as [|[x| |e] rest]; reflexivity.
- simpl in H. destruct src as [|[x| |e] rest];
    apply Forall_cons in H as [H0 H]; try contradiction.
  specialize (IH rest H). simpl in *. rewrite IH. reflexivity.
Qed.

(** What the invariant says about the generator's results. *)
Lemma pipe_outputs src p :
  pipeInv src p ->
  exists n,
    p_out p = take n (sourceOutputs src) \/
    (p_out p = take n (sourceOutputs src) ++ [GenReturn] /\
     (n < length (sourceOutputs src))%nat /\ p_gen p = GenDone).
Proof.
intros (F & _ & H). pose proof (flow_reads src _ F) as R.
destruct (p_gen p) as [|id| |].
- exists 0%nat. left. destruct H as (_ & _ & _ & ->). reflexivity.
- destruct H as (_ & _ & Hid & Ch & ->). rewrite R in *.
  rewrite take_idealReads in * by exact Hid.
  exists id. left. apply chunks_outputs. exact Ch.
- destruct H as (_ & _ & Ch & ->). rewrite R in *.
  eexists. left. apply chunks_outputs. exact Ch.
- destruct H as (_ & _ & [(k & L & Ch & ->)|(Ch & ->)]).
  + rewrite length_map in L. rewrite R, L in *.
    rewrite take_idealReads in Ch by lia.
    exists (S k). left. apply last_output. exact Ch.
  + rewrite R in *. destruct (chunks_outputs _ _ Ch) as [A B].
    eexists. right. rewrite A. auto.
Qed.

Lemma pipe_stream src e p p' :
  isInternal e = true -> pipeInv src p -> pipeStep (Stream e) p = Some p' ->
  pipeInv src p'.
Proof.
intros I (F & Rt & H) E. unfold pipeStep in E.
destruct (adapterStep e (p_stream p)) as [s'|] eqn:E1; [|discriminate].
injection E as <-.
assert (N1 : e <> CancelCall) by (intros ->; discriminate).
assert (N2 : e <> ReleaseLock) by (intros ->; discriminate).
pose proof (flow_step src e _ s' N1 N2 F E1) as F'.
destruct (returns_step e _ s' N1 E1) as [Rt' _].
destruct (internal_results e _ s' I E1) as (L & Rd & new & Rs & Hn).
unfold pipeInv. simpl. split; [exact F'|]. split; [congruence|].
destruct (p_gen p) as [|id| |].
- destruct H as (H1 & H2 & H3 & H4). destruct (Hn H3) as [-> Hq].
  rewrite L, Rs, H2. auto.
- destruct H as (H1 & H2 & H3 & H4 & H5).
  rewrite L, Rd, Rs, map_app, length_app.
  rewrite take_app_le by (rewrite length_map; exact H3).
  repeat split; auto. lia.
- destruct H as (H1 & H2 & H3 & H4). destruct (Hn H2) as [-> Hq].
  rewrite L, Rs, app_nil_r. auto.
- destruct H as (H1 & H2 & H3). destruct (Hn H2) as [-> Hq].
  rewrite L, Rs, app_nil_r. auto.
Qed.

Lemma pipe_read src s out :
  flowInv src s -> a_returns s = 0%nat -> a_locked s = true ->
  a_requests s = [] ->
  Forall isChunk (map snd (a_results s)) ->
  out = map outOf (map snd (a_results s)) ->
  pipeInv src (genRead s out).
Proof.
intros F Rt L Rq Ch Ho. unfold genRead.
destruct (readCall_keeps s) as (Id & Rd & L' & Rt' & new & Rs).
pose proof (flow_read src s L F) as F'.
destruct (readCall s) as [s1 id]. simpl in *. subst id.
unfold pipeInv. simpl. split; [exact F'|]. split; [congruence|].
destruct F as (_ & _ & C & _). rewrite Rq in C. simpl in C.
rewrite Nat.add_0_r in C.
rewrite L', Rd, Rs, map_app, length_app, C.
rewrite take_app_length' by (rewrite length_map; reflexivity).
repeat split; auto. lia.
Qed.

Lemma pipe_release src s out :
  flowInv src s -> a_returns s = 0%nat -> a_requests s = [] ->
  ((exists k, length (map snd (a_results s)) = S k /\
              Forall isChunk (take k (map snd (a_results s))) /\
              out = map outOf (map snd (a_results s))) \/
   (Forall isChunk (map snd (a_results s)) /\
    out = map outOf (map snd (a_results s)) ++ [GenReturn])) ->
  pipeInv src (MkPiped (releaseLock s) GenDone out).
Proof.
intros F Rt Rq H. unfold pipeInv. simpl.
split; [apply flow_release; assumption|]. split; [exact Rt|].
rewrite Rq. simpl. rewrite app_nil_r. auto.
Qed.

Lemma pipe_step src ev p p' :
  ownEvent ev = true -> pipeInv src p -> pipeStep ev p = Some p' ->
  pipeInv src p'.
Proof.
intros O Inv E. destruct ev as [e| | |].
- eapply pipe_stream; eauto.
- (* next() *)
  destruct Inv as (F & Rt & H). unfold pipeStep in E.
  destruct (p_gen p) as [|id| |]; try discriminate.
  + destruct H as (L & Rs & Rq & Ho). unfold getReader in E. rewrite L in E.
    injection E as <-. apply pipe_read; simpl; auto.
    * apply (flow_step src GetReader (p_stream p)); try discriminate;
        [exact F|].
      unfold adapterStep, getReader. rewrite L. reflexivity.
    * rewrite Rs. constructor.
    * rewrite Rs, Ho. reflexivity.
  + destruct H as (L & Rq & Ch & Ho). injection E as <-.
    apply pipe_read; auto.
- (* the read settles *)
  destruct Inv as (F & Rt & H). unfold pipeStep in E.
  destruct (p_gen p) as [|id| |]; try discriminate.
  destruct (resultOf id (a_results (p_stream p))) as [r|] eqn:Er;
    [|discriminate].
  injection E as <-. destruct H as (L & Rd & Hid & Ch & Ho).
  pose proof F as (A & B & C & _).
  destruct (resultOf_lookup _ 0 id r A Er) as (i & Hi & Hl). simpl in Hi.
  subst i. pose proof (lookup_lt_Some _ _ _ Hl) as Hlt.
  assert (Ln : length (a_results (p_stream p)) = S id) by lia.
  assert (Rq : a_requests (p_stream p) = []).
  { destruct (a_requests (p_stream p)); [reflexivity|]. simpl in C. lia. }
  assert (Rs : map snd (a_results (p_stream p))
               = take id (map snd (a_results (p_stream p))) ++ [r]).
  { rewrite <- (take_ge (a_results (p_stream p)) (S id)) at 1 by lia.
    rewrite (take_S_r _ _ _ Hl), map_app. simpl.
    rewrite <- fmap_take. reflexivity. }
  destruct r as [x| |e]; unfold genResume.
  + unfold pipeInv. simpl. split; [exact F|]. split; [exact Rt|].
    split; [exact L|]. split; [exact Rq|]. rewrite Rs. split.
    * apply Forall_app. split; [exact Ch|]. repeat constructor.
    * rewrite map_app, Ho. reflexivity.
  + apply pipe_release; auto. left. exists id.
    split; [rewrite length_map; exact Ln|]. split; [exact Ch|].
    rewrite Rs at 1. rewrite map_app, Ho. reflexivity.
  + apply pipe_release; auto. left. exists id.
    split; [rewrite length_map; exact Ln|]. split; [exact Ch|].
    rewrite Rs at 1. rewrite map_app, Ho. reflexivity.
- (* return() *)
  destruct Inv as (F & Rt & H). unfold pipeStep in E.
  destruct (p_gen p) as [|id| |]; try discriminate; injection E as <-.
  + destruct H as (L & Rs & Rq & Ho). unfold pipeInv. simpl.
    split; [exact F|]. split; [exact Rt|]. split; [exact L|].
    split; [exact Rq|]. right. rewrite Rs, Ho. split; [constructor|].
    reflexivity.
  + destruct H as (L & Rq & Ch & Ho). apply pipe_release; auto.
    right. rewrite Ho. auto.
Qed.

Lemma pipe_run src evs : forall p p',
  forallb ownEvent evs = true -> pipeInv src p ->
  pipeRun evs p = Some p' -> pipeInv src p'.
Proof.
induction evs as [|ev evs IH]; intros p p' O Inv E; simpl in *.
- injection E as <-. exact Inv.
- apply andb_true_iff in O as [O1 O2].
  destruct (pipeStep ev p) as [p1|] eqn:E1; [|discriminate].
  eapply IH; [exact O2| |exact E]. eapply pipe_step; eauto.
Qed.

(** X12: iterating [asyncIterableFrom(readableStreamFrom(source))] gives
    what iterating the source gives, except that the value the source
    returns is dropped: whatever the schedule, what the generator's calls
    have settled with is a prefix of the source's values followed by its
    end or its exception, or such values followed by the result of an
    early [return()].  The generator never cancels the stream, so the
    source iterator's [return()] is never called, not even when the
    consumer returns early; it only gives the reader's lock back when it
    is done. *)
Theorem piped_outputs_follow_source src ret evs p :
  forallb ownEvent evs = true ->
  pipeRun evs (asyncIterableFrom (readableStreamFrom src ret)) = Some p ->
  (exists n,
      p_out p = take n (sourceOutputs src) \/
      (p_out p = take n (sourceOutputs src) ++ [GenReturn] /\
       (n < length (sourceOutputs src))%nat /\ p_gen p = GenDone)) /\
  a_returns (p_stream p) = 0%nat /\
  (p_gen p = GenDone -> a_locked (p_stream p) = false).
Proof.
intros O E.
assert (Inv0 : pipeInv src (asyncIterableFrom (readableStreamFrom src ret))).
{ unfold pipeInv. simpl. split; [apply flow_init|]. auto. }
pose proof (pipe_run src evs _ p O Inv0 E) as Inv.
split; [apply pipe_outputs; exact Inv|].
destruct Inv as (_ & Rt & H). split; [exact Rt|].
intros G. rewrite G in H. apply H.
Qed.

End Piped.

Lemma piped_witness :
  exists p,
    pipeRun [Stream StartDone; CallNext; Stream NextSettles; ReadSettles;
             Stream PullSettles; CallNext; Stream NextSettles; ReadSettles;
             CallReturn]
      (asyncIterableFrom
         (readableStreamFrom [SrcValue "a"; SrcValue "b"; SrcValue "c"]
            true))
    = Some p /\
    p_out p = [GenYield "a"; GenYield "b"; GenReturn] /\
    a_nexts (p_stream p) = 2%nat /\
    ((exists n,
         p_out p
         = take n (sourceOutputs [SrcValue "a"; SrcValue "b"; SrcValue "c"])
         \/
         (p_out p
          = take n (sourceOutputs [SrcValue "a"; SrcValue "b"; SrcValue "c"])
              ++ [GenReturn] /\
          (n < length
                 (sourceOutputs [SrcValue "a"; SrcValue "b"; SrcValue "c"]))%nat
          /\ p_gen p = GenDone)) /\
     a_returns (p_stream p) = 0%nat /\
     (p_gen p = GenDone -> a_locked (p_stream p) = false)).
Proof.
eexists. split; [vm_compute; reflexivity|]. split; [reflexivity|].
split; [reflexivity|].
apply (piped_outputs_follow_source
         [SrcValue "a"; SrcValue "b"; SrcValue "c"] true
         [Stream StartDone; CallNext; Stream NextSettles; ReadSettles;
          Stream PullSettles; CallNext; Stream NextSettles; ReadSettles;
          CallReturn]).
- reflexivity.
- vm_compute. reflexivity.
Defined.

Section PendingRead.

Context {T : Type}.

Implicit Types s : adapter T.
Implicit Types src : list (sourceResult T).

Lemma shouldCallPull_pending s :
  a_state s = Readable -> a_closeRequested s = false ->
  a_started s = true -> a_locked s = true -> a_requests s <> [] ->
  shouldCallPull s = true.
Proof.
intros St Cr Sd L Rq. unfold shouldCallPull, canCloseOrEnqueue, isReadable.
rewrite St, Cr, Sd, L. simpl.
destruct (a_requests s); [contradiction|reflexivity].
Qed.

Lemma shouldCallPull_started s :
  a_started s = false -> shouldCallPull s = false.
Proof.
intros Sd. destruct (shouldCallPull s) eqn:E; [|reflexivity].
apply shouldCallPull_true in E as (_ & _ & E & _). congruence.
Qed.

(** What [flowInv] says of a stream with a pending read. *)
Lemma flow_pending src s :
  flowInv src s -> a_requests s <> [] ->
  a_locked s = true /\ a_queue s = [] /\ a_state s = Readable /\
  a_closeRequested s = false /\ a_pull s <> PullFailed.
Proof.
intros (_ & _ & _ & D & xs & m & H) Rq.
destruct (D Rq) as (L & Q & St). rewrite St in H.
destruct H as (Cr & _ & _ & H).
repeat split; auto. intros P. rewrite P in H. exact H.
Qed.

Lemma pending_callPullIfNeeded s :
  (a_started s = false -> a_pull s = PullIdle) ->
  (a_requests s <> [] ->
   a_locked s = true /\ a_state s = Readable /\
   a_closeRequested s = false /\ a_pull s <> PullFailed) ->
  pendingInv (callPullIfNeeded s).
Proof.
intros P1 H. unfold callPullIfNeeded.
destruct (a_started s) eqn:Sd.
- destruct (shouldCallPull s) eqn:Sh.
  + destruct (a_pull s) as [| |[e|]|] eqn:P; split; simpl;
      try (rewrite Sd; intros; discriminate); intros Rq.
    * right. left. reflexivity.
    * right. left. exact P.
    * right. right. left. exists e. exact P.
    * right. right. right. split; [exact P|reflexivity].
    * destruct (H Rq) as (_ & _ & _ & N). contradiction.
  + split; [rewrite Sd; intros; discriminate|]. intros Rq.
    destruct (H Rq) as (L & St & Cr & _).
    rewrite (shouldCallPull_pending s St Cr Sd L Rq) in Sh. discriminate.
- rewrite shouldCallPull_started by exact Sd.
  split; [intros _; apply P1; reflexivity|]. intros Rq. left.
  split; [exact Sd|apply P1; reflexivity].
Qed.

(** What [flowInv] says of a readable stream. *)
Lemma flow_readable src s :
  flowInv src s -> a_state s = Readable ->
  a_closeRequested s = false /\ a_pull s <> PullFailed.
Proof.
intros (_ & _ & _ & _ & xs & m & H) St. rewrite St in H.
destruct H as (Cr & _ & _ & H). split; [exact Cr|].
intros P. rewrite P in H. exact H.
Qed.

Lemma pending_internal src ev s s' :
  isInternal ev = true -> flowInv src s -> pendingInv s ->
  adapterStep ev s = Some s' -> pendingInv s'.
Proof.
intros I F [P1 P2] E. destruct ev; try discriminate; unfold adapterStep in E.
- (* the start *)
  destruct (a_started s) eqn:Sd; [discriminate|]. injection E as <-.
  apply pending_callPullIfNeeded.
  + simpl. discriminate.
  + simpl. intros Rq.
    destruct (flow_pending src s F Rq) as (L & _ & St & Cr & N). auto.
- (* [iterator.next()] settles *)
  destruct (a_pull s) eqn:P; try discriminate.
  assert (Sd : a_started s = true).
  { destruct (a_started s); [reflexivity|].
    specialize (P1 eq_refl). discriminate. }
  destruct (nextOf (a_source s)) as [[x| |e] rest]; simpl in E.
  + unfold controllerEnqueue in E.
    destruct (canCloseOrEnqueue (setSource s rest)) eqn:Cn.
    * injection E as <-. split; simpl.
      -- match goal with
         | |- context [callPullIfNeeded ?s1] =>
             destruct (callPullIfNeeded_busy s1) as [Hc|Hc];
               [|rewrite Hc..]
         end.
         { destruct (a_locked s); [destruct (a_requests s)|]; simpl;
             rewrite P; discriminate. }
         all: destruct (a_locked s); [destruct (a_requests s)|]; simpl;
           rewrite Sd; discriminate.
      -- intros Rq. right. right. right. split; [reflexivity|].
         match type of Rq with
         | a_requests (callPullIfNeeded ?s1) <> [] =>
             destruct (callPullIfNeeded_keeps s1) as (_ & _ & Kq & _);
             rewrite Kq in Rq;
             assert (Sh : shouldCallPull s1 = true)
         end.
         { unfold canCloseOrEnqueue, isReadable in Cn. simpl in Cn.
           destruct (a_closeRequested s) eqn:Cr; [discriminate|].
           destruct (a_state s) eqn:St; try discriminate.
           destruct (a_locked s) eqn:L.
           - destruct (a_requests s) as [|id rq] eqn:R.
             + simpl in Rq. rewrite R in Rq. contradiction.
             + simpl in Rq. apply shouldCallPull_pending; simpl; auto.
           - simpl in Rq.
             destruct (flow_pending src s F Rq) as (L' & _).
             congruence. }
         unfold callPullIfNeeded. rewrite Sh.
         assert (Pl : forall s1 : adapter T,
                   a_pull s1 = AwaitingNext ->
                   a_pullAgain match a_pull s1 with
                               | PullIdle => pullCall s1
                               | _ => setPullAgain s1 true
                               end = true).
         { intros s1 ->. reflexivity. }
         apply Pl.
         destruct (a_locked s); [destruct (a_requests s)|]; exact P.
    * injection E as <-. split; simpl; [rewrite Sd; discriminate|].
      intros _. right. right. left. eauto.
  + unfold controllerClose in E.
    destruct (canCloseOrEnqueue (setSource s rest)) eqn:Cn.
    * simpl in E. destruct (a_queue s) eqn:Q; injection E as <-;
        split; simpl; try (rewrite Sd; discriminate).
      -- intros F0; contradiction.
      -- intros Rq. destruct (flow_pending src s F Rq) as (_ & Q' & _).
         congruence.
    * injection E as <-. split; simpl; [rewrite Sd; discriminate|].
      intros _. right. right. left. eauto.
  + injection E as <-. split; simpl; [rewrite Sd; discriminate|].
    intros _. right. right. left. eauto.
- (* the stream reacts to [pull] *)
  destruct (a_pull s) as [| |[e|]|] eqn:P; try discriminate.
  + assert (Sd : a_started s = true).
    { destruct (a_started s); [reflexivity|].
      specialize (P1 eq_refl). discriminate. }
    injection E as <-. unfold controllerError, isReadable. simpl.
    destruct (a_state s) eqn:St; split; simpl;
      try (rewrite Sd; discriminate); try contradiction; intros Rq;
      destruct (flow_pending src s F Rq) as (_ & _ & St' & _); congruence.
  + simpl in E. destruct (a_pullAgain s) eqn:Pa; injection E as <-.
    * apply pending_callPullIfNeeded; simpl; [reflexivity|].
      intros Rq. destruct (flow_pending src s F Rq) as (L & _ & St & Cr & _).
      repeat split; auto; discriminate.
    * split; simpl; [reflexivity|]. intros Rq.
      destruct (P2 Rq) as [[_ H]|[H|[[e H]|[_ H]]]]; congruence.
Qed.

Lemma pending_settle s new :
  pendingInv s -> pendingInv (settle s (a_requests s) new).
Proof. intros H. exact H. Qed.

Lemma pending_read src s :
  a_locked s = true -> flowInv src s -> pendingInv s ->
  pendingInv (fst (readCall s)).
Proof.
intros L F [P1 P2]. unfold readCall. simpl.
destruct (a_state s) eqn:St.
- destruct (flow_readable src s F St) as [Cr N].
  destruct (a_queue s) as [|x q] eqn:Q.
  + apply pending_callPullIfNeeded; simpl; auto.
  + rewrite Cr. simpl. apply pending_settle.
    apply pending_callPullIfNeeded; simpl; auto.
- split; simpl; assumption.
- split; simpl; assumption.
Qed.

Lemma pending_step src ev p p' :
  ownEvent ev = true -> pipeInv src p -> pendingInv (p_stream p) ->
  pipeStep ev p = Some p' -> pendingInv (p_stream p').
Proof.
intros O (F & Rt & H) Pn E. destruct ev as [e| | |]; unfold pipeStep in E.
- destruct (adapterStep e (p_stream p)) as [s'|] eqn:E1; [|discriminate].
  injection E as <-. simpl. eapply pending_internal; eauto.
- destruct (p_gen p) as [|id| |]; try discriminate.
  + destruct H as (L & _). unfold getReader in E. rewrite L in E.
    injection E as <-. unfold genRead.
    pose proof (pending_read src (setLocked (p_stream p) true) eq_refl)
      as G.
    destruct (readCall (setLocked (p_stream p) true)) as [s1 id].
    simpl in *. apply G; [|exact Pn].
    apply (flow_step src GetReader (p_stream p)); try discriminate;
      [exact F|].
    unfold adapterStep, getReader. rewrite L. reflexivity.
  + destruct H as (L & _). injection E as <-. unfold genRead.
    pose proof (pending_read src (p_stream p) L F Pn) as G.
    destruct (readCall (p_stream p)) as [s1 id]. exact G.
- destruct (p_gen p) as [|id| |]; try discriminate.
  destruct (resultOf id (a_results (p_stream p))) as [r|]; [|discriminate].
  injection E as <-. destruct Pn as [P1 P2].
  destruct r; simpl; [split; assumption|..];
    (split; simpl; [exact P1|intros C; contradiction]).
- destruct (p_gen p) as [|id| |]; try discriminate; injection E as <-;
    simpl; [exact Pn|].
  destruct Pn as [P1 P2]. split; simpl; [exact P1|intros C; contradiction].
Qed.

Lemma pending_run src evs : forall p p',
  forallb ownEvent evs = true -> pipeInv src p -> pendingInv (p_stream p) ->
  pipeRun evs p = Some p' -> pipeInv src p' /\ pendingInv (p_stream p').
Proof.
induction evs as [|ev evs IH]; intros p p' O Inv Pn E; simpl in *.
- injection E as <-. auto.
- apply andb_true_iff in O as [O1 O2].
  destruct (pipeStep ev p) as [p1|] eqn:E1; [|discriminate].
  eapply IH; [exact O2| | |exact E].
  + eapply pipe_step; eauto.
  + eapply pending_step; eauto.
Qed.

Lemma resultOf_app_none (l : list (nat * readResult T)) id r new :
  resultOf id l = None ->
  resultOf id (l ++ (id, r) :: new) = Some r.
Proof.
induction l as [|[j r0] l IH]; simpl; intros H.
- rewrite Nat.eqb_refl. reflexivity.
- destruct (Nat.eqb j id); [discriminate|]. apply IH. exact H.
Qed.

Lemma resultOf_some (l : list (nat * readResult T)) : forall k id,
  map fst l = seq k (length l) -> (k <= id < k + length l)%nat ->
  exists r, resultOf id l = Some r.
Proof.
induction l as [|[j r0] l IH]; intros k id A H; simpl in *; [lia|].
injection A as -> A.
destruct (Nat.eqb_spec k id) as [->|Hne]; [eauto|].
apply (IH (S k)); [exact A|lia].
Qed.

Lemma pipeRun_stream (evs : list adapterEvent) : forall (p : piped T) s' rest,
  adapterRun evs (p_stream p) = Some s' ->
  pipeRun (map Stream evs ++ rest) p
  = pipeRun rest (MkPiped s' (p_gen p) (p_out p)).
Proof.
induction evs as [|ev evs IH]; intros p s' rest E; simpl in *.
- injection E as <-. destruct p; reflexivity.
- destruct (adapterStep ev (p_stream p)) as [s1|] eqn:E1; [|discriminate].
  rewrite (IH (MkPiped s1 (p_gen p) (p_out p)) s' rest E). reflexivity.
Qed.

(** A pending read whose [pull] is under way settles when
    [iterator.next()] has, or at the stream's reaction to a rejection. *)
Lemma settle_from_awaiting s id :
  a_pull s = AwaitingNext -> a_requests s = [id] -> a_locked s = true ->
  a_state s = Readable -> a_closeRequested s = false -> a_queue s = [] ->
  resultOf id (a_results s) = None ->
  exists evs s' r,
    (length evs <= 2)%nat /\ forallb isInternal evs = true /\
    adapterRun evs s = Some s' /\ resultOf id (a_results s') = Some r.
Proof.
intros P Rq L St Cr Q Rs.
destruct s as [sc ret nx rt st q sd pl pa cr lk rd rq rs].
simpl in *. subst.
destruct sc as [|[x| |e] rest].
- exists [NextSettles]. eexists. exists ReadDone.
  split; [simpl; lia|]. split; [reflexivity|]. split; [reflexivity|].
  simpl. apply resultOf_app_none. exact Rs.
- exists [NextSettles]. eexists. exists (ReadChunk x).
  split; [simpl; lia|]. split; [reflexivity|]. split; [reflexivity|].
  simpl.
  match goal with
  | |- context [callPullIfNeeded ?s1] =>
      destruct (callPullIfNeeded_keeps s1) as (_ & _ & _ & K)
  end.
  rewrite K. simpl. apply resultOf_app_none. exact Rs.
- exists [NextSettles]. eexists. exists ReadDone.
  split; [simpl; lia|]. split; [reflexivity|]. split; [reflexivity|].
  simpl. apply resultOf_app_none. exact Rs.
- exists [NextSettles; PullSettles]. eexists. exists (ReadError e).
  split; [simpl; lia|]. split; [reflexivity|]. split; [reflexivity|].
  simpl. apply resultOf_app_none. exact Rs.
Qed.

Lemma pending_settles src s id :
  flowInv src s -> pendingInv s -> a_requests s = [id] ->
  resultOf id (a_results s) = None ->
  exists evs s' r,
    (length evs <= 3)%nat /\ forallb isInternal evs = true /\
    adapterRun evs s = Some s' /\ resultOf id (a_results s') = Some r.
Proof.
intros F [P1 P2] Rq Rs.
assert (Rn : a_requests s <> []) by (rewrite Rq; discriminate).
destruct (flow_pending src s F Rn) as (L & Q & St & Cr & N).
assert (Again : forall s1 ev,
  adapterStep ev s = Some (pullCall s1) -> isInternal ev = true ->
  a_requests s1 = [id] -> a_locked s1 = true -> a_state s1 = Readable ->
  a_closeRequested s1 = false -> a_queue s1 = [] ->
  a_results s1 = a_results s ->
  exists evs s' r,
    (length evs <= 3)%nat /\ forallb isInternal evs = true /\
    adapterRun evs s = Some s' /\ resultOf id (a_results s') = Some r).
{ intros s1 ev E I Rq1 L1 St1 Cr1 Q1 Rs1.
  destruct (settle_from_awaiting (pullCall s1) id) as
    (evs & s' & r & Hl & Hi & Hr & Hres); simpl; auto;
    [rewrite Rs1; exact Rs|].
  exists (ev :: evs), s', r. split; [simpl; lia|].
  split; [simpl; rewrite I; exact Hi|]. split; [|exact Hres].
  simpl. rewrite E. exact Hr. }
destruct (P2 Rn) as [[Sd P]|[P|[[e P]|[P Pa]]]].
- apply (Again (setStarted s true) StartDone); simpl; auto.
  unfold adapterStep. rewrite Sd. unfold callPullIfNeeded.
  rewrite shouldCallPull_pending by (simpl; auto). simpl. rewrite P.
  reflexivity.
- destruct (settle_from_awaiting s id) as
    (evs & s' & r & Hl & Hi & Hr & Hres); auto.
  exists evs, s', r. split; [lia|]. auto.
- exists [PullSettles]. eexists. exists (ReadError e).
  split; [simpl; lia|]. split; [reflexivity|]. split.
  + simpl. unfold adapterStep. rewrite P. reflexivity.
  + unfold controllerError, isReadable. simpl. rewrite St.
    unfold streamError. simpl. rewrite Rq. simpl.
    apply resultOf_app_none. exact Rs.
- assert (Sd : a_started s = true).
  { destruct (a_started s); [reflexivity|].
    specialize (P1 eq_refl). congruence. }
  apply (Again (setPullAgain (setPull s PullIdle) false) PullSettles);
    simpl; auto.
  unfold adapterStep. rewrite P. simpl. rewrite Pa.
  unfold callPullIfNeeded.
  rewrite shouldCallPull_pending by (simpl; auto). reflexivity.
Qed.

(** X13: a call of [next()] on the generator made by
    [asyncIterableFrom(readableStreamFrom(source))] does not hang:
    whenever the generator waits for a read, at most three events of the
    stream (its start, the settling of [iterator.next()], its reaction to
    the settled [pull]) make the read settle, and the generator can
    resume. *)
Theorem pending_read_settles src ret evs p id :
  forallb ownEvent evs = true ->
  pipeRun evs (asyncIterableFrom (readableStreamFrom src ret)) = Some p ->
  p_gen p = GenReading id ->
  exists evs' p',
    (length evs' <= 3)%nat /\ forallb isInternal evs' = true /\
    pipeRun (map Stream evs' ++ [ReadSettles]) p = Some p'.
Proof.
intros O E G.
assert (Inv0 : pipeInv src (asyncIterableFrom (readableStreamFrom src ret))).
{ unfold pipeInv. simpl. split; [apply flow_init|]. auto. }
assert (Pn0 : pendingInv
                (p_stream (asyncIterableFrom (readableStreamFrom src ret)))).
{ split; simpl; [reflexivity|]. intros C. contradiction. }
destruct (pending_run src evs _ p O Inv0 Pn0 E) as [Inv Pn].
pose proof Inv as (F & _ & H). rewrite G in H.
destruct H as (L & Rd & Hid & _).
destruct (resultOf id (a_results (p_stream p))) as [r|] eqn:Rs.
- exists [], (genResume r (p_stream p) (p_out p)).
  split; [simpl; lia|]. split; [reflexivity|].
  simpl. rewrite G, Rs. reflexivity.
- pose proof F as (A & B & C & _).
  assert (Ln : length (a_results (p_stream p)) = id).
  { destruct (Nat.lt_ge_cases id (length (a_results (p_stream p))))
      as [Hlt|Hge]; [|lia].
    destruct (resultOf_some _ 0 id A) as [r Hr]; [lia|congruence]. }
  assert (Rq : a_requests (p_stream p) = [id]).
  { rewrite B, Ln. replace (length (a_requests (p_stream p))) with 1%nat
      by lia. reflexivity. }
  destruct (pending_settles src _ id F Pn Rq Rs)
    as (evs' & s' & r & Hl & Hi & Hr & Hres).
  exists evs', (genResume r s' (p_out p)).
  split; [exact Hl|]. split; [exact Hi|].
  rewrite (pipeRun_stream evs' p s' [ReadSettles] Hr).
  simpl. rewrite G, Hres. reflexivity.
Qed.

End PendingRead.

Lemma pending_read_witness :
  exists p,
    pipeRun [CallNext]
      (asyncIterableFrom
         (readableStreamFrom
            ([SrcThrow (ExtError "boom")] : list (sourceResult string))
            false))
    = Some p /\
    p_gen p = GenReading 0 /\
    exists evs' p',
      (length evs' <= 3)%nat /\ forallb isInternal evs' = true /\
      pipeRun (map Stream evs' ++ [ReadSettles]) p = Some p'.
Proof.
eexists. split; [vm_compute; reflexivity|]. split; [reflexivity|].
apply (pending_read_settles
         ([SrcThrow (ExtError "boom")] : list (sourceResult string)) false
         [CallNext] _ 0%nat).
- reflexivity.
- vm_compute. reflexivity.
- reflexivity.
Defined.

(** ** The chunks on the wire *)

Section Wire.

Variable supported : string -> bool.
Variable codecError : string -> value.
Variable print : flat -> string.
Variable coerceError : option (value -> value).

Local Abbreviation step := (encStep supported codecError print coerceError).
Local Abbreviation run := (encRun supported codecError print coerceError).

Lemma grown_refl w st : grown w st st.
Proof.
split; [lia|]. exists []. rewrite app_nil_r. split; [reflexivity|constructor].
Qed.

Lemma grown_trans w st1 st2 st3 :
  grown w st1 st2 -> grown w st2 st3 -> grown w st1 st3.
Proof.
intros (C1 & n1 & B1 & F1) (C2 & n2 & B2 & F2). split; [lia|].
exists (n1 ++ n2). rewrite B2, B1, app_assoc. split; [reflexivity|].
apply Forall_app. auto.
Qed.

Lemma grown_same w st st' :
  buffer st' = buffer st -> counter st' = counter st -> grown w st st'.
Proof.
intros B C. split; [lia|]. exists []. rewrite app_nil_r.
split; [exact B|constructor].
Qed.

Lemma grown_register w g st :
  grown w st (snd (registerAsyncIterable g st)).
Proof.
unfold registerAsyncIterable, grown. cbn [snd counter buffer].
split; [lia|]. eexists. split; [reflexivity|]. repeat constructor.
Qed.

Lemma flatten_grown w v :
  forall st, grown w st (fst (flatten supported codecError v st)).
Proof.
induction v as [a|fields IH|how v _|items how v ret _ _] using value_rect';
  intros st.
- simpl. destruct (supported a); apply grown_refl.
- simpl.
  assert (G : forall st0,
             grown w st0
               (fst (flattenAll (flatten supported codecError) fields st0))).
  { induction IH as [|x xs Hx _ IHxs]; intros st0; [apply grown_refl|].
    simpl. specialize (Hx st0).
    destruct (flatten supported codecError x st0) as [st1 [fx|e]];
      simpl in *; [|exact Hx].
    specialize (IHxs st1).
    destruct (flattenAll (flatten supported codecError) xs st1)
      as [st2 [fr|e]]; simpl in *; eapply grown_trans; eauto. }
  specialize (G st).
  destruct (flattenAll (flatten supported codecError) fields st)
    as [st' [fs|e]]; exact G.
- apply (grown_register w (AwaitPromise how v) st).
- apply (grown_register w (AwaitNext items how v ret) st).
Qed.

Lemma recurse_grown w v st :
  grown w st (fst (recurse supported codecError print v st)).
Proof.
unfold recurse. pose proof (flatten_grown w v st) as H.
destruct (flatten supported codecError v st) as [st' [f|e]]; exact H.
Qed.

Lemma safeCause_grown w v st :
  grown w st (fst (safeCause supported codecError print coerceError v st)).
Proof.
unfold safeCause. pose proof (recurse_grown w v st) as H.
destruct (recurse supported codecError print v st) as [st1 [s|e]];
  simpl in *; [exact H|].
destruct coerceError as [coerce|]; [|exact H].
eapply grown_trans; [exact H|]. apply recurse_grown.
Qed.

Lemma callSourceReturn_grown w idx ret st :
  grown w st (callSourceReturn idx ret st).
Proof.
unfold callSourceReturn. destruct ret; apply grown_same; reflexivity.
Qed.

Lemma lastFrame_wire w ret fr st :
  (f_status fr <= 2)%N ->
  grown w st (fst (lastFrame w ret fr st)) /\
  stopWire w (f_idx fr) (snd (lastFrame w ret fr st)).
Proof.
intros H. unfold lastFrame. destruct w; simpl.
- split; [apply grown_refl|auto].
- split; [apply callSourceReturn_grown|auto].
Qed.

Lemma status_bound w :
  (sc_promise_fulfilled (codesOf w) <= 2 /\
   sc_promise_rejected (codesOf w) <= 2 /\
   sc_iter_yield (codesOf w) <= 2 /\ sc_iter_return (codesOf w) <= 2 /\
   sc_iter_error (codesOf w) <= 2)%N.
Proof. destruct w; cbv; repeat split; discriminate. Qed.

Lemma promiseBody_wire w idx how v st :
  grown w st
    (fst (promiseBody supported codecError print coerceError w idx how v st))
  /\
  stopWire w idx
    (snd (promiseBody supported codecError print coerceError w idx how v st)).
Proof.
destruct (status_bound w) as (S1 & S2 & _).
assert (F : forall fr, f_idx fr = idx -> (f_status fr <= 2)%N ->
                       stopWire w idx (promiseFrame w fr)).
{ intros fr H1 H2. unfold promiseFrame. destruct w; simpl; auto. }
assert (C : forall c st0,
  grown w st0
    (fst match safeCause supported codecError print coerceError c st0 with
         | (st', Return s) =>
             (st', promiseFrame w
                     (MkFrame idx (sc_promise_rejected (codes w)) s))
         | (st', Throw e) => (st', Throws e)
         end) /\
  stopWire w idx
    (snd match safeCause supported codecError print coerceError c st0 with
         | (st', Return s) =>
             (st', promiseFrame w
                     (MkFrame idx (sc_promise_rejected (codes w)) s))
         | (st', Throw e) => (st', Throws e)
         end)).
{ intros c st0. pose proof (safeCause_grown w c st0) as H.
  destruct (safeCause supported codecError print coerceError c st0)
    as [st1 [s|e]]; simpl in *; split; auto; exact I. }
unfold promiseBody. destruct how; [|apply C].
pose proof (recurse_grown w v st) as H.
destruct (recurse supported codecError print v st) as [st1 [s|e]];
  simpl in *; [split; auto|].
destruct (C e st1) as [G W]. split; [|exact W].
eapply grown_trans; eauto.
Qed.

Lemma iterBody_wire w idx items how v ret st :
  grown w st
    (fst (iterBody supported codecError print coerceError w idx items how v
            ret st)) /\
  stopWire w idx
    (snd (iterBody supported codecError print coerceError w idx items how v
            ret st)).
Proof.
destruct (status_bound w) as (_ & _ & S3 & S4 & S5).
assert (C : forall c st0,
  grown w st0
    (fst match safeCause supported codecError print coerceError c st0 with
         | (st', Return s) =>
             lastFrame w ret (MkFrame idx (sc_iter_error (codes w)) s) st'
         | (st', Throw e) => (callSourceReturn idx ret st', Throws e)
         end) /\
  stopWire w idx
    (snd match safeCause supported codecError print coerceError c st0 with
         | (st', Return s) =>
             lastFrame w ret (MkFrame idx (sc_iter_error (codes w)) s) st'
         | (st', Throw e) => (callSourceReturn idx ret st', Throws e)
         end)).
{ intros c st0. pose proof (safeCause_grown w c st0) as H.
  destruct (safeCause supported codecError print coerceError c st0)
    as [st1 [s|e]]; simpl in *.
  - destruct (lastFrame_wire w ret
                (MkFrame idx (sc_iter_error (codes w)) s) st1 S5) as [G W].
    split; [eapply grown_trans; eauto|exact W].
  - split; [|exact I]. eapply grown_trans; [exact H|].
    apply callSourceReturn_grown. }
unfold iterBody. destruct items as [|x rest].
- destruct how; [|apply C].
  pose proof (recurse_grown w v st) as H.
  destruct (recurse supported codecError print v st) as [st1 [s|e]];
    simpl in *.
  + destruct (lastFrame_wire w ret
                (MkFrame idx (sc_iter_return (codes w)) s) st1 S4) as [G W].
    split; [eapply grown_trans; eauto|exact W].
  + destruct (C e st1) as [G W]. split; [|exact W].
    eapply grown_trans; eauto.
- pose proof (recurse_grown w x st) as H.
  destruct (recurse supported codecError print x st) as [st1 [s|e]];
    simpl in *.
  + split; [exact H|]. split; [reflexivity|]. split; [exact S3|].
    destruct w; exact I.
  + destruct (C e st1) as [G W]. split; [|exact W].
    eapply grown_trans; eauto.
Qed.

Lemma sourceSettles_wire w k st st' :
  Forall (entryWire w) (buffer st) ->
  sourceSettles supported codecError print coerceError w k st = Some st' ->
  Forall (entryWire w) (buffer st') /\ (counter st <= counter st')%N.
Proof.
intros Fa E. unfold sourceSettles in E.
destruct (buffer st !! k) as [e|] eqn:Hk; [|discriminate].
destruct (e_nextPromise e) eqn:Np; try discriminate.
assert (Rq : e_returnQueued e = false).
{ apply (Forall_lookup_1 _ _ _ _ Fa Hk). }
assert (G : forall r : encState * bodyStop,
           grown w st (fst r) -> stopWire w (e_idx e) (snd r) ->
           match r with
           | (st1, Yields fr k') =>
               let st2 :=
                 if e_returnQueued e then returnAtYield (e_idx e) k' st1
                 else st1 in
               let g := if e_returnQueued e then Closed else AtYield k' in
               Some (setBuffer st2
                       (<[k := setEntry e g (Resolved (Some fr) false)]>
                          (buffer st2)))
           | (st1, Returns fr) =>
               Some (setBuffer st1
                       (<[k := setEntry e Closed (Resolved (Some fr) true)]>
                          (buffer st1)))
           | (st1, Throws c) =>
               Some (setBuffer st1
                       (<[k := setEntry e Closed (RejectedWith c)]>
                          (buffer st1)))
           end = Some st' ->
           Forall (entryWire w) (buffer st') /\ (counter st <= counter st')%N).
{ intros [st1 stop] (Cn & new & B & Fn) W E1. simpl in *.
  apply Forall_and in Fn. destruct Fn as [Fn _].
  assert (F1 : Forall (entryWire w) (buffer st1)).
  { rewrite B. apply Forall_app. auto. }
  rewrite Rq in E1.
  destruct stop as [fr k'|fr|c]; injection E1 as <-; simpl;
    (split; [|exact Cn]); apply Forall_insert; auto;
    (split; [exact Rq|]); simpl; auto.
  - destruct W as (W1 & W2 & W3). repeat split; auto. eauto.
  - destruct W as (W1 & W2). repeat split; auto. discriminate. }
destruct (e_iterator e) as [how v|items how v ret|k'|]; try discriminate.
- destruct (promiseBody_wire w (e_idx e) how v st) as [A B].
  exact (G _ A B E).
- destruct (iterBody_wire w (e_idx e) items how v ret st) as [A B].
  exact (G _ A B E).
Qed.

Lemma wireOK_mono w c c' out :
  (c <= c')%N -> wireOK w c out -> wireOK w c' out.
Proof.
intros H. destruct out as [|r frames]; simpl; [auto|].
intros [R F]. split; [exact R|].
eapply Forall_impl; [exact F|].
intros ch (fr & A & B & C). exists fr. repeat split; auto; lia.
Qed.

Lemma wireOK_snoc w c out ch :
  out <> [] -> wireOK w c out -> frameChunk w c ch -> wireOK w c (out ++ [ch]).
Proof.
destruct out as [|r frames]; [contradiction|]. simpl.
intros _ [R F] H. split; [exact R|]. apply Forall_app. auto.
Qed.

Lemma finallyBlock_counter st : counter (finallyBlock st) = counter st.
Proof. destruct (finallyBlock_allocated st) as [_ C]. lia. Qed.

Lemma wire_loopHead w st out :
  out <> [] -> wireOK w (counter st) out ->
  Forall (entryWire w) (buffer st) -> wireInv w (loopHead st out).
Proof.
intros N W F. unfold loopHead, wireInv.
destruct (buffer st) eqn:B; simpl.
- rewrite finallyBlock_counter. auto.
- rewrite B. auto.
Qed.

Lemma rearm_wire w e st :
  entryWire w e ->
  (w = Delimited -> exists val, e_nextPromise e = Resolved val false) ->
  Forall (entryWire w) (buffer st) ->
  Forall (entryWire w) (buffer (rearm e st)) /\
  counter (rearm e st) = counter st.
Proof.
intros [Rq W] D F. unfold rearm.
destruct (e_iterator e) as [| |k'|] eqn:It.
- simpl. split; [|reflexivity]. apply Forall_app. split; [exact F|].
  repeat constructor; simpl; auto.
  destruct w; [auto|]. destruct (D eq_refl) as [val Np]. rewrite Np in W.
  destruct val as [fr|]; [|destruct W; discriminate].
  destruct W as (_ & _ & W). destruct (W eq_refl) as (k & Hk & _).
  discriminate.
- simpl. split; [|reflexivity]. apply Forall_app. split; [exact F|].
  repeat constructor; simpl; auto.
  destruct w; [auto|]. destruct (D eq_refl) as [val Np]. rewrite Np in W.
  destruct val as [fr|]; [|destruct W; discriminate].
  destruct W as (_ & _ & W). destruct (W eq_refl) as (k & Hk & _).
  discriminate.
- assert (L : loopsOn w k').
  { destruct w; [exact I|]. destruct (D eq_refl) as [val Np].
    rewrite Np in W. destruct val as [fr|]; [|destruct W; discriminate].
    destruct W as (_ & _ & W). destruct (W eq_refl) as (k & Hk & Lk).
    congruence. }
  destruct k' as [|items how v ret|ret]; simpl.
  + split; [|reflexivity]. apply Forall_app. split; [exact F|].
    repeat constructor; simpl; auto. destruct w; [auto|contradiction].
  + split; [|reflexivity]. apply Forall_app. split; [exact F|].
    repeat constructor; simpl; auto.
  + unfold callSourceReturn. destruct ret; simpl;
      (split; [|reflexivity]); (apply Forall_app; split; [exact F|]);
      repeat constructor; simpl; auto;
      destruct w; auto; contradiction.
- simpl. split; [|reflexivity]. apply Forall_app. split; [exact F|].
  repeat constructor; simpl; auto.
  destruct w; [auto|]. destruct (D eq_refl) as [val Np]. rewrite Np in W.
  destruct val as [fr|]; [|destruct W; discriminate].
  destruct W as (_ & _ & W). destruct (W eq_refl) as (k & Hk & _).
  discriminate.
Qed.

Lemma Forall_deleteAt {A} (P : A -> Prop) k (l : list A) :
  Forall P l -> Forall P (take k l ++ drop (S k) l).
Proof.
intros F. apply Forall_app. split; [apply Forall_take|apply Forall_drop];
  exact F.
Qed.

Lemma wire_step w ev enc enc' :
  idsInv w enc -> wireInv w enc -> step w ev enc = Some enc' ->
  wireInv w enc'.
Proof.
intros [[_ Ids] _] [W M] E. destruct enc as [m st out].
unfold encStep in E. unfold activeIds in Ids. simpl in *.
destruct ev as [| |k|k].
- (* next() *)
  destruct m as [v| |n wn|k e| |c]; try discriminate.
  + destruct M as [-> B].
    pose proof (recurse_grown w v st) as (Cn & new & Bn & Fn).
    apply Forall_and in Fn. destruct Fn as [Fn _].
    destruct (recurse supported codecError print v st) as [st' [s|c]];
      injection E as <-; unfold wireInv; simpl in *.
    * split; [split; [eauto|constructor]|]. split; [discriminate|].
      rewrite Bn, B. exact Fn.
    * auto.
  + destruct M as [N F]. injection E as <-. apply wire_loopHead; auto.
  + destruct M as (N & F & We & val & d & Np). destruct w.
    * injection E as <-.
      destruct (rearm_wire JsonArray e st We) as [F' C']; auto;
        [discriminate|].
      apply wire_loopHead; auto. rewrite C'. exact W.
    * rewrite Np in E. simpl in E.
      pose proof (Forall_deleteAt _ k _ F) as Fd.
      destruct d; injection E as <-.
      -- apply wire_loopHead; auto.
      -- destruct (rearm_wire Delimited e
                     (setBuffer st (deleteAt k (buffer st))) We)
           as [F' C']; eauto.
         apply wire_loopHead; auto. rewrite C'. exact W.
- (* return() *)
  destruct m; try discriminate; injection E as <-; unfold wireInv; simpl;
    rewrite ?finallyBlock_counter; auto.
- (* the race settles *)
  destruct m as [v| |n wn|k1 e1| |c]; try discriminate.
  destruct wn as [k0|]; [|discriminate].
  destruct M as [N F].
  destruct (if (k =? k0)%nat then buffer st !! k else None) as [e|] eqn:Hk;
    [|discriminate].
  assert (Hl : buffer st !! k = Some e).
  { destruct (k =? k0)%nat; [exact Hk|discriminate]. }
  pose proof (Forall_lookup_1 _ _ _ _ F Hl) as We.
  assert (Hid : (1 <= e_idx e <= counter st)%N).
  { apply Ids. apply elem_of_app. left. apply list_elem_of_fmap.
    exists e. split; [reflexivity|].
    eapply list_elem_of_lookup_2; eauto. }
  pose proof (Forall_deleteAt _ k _ F) as Fd.
  destruct (e_nextPromise e) as [|val done|c] eqn:Np; try discriminate.
  + assert (Fc : forall fr, val = Some fr ->
                            frameChunk w (counter st)
                              (ChunkStr (frameText w fr))).
    { intros fr ->. destruct We as [_ We]. rewrite Np in We.
      destruct We as (A & B & _). exists fr.
      split; [reflexivity|]. rewrite A. auto. }
    destruct w.
    * destruct done; [injection E as <-; apply wire_loopHead; auto|].
      destruct val as [fr|]; [|discriminate]. injection E as <-.
      unfold wireInv. cbn [enc_out enc_main enc_st counter setBuffer].
      split; [apply wireOK_snoc; [exact N|exact W|apply Fc; reflexivity]|].
      split; [intros C; destruct out; discriminate|].
      split; [exact Fd|]. split; [exact We|]. eauto.
    * injection E as <-. unfold wireInv.
      cbn [enc_out enc_main enc_st counter setBuffer].
      destruct val as [fr|].
      -- split; [apply wireOK_snoc; [exact N|exact W|apply Fc; reflexivity]|].
         split; [intros C; destruct out; discriminate|].
         split; [exact F|]. split; [exact We|]. eauto.
      -- destruct We as [_ We]. rewrite Np in We. destruct We.
         discriminate.
  + injection E as <-. unfold wireInv. simpl.
    rewrite finallyBlock_counter. auto.
- (* a source settles *)
  destruct (sourceSettles supported codecError print coerceError w k st)
    as [st'|] eqn:Es; [|discriminate].
  injection E as <-. unfold wireInv. simpl.
  destruct m as [v| |n wn|k1 e1| |c].
  + destruct M as [_ B]. unfold sourceSettles in Es. rewrite B in Es.
    discriminate.
  + destruct M as [N F].
    destruct (sourceSettles_wire w k st st' F Es) as [F' Cn].
    split; [eapply wireOK_mono; eauto|auto].
  + destruct M as [N F].
    destruct (sourceSettles_wire w k st st' F Es) as [F' Cn].
    split; [eapply wireOK_mono; eauto|].
    destruct wn; [auto|]. destruct (k <? n)%nat; auto.
  + destruct M as (N & F & M).
    destruct (sourceSettles_wire w k st st' F Es) as [F' Cn].
    split; [eapply wireOK_mono; eauto|auto].
  + assert (Cn : (counter st <= counter st')%N).
    { destruct (sourceSettles_allocated supported codecError print
                  coerceError w k st st' Es) as (n & _ & C). lia. }
    split; [eapply wireOK_mono; eauto|exact I].
  + assert (Cn : (counter st <= counter st')%N).
    { destruct (sourceSettles_allocated supported codecError print
                  coerceError w k st st' Es) as (n & _ & C). lia. }
    split; [eapply wireOK_mono; eauto|exact I].
Qed.

(** X14: every chunk the encoder yields is a string with the shape of
    the wire, whatever the value and the schedule, also when an encoding
    fails or the consumer returns early: the first chunk is the text of
    the root, and every later one is the text of a frame
    [(idx, status, payload)] whose [idx] is the id of a registered
    producer and whose status is one of the codes 0, 1, 2. *)
Theorem encoder_chunks_are_frames w V evs enc :
  run w evs (startEncoder V) = Some enc ->
  wireOK w (counter (enc_st enc)) (enc_out enc).
Proof.
intros E.
assert (G : forall evs enc0 enc1,
           idsInv w enc0 -> wireInv w enc0 -> run w evs enc0 = Some enc1 ->
           wireInv w enc1).
{ clear. induction evs as [|ev evs IH]; intros enc0 enc1 I W E; simpl in E.
  - injection E as <-. exact W.
  - destruct (step w ev enc0) as [enc2|] eqn:E2; [|discriminate].
    apply (IH enc2 enc1); [| |exact E].
    + eapply idsInv_step; eauto.
    + eapply wire_step; eauto. }
apply (G evs (startEncoder V) enc); [apply idsInv_start| |exact E].
split; simpl; auto.
Qed.

End Wire.

Lemma encoder_chunks_witness :
  exists enc,
    encRun Example.supported Example.codecError Example.print None JsonArray
      [Next; Next; Source 0; Race 0; ReturnEarly] (startEncoder Scenario.S3)
    = Some enc /\
    enc_out enc = [line "{A1;}"; line "[1,0,1]"] /\
    wireOK JsonArray (counter (enc_st enc)) (enc_out enc).
Proof.
eexists. split; [vm_compute; reflexivity|]. split; [reflexivity|].
apply (encoder_chunks_are_frames Example.supported Example.codecError
         Example.print None JsonArray Scenario.S3
         [Next; Next; Source 0; Race 0; ReturnEarly]).
vm_compute. reflexivity.
Defined.

(** ** A producer that fails *)

Section ProducerFailure.

Variable supported : string -> bool.
Variable codecError : string -> value.
Variable print : flat -> string.
Variable coerceError : option (value -> value).

Local Abbreviation step := (encStep supported codecError print coerceError).
Local Abbreviation run := (encRun supported codecError print coerceError).


End ProducerFailure.

(** ** A frame is read back from its text *)

Section FrameText.
Local Open Scope string_scope.

(** Two texts cut at a separator that their first parts do not contain. *)
Lemma separator_inj c a a' r r' :
  JsString.contains c a = false -> JsString.contains c a' = false ->
  a ++ String c r = a' ++ String c r' -> a = a' /\ r = r'.
Proof.
revert a'. induction a as [|x a IH]; intros [|x' a']; simpl.
- intros _ _ [= ->]. auto.
- intros _ H [= <- _]. rewrite Ascii.eqb_refl in H. discriminate.
- intros H _ [= -> _]. rewrite Ascii.eqb_refl in H. discriminate.
- intros H H' [= <- E].
  apply orb_false_iff in H as [_ H]. apply orb_false_iff in H' as [_ H'].
  destruct (IH a' H H' E) as [-> ->]. auto.
Qed.

Lemma append_inv_tail (s s' t : string) : s ++ t = s' ++ t -> s = s'.
Proof.
assert (A : forall u v : string,
           String.length (u ++ v)
           = (String.length u + String.length v)%nat).
{ induction u; intros; simpl; auto. }
revert s'. induction s as [|x s IH]; intros [|x' s'] E; simpl in E.
- reflexivity.
- exfalso. apply (f_equal String.length) in E. simpl in E.
  rewrite !A in E. simpl in E. lia.
- exfalso. apply (f_equal String.length) in E. simpl in E.
  rewrite !A in E. simpl in E. lia.
- injection E as -> E. f_equal. apply IH. exact E.
Qed.

Lemma decimal_inj n n' : decimal n = decimal n' -> n = n'.
Proof.
intros E. rewrite <- (DecimalFacts.parseInt_decimal n), E.
apply DecimalFacts.parseInt_decimal.
Qed.

Lemma decimal_no_comma n : JsString.contains "," (decimal n) = false.
Proof.
pose proof (DecimalFacts.isDecimal_decimal n) as H.
destruct (decimal n) as [|a s]; [discriminate|].
unfold JsString.isDecimal in H. revert H. generalize (String a s).
induction s0 as [|b s0 IH]; simpl; [reflexivity|].
intros H. apply andb_true_iff in H as [Hb Hs].
rewrite (IH Hs), orb_false_r.
destruct (Ascii.eqb_spec b ","); [subst b; discriminate Hb|reflexivity].
Qed.

Lemma decimal_no_colon n : JsString.contains ":" (decimal n) = false.
Proof. apply isDecimal_no_colon, DecimalFacts.isDecimal_decimal. Qed.

(** The text of a frame tells the frame. *)
Lemma frameText_inj w fr fr' : frameText w fr = frameText w fr' -> fr = fr'.
Proof.
destruct fr as [i s p], fr' as [i' s' p']. unfold frameText. simpl.
destruct w.
- intros [= E].
  apply separator_inj in E as [Ei E]; try apply decimal_no_comma.
  apply separator_inj in E as [Es E]; try apply decimal_no_comma.
  apply append_inv_tail in E.
  apply decimal_inj in Ei, Es. congruence.
- intros E.
  apply separator_inj in E as [Ei E]; try apply decimal_no_colon.
  apply separator_inj in E as [Es E]; try apply decimal_no_colon.
  apply decimal_inj in Ei, Es. congruence.
Qed.

(** The chunks written are read as frames in one way only. *)
Lemma framesIn_unique w out frs frs' :
  framesIn w out frs -> framesIn w out frs' -> frs = frs'.
Proof.
destruct out as [|r rest]; simpl; [congruence|].
intros [_ ->] [_ E]. revert frs' E.
induction frs as [|fr frs IH]; intros [|fr' frs'] E; simpl in E;
  try discriminate; [reflexivity|].
injection E as E1 E. apply frameText_inj in E1. f_equal; auto.
Qed.

End FrameText.

(** ** The chunks of a promise producer *)

Lemma framesOf_app idx a b :
  framesOf idx (a ++ b) = framesOf idx a ++ framesOf idx b.
Proof. apply filter_app. Qed.

Lemma framesOf_one idx fr :
  framesOf idx [fr] = if decide (f_idx fr = idx) then [fr] else [].
Proof. unfold framesOf. simpl. rewrite filter_cons, filter_nil. reflexivity. Qed.

Lemma framesOf_other idx frs fr :
  f_idx fr <> idx -> framesOf idx (frs ++ [fr]) = framesOf idx frs.
Proof.
intros H. rewrite framesOf_app, framesOf_one.
destruct (decide (f_idx fr = idx)); [contradiction|apply app_nil_r].
Qed.


Lemma framesOf_bound c idx frs :
  Forall (fun fr => (f_idx fr <= c)%N) frs -> (c < idx)%N ->
  framesOf idx frs = [].
Proof.
intros F L. induction F as [|fr frs H _ IH]; [reflexivity|].
unfold framesOf. rewrite filter_cons.
destruct (decide (f_idx fr = idx)); [lia|exact IH].
Qed.

Lemma framesIn_snoc w out frs fr :
  out <> [] -> framesIn w out frs ->
  framesIn w (out ++ [ChunkStr (frameText w fr)]) (frs ++ [fr]).
Proof.
destruct out as [|r rest]; [contradiction|]. intros _ [R E]. simpl.
split; [exact R|]. rewrite E. unfold frameChunks. rewrite map_app.
reflexivity.
Qed.


(** Entries of a list with distinct ids are told apart by their id. *)
Lemma idx_inj (b : list entry) e1 e2 :
  NoDup (map e_idx b) -> e1 ∈ b -> e2 ∈ b -> e_idx e1 = e_idx e2 -> e1 = e2.
Proof.
intros ND H1 H2 E.
apply list_elem_of_lookup in H1 as [i Hi].
apply list_elem_of_lookup in H2 as [j Hj].
assert (i = j).
{ eapply NoDup_lookup; [exact ND| |];
    rewrite list_lookup_fmap; [rewrite Hi|rewrite Hj]; simpl;
    [reflexivity|congruence]. }
subst j. congruence.
Qed.


Lemma deleteAt_subset (b : list entry) k x : x ∈ deleteAt k b -> x ∈ b.
Proof.
unfold deleteAt. intros H. apply elem_of_app in H as [H|H].
- apply elem_of_take in H as (i & Hi & _).
  eapply list_elem_of_lookup_2; eauto.
- apply list_elem_of_lookup in H as [i Hi]. rewrite lookup_drop in Hi.
  eapply list_elem_of_lookup_2; eauto.
Qed.


(** The entries registered while a producer's body runs are pending and
    carry new ids. *)
Lemma registered_new w st st1 new :
  registered st st1 new -> grown w st st1 ->
  Forall (fun x => e_nextPromise x = Pending /\ (counter st < e_idx x)%N)
    new.
Proof.
intros (B & I & _) (_ & new' & B' & F).
rewrite B in B'. apply app_inv_head in B'. subst new'.
apply Forall_forall. intros x Hx. split.
- rewrite Forall_forall in F. apply (F x Hx).
- assert (H : e_idx x ∈ idsFrom (counter st) (length new)).
  { rewrite <- I. apply list_elem_of_fmap. eauto. }
  apply idsFrom_bounds in H. lia.
Qed.

Section PromiseChunks.

Variable supported : string -> bool.
Variable codecError : string -> value.
Variable print : flat -> string.
Variable coerceError : option (value -> value).

Local Abbreviation step := (encStep supported codecError print coerceError).
Local Abbreviation run := (encRun supported codecError print coerceError).
Local Abbreviation settles :=
  (sourceSettles supported codecError print coerceError).
Local Abbreviation promise :=
  (promiseBody supported codecError print coerceError).
Local Abbreviation iter := (iterBody supported codecError print coerceError).

(** What the settling of a source does to [buffer]. *)
Lemma sourceSettles_shape w k st st' :
  settles w k st = Some st' ->
  exists e st1 stop e' new,
    buffer st !! k = Some e /\ e_nextPromise e = Pending /\
    match e_iterator e with
    | AwaitPromise how v => promise w (e_idx e) how v st = (st1, stop)
    | AwaitNext items how v ret =>
        iter w (e_idx e) items how v ret st = (st1, stop)
    | _ => False
    end /\
    buffer st' = <[k := e']> (buffer st) ++ new /\
    e_idx e' = e_idx e /\ holdsStop stop e' /\
    Forall (fun x => e_nextPromise x = Pending /\ (counter st < e_idx x)%N)
      new /\
    (counter st <= counter st')%N.
Proof.
unfold sourceSettles.
destruct (buffer st !! k) as [e|] eqn:Hk; [|discriminate].
destruct (e_nextPromise e) eqn:Np; try discriminate.
assert (G : forall r : encState * bodyStop,
           (exists new, registered st (fst r) new) -> grown w st (fst r) ->
           match r with
           | (st1, Yields fr k') =>
               let st2 :=
                 if e_returnQueued e then returnAtYield (e_idx e) k' st1
                 else st1 in
               let g := if e_returnQueued e then Closed else AtYield k' in
               Some (setBuffer st2
                       (<[k := setEntry e g (Resolved (Some fr) false)]>
                          (buffer st2)))
           | (st1, Returns fr) =>
               Some (setBuffer st1
                       (<[k := setEntry e Closed (Resolved (Some fr) true)]>
                          (buffer st1)))
           | (st1, Throws c) =>
               Some (setBuffer st1
                       (<[k := setEntry e Closed (RejectedWith c)]>
                          (buffer st1)))
           end = Some st' ->
           exists e' new,
             buffer st' = <[k := e']> (buffer st) ++ new /\
             e_idx e' = e_idx e /\ holdsStop (snd r) e' /\
             Forall (fun x => e_nextPromise x = Pending /\
                              (counter st < e_idx x)%N) new /\
             (counter st <= counter st')%N).
{ intros [st1 stop] [new R] Gr E. simpl in *.
  pose proof (registered_new w st st1 new R Gr) as Fn.
  destruct R as (B & _ & C).
  assert (L : (k < length (buffer st))%nat).
  { apply lookup_lt_is_Some. eauto. }
  destruct stop as [fr k'|fr|c]; injection E as <-; simpl.
  - eexists _, new. split.
    { assert (Bs : buffer (if e_returnQueued e
                           then returnAtYield (e_idx e) k' st1 else st1)
                   = buffer st ++ new).
      { destruct (e_returnQueued e); [|exact B].
        destruct (returnAtYield_same (e_idx e) k' st1) as [-> _]. exact B. }
      rewrite Bs. apply insert_app_l. exact L. }
    split; [reflexivity|]. split.
    { simpl. split; [|reflexivity]. destruct (e_returnQueued e); auto. }
    split; [exact Fn|].
    destruct (e_returnQueued e); [|lia].
    destruct (returnAtYield_same (e_idx e) k' st1) as [_ ->]. lia.
  - eexists _, new. split; [rewrite B; apply insert_app_l; exact L|].
    repeat split; auto. lia.
  - eexists _, new. split; [rewrite B; apply insert_app_l; exact L|].
    repeat split; auto. lia. }
destruct (e_iterator e) as [how v|items how v ret|k'|] eqn:It;
  try discriminate; intros E.
- destruct (G (promise w (e_idx e) how v st)) as (e' & new & H);
    [apply promiseBody_registered|apply promiseBody_wire|exact E|].
  destruct (promise w (e_idx e) how v st) as [st1 stop] eqn:Pb.
  exists e, st1, stop, e', new.
  split; [reflexivity|]. split; [exact Np|]. rewrite It.
  split; [exact Pb|exact H].
- destruct (G (iter w (e_idx e) items how v ret st)) as (e' & new & H);
    [apply iterBody_registered|apply iterBody_wire|exact E|].
  destruct (iter w (e_idx e) items how v ret st) as [st1 stop] eqn:Pb.
  exists e, st1, stop, e', new.
  split; [reflexivity|]. split; [exact Np|]. rewrite It.
  split; [exact Pb|exact H].
Qed.

(** What [iterator.return()] leaves of an entry. *)
Lemma generatorReturn_entry e st :
  e_idx (fst (generatorReturn e st)) = e_idx e /\
  e_nextPromise (fst (generatorReturn e st)) = e_nextPromise e /\
  (e_iterator (fst (generatorReturn e st)) = e_iterator e \/
   e_iterator (fst (generatorReturn e st)) = Closed).
Proof.
unfold generatorReturn. destruct (e_iterator e) eqn:It; simpl; auto.
Qed.

Lemma returnAll_entries es : forall st x,
  x ∈ fst (returnAll es st) ->
  exists e, e ∈ es /\ e_idx x = e_idx e /\
            e_nextPromise x = e_nextPromise e /\
            (e_iterator x = e_iterator e \/ e_iterator x = Closed).
Proof.
induction es as [|e es IH]; intros st x; simpl.
- intros H. inversion H.
- pose proof (generatorReturn_entry e st) as G.
  destruct (generatorReturn e st) as [e' st1]. simpl in G.
  match goal with
  | |- context [returnAll es ?s] =>
      specialize (IH s x); destruct (returnAll es s) as [r st3]
  end.
  simpl in *. intros H. apply elem_of_cons in H as [->|H].
  + exists e. split; [left|exact G].
  + destruct (IH H) as (e0 & A & B). exists e0. split; [right; exact A|].
    exact B.
Qed.

Lemma finallyBlock_entries st x :
  x ∈ buffer (finallyBlock st) ->
  exists e, e ∈ buffer st /\ e_idx x = e_idx e /\
            e_nextPromise x = e_nextPromise e /\
            (e_iterator x = e_iterator e \/ e_iterator x = Closed).
Proof.
unfold finallyBlock. pose proof (returnAll_entries (buffer st) st x) as G.
destruct (returnAll (buffer st) st) as [es st']. exact G.
Qed.

(** [entry.iterator.next()] on a producer that has handed over a frame:
    the entry goes back to the end of [buffer]; a promise producer's body
    ends. *)
Lemma rearm_shape e st :
  exists e',
    buffer (rearm e st) = buffer st ++ [e'] /\ e_idx e' = e_idx e /\
    (forall how v, e_iterator e' <> AwaitPromise how v) /\
    counter (rearm e st) = counter st /\
    (e_iterator e = AtYield ThenEnd \/ e_iterator e = Closed ->
     e_iterator e' = Closed /\ e_nextPromise e' = Resolved None true).
Proof.
unfold rearm. destruct (e_iterator e) as [how v|items how v ret|k'|] eqn:It.
- eexists. split; [reflexivity|]. simpl. repeat split; try discriminate.
- eexists. split; [reflexivity|]. simpl. repeat split; try discriminate.
- destruct k' as [|items how v ret|ret]; simpl.
  + eexists. split; [reflexivity|]. simpl. repeat split; discriminate.
  + eexists. split; [reflexivity|]. simpl. repeat split; try discriminate.
    all: match goal with H : _ \/ _ |- _ => destruct H; discriminate end.
  + eexists. split; [unfold callSourceReturn; destruct ret; reflexivity|].
    simpl. repeat split; try discriminate.
    * unfold callSourceReturn; destruct ret; reflexivity.
- eexists. split; [reflexivity|]. simpl. repeat split; discriminate.
Qed.

Lemma promiseBody_stop w idx how v st :
  promiseStop w (snd (promise w idx how v st)).
Proof.
assert (F : forall fr, promiseStop w (promiseFrame w fr)).
{ intros fr. unfold promiseFrame. destruct w; simpl; auto. }
unfold promiseBody. destruct how.
- destruct (recurse supported codecError print v st) as [st1 [s|c]];
    simpl; [apply F|].
  destruct (safeCause supported codecError print coerceError c st1)
    as [st2 [s|c']]; simpl; [apply F|exact I].
- destruct (safeCause supported codecError print coerceError v st)
    as [st2 [s|c']]; simpl; [apply F|exact I].
Qed.

Lemma holdsStop_settled stop e :
  holdsStop stop e ->
  e_nextPromise e <> Pending /\
  forall how v, e_iterator e <> AwaitPromise how v.
Proof.
destruct stop as [fr k|fr|c]; simpl.
- intros [[H|H] N]; rewrite H, N; split; intros; discriminate.
- intros [H N]; rewrite H, N; split; intros; discriminate.
- intros [H N]; rewrite H, N; split; intros; discriminate.
Qed.

(** *** Before the promise settles *)

Lemma awaiting_finally st frs :
  awaiting (buffer st) frs -> awaiting (buffer (finallyBlock st)) frs.
Proof.
intros A x how v Hx It.
destruct (finallyBlock_entries st x Hx) as (e & He & I & N & G).
rewrite I, N. destruct G as [G|G]; [|congruence].
apply (A e how v He). congruence.
Qed.

Lemma awaiting_subset (b b' : list entry) frs :
  (forall x, x ∈ b' -> x ∈ b) -> awaiting b frs -> awaiting b' frs.
Proof. intros S A x how v Hx. apply A, S, Hx. Qed.

Lemma awaiting_snoc (b : list entry) e' frs :
  (forall how v, e_iterator e' <> AwaitPromise how v) ->
  awaiting b frs -> awaiting (b ++ [e']) frs.
Proof.
intros N A x how v Hx It. apply elem_of_app in Hx as [Hx|Hx].
- eapply A; eauto.
- apply list_elem_of_singleton in Hx. subst x. destruct (N _ _ It).
Qed.

Lemma awaiting_rearm e st frs :
  awaiting (buffer st) frs -> awaiting (buffer (rearm e st)) frs.
Proof.
intros A. destruct (rearm_shape e st) as (e' & -> & _ & N & _).
apply awaiting_snoc; auto.
Qed.

(** A frame of a settled entry is not one of a waiting producer. *)
Lemma awaiting_frame (b : list entry) frs e fr d :
  NoDup (map e_idx b) -> awaiting b frs ->
  e ∈ b -> e_nextPromise e = Resolved (Some fr) d -> f_idx fr = e_idx e ->
  awaiting b (frs ++ [fr]).
Proof.
intros ND A He Np Id x how v Hx It.
destruct (A x how v Hx It) as [P F]. split; [exact P|].
rewrite framesOf_other; [exact F|].
rewrite Id. intros E.
assert (e = x) by (eapply idx_inj; eauto). subst x. congruence.
Qed.

Lemma await_loopHead w early st out frs :
  framesIn w out frs ->
  Forall (fun fr => (f_idx fr <= counter st)%N) frs ->
  awaiting (buffer st) frs ->
  awaitInv w early (loopHead st out) frs.
Proof.
intros F B A. unfold loopHead, awaitInv.
destruct (buffer st) eqn:Bs; simpl.
- destruct (finallyBlock_empty st Bs) as [-> ->].
  split; [exact F|]. split; [exact B|]. split; [|auto].
  intros x how v Hx. inversion Hx.
- rewrite Bs. split; [exact F|]. split; [exact B|]. split; [exact A|].
  discriminate.
Qed.

Lemma awaiting_new (new : list entry) :
  Forall (fun e => entryWire JsonArray e /\ e_nextPromise e = Pending) new \/
  Forall (fun e => entryWire Delimited e /\ e_nextPromise e = Pending) new ->
  awaiting new [].
Proof.
intros H x how v Hx _. split; [|reflexivity].
destruct H as [H|H]; rewrite Forall_forall in H; apply (H x Hx).
Qed.

Lemma await_step w early ev enc enc' frs :
  idsInv w enc -> wireInv w enc -> awaitInv w early enc frs ->
  (isReturnEarly ev = true -> early = true) ->
  step w ev enc = Some enc' ->
  awaitInv w early enc' (frs ++ stepFrames w ev enc).
Proof.
intros Ids [W M] (F & B & A & En) Early E.
pose proof (idsInv_buffer w enc Ids) as [ND Bd].
destruct enc as [m st out]. unfold encStep in E. unfold stepFrames.
simpl in *.
destruct ev as [| |k|k].
- (* next() *)
  rewrite app_nil_r.
  destruct m as [v| |n wn|k e| |c]; try discriminate.
  + destruct M as [-> Bs]. simpl in F. subst frs.
    pose proof (recurse_grown supported codecError print w v st)
      as (Cn & new & Bn & Fn).
    assert (An : awaiting new []).
    { apply awaiting_new. destruct w; auto. }
    rewrite Bs in Bn. simpl in Bn.
    destruct (recurse supported codecError print v st) as [st' [s|c]];
      injection E as <-; unfold awaitInv; simpl in *.
    * split; [split; [eauto|reflexivity]|]. split; [constructor|].
      split; [|discriminate]. rewrite Bn. exact An.
    * split; [reflexivity|]. split; [constructor|].
      split; [|discriminate]. apply awaiting_finally. rewrite Bn. exact An.
  + injection E as <-. apply await_loopHead; auto.
  + destruct w.
    * injection E as <-.
      destruct (rearm_shape e st) as (e' & _ & _ & _ & Cr & _).
      apply await_loopHead; [exact F|rewrite Cr; exact B|].
      apply awaiting_rearm. exact A.
    * assert (A1 : awaiting (deleteAt k (buffer st)) frs).
      { eapply awaiting_subset; [|exact A]. apply deleteAt_subset. }
      destruct (isDone (e_nextPromise e)); injection E as <-.
      -- apply await_loopHead; auto.
      -- destruct (rearm_shape e (setBuffer st (deleteAt k (buffer st))))
           as (e' & _ & _ & _ & Cr & _).
         apply await_loopHead; [exact F|rewrite Cr; exact B|].
         apply awaiting_rearm. exact A1.
- (* return() *)
  rewrite app_nil_r.
  destruct m; try discriminate; injection E as <-; unfold awaitInv; simpl;
    rewrite ?finallyBlock_counter;
    (split; [exact F|]); (split; [exact B|]);
    (split; [|left; apply Early; reflexivity]);
    [exact A|apply awaiting_finally; exact A
    |apply awaiting_finally; exact A].
- (* the race settles *)
  destruct m as [v| |n wn|k1 e1| |c]; try discriminate.
  destruct wn as [k0|]; [|discriminate].
  destruct M as [N Fw].
  destruct (if (k =? k0)%nat then buffer st !! k else None) as [e|] eqn:Hk;
    [|discriminate].
  assert (Hl : buffer st !! k = Some e).
  { destruct (k =? k0)%nat; [exact Hk|discriminate]. }
  rewrite Hl.
  assert (He : e ∈ buffer st) by (eapply list_elem_of_lookup_2; eauto).
  pose proof (Forall_lookup_1 _ _ _ _ Fw Hl) as [_ We].
  assert (Hid : (e_idx e <= counter st)%N).
  { apply Bd. apply list_elem_of_fmap. eauto. }
  assert (Ad : awaiting (deleteAt k (buffer st)) frs).
  { eapply awaiting_subset; [|exact A]. apply deleteAt_subset. }
  destruct (e_nextPromise e) as [|val done|c] eqn:Np; try discriminate.
  + assert (Sn : forall fr, val = Some fr ->
               framesIn w (out ++ [ChunkStr (frameText w fr)])
                 (frs ++ [fr]) /\
               Forall (fun fr => (f_idx fr <= counter st)%N) (frs ++ [fr]) /\
               awaiting (buffer st) (frs ++ [fr])).
    { intros fr ->. destruct We as (Id & _ & _).
      split; [apply framesIn_snoc; auto|].
      split; [apply Forall_app; split; [exact B|]; repeat constructor; lia|].
      eapply awaiting_frame; eauto. }
    destruct w.
    * destruct done.
      -- injection E as <-.
         assert (Fr : frs ++ match val with
                             | Some _ => []
                             | None => []
                             end = frs).
         { destruct val; apply app_nil_r. }
         rewrite Fr. apply await_loopHead; auto.
      -- destruct val as [fr|]; [|discriminate]. injection E as <-.
         destruct (Sn fr eq_refl) as (S1 & S2 & S3).
         unfold awaitInv; simpl.
         split; [exact S1|]. split; [exact S2|]. split; [|discriminate].
         eapply awaiting_subset; [|exact S3]. apply deleteAt_subset.
    * injection E as <-. destruct val as [fr|].
      -- destruct (Sn fr eq_refl) as (S1 & S2 & S3).
         unfold awaitInv; simpl.
         split; [exact S1|]. split; [exact S2|]. split; [exact S3|].
         discriminate.
      -- destruct We. discriminate.
  + injection E as <-. rewrite app_nil_r. unfold awaitInv; simpl.
    rewrite finallyBlock_counter.
    split; [exact F|]. split; [exact B|].
    split; [apply awaiting_finally; exact A|discriminate].
- (* a source settles *)
  destruct (settles w k st) as [st'|] eqn:Es; [|discriminate].
  injection E as <-.
  destruct (sourceSettles_shape w k st st' Es)
    as (e & st1 & stop & e' & new & Hk & Np & _ & Bs & Ie & Hs & Fn & Cn).
  rewrite app_nil_r.
  unfold awaitInv; simpl. split; [exact F|].
  split; [eapply Forall_impl; [exact B|]; simpl; intros; lia|]. split.
  + intros x how v Hx It. rewrite Bs in Hx.
    apply elem_of_app in Hx as [Hx|Hx].
    * apply list_elem_of_lookup in Hx as [i Hi].
      apply list_lookup_insert_Some in Hi as [(-> & <- & _)|[Ne Hi]].
      -- destruct (holdsStop_settled _ _ Hs) as [_ Nx].
         destruct (Nx _ _ It).
      -- eapply A; eauto. eapply list_elem_of_lookup_2; eauto.
    * rewrite Forall_forall in Fn. destruct (Fn x Hx) as [P L].
      split; [exact P|]. eapply framesOf_bound; eauto.
  + intros Em.
    assert (m = Ended).
    { destruct m as [v| |n wn|k1 e1| |c]; try discriminate; auto.
      destruct wn; [discriminate|].
      destruct (k <? n)%nat; discriminate. }
    subst m. destruct (En eq_refl) as [->|Bn]; [left; reflexivity|].
    rewrite Bn in Hk. discriminate.
Qed.

(** *** The raced entry stays in place *)

Lemma posInv_loopHead w st out : posInv w (loopHead st out).
Proof.
unfold loopHead, posInv. destruct w, (buffer st); simpl; exact I.
Qed.

Lemma posInv_step w ev enc enc' :
  wireInv w enc -> posInv w enc -> step w ev enc = Some enc' ->
  posInv w enc'.
Proof.
intros [_ M] P E. destruct enc as [m st out]. unfold encStep in E.
simpl in *. destruct ev as [| |k|k].
- destruct m as [v| |n wn|k e| |c]; try discriminate.
  + destruct (recurse supported codecError print v st) as [st' [s|c]];
      injection E as <-; destruct w; exact I.
  + injection E as <-. apply posInv_loopHead.
  + destruct w; [injection E as <-; apply posInv_loopHead|].
    destruct (isDone (e_nextPromise e)); injection E as <-;
      apply posInv_loopHead.
- destruct m; try discriminate; injection E as <-; destruct w; exact I.
- destruct m as [v| |n wn|k1 e1| |c]; try discriminate.
  destruct wn as [k0|]; [|discriminate].
  destruct (if (k =? k0)%nat then buffer st !! k else None) as [e|] eqn:Hk;
    [|discriminate].
  assert (Hl : buffer st !! k = Some e).
  { destruct (k =? k0)%nat; [exact Hk|discriminate]. }
  destruct (e_nextPromise e) as [|val done|c] eqn:Np; try discriminate.
  + destruct w.
    * destruct done; [injection E as <-; apply posInv_loopHead|].
      destruct val; [|discriminate]. injection E as <-. exact I.
    * injection E as <-. exact Hl.
  + injection E as <-. destruct w; exact I.
- destruct (settles w k st) as [st'|] eqn:Es; [|discriminate].
  injection E as <-.
  destruct (sourceSettles_shape w k st st' Es)
    as (e & st1 & stop & e' & new & Hk & Np & _ & Bs & _).
  unfold posInv in *. simpl in *. destruct w; [exact I|].
  destruct m as [v| |n wn|k1 e1| |c]; try exact I.
  + destruct wn; [exact I|]. destruct (k <? n)%nat; exact I.
  + destruct M as (_ & _ & _ & val & d & Np1).
    rewrite Bs. apply lookup_app_l_Some.
    rewrite list_lookup_insert_ne; [exact P|].
    intros ->. rewrite P in Hk. injection Hk as ->. congruence.
Qed.

(** *** After the promise has settled *)
















Lemma await_start w early v : awaitInv w early (startEncoder v) [].
Proof.
unfold awaitInv, startEncoder. simpl.
split; [reflexivity|]. split; [constructor|]. split; [|discriminate].
intros x how v0 Hx. inversion Hx.
Qed.




End PromiseChunks.



(** ** Frames handed over and frames written *)

Lemma held_app idx a b : held idx (a ++ b) = held idx a ++ held idx b.
Proof. unfold held. apply flat_map_app. Qed.

Lemma held_none idx (b : list entry) :
  Forall (fun e => e_idx e = idx -> heldFrame e = []) b -> held idx b = [].
Proof.
induction 1 as [|e b H _ IH]; [reflexivity|]. unfold held in *. simpl.
rewrite IH, app_nil_r. destruct (decide (e_idx e = idx)); auto.
Qed.

Lemma held_other_ids idx (b : list entry) :
  idx ∉ map e_idx b -> held idx b = [].
Proof.
intros H. apply held_none. apply Forall_forall. intros e He Ie.
exfalso. apply H. rewrite <- Ie. apply list_elem_of_fmap. eauto.
Qed.

Lemma held_one idx e :
  held idx [e] = if decide (e_idx e = idx) then heldFrame e else [].
Proof. unfold held. simpl. apply app_nil_r. Qed.

(** With distinct ids, the entry of a producer is the only one that
    counts. *)
Lemma held_middle idx (b1 b2 : list entry) e :
  NoDup (map e_idx (b1 ++ e :: b2)) ->
  held idx (b1 ++ b2)
  = if decide (e_idx e = idx) then [] else held idx (b1 ++ e :: b2).
Proof.
intros ND. rewrite !held_app.
change (e :: b2) with ([e] ++ b2). rewrite held_app, held_one.
destruct (decide (e_idx e = idx)) as [E|E]; [|reflexivity].
rewrite map_app in ND. simpl in ND.
apply NoDup_app in ND as (_ & N2 & N3). apply NoDup_cons in N3 as [N3 _].
rewrite (held_other_ids idx b1), (held_other_ids idx b2); auto.
- rewrite <- E. exact N3.
- rewrite <- E. intros H. apply (N2 _ H). left.
Qed.

Lemma held_delete idx (b : list entry) k e :
  NoDup (map e_idx b) -> b !! k = Some e ->
  held idx (deleteAt k b)
  = if decide (e_idx e = idx) then [] else held idx b.
Proof.
intros ND Hk. unfold deleteAt.
pose proof (held_middle idx (take k b) (drop (S k) b) e) as H.
rewrite (take_drop_middle b k e Hk) in H. apply H. exact ND.
Qed.

Lemma held_lookup idx (b : list entry) k e :
  NoDup (map e_idx b) -> b !! k = Some e -> e_idx e = idx ->
  held idx b = heldFrame e.
Proof.
intros ND Hk E. rewrite <- (take_drop_middle b k e Hk) in ND.
pose proof (held_middle idx _ _ _ ND) as H.
destruct (decide (e_idx e = idx)); [|contradiction].
rewrite held_app in H. apply app_eq_nil in H as [H1 H2].
rewrite <- (take_drop_middle b k e Hk).
rewrite held_app. change (e :: drop (S k) b) with ([e] ++ drop (S k) b).
rewrite held_app, held_one, H1, H2, app_nil_r.
destruct (decide (e_idx e = idx)); [reflexivity|contradiction].
Qed.

Lemma held_insert idx (b : list entry) k e e' :
  NoDup (map e_idx b) -> b !! k = Some e -> e_idx e' = e_idx e ->
  held idx (<[k := e']> b)
  = if decide (e_idx e = idx) then heldFrame e' else held idx b.
Proof.
intros ND Hk Ie.
assert (L : (k < length b)%nat) by (apply lookup_lt_is_Some; eauto).
assert (ND' : NoDup (map e_idx (<[k := e']> b))).
{ rewrite (map_idx_insert b k e e' Hk Ie). exact ND. }
assert (Hk' : <[k := e']> b !! k = Some e')
  by (apply list_lookup_insert_eq; exact L).
destruct (decide (e_idx e = idx)) as [E|E].
- apply (held_lookup idx _ k e' ND' Hk'). congruence.
- pose proof (held_delete idx b k e ND Hk) as H1.
  pose proof (held_delete idx _ k e' ND' Hk') as H2.
  destruct (decide (e_idx e = idx)); [contradiction|].
  destruct (decide (e_idx e' = idx)); [congruence|].
  rewrite <- H1, <- H2. f_equal. unfold deleteAt.
  rewrite take_insert_ge by lia. rewrite drop_insert_lt by lia.
  reflexivity.
Qed.

Lemma held_returnAll idx es : forall st,
  held idx (fst (returnAll es st)) = held idx es.
Proof.
induction es as [|e es IH]; intros st; [reflexivity|]. cbn [returnAll].
pose proof (generatorReturn_entry e st) as (I & N & _).
destruct (generatorReturn e st) as [e' st1]. cbn [fst snd] in I, N.
match goal with
| |- context [returnAll es ?s] =>
    specialize (IH s); destruct (returnAll es s) as [r st3]
end.
cbn [fst snd] in *. change (e' :: r) with ([e'] ++ r).
change (e :: es) with ([e] ++ es).
rewrite !held_app, !held_one, IH, I. unfold heldFrame. rewrite N.
reflexivity.
Qed.

Lemma held_finally idx st :
  held idx (buffer (finallyBlock st)) = held idx (buffer st).
Proof.
unfold finallyBlock. pose proof (held_returnAll idx (buffer st) st) as H.
destruct (returnAll (buffer st) st) as [es st']. exact H.
Qed.

Lemma yieldsOnly_finally w st :
  Forall (yieldsOnly w) (buffer st) ->
  Forall (yieldsOnly w) (buffer (finallyBlock st)).
Proof.
intros F. apply Forall_forall. intros x Hx.
destruct (finallyBlock_entries st x Hx) as (e & He & _ & N & _).
rewrite Forall_forall in F. unfold yieldsOnly. rewrite N. apply (F e He).
Qed.

Lemma finallyBlock_nil st :
  buffer (finallyBlock st) = [] -> buffer st = [].
Proof.
intros H. destruct (finallyBlock_allocated st) as [I _].
rewrite H, app_nil_r in I. simpl in I.
destruct (buffer st); [reflexivity|discriminate].
Qed.

Lemma yieldsOnly_rearm w e st :
  Forall (yieldsOnly w) (buffer st) ->
  Forall (yieldsOnly w) (buffer (rearm e st)) /\
  forall idx, held idx (buffer (rearm e st)) = held idx (buffer st).
Proof.
intros F. unfold rearm.
assert (G : forall st0 g np,
           buffer st0 = buffer st ->
           (forall fr d, np <> Resolved (Some fr) d) ->
           Forall (yieldsOnly w)
             (buffer (setBuffer st0 (buffer st0 ++ [setEntry e g np]))) /\
           forall idx,
             held idx
               (buffer (setBuffer st0 (buffer st0 ++ [setEntry e g np])))
             = held idx (buffer st)).
{ intros st0 g np B N. simpl. rewrite B. split.
  - apply Forall_app. split; [exact F|]. repeat constructor.
    intros _ fr d H. simpl in H. destruct (N _ _ H).
  - intros idx. rewrite held_app, held_one. unfold heldFrame. simpl.
    destruct np as [|[fr|] d|c]; try (destruct (N fr d eq_refl));
      destruct (decide (e_idx e = idx)); apply app_nil_r. }
destruct (e_iterator e) as [how v|items how v ret|k'|];
  try (apply G; [reflexivity|discriminate]).
destruct k' as [|items how v ret|ret]; simpl;
  try (apply G; [reflexivity|discriminate]).
apply (G (callSourceReturn (e_idx e) ret st)); [|discriminate].
unfold callSourceReturn. destruct ret; reflexivity.
Qed.

Section Conservation.

Variable supported : string -> bool.
Variable codecError : string -> value.
Variable print : flat -> string.
Variable coerceError : option (value -> value).

Local Abbreviation step := (encStep supported codecError print coerceError).
Local Abbreviation run := (encRun supported codecError print coerceError).
Local Abbreviation settles :=
  (sourceSettles supported codecError print coerceError).
Local Abbreviation promise :=
  (promiseBody supported codecError print coerceError).
Local Abbreviation iter := (iterBody supported codecError print coerceError).
Local Abbreviation hands :=
  (handsOver supported codecError print coerceError).
Local Abbreviation handed :=
  (handedOver supported codecError print coerceError).

(** In the JSON-array variant the async-iterable producer hands its
    frames over with [yield]. *)
Lemma iterBody_stop idx items how v ret st fr :
  snd (iter JsonArray idx items how v ret st) <> Returns fr.
Proof.
assert (C : forall c st0,
           snd match safeCause supported codecError print coerceError c st0
               with
               | (st', Return s) =>
                   lastFrame JsonArray ret
                     (MkFrame idx (sc_iter_error (codes JsonArray)) s) st'
               | (st', Throw e) => (callSourceReturn idx ret st', Throws e)
               end <> Returns fr).
{ intros c st0.
  destruct (safeCause supported codecError print coerceError c st0)
    as [st1 [s|e]]; simpl; discriminate. }
unfold iterBody. destruct items as [|x rest].
- destruct how; [|apply C].
  destruct (recurse supported codecError print v st) as [st1 [s|e]];
    [simpl; discriminate|apply C].
- destruct (recurse supported codecError print x st) as [st1 [s|e]];
    [simpl; discriminate|apply C].
Qed.

(** What the settling of a source hands over. *)
Lemma settle_frames w k st st' :
  settles w k st = Some st' ->
  exists e e' new,
    buffer st !! k = Some e /\ e_nextPromise e = Pending /\
    buffer st' = <[k := e']> (buffer st) ++ new /\
    e_idx e' = e_idx e /\
    heldFrame e' = hands w k st /\
    Forall (fun fr => f_idx fr = e_idx e) (heldFrame e') /\
    yieldsOnly w e' /\
    Forall (fun x => e_nextPromise x = Pending) new.
Proof.
intros Es.
destruct (sourceSettles_shape supported codecError print coerceError
            w k st st' Es)
  as (e & st1 & stop & e' & new & Hk & Np & Pb & Bs & Ie & Hs & Fn & _).
exists e, e', new.
split; [exact Hk|]. split; [exact Np|]. split; [exact Bs|].
split; [exact Ie|].
assert (Hf : heldFrame e' = option_list (stopFrame stop)).
{ unfold heldFrame. destruct stop as [fr k'|fr|c]; simpl in Hs;
    destruct Hs as [_ ->]; reflexivity. }
assert (Hb : hands w k st = option_list (stopFrame stop) /\
             stopWire w (e_idx e) stop /\
             (w = JsonArray -> forall fr, stop <> Returns fr)).
{ unfold handsOver. rewrite Hk, Np.
  destruct (e_iterator e) as [how v|items how v ret|k'|];
    try contradiction.
  - pose proof (promiseBody_wire supported codecError print coerceError
                  w (e_idx e) how v st) as [_ Sw].
    pose proof (promiseBody_stop supported codecError print coerceError
                  w (e_idx e) how v st) as Ps.
    rewrite Pb in *. simpl in *. split; [reflexivity|]. split; [exact Sw|].
    intros -> fr ->. simpl in Ps. discriminate.
  - pose proof (iterBody_wire supported codecError print coerceError
                  w (e_idx e) items how v ret st) as [_ Sw].
    pose proof (iterBody_stop (e_idx e) items how v ret st) as Ps.
    rewrite Pb in *. simpl in *. split; [reflexivity|]. split; [exact Sw|].
    intros -> fr. specialize (Ps fr). rewrite Pb in Ps. exact Ps. }
destruct Hb as (Hh & Sw & Nr).
split; [congruence|]. split.
- rewrite Hf. destruct stop as [fr k'|fr|c]; simpl in *;
    repeat constructor; apply Sw.
- split.
  + intros Hw fr d Hn. destruct stop as [fr' k'|fr'|c]; simpl in Hs.
    * destruct Hs as [_ Hs]. rewrite Hs in Hn. congruence.
    * destruct (Nr Hw fr' eq_refl).
    * destruct Hs as [_ Hs]. rewrite Hs in Hn. discriminate.
  + eapply Forall_impl; [exact Fn|]. simpl. intros x [P _]. exact P.
Qed.

Lemma framesOf_held idx (l : list frame) id :
  Forall (fun fr => f_idx fr = id) l ->
  framesOf idx l = if decide (id = idx) then l else [].
Proof.
induction 1 as [|fr l H _ IH].
- destruct (decide (id = idx)); reflexivity.
- unfold framesOf in *. rewrite filter_cons, IH.
  destruct (decide (f_idx fr = idx)), (decide (id = idx));
    congruence.
Qed.

Lemma held_pending idx (new : list entry) :
  Forall (fun x => e_nextPromise x = Pending) new -> held idx new = [].
Proof.
intros F. apply held_none. eapply Forall_impl; [exact F|].
simpl. intros x H _. unfold heldFrame. rewrite H. reflexivity.
Qed.

Lemma yieldsOnly_pending w (new : list entry) :
  Forall (fun x => e_nextPromise x = Pending) new ->
  Forall (yieldsOnly w) new.
Proof.
intros F. eapply Forall_impl; [exact F|].
simpl. intros x H _ fr d Hn. congruence.
Qed.

Lemma conserved_loopHead w st out frs hs :
  Forall (yieldsOnly w) (buffer st) ->
  (forall idx, framesOf idx hs = framesOf idx frs ++ held idx (buffer st)) ->
  conserved w (loopHead st out) frs hs.
Proof.
intros Y H. unfold loopHead, conserved. destruct (buffer st) eqn:Bs; simpl.
- split; [apply yieldsOnly_finally; rewrite Bs; constructor|].
  intros idx. specialize (H idx). rewrite app_nil_r in H.
  rewrite H. split; [reflexivity|auto].
- split; [rewrite Bs; exact Y|]. intros idx. unfold pendingFrames. simpl.
  rewrite Bs. destruct w; apply H.
Qed.

(** The encoder's generator ends or throws: what is pending stays
    unwritten. *)
Lemma conserved_stop w m st out frs hs (pend : N -> list frame) :
  stopped m ->
  Forall (yieldsOnly w) (buffer st) ->
  (forall idx, framesOf idx hs = framesOf idx frs ++ pend idx) ->
  (buffer st = [] -> forall idx, pend idx = []) ->
  conserved w (MkEncoder m (finallyBlock st) out) frs hs.
Proof.
intros S Y H E. split; [apply yieldsOnly_finally; exact Y|].
intros idx. simpl.
assert (G : framesOf idx frs `prefix_of` framesOf idx hs /\
            (buffer (finallyBlock st) = [] ->
             framesOf idx hs = framesOf idx frs)).
{ split; [rewrite H; apply prefix_app_r; reflexivity|].
  intros B. apply finallyBlock_nil in B.
  rewrite H, (E B). apply app_nil_r. }
destruct m; try contradiction; exact G.
Qed.

Lemma conserve_step w ev enc enc' frs hs :
  idsInv w enc -> wireInv w enc -> posInv w enc ->
  conserved w enc frs hs ->
  step w ev enc = Some enc' ->
  conserved w enc' (frs ++ stepFrames w ev enc)
    (hs ++ eventFrames supported codecError print coerceError w ev enc).
Proof.
intros Ids [W M] P [Y C] E.
pose proof (idsInv_buffer w enc Ids) as [ND Bd].
destruct enc as [m st out]. unfold encStep in E.
unfold stepFrames, eventFrames, posInv in *. simpl in *.
destruct ev as [| |k|k].
- (* next() *)
  rewrite !app_nil_r.
  destruct m as [v| |n wn|k e| |c]; try discriminate.
  + destruct M as [_ Bs].
    assert (C0 : forall idx, framesOf idx hs = framesOf idx frs).
    { intros idx. specialize (C idx). unfold pendingFrames in C.
      simpl in C. rewrite Bs in C.
      destruct w; rewrite app_nil_r in C; exact C. }
    pose proof (recurse_grown supported codecError print w v st)
      as (_ & new & Bn & Fn).
    apply Forall_and in Fn. destruct Fn as [_ Fn].
    rewrite Bs in Bn. simpl in Bn.
    destruct (recurse supported codecError print v st) as [st' [s|c]];
      injection E as <-; simpl in Bn.
    * split; simpl; [rewrite Bn; apply yieldsOnly_pending, Fn|].
      intros idx. unfold pendingFrames. simpl.
      rewrite Bn, (held_pending idx new Fn).
      destruct w; rewrite app_nil_r; apply C0.
    * apply conserved_stop with (pend := fun _ => []); simpl; auto.
      -- rewrite Bn. apply yieldsOnly_pending, Fn.
      -- intros idx. rewrite app_nil_r. apply C0.
  + injection E as <-. apply conserved_loopHead; [exact Y|].
    intros idx. specialize (C idx). unfold pendingFrames in C.
    destruct w; exact C.
  + destruct w.
    * injection E as <-. destruct (yieldsOnly_rearm JsonArray e st Y)
        as [Yr Hr].
      apply conserved_loopHead; [exact Yr|].
      intros idx. rewrite Hr. apply (C idx).
    * assert (Yd : Forall (yieldsOnly Delimited) (deleteAt k (buffer st)))
        by (apply Forall_deleteAt; exact Y).
      assert (Cd : forall idx,
                 framesOf idx hs
                 = framesOf idx frs ++ held idx (deleteAt k (buffer st))).
      { intros idx. rewrite (held_delete idx _ k e ND P). apply (C idx). }
      destruct (isDone (e_nextPromise e)); injection E as <-.
      -- apply conserved_loopHead; auto.
      -- destruct (yieldsOnly_rearm Delimited e
                     (setBuffer st (deleteAt k (buffer st))) Yd)
           as [Yr Hr].
         apply conserved_loopHead; [exact Yr|].
         intros idx. rewrite Hr. apply Cd.
- (* return() *)
  rewrite !app_nil_r.
  destruct m as [v| |n wn|k e| |c]; try discriminate; injection E as <-.
  + destruct M as [_ Bs]. split; [exact Y|]. intros idx. simpl.
    specialize (C idx). unfold pendingFrames in C. simpl in C.
    rewrite Bs in C.
    assert (C0 : framesOf idx hs = framesOf idx frs)
      by (destruct w; rewrite app_nil_r in C; exact C).
    rewrite C0. split; [reflexivity|auto].
  + apply conserved_stop with (pend := fun idx => held idx (buffer st));
      simpl; auto.
    * intros idx. specialize (C idx). unfold pendingFrames in C.
      destruct w; exact C.
    * intros Bs idx. rewrite Bs. reflexivity.
  + apply conserved_stop
      with (pend := fun idx =>
                      pendingFrames w idx (MkEncoder (ChunkYield k e) st out));
      simpl; auto.
    intros Bs idx. unfold pendingFrames. simpl. rewrite Bs.
    destruct w; [reflexivity|]. destruct (decide (e_idx e = idx)); reflexivity.
- (* the race settles *)
  destruct m as [v| |n wn|k1 e1| |c]; try discriminate.
  destruct wn as [k0|]; [|discriminate].
  destruct M as [N Fw].
  destruct (if (k =? k0)%nat then buffer st !! k else None) as [e|] eqn:Hk;
    [|discriminate].
  assert (Hl : buffer st !! k = Some e).
  { destruct (k =? k0)%nat; [exact Hk|discriminate]. }
  rewrite Hl.
  pose proof (Forall_lookup_1 _ _ _ _ Fw Hl) as [_ We].
  pose proof (Forall_lookup_1 _ _ _ _ Y Hl) as Ye.
  assert (Yd : Forall (yieldsOnly w) (deleteAt k (buffer st)))
    by (apply Forall_deleteAt; exact Y).
  assert (C0 : forall idx,
             framesOf idx hs = framesOf idx frs ++ held idx (buffer st)).
  { intros idx. specialize (C idx). unfold pendingFrames in C.
    destruct w; exact C. }
  assert (Hh : forall idx,
             held idx (buffer st)
             = if decide (e_idx e = idx) then heldFrame e
               else held idx (deleteAt k (buffer st))).
  { intros idx. rewrite (held_delete idx _ k e ND Hl).
    destruct (decide (e_idx e = idx)); [|reflexivity].
    apply (held_lookup idx _ k e ND Hl). assumption. }
  rewrite app_nil_r.
  destruct (e_nextPromise e) as [|val done|c] eqn:Np; try discriminate.
  + (* a frame, or the end of a producer *)
    assert (Wr : forall fr idx,
               val = Some fr ->
               framesOf idx hs
               = framesOf idx (frs ++ [fr]) ++
                 (if decide (e_idx e = idx) then []
                  else held idx (buffer st)) /\
               held idx (deleteAt k (buffer st))
               = if decide (e_idx e = idx) then []
                 else held idx (buffer st)).
    { intros fr idx ->. destruct We as (Id & _).
      split; [|apply (held_delete idx _ k e ND Hl)].
      rewrite C0, Hh. unfold heldFrame. rewrite Np.
      destruct (decide (e_idx e = idx)) as [Eq|Ne].
      - rewrite app_nil_r, framesOf_app, framesOf_one.
        destruct (decide (f_idx fr = idx)); [reflexivity|congruence].
      - rewrite framesOf_other by congruence.
        rewrite (held_delete idx _ k e ND Hl).
        destruct (decide (e_idx e = idx)); [contradiction|reflexivity]. }
    destruct w.
    * destruct done.
      -- assert (val = None).
         { destruct val as [fr|]; [|reflexivity].
           specialize (Ye eq_refl fr true Np). discriminate. }
         subst val. injection E as <-. rewrite app_nil_r.
         apply conserved_loopHead; [exact Yd|].
         intros idx. rewrite C0, Hh. unfold heldFrame. rewrite Np.
         destruct (decide (e_idx e = idx)) as [Eq|Ne]; [|reflexivity].
         cbn [buffer setBuffer]. rewrite (held_delete idx _ k e ND Hl).
         destruct (decide (e_idx e = idx)); [reflexivity|contradiction].
      -- destruct val as [fr|]; [|discriminate]. injection E as <-.
         split; [exact Yd|]. intros idx. simpl.
         unfold pendingFrames. simpl.
         destruct (Wr fr idx eq_refl) as [A B]. rewrite B. exact A.
    * injection E as <-.
      destruct val as [fr|]; [|destruct We; discriminate].
      split; [exact Y|]. intros idx. simpl.
      unfold pendingFrames. simpl.
      destruct (Wr fr idx eq_refl) as [A B]. exact A.
  + (* the producer has thrown *)
    injection E as <-. rewrite app_nil_r.
    apply conserved_stop with (pend := fun idx => held idx (buffer st));
      simpl; auto.
    intros Bs idx. rewrite Bs. reflexivity.
- (* a source settles *)
  destruct (settles w k st) as [st'|] eqn:Es; [|discriminate].
  injection E as <-. rewrite app_nil_r.
  destruct (settle_frames w k st st' Es)
    as (e & e' & new & Hk & Np & Bs & Ie & Hf & Ff & Ye & Fn).
  rewrite <- Hf.
  assert (Y' : Forall (yieldsOnly w) (buffer st')).
  { rewrite Bs. apply Forall_app. split.
    - apply Forall_insert; auto.
    - apply yieldsOnly_pending, Fn. }
  assert (Hh : forall idx,
             held idx (buffer st')
             = if decide (e_idx e = idx) then heldFrame e'
               else held idx (buffer st)).
  { intros idx. rewrite Bs, held_app, (held_pending idx new Fn), app_nil_r.
    apply held_insert; auto. }
  assert (H0 : forall idx, e_idx e = idx -> held idx (buffer st) = []).
  { intros idx Eq. rewrite (held_lookup idx _ k e ND Hk Eq).
    unfold heldFrame. rewrite Np. reflexivity. }
  assert (Hfr : forall idx,
             framesOf idx (hs ++ heldFrame e')
             = framesOf idx hs ++
               (if decide (e_idx e = idx) then heldFrame e' else [])).
  { intros idx. rewrite framesOf_app. f_equal.
    rewrite <- Ie. apply framesOf_held. rewrite Ie. exact Ff. }
  assert (Run : forall idx,
             framesOf idx hs = framesOf idx frs ++ held idx (buffer st) ->
             framesOf idx (hs ++ heldFrame e')
             = framesOf idx frs ++ held idx (buffer st')).
  { intros idx Hc. rewrite Hfr, Hh, Hc.
    destruct (decide (e_idx e = idx)) as [Eq|Ne].
    - rewrite (H0 idx Eq), app_nil_r. reflexivity.
    - rewrite app_nil_r. reflexivity. }
  assert (Stop : forall idx,
             framesOf idx frs `prefix_of` framesOf idx hs ->
             framesOf idx frs `prefix_of` framesOf idx (hs ++ heldFrame e')
             /\ (buffer st' = [] ->
                 framesOf idx (hs ++ heldFrame e') = framesOf idx frs)).
  { intros idx Hp. split.
    - rewrite framesOf_app. apply prefix_app_r. exact Hp.
    - intros B0. exfalso. rewrite Bs in B0.
      apply app_eq_nil in B0 as [B0 _].
      apply (f_equal length) in B0. rewrite length_insert in B0.
      apply lookup_lt_Some in Hk. simpl in B0. lia. }
  split; [exact Y'|]. intros idx. simpl. specialize (C idx).
  destruct m as [v| |n wn|k1 e1| |c].
  + destruct M as [_ B0]. rewrite B0 in Hk. discriminate.
  + unfold pendingFrames in *. simpl in *.
    destruct w; apply Run; exact C.
  + assert (G : framesOf idx (hs ++ heldFrame e')
                = framesOf idx frs ++ held idx (buffer st')).
    { unfold pendingFrames in C. simpl in C.
      destruct w; apply Run; exact C. }
    destruct wn; [|destruct (k <? n)%nat]; unfold pendingFrames; simpl;
      destruct w; exact G.
  + unfold pendingFrames in *. simpl in *.
    destruct w; [apply Run; exact C|].
    destruct (decide (e_idx e1 = idx)) as [Eq|Ne]; [|apply Run; exact C].
    rewrite Hfr, C.
    destruct (decide (e_idx e = idx)) as [Eq'|]; [|apply app_nil_r].
    exfalso. destruct M as (_ & _ & _ & val & d & Np1).
    assert (e1 = e).
    { eapply idx_inj; eauto; [| |congruence];
        eapply list_elem_of_lookup_2; eauto. }
    subst e1. congruence.
  + destruct C as [Hp _]. apply Stop. exact Hp.
  + destruct C as [Hp _]. apply Stop. exact Hp.
Qed.

Lemma conserve_run w early evs : forall enc enc' frs hs,
  idsInv w enc -> wireInv w enc -> posInv w enc ->
  awaitInv w early enc frs -> conserved w enc frs hs ->
  (existsb isReturnEarly evs = true -> early = true) ->
  run w evs enc = Some enc' ->
  exists frs',
    awaitInv w early enc' frs' /\
    conserved w enc' frs' (hs ++ handed w evs enc).
Proof.
induction evs as [|ev evs IH];
  intros enc enc' frs hs Ids Wi P A C Early E; simpl in E.
- injection E as <-. exists frs. simpl. rewrite app_nil_r. auto.
- simpl. destruct (step w ev enc) as [enc1|] eqn:E1; [|discriminate].
  simpl in Early. rewrite app_assoc.
  apply (IH enc1 enc' (frs ++ stepFrames w ev enc)); auto.
  + eapply idsInv_step; eauto.
  + eapply wire_step; eauto.
  + eapply posInv_step; eauto.
  + eapply await_step; eauto.
    intros H. apply Early. rewrite H. reflexivity.
  + eapply conserve_step; eauto.
  + intros H. apply Early. rewrite H. apply orb_true_r.
Qed.

(** X17: no frame is lost, duplicated or overtaken between the producers
    and the chunk stream.  Along any run of the encoder, the frames that
    the chunks written carry for a producer are the first of the frames
    that the body of that producer has handed over (with [yield], or
    with [return] in the delimited variant), in the same order; and they
    are all of them once the encoder's generator has run to its end and
    the consumer has not returned early. *)
Theorem frames_written_once w V evs enc :
  run w evs (startEncoder V) = Some enc ->
  (exists frs, framesIn w (enc_out enc) frs) /\
  forall frs,
    framesIn w (enc_out enc) frs ->
    forall idx,
      framesOf idx frs `prefix_of`
        framesOf idx (handed w evs (startEncoder V)) /\
      (enc_main enc = Ended -> existsb isReturnEarly evs = false ->
       framesOf idx frs = framesOf idx (handed w evs (startEncoder V))).
Proof.
intros E.
destruct (conserve_run w (existsb isReturnEarly evs) evs
            (startEncoder V) enc [] [])
  as (frs0 & (Fi & _ & _ & En) & _ & C); auto.
{ apply idsInv_start. }
{ split; simpl; auto. }
{ destruct w; exact I. }
{ apply await_start. }
{ split; [constructor|]. intros idx. destruct w; reflexivity. }
split; [exists frs0; exact Fi|]. intros frs Hf idx.
assert (frs = frs0) by (eapply framesIn_unique; eauto). subst frs.
specialize (C idx). simpl in C.
destruct (enc_main enc) eqn:Em.
- rewrite C. split; [apply prefix_app_r; reflexivity|discriminate].
- rewrite C. split; [apply prefix_app_r; reflexivity|discriminate].
- rewrite C. split; [apply prefix_app_r; reflexivity|discriminate].
- rewrite C. split; [apply prefix_app_r; reflexivity|discriminate].
- destruct C as [Hp Hq]. split; [exact Hp|]. intros _ Ea.
  destruct (En eq_refl) as [Ee|B]; [congruence|].
  symmetry. apply Hq. exact B.
- destruct C as [Hp _]. split; [exact Hp|discriminate].
Qed.

End Conservation.

Lemma frames_written_once_witness :
  exists enc,
    encRun Toy.supported Toy.codecError Toy.print None Delimited
      Runs.S3Schedule (startEncoder Scenario.S3) = Some enc /\
    forall frs,
      framesIn Delimited (enc_out enc) frs ->
      framesOf 1 frs
      = [MkFrame 1 0 "s+1."; MkFrame 1 0 "s+2."; MkFrame 1 0 "s+3.";
         MkFrame 1 1 "s+d+o+n+e."].
Proof.
eexists. split; [vm_compute; reflexivity|]. intros frs Hf.
match goal with
| Hf : framesIn _ (enc_out ?e) _ |- _ =>
    assert (R : encRun Toy.supported Toy.codecError Toy.print None
                  Delimited Runs.S3Schedule (startEncoder Scenario.S3)
                = Some e) by (vm_compute; reflexivity);
    destruct (proj2 (frames_written_once Toy.supported Toy.codecError
                       Toy.print None Delimited Scenario.S3
                       Runs.S3Schedule e R) frs Hf 1%N) as [_ Heq]
end.
rewrite (Heq eq_refl eq_refl). vm_compute. reflexivity.
Defined.
